(** * Two MLIR passes of the TensorFlow compiler bridge

    - [tf_functional_to_executor.cc]: wraps the body of a single-block function
      into a [tf_executor.graph] holding one [tf_executor.island];
    - [replicate_invariant_op_hoisting.cc]: rewrites [tf.Shape] operations of
      replicated arguments and hoists replicate-invariant operations out of
      [tf_device.replicate].

    The IR is embedded as a tree of operations, regions and blocks.  Pointer
    identity of operations and blocks is kept as an identifier, so that an
    operand can name its definition ([OpResult], [BlockArgument]); the use-list
    of a value is the set of operand slots that name it, as in MLIR where the
    use-list is threaded through the operand slots of the users. *)

From Stdlib Require Import List ZArith Lia Bool Arith PeanoNat Permutation.
From Stdlib Require String.
Import ListNotations.
Open Scope list_scope.

Set Implicit Arguments.

(** ** The IR graph model *)

Module IR.

Definition OpId := nat.
Definition BlockId := nat.

(** Types only matter through the result lists of operations. *)
Inductive MlirType : Type :=
| TensorType (elt : nat)
| ResourceType
| ControlType.

(** Modelled from the spec: a value ([mlir::Value]) is either a result of
    exactly one operation or an argument owned by exactly one block and
    identified by its index in the argument list of that block. *)
Inductive Value : Type :=
| OpResult (owner : OpId) (resultNumber : nat)
| BlockArgument (owner : BlockId) (argNumber : nat).

(** A region is identified by the operation that holds it and its position in
    that operation's region list. *)
Definition RegionRef : Type := (OpId * nat)%type.

(** Modelled from the spec: the operation kinds the two passes dispatch on
    ([isa] / [dyn_cast]) as a closed variant; every other kind is the opaque
    [OtherOp], with whether it may end a block.  The operation classes of the
    [tf_executor], [tf_device] and [tf] dialects are not part of the two
    files. *)
Inductive OpKind : Type :=
| FuncOp (inputs results : list MlirType)
| StdReturnOp
| GraphOp
| IslandOp
| FetchOp
| YieldOp
| ReplicateOp (n : Z)
| DeviceReturnOp
| ShapeOp
| ReadVariableOp
| VariableShapeOp
| OtherOp (name : String.string) (terminator : bool).

Inductive Operation : Type :=
| mkOperation (id : OpId) (kind : OpKind) (operands : list Value)
              (results : list MlirType) (regions : list Region)
with Region : Type :=
| mkRegion (blocks : list Block)
with Block : Type :=
| mkBlock (id : BlockId) (args : list MlirType) (ops : list Operation).

Definition op_id (o : Operation) : OpId :=
  match o with mkOperation i _ _ _ _ => i end.
Definition op_kind (o : Operation) : OpKind :=
  match o with mkOperation _ k _ _ _ => k end.
Definition op_operands (o : Operation) : list Value :=
  match o with mkOperation _ _ vs _ _ => vs end.
Definition op_results (o : Operation) : list MlirType :=
  match o with mkOperation _ _ _ ts _ => ts end.
Definition op_regions (o : Operation) : list Region :=
  match o with mkOperation _ _ _ _ rs => rs end.
Definition reg_blocks (r : Region) : list Block :=
  match r with mkRegion bs => bs end.
Definition blk_id (b : Block) : BlockId :=
  match b with mkBlock i _ _ => i end.
Definition blk_args (b : Block) : list MlirType :=
  match b with mkBlock _ a _ => a end.
Definition blk_ops (b : Block) : list Operation :=
  match b with mkBlock _ _ os => os end.

Definition set_operands (vs : list Value) (o : Operation) : Operation :=
  mkOperation (op_id o) (op_kind o) vs (op_results o) (op_regions o).

Definition Value_eqb (v w : Value) : bool :=
  match v, w with
  | OpResult o i, OpResult o' i' => Nat.eqb o o' && Nat.eqb i i'
  | BlockArgument b i, BlockArgument b' i' => Nat.eqb b b' && Nat.eqb i i'
  | _, _ => false
  end.

Definition RegionRef_eqb (r s : RegionRef) : bool :=
  Nat.eqb (fst r) (fst s) && Nat.eqb (snd r) (snd s).

Definition isTerminator (k : OpKind) : bool :=
  match k with
  | StdReturnOp | FetchOp | YieldOp | DeviceReturnOp => true
  | OtherOp _ t => t
  | _ => false
  end.

Definition isa_StdReturnOp (k : OpKind) : bool :=
  match k with StdReturnOp => true | _ => false end.
Definition isa_GraphOp (k : OpKind) : bool :=
  match k with GraphOp => true | _ => false end.
Definition isa_DeviceReturnOp (k : OpKind) : bool :=
  match k with DeviceReturnOp => true | _ => false end.
Definition isa_ShapeOp (k : OpKind) : bool :=
  match k with ShapeOp => true | _ => false end.
Definition isa_ReadVariableOp (k : OpKind) : bool :=
  match k with ReadVariableOp => true | _ => false end.
Definition isa_ReplicateOp (k : OpKind) : bool :=
  match k with ReplicateOp _ => true | _ => false end.

(** Modelled from the spec: the ordered list of result values an operation
    produces ([Operation::getResults]). *)
Definition getResults (o : Operation) : list Value :=
  map (OpResult (op_id o)) (seq 0 (length (op_results o))).

(** *** Structural walk

    Modelled from the spec: the structural walk of MLIR, used by both passes
    as [op->walk(...)]: a depth-first, pre-order sequence of operations that
    starts from an operation and descends into every nested region of every
    operation it visits. *)
Fixpoint walk (o : Operation) : list Operation :=
  match o with
  | mkOperation _ _ _ _ rs => o :: flat_map walk_region rs
  end
with walk_region (r : Region) : list Operation :=
  match r with mkRegion bs => flat_map walk_block bs end
with walk_block (b : Block) : list Operation :=
  match b with mkBlock _ _ os => flat_map walk os end.

(** The blocks nested under an operation. *)
Fixpoint blocks_of (o : Operation) : list Block :=
  match o with
  | mkOperation _ _ _ _ rs => flat_map blocks_of_region rs
  end
with blocks_of_region (r : Region) : list Block :=
  match r with mkRegion bs => flat_map blocks_of_block bs end
with blocks_of_block (b : Block) : list Block :=
  match b with mkBlock _ _ os => b :: flat_map blocks_of os end.

Definition op_ids (o : Operation) : list OpId := map op_id (walk o).
Definition block_ids (o : Operation) : list BlockId := map blk_id (blocks_of o).

(** Allocation of a new operation or block yields an identity not in use. *)
Definition fresh_op_id (ir : Operation) : OpId := S (list_max (op_ids ir)).
Definition fresh_block_id (ir : Operation) : BlockId := S (list_max (block_ids ir)).

(** Modelled from the spec: in-place rewriting of one entry of the ordered
    operand list of an operation ([Operation::setOperand]); a position out of
    range is a failed assertion. *)
Fixpoint replace_nth (idx : nat) (v : Value) (vs : list Value) : option (list Value) :=
  match vs, idx with
  | [], _ => None
  | _ :: vs', O => Some (v :: vs')
  | w :: vs', S idx' => option_map (cons w) (replace_nth idx' v vs')
  end.

Definition setOperand (idx : nat) (v : Value) (o : Operation) : option Operation :=
  option_map (fun vs => set_operands vs o) (replace_nth idx v (op_operands o)).

(** *** Where definitions live

    For every operation and every block of the IR, the regions that enclose
    it, innermost first: the head is [getParentRegion], the tail is obtained
    by iterating [Region::getParentRegion]. *)
Fixpoint flat_mapi {A B : Type} (f : nat -> A -> list B) (n : nat) (l : list A)
  : list B :=
  match l with
  | [] => []
  | a :: l' => f n a ++ flat_mapi f (S n) l'
  end.

Fixpoint op_locations (ctx : list RegionRef) (o : Operation)
  : list (OpId * list RegionRef) :=
  match o with
  | mkOperation i _ _ _ rs =>
      (i, ctx) :: flat_mapi (fun n r => region_op_locations ((i, n) :: ctx) r) 0 rs
  end
with region_op_locations (ctx : list RegionRef) (r : Region)
  : list (OpId * list RegionRef) :=
  match r with mkRegion bs => flat_map (block_op_locations ctx) bs end
with block_op_locations (ctx : list RegionRef) (b : Block)
  : list (OpId * list RegionRef) :=
  match b with mkBlock _ _ os => flat_map (op_locations ctx) os end.

Fixpoint block_locations (ctx : list RegionRef) (o : Operation)
  : list (BlockId * list RegionRef) :=
  match o with
  | mkOperation i _ _ _ rs =>
      flat_mapi (fun n r => region_block_locations ((i, n) :: ctx) r) 0 rs
  end
with region_block_locations (ctx : list RegionRef) (r : Region)
  : list (BlockId * list RegionRef) :=
  match r with mkRegion bs => flat_map (block_block_locations ctx) bs end
with block_block_locations (ctx : list RegionRef) (b : Block)
  : list (BlockId * list RegionRef) :=
  match b with
  | mkBlock i _ os => (i, ctx) :: flat_map (block_locations ctx) os
  end.

Definition lookup {A : Type} (i : nat) (l : list (nat * A)) : option A :=
  option_map snd (find (fun p => Nat.eqb (fst p) i) l).

(** Modelled from the spec: the defining region of a value
    ([Value::getParentRegion]): the region of the block that holds the
    defining operation, or that owns the block argument; null for a value
    whose definition is not in the IR. *)
Definition getParentRegion (ir : Operation) (v : Value) : option RegionRef :=
  match v with
  | OpResult o _ =>
      match lookup o (op_locations [] ir) with
      | Some (r :: _) => Some r
      | _ => None
      end
  | BlockArgument b _ =>
      match lookup b (block_locations [] ir) with
      | Some (r :: _) => Some r
      | _ => None
      end
  end.

(** The regions reached from [s] by repeated [Region::getParentRegion]. *)
Definition region_ancestors (ir : Operation) (s : RegionRef) : list RegionRef :=
  match lookup (fst s) (op_locations [] ir) with
  | Some ch => ch
  | None => []
  end.

(** Modelled from the spec: [r] is a proper ancestor of [s]
    ([r->isProperAncestor(s)]): [r] differs from [s] and is met going up from
    [s] through the nesting of regions. *)
Definition isProperAncestor (ir : Operation) (r s : RegionRef) : bool :=
  negb (RegionRef_eqb r s) && existsb (RegionRef_eqb r) (region_ancestors ir s).

(** *** Mutation primitives *)

Definition find_op (ir : Operation) (i : OpId) : option Operation :=
  find (fun o => Nat.eqb (op_id o) i) (walk ir).

(** Modelled from the spec: the entry [idx] of the ordered operand list of an
    operation ([op->getOperand(idx)]); a position out of range is a failed
    assertion. *)
Definition getOperand (ir : Operation) (op : OpId) (idx : nat) : option Value :=
  match find_op ir op with
  | Some o => nth_error (op_operands o) idx
  | None => None
  end.

(** Rewriting of the operand list of every operation. *)
Fixpoint map_operands (g : OpId -> list Value -> list Value) (o : Operation)
  : Operation :=
  match o with
  | mkOperation i k vs ts rs =>
      mkOperation i k (g i vs) ts (map (map_operands_region g) rs)
  end
with map_operands_region (g : OpId -> list Value -> list Value) (r : Region)
  : Region :=
  match r with mkRegion bs => mkRegion (map (map_operands_block g) bs) end
with map_operands_block (g : OpId -> list Value -> list Value) (b : Block)
  : Block :=
  match b with mkBlock i a os => mkBlock i a (map (map_operands g) os) end.

(** Rewriting of the operation lists of the blocks, innermost first: every
    operation is replaced by the operations [f] gives for it. *)
Fixpoint rewrite_op (f : Operation -> list Operation) (o : Operation)
  : list Operation :=
  match o with
  | mkOperation i k vs ts rs => f (mkOperation i k vs ts (map (rewrite_region f) rs))
  end
with rewrite_region (f : Operation -> list Operation) (r : Region) : Region :=
  match r with mkRegion bs => mkRegion (map (rewrite_block f) bs) end
with rewrite_block (f : Operation -> list Operation) (b : Block) : Block :=
  match b with mkBlock i a os => mkBlock i a (flat_map (rewrite_op f) os) end.

Definition rewrite (f : Operation -> list Operation) (ir : Operation) : Operation :=
  match ir with
  | mkOperation i k vs ts rs => mkOperation i k vs ts (map (rewrite_region f) rs)
  end.

(** [setOperand] on the operation [op] of the IR. *)
Definition put_operand (op : OpId) (idx : nat) (v : Value) (i : OpId)
    (vs : list Value) : list Value :=
  if Nat.eqb i op then
    match replace_nth idx v vs with
    | Some vs' => vs'
    | None => vs
    end
  else vs.

Definition setOperandOf (ir : Operation) (op : OpId) (idx : nat) (v : Value)
  : option Operation :=
  match find_op ir op with
  | Some o =>
      if Nat.ltb idx (length (op_operands o))
      then Some (map_operands (put_operand op idx v) ir)
      else None
  | None => None
  end.

(** Modelled from the spec: the builder with its cursor at [target]
    ([OpBuilder builder(target); builder.create(...)]): the new operation,
    with the operand list and the result types the caller gives, is inserted
    at the cursor, right before [target]. *)
Definition insert_before (target : OpId) (new_op : Operation) (x : Operation)
  : list Operation :=
  if Nat.eqb (op_id x) target then [new_op; x] else [x].

Definition insertBefore (ir : Operation) (target : OpId) (new_op : Operation)
  : Operation :=
  rewrite (insert_before target new_op) ir.

(** Unlinking of an operation from its block. *)
Definition unlink (op : OpId) (x : Operation) : list Operation :=
  if Nat.eqb (op_id x) op then [] else [x].

Definition remove (ir : Operation) (op : OpId) : Operation :=
  rewrite (unlink op) ir.

(** Whether an operation uses a result of the operation [op]. *)
Definition uses_result_of (op : OpId) (x : Operation) : bool :=
  existsb (fun v => match v with
                    | OpResult o _ => Nat.eqb o op
                    | BlockArgument _ _ => false
                    end)
          (op_operands x).

(** The operations a sequence holds before the operation [op]. *)
Fixpoint preceding (op : OpId) (l : list Operation) : list Operation :=
  match l with
  | [] => []
  | x :: l' => if Nat.eqb (op_id x) op then [] else x :: preceding op l'
  end.

(** Modelled from the spec: [op->moveBefore(target)], the primitive that
    relocates [op], unchanged, to immediately precede [target] in the block of
    [target]; it is an error if this places [op] after a use of one of its own
    results, that is, if an operation the walk meets before [op] in the
    resulting IR uses a result of [op]. *)
Definition moveBefore (ir : Operation) (op target : OpId) : option Operation :=
  match find_op ir op, find_op ir target with
  | Some o, Some _ =>
      let ir' := insertBefore (remove ir op) target o in
      if existsb (uses_result_of op) (preceding op (walk ir')) then None
      else Some ir'
  | _, _ => None
  end.

(** Modelled from the spec: [replaceAllUsesOf], for the results of an
    operation as [old->replaceAllUsesWith(new)] applies it: the two operations
    have the same number of results (asserted), every use that references
    result [i] of [old] is rebound to result [i] of [new], and the results of
    [old] end with zero uses.  That the new definition dominates the rebound
    uses is the caller's responsibility. *)
Definition replace_result (old new : OpId) (n : nat) (v : Value) : Value :=
  match v with
  | OpResult o i => if Nat.eqb o old && Nat.ltb i n then OpResult new i else v
  | BlockArgument _ _ => v
  end.

Definition rebind_uses (old new : OpId) (n : nat) (_ : OpId) (vs : list Value)
  : list Value :=
  map (replace_result old new n) vs.

Definition replaceAllUsesWith (ir : Operation) (old new : OpId) : option Operation :=
  match find_op ir old, find_op ir new with
  | Some o, Some o' =>
      if Nat.eqb (length (op_results o)) (length (op_results o'))
      then Some (map_operands (rebind_uses old new (length (op_results o))) ir)
      else None
  | _, _ => None
  end.

(** The definitions a value may come from. *)
Definition defined_by (ops : list OpId) (blks : list BlockId) (v : Value) : bool :=
  match v with
  | OpResult o _ => existsb (Nat.eqb o) ops
  | BlockArgument b _ => existsb (Nat.eqb b) blks
  end.

(** Modelled from the spec: [erase(op)] ([op->erase()]): the operation and
    what it holds are destroyed, and their values cease to exist with them; a
    value that goes away must have zero uses, otherwise the precondition is
    violated ([None]). *)
Definition erase (ir : Operation) (op : OpId) : option Operation :=
  match find_op ir op with
  | Some o =>
      let ir' := remove ir op in
      if existsb (fun x => existsb (defined_by (op_ids o) (block_ids o)) (op_operands x))
                 (walk ir')
      then None
      else Some ir'
  | None => None
  end.

(** *** Positions in the IR

    A position is a block seen from the root: the operations, regions and
    blocks met on the way down.  [plug c ops] is the IR in which the block at
    position [c] holds the operations [ops]. *)
Record Layer : Type := mkLayer {
  l_id : OpId;
  l_kind : OpKind;
  l_operands : list Value;
  l_results : list MlirType;
  l_regions_before : list Region;
  l_blocks_before : list Block;
  l_block : BlockId;
  l_args : list MlirType;
  l_blocks_after : list Block;
  l_regions_after : list Region
}.

Definition fill (l : Layer) (ops : list Operation) : Operation :=
  mkOperation (l_id l) (l_kind l) (l_operands l) (l_results l)
    (l_regions_before l
     ++ mkRegion (l_blocks_before l
                  ++ mkBlock (l_block l) (l_args l) ops :: l_blocks_after l)
     :: l_regions_after l).

Inductive Context : Type :=
| AtRoot (l : Layer)
| Under (outer : Context) (before : list Operation) (l : Layer)
        (after : list Operation).

Fixpoint plug (c : Context) (ops : list Operation) : Operation :=
  match c with
  | AtRoot l => fill l ops
  | Under c' before l after => plug c' (before ++ fill l ops :: after)
  end.

(** The position [c'] inside an operation that stands at position [outer]
    between [before] and [after]. *)
Fixpoint ctx_under (outer : Context) (before after : list Operation) (c' : Context)
  : Context :=
  match c' with
  | AtRoot l => Under outer before l after
  | Under c'' b l a => Under (ctx_under outer before after c'') b l a
  end.

(** The layer of an operation around the first block of its first region. *)
Definition layer_of (o : Operation) (b : Block) (bs : list Block) (rs : list Region)
  : Layer :=
  mkLayer (op_id o) (op_kind o) (op_operands o) (op_results o) [] []
    (blk_id b) (blk_args b) bs rs.

Definition layer_region (l : Layer) : RegionRef :=
  (l_id l, length (l_regions_before l)).

(** The regions that enclose the block at a position, innermost first. *)
Fixpoint ctx_chain (c : Context) : list RegionRef :=
  match c with
  | AtRoot l => [layer_region l]
  | Under c' _ l _ => layer_region l :: ctx_chain c'
  end.

(** The operations of a layer beside the block of the position. *)
Definition layer_side_ops (l : Layer) : list Operation :=
  flat_map walk_region (l_regions_before l)
  ++ flat_map walk_block (l_blocks_before l)
  ++ flat_map walk_block (l_blocks_after l)
  ++ flat_map walk_region (l_regions_after l).

Definition layer_side_blocks (l : Layer) : list Block :=
  flat_map blocks_of_region (l_regions_before l)
  ++ flat_map blocks_of_block (l_blocks_before l)
  ++ flat_map blocks_of_block (l_blocks_after l)
  ++ flat_map blocks_of_region (l_regions_after l).

(** The identities in use around a position. *)
Fixpoint ctx_op_ids (c : Context) : list OpId :=
  match c with
  | AtRoot l => l_id l :: map op_id (layer_side_ops l)
  | Under c' before l after =>
      l_id l :: map op_id (layer_side_ops l)
      ++ map op_id (flat_map walk before)
      ++ map op_id (flat_map walk after)
      ++ ctx_op_ids c'
  end.

Fixpoint ctx_block_ids (c : Context) : list BlockId :=
  match c with
  | AtRoot l => l_block l :: map blk_id (layer_side_blocks l)
  | Under c' before l after =>
      l_block l :: map blk_id (layer_side_blocks l)
      ++ map blk_id (flat_map blocks_of before)
      ++ map blk_id (flat_map blocks_of after)
      ++ ctx_block_ids c'
  end.

(** The operations of an IR: those on the way to the position, those beside
    it, and those of the block at the position. *)
Fixpoint ctx_spine_ops (c : Context) (ops : list Operation) : list Operation :=
  match c with
  | AtRoot l => [fill l ops]
  | Under c' before l after =>
      fill l ops :: ctx_spine_ops c' (before ++ fill l ops :: after)
  end.

Fixpoint ctx_side_ops (c : Context) : list Operation :=
  match c with
  | AtRoot l => layer_side_ops l
  | Under c' before l after =>
      layer_side_ops l ++ flat_map walk before ++ flat_map walk after
      ++ ctx_side_ops c'
  end.

(** The operations the walk meets before and after those of the block at a
    position. *)
Definition layer_walk_before (l : Layer) (ops : list Operation) : list Operation :=
  fill l ops
  :: flat_map walk_region (l_regions_before l)
  ++ flat_map walk_block (l_blocks_before l).

Definition layer_walk_after (l : Layer) : list Operation :=
  flat_map walk_block (l_blocks_after l)
  ++ flat_map walk_region (l_regions_after l).

Fixpoint ctx_walk_before (c : Context) (ops : list Operation) : list Operation :=
  match c with
  | AtRoot l => layer_walk_before l ops
  | Under c' before l after =>
      ctx_walk_before c' (before ++ fill l ops :: after)
      ++ flat_map walk before
      ++ layer_walk_before l ops
  end.

Fixpoint ctx_walk_after (c : Context) : list Operation :=
  match c with
  | AtRoot l => layer_walk_after l
  | Under c' before l after =>
      layer_walk_after l ++ flat_map walk after ++ ctx_walk_after c'
  end.

(** The locations listed before and after those of the block at a position. *)
Definition layer_locations_before (ctx : list RegionRef) (l : Layer)
  : list (OpId * list RegionRef) :=
  (l_id l, ctx)
  :: flat_mapi (fun n r => region_op_locations ((l_id l, n) :: ctx) r) 0
               (l_regions_before l)
  ++ flat_map (block_op_locations (layer_region l :: ctx)) (l_blocks_before l).

Definition layer_locations_after (ctx : list RegionRef) (l : Layer)
  : list (OpId * list RegionRef) :=
  flat_map (block_op_locations (layer_region l :: ctx)) (l_blocks_after l)
  ++ flat_mapi (fun n r => region_op_locations ((l_id l, n) :: ctx) r)
               (S (length (l_regions_before l))) (l_regions_after l).

Fixpoint ctx_locations_before (c : Context) : list (OpId * list RegionRef) :=
  match c with
  | AtRoot l => layer_locations_before [] l
  | Under c' before l after =>
      ctx_locations_before c'
      ++ flat_map (op_locations (ctx_chain c')) before
      ++ layer_locations_before (ctx_chain c') l
  end.

Fixpoint ctx_locations_after (c : Context) : list (OpId * list RegionRef) :=
  match c with
  | AtRoot l => layer_locations_after [] l
  | Under c' before l after =>
      layer_locations_after (ctx_chain c') l
      ++ flat_map (op_locations (ctx_chain c')) after
      ++ ctx_locations_after c'
  end.

Definition layer_block_locations_before (ctx : list RegionRef) (l : Layer)
  : list (BlockId * list RegionRef) :=
  flat_mapi (fun n r => region_block_locations ((l_id l, n) :: ctx) r) 0
            (l_regions_before l)
  ++ flat_map (block_block_locations (layer_region l :: ctx)) (l_blocks_before l)
  ++ [(l_block l, layer_region l :: ctx)].

Definition layer_block_locations_after (ctx : list RegionRef) (l : Layer)
  : list (BlockId * list RegionRef) :=
  flat_map (block_block_locations (layer_region l :: ctx)) (l_blocks_after l)
  ++ flat_mapi (fun n r => region_block_locations ((l_id l, n) :: ctx) r)
               (S (length (l_regions_before l))) (l_regions_after l).

Fixpoint ctx_block_locations_before (c : Context) : list (BlockId * list RegionRef) :=
  match c with
  | AtRoot l => layer_block_locations_before [] l
  | Under c' before l after =>
      ctx_block_locations_before c'
      ++ flat_map (block_locations (ctx_chain c')) before
      ++ layer_block_locations_before (ctx_chain c') l
  end.

Fixpoint ctx_block_locations_after (c : Context) : list (BlockId * list RegionRef) :=
  match c with
  | AtRoot l => layer_block_locations_after [] l
  | Under c' before l after =>
      layer_block_locations_after (ctx_chain c') l
      ++ flat_map (block_locations (ctx_chain c')) after
      ++ ctx_block_locations_after c'
  end.

(** Rewriting of the operand lists across a position: [map_operands] on the
    IR with the block at the position left out. *)
Definition map_operands_layer (g : OpId -> list Value -> list Value) (l : Layer)
  : Layer :=
  mkLayer (l_id l) (l_kind l) (g (l_id l) (l_operands l)) (l_results l)
    (map (map_operands_region g) (l_regions_before l))
    (map (map_operands_block g) (l_blocks_before l))
    (l_block l) (l_args l)
    (map (map_operands_block g) (l_blocks_after l))
    (map (map_operands_region g) (l_regions_after l)).

Fixpoint map_operands_ctx (g : OpId -> list Value -> list Value) (c : Context)
  : Context :=
  match c with
  | AtRoot l => AtRoot (map_operands_layer g l)
  | Under c' before l after =>
      Under (map_operands_ctx g c') (map (map_operands g) before)
            (map_operands_layer g l) (map (map_operands g) after)
  end.

(** Where an operation stands under a block: in the block itself, or in a
    block at position [c] inside an operation that the block holds between
    [before] and [after]. *)
Inductive Inner : Type :=
| Here
| Below (before : list Operation) (c : Context) (after : list Operation).

Definition inner_ctx (outer : Context) (h : Inner) : Context :=
  match h with
  | Here => outer
  | Below before c after => ctx_under outer before after c
  end.

Definition inner_ops (h : Inner) (ops : list Operation) : list Operation :=
  match h with
  | Here => ops
  | Below before c after => before ++ plug c ops :: after
  end.

(** *** Uses and definitions

    What an operation is apart from the operations it holds, and what a block
    is apart from its operations. *)
Definition strip (o : Operation) : Operation :=
  mkOperation (op_id o) (op_kind o) (op_operands o) (op_results o) [].

Definition strip_block (b : Block) : Block :=
  mkBlock (blk_id b) (blk_args b) [].

Definition nodes (ir : Operation) : list Operation := map strip (walk ir).
Definition block_heads (ir : Operation) : list Block := map strip_block (blocks_of ir).

Fixpoint ctx_nodes (c : Context) : list Operation :=
  match c with
  | AtRoot l => strip (fill l []) :: map strip (layer_side_ops l)
  | Under c' before l after =>
      strip (fill l []) :: map strip (layer_side_ops l)
      ++ map strip (flat_map walk before)
      ++ map strip (flat_map walk after)
      ++ ctx_nodes c'
  end.

Fixpoint ctx_block_heads (c : Context) : list Block :=
  match c with
  | AtRoot l => mkBlock (l_block l) (l_args l) [] :: map strip_block (layer_side_blocks l)
  | Under c' before l after =>
      mkBlock (l_block l) (l_args l) [] :: map strip_block (layer_side_blocks l)
      ++ map strip_block (flat_map blocks_of before)
      ++ map strip_block (flat_map blocks_of after)
      ++ ctx_block_heads c'
  end.

(** A value is live when its definition is in the IR. *)
Definition defines (v : Value) (o : Operation) : bool :=
  match v with
  | OpResult i k => Nat.eqb (op_id o) i && Nat.ltb k (length (op_results o))
  | BlockArgument _ _ => false
  end.

Definition binds (v : Value) (b : Block) : bool :=
  match v with
  | OpResult _ _ => false
  | BlockArgument i k => Nat.eqb (blk_id b) i && Nat.ltb k (length (blk_args b))
  end.

Definition live_in (ops : list Operation) (blks : list Block) (v : Value) : bool :=
  existsb (defines v) ops || existsb (binds v) blks.

Definition live (ir : Operation) (v : Value) : bool :=
  live_in (nodes ir) (block_heads ir) v.

(** No dangling use: every operand of every operation of the IR names a
    result of an operation of the IR or an argument of a block of the IR. *)
Definition no_dangling (ir : Operation) : bool :=
  forallb (fun o => forallb (live ir) (op_operands o)) (nodes ir).

(** Every definition of [ir] is a definition of [ir']. *)
Definition defs_preserved (ir ir' : Operation) : Prop :=
  (forall nd, In nd (nodes ir) ->
     exists nd', In nd' (nodes ir') /\ op_id nd' = op_id nd
                 /\ length (op_results nd') = length (op_results nd))
  /\ (forall b, In b (block_heads ir) ->
        exists b', In b' (block_heads ir') /\ blk_id b' = blk_id b
                   /\ length (blk_args b') = length (blk_args b)).

(** The invariant the passes keep: identities are not shared and no use
    dangles. *)
Definition sound (ir : Operation) : Prop :=
  NoDup (op_ids ir) /\ no_dangling ir = true.

Definition same_root (ir ir' : Operation) : Prop :=
  op_id ir' = op_id ir /\ op_kind ir' = op_kind ir.

(** The operations that use a value. *)
Definition users (ir : Operation) (v : Value) : list Operation :=
  filter (fun o => existsb (Value_eqb v) (op_operands o)) (nodes ir).

(** No two operations and no two blocks share an identity. *)
Definition unique_ids (ir : Operation) : Prop :=
  NoDup (op_ids ir) /\ NoDup (block_ids ir).

(** Rewritings that touch one identity only. *)
Definition by_id (f : Operation -> list Operation) (t : OpId) : Prop :=
  forall x, op_id x <> t -> f x = [x].

Definition with_operands (g : OpId -> list Value -> list Value) (x : Operation)
  : list Operation :=
  [set_operands (g (op_id x) (op_operands x)) x].

(** Induction over the tree of operations, regions and blocks. *)
Section TreeInduction.
Variables (P : Operation -> Prop) (Q : Region -> Prop) (B : Block -> Prop).
Hypothesis HP : forall i k vs ts rs, Forall Q rs -> P (mkOperation i k vs ts rs).
Hypothesis HQ : forall bs, Forall B bs -> Q (mkRegion bs).
Hypothesis HB : forall i a os, Forall P os -> B (mkBlock i a os).

Fixpoint Operation_tree_ind (o : Operation) : P o :=
  match o with
  | mkOperation i k vs ts rs =>
      HP i k vs ts
         ((fix go (rs : list Region) : Forall Q rs :=
             match rs with
             | [] => Forall_nil Q
             | r :: rs' => Forall_cons r (Region_tree_ind r) (go rs')
             end) rs)
  end
with Region_tree_ind (r : Region) : Q r :=
  match r with
  | mkRegion bs =>
      HQ ((fix go (bs : list Block) : Forall B bs :=
             match bs with
             | [] => Forall_nil B
             | b :: bs' => Forall_cons b (Block_tree_ind b) (go bs')
             end) bs)
  end
with Block_tree_ind (b : Block) : B b :=
  match b with
  | mkBlock i a os =>
      HB i a
         ((fix go (os : list Operation) : Forall P os :=
             match os with
             | [] => Forall_nil P
             | o :: os' => Forall_cons o (Operation_tree_ind o) (go os')
             end) os)
  end.
End TreeInduction.

End IR.

(** ** The structuring pass: [tf_functional_to_executor.cc] *)

Module FunctionalToExecutor.
Import IR.

(** Modelled from the spec: a block is a sequence of operations whose last
    one is its terminator; [Block::without_terminator] is every operation of
    the block but the last. *)
Definition without_terminator (ops : list Operation) : list Operation :=
  removelast ops.

Fixpoint back (ops : list Operation) : option Operation :=
  match ops with
  | [] => None
  | [o] => Some o
  | _ :: ops' => back ops'
  end.

(** Modelled from the spec: the terminator of a block is its last operation;
    [Block::getTerminator] asserts that the block is not empty and that its
    last operation is a terminator. *)
Definition getTerminator (ops : list Operation) : option Operation :=
  match back ops with
  | Some t => if isTerminator (op_kind t) then Some t else None
  | None => None
  end.

(** The test of lines 64-66: the range has exactly one operation and it is a
    [tf_executor.graph]. *)
Definition already_graph (copy_range : list Operation) : bool :=
  match copy_range with
  | [g] => isa_GraphOp (op_kind g)
  | _ => false
  end.

(** The loop of lines 101-103 over [llvm::enumerate(graph_op.getResults())]. *)
Fixpoint setOperands (idx : nat) (vs : list Value) (o : Operation) : option Operation :=
  match vs with
  | [] => Some o
  | v :: vs' =>
      match setOperand idx v o with
      | Some o' => setOperands (S idx) vs' o'
      | None => None
      end
  end.

(** [to_fetch]: the island's results, without the control result unless it is
    the only one (lines 88-92). *)
Definition to_fetch (island_results : list Value) : list Value :=
  if Nat.eqb (length island_results) 1 then island_results
  else removelast island_results.

(** [FunctionalToExecutorDialectConversion::runOnFunction].  The function is
    the [FuncOp] at the root; [None] stands for a failed assertion.  The dumps
    under [VLOG_IS_ON] and the locations do not touch the IR and are left out. *)
Definition runOnFunction (func : Operation) : option Operation :=
  match op_kind func, op_regions func with
  | FuncOp _ fn_results, [mkRegion blocks] =>
      match blocks with
      | [body] =>
          let copy_range := without_terminator (blk_ops body) in
          if already_graph copy_range then Some func
          else
            match getTerminator (blk_ops body) with
            | None => None
            | Some return_op =>
                if negb (isa_StdReturnOp (op_kind return_op)) then Some func
                else
                  let args := op_operands return_op in
                  (* Build GraphOp. *)
                  let graph_id := fresh_op_id func in
                  let graph_block := fresh_block_id func in
                  let island_id := S graph_id in
                  let island_types := fn_results ++ [ControlType] in
                  (* Create Fetch. *)
                  let island_results :=
                    map (OpResult island_id) (seq 0 (length island_types)) in
                  let fetch :=
                    mkOperation (S island_id) FetchOp (to_fetch island_results) [] [] in
                  (* Build Island. *)
                  let island_block := S graph_block in
                  let yield := mkOperation (S (S island_id)) YieldOp args [] [] in
                  let island :=
                    mkOperation island_id IslandOp [] island_types
                      [mkRegion [mkBlock island_block [] (copy_range ++ [yield])]] in
                  let graph_op :=
                    mkOperation graph_id GraphOp [] fn_results
                      [mkRegion [mkBlock graph_block [] [island; fetch]]] in
                  match setOperands 0 (getResults graph_op) return_op with
                  | None => None
                  | Some return_op' =>
                      Some (mkOperation (op_id func) (op_kind func)
                              (op_operands func) (op_results func)
                              [mkRegion [mkBlock (blk_id body) (blk_args body)
                                           [graph_op; return_op']]])
                  end
            end
      | _ => Some func
      end
  | _, _ => None
  end.

(** Navigation in a function. *)
Definition getBlocks (func : Operation) : list Block :=
  flat_map reg_blocks (op_regions func).

Definition block_of_op (o : Operation) : list Operation :=
  flat_map blk_ops (flat_map reg_blocks (op_regions o)).

(** The checks of lines 55-75 all pass: one block, not yet a graph, and the
    block ends with a [ReturnOp]. *)
Definition applicable (func : Operation) : bool :=
  match getBlocks func with
  | [body] =>
      negb (already_graph (without_terminator (blk_ops body)))
      && match back (blk_ops body) with
         | Some t => isa_StdReturnOp (op_kind t)
         | None => false
         end
  | _ => false
  end.

(** The operations of the single block of a function. *)
Definition body_ops (func : Operation) : list Operation := block_of_op func.

(** [getFunction().getType().getResults()] *)
Definition fn_results (func : Operation) : list MlirType :=
  match op_kind func with
  | FuncOp _ rs => rs
  | _ => []
  end.

End FunctionalToExecutor.

(** ** The hoisting pass: [replicate_invariant_op_hoisting.cc] *)

Module ReplicateInvariantOpHoisting.
Import IR.

Definition two32 : Z := 4294967296.

(** [replicate_op.n().getLimitedValue()] reads the 32 bits of the attribute as
    an unsigned number; the initialisation of [const int num_replicas]
    converts it to a signed 32-bit integer. *)
Definition getLimitedValue (n : Z) : Z := Z.modulo n two32.

Definition to_int (x : Z) : Z :=
  let y := Z.modulo x two32 in
  if Z.ltb y 2147483648 then y else (y - two32)%Z.

(** [num_replicas * block_arg->getArgNumber()]: an [int] times an [unsigned],
    computed in 32-bit unsigned arithmetic. *)
Definition replica_operand_index (num_replicas : Z) (argNumber : nat) : nat :=
  Z.to_nat (Z.modulo (Z.modulo num_replicas two32 * Z.of_nat argNumber) two32).

(** Modelled from the spec: the region of a replicate has a single block;
    [replicate_op.GetBody()] is the first block of the first region. *)
Definition GetBody (replicate_op : Operation) : option Block :=
  match op_regions replicate_op with
  | mkRegion (b :: _) :: _ => Some b
  | _ => None
  end.

(** [MakeShapeOpInvariant]; [None] stands for a failed assertion or for the
    use of a dangling pointer. *)
Definition MakeShapeOpInvariant (replicate_op : OpId) (num_replicas : Z)
    (replicate_block : BlockId) (ir : Operation) (shape_op : OpId)
  : option Operation :=
  match find_op ir shape_op with
  | None => None
  | Some shape =>
      match nth_error (op_operands shape) 0 with
      | None => None
      | Some (BlockArgument owner argNumber) =>
          if negb (Nat.eqb owner replicate_block) then Some ir
          else
            match getOperand ir replicate_op
                    (replica_operand_index num_replicas argNumber) with
            | None => None
            | Some first_replica => setOperandOf ir shape_op 0 first_replica
            end
      | Some (OpResult input_def _) =>
          match find_op ir input_def with
          | None => None
          | Some read_var_op =>
              if negb (isa_ReadVariableOp (op_kind read_var_op)) then Some ir
              else
                match nth_error (op_operands read_var_op) 0 with
                | None => None
                | Some (OpResult _ _) => Some ir
                | Some (BlockArgument owner argNumber) =>
                    if negb (Nat.eqb owner replicate_block) then Some ir
                    else
                      match getOperand ir replicate_op
                              (replica_operand_index num_replicas argNumber),
                            nth_error (op_results shape) 0 with
                      | Some first_replica, Some ty =>
                          let new_shape_op :=
                            mkOperation (fresh_op_id ir) VariableShapeOp
                              [first_replica] [ty] [] in
                          let ir1 := insertBefore ir shape_op new_shape_op in
                          match replaceAllUsesWith ir1 shape_op (op_id new_shape_op) with
                          | Some ir2 => erase ir2 shape_op
                          | None => None
                          end
                      | _, _ => None
                      end
                end
          end
      end
  end.

(** [IsOpReplicateInvariant]: the walk is interrupted at the first operand
    whose parent region is null or is not a proper ancestor of the region of
    the replicate. *)
Definition IsOpReplicateInvariant (ir : Operation) (replicate_region : RegionRef)
    (op : Operation) : bool :=
  forallb
    (fun inner_op =>
       forallb
         (fun operand =>
            match getParentRegion ir operand with
            | None => false
            | Some parent_region =>
                isProperAncestor ir parent_region replicate_region
            end)
         (op_operands inner_op))
    (walk op).

(** A loop over a snapshot of identities, stopping at the first failure. *)
Fixpoint foreach {A : Type} (step : Operation -> A -> option Operation)
    (l : list A) (ir : Operation) : option Operation :=
  match l with
  | [] => Some ir
  | a :: l' =>
      match step ir a with
      | Some ir' => foreach step l' ir'
      | None => None
      end
  end.

(** One turn of the loop of lines 141-147. *)
Definition hoist_inner_op (replicate_op : OpId) (replicate_region : RegionRef)
    (ir : Operation) (inner_op : OpId) : option Operation :=
  match find_op ir inner_op with
  | None => None
  | Some op =>
      if isa_DeviceReturnOp (op_kind op) then Some ir
      else if IsOpReplicateInvariant ir replicate_region op
           then moveBefore ir inner_op replicate_op
           else Some ir
  end.

(** The loop of lines 141-147 over [make_early_inc_range]: the operations of
    the body are visited in the order they have when the loop starts, since a
    turn only moves the operation it visits. *)
Definition hoist_invariant_ops (replicate_op : OpId) (ir : Operation)
  : option Operation :=
  match find_op ir replicate_op with
  | None => None
  | Some rep =>
      match GetBody rep with
      | None => None
      | Some body =>
          foreach (hoist_inner_op replicate_op (replicate_op, 0))
                  (map op_id (blk_ops body)) ir
      end
  end.

(** [HoistReplicateInvariantOps].  The callback of the walk over the
    [tf.Shape] operations under the replicate touches the structure only at
    the operation it visits (which it may erase, after putting a new operation
    before it), so the walk visits the [tf.Shape] operations the region held
    when it started. *)
Definition HoistReplicateInvariantOps (ir : Operation) (replicate_op : OpId)
  : option Operation :=
  match find_op ir replicate_op with
  | None => None
  | Some rep =>
      match op_kind rep, GetBody rep with
      | ReplicateOp n, Some replicate_block =>
          let num_replicas := to_int (getLimitedValue n) in
          let shape_ops :=
            map op_id (filter (fun o => isa_ShapeOp (op_kind o)) (walk rep)) in
          match foreach (MakeShapeOpInvariant replicate_op num_replicas
                           (blk_id replicate_block)) shape_ops ir with
          | Some ir1 => hoist_invariant_ops replicate_op ir1
          | None => None
          end
      | _, _ => None
      end
  end.

(** [ReplicateInvariantOpHoistingPass::runOnFunction]: every replicate found
    by the walk of the function.  Hoisting out of a replicate moves operations
    in front of it and neither creates nor erases a replicate. *)
Definition runOnFunction (func : Operation) : option Operation :=
  match op_kind func with
  | FuncOp _ _ =>
      foreach HoistReplicateInvariantOps
              (map op_id (filter (fun o => isa_ReplicateOp (op_kind o)) (walk func)))
              func
  | _ => None
  end.

(** The IR in which the replicate, the operation of layer [rl], stands at
    position [c] between [pre] and [post], with [hoisted] right in front of it
    and [body] in its block. *)
Definition hoisted_state (c : Context) (pre post : list Operation) (rl : Layer)
    (hoisted body : list Operation) : Operation :=
  plug c (pre ++ hoisted ++ fill rl body :: post).

(** The operations the walk meets before the replicate and the operations
    [hoisted] in front of it, apart from the operations they hold. *)
Definition met_before (c : Context) (pre hoisted : list Operation) : list Operation :=
  map strip (ctx_walk_before c []) ++ map strip (flat_map walk (pre ++ hoisted)).

(** Uses follow definitions: whatever stands before an operation of [rest],
    in front of the replicate or among the operations of [rest] before it,
    does not use its results. *)
Definition uses_follow (c : Context) (pre hoisted rest : list Operation) : Prop :=
  forall before a after,
    rest = before ++ a :: after ->
    existsb (uses_result_of (op_id a)) (met_before c pre (hoisted ++ before)) = false.

(** A value reads as invariant when the region that holds its definition is a
    proper ancestor of the region of the replicate: the test of lines 117-119. *)
Definition reads_invariant (ir : Operation) (replicate_region : RegionRef) (v : Value)
  : Prop :=
  exists parent_region,
    getParentRegion ir v = Some parent_region
    /\ isProperAncestor ir parent_region replicate_region = true.

(** The locations of the operations and blocks that are not under the
    replicate nor among the operations hoisted out of it. *)
Definition fixed_ops (c : Context) (pre post : list Operation) (rl : Layer)
  : list (OpId * list RegionRef) :=
  ctx_locations_before c ++ flat_map (op_locations (ctx_chain c)) pre
  ++ layer_locations_before (ctx_chain c) rl
  ++ layer_locations_after (ctx_chain c) rl
  ++ flat_map (op_locations (ctx_chain c)) post ++ ctx_locations_after c.

Definition fixed_blocks (c : Context) (pre post : list Operation) (rl : Layer)
  : list (BlockId * list RegionRef) :=
  ctx_block_locations_before c ++ flat_map (block_locations (ctx_chain c)) pre
  ++ layer_block_locations_before (ctx_chain c) rl
  ++ layer_block_locations_after (ctx_chain c) rl
  ++ flat_map (block_locations (ctx_chain c)) post ++ ctx_block_locations_after c.

(** Defined in a region around the replicate, by an operation or a block that
    the loop does not move. *)
Definition defined_outside (c : Context) (pre post : list Operation) (rl : Layer)
    (v : Value) : Prop :=
  match v with
  | OpResult x _ =>
      exists r ch, In (x, r :: ch) (fixed_ops c pre post rl) /\ In r (ctx_chain c)
  | BlockArgument b _ =>
      exists r ch, In (b, r :: ch) (fixed_blocks c pre post rl) /\ In r (ctx_chain c)
  end.

(** Whether an operation is one of a list, by identity. *)
Definition among (ops : list Operation) (a : Operation) : bool :=
  existsb (Nat.eqb (op_id a)) (map op_id ops).

(** Modelled from the spec: the operations the pass rewrites, as their
    declarations in the [tf] dialect make them: a shape-query ([tf.Shape]) has
    one operand and one result and holds no region, and a resource-read
    ([tf.ReadVariableOp]) has one operand. *)
Definition op_verified (x : Operation) : bool :=
  match op_kind x with
  | ShapeOp =>
      Nat.eqb (length (op_operands x)) 1 && Nat.eqb (length (op_results x)) 1
      && Nat.eqb (length (op_regions x)) 0
  | ReadVariableOp => Nat.eqb (length (op_operands x)) 1
  | _ => true
  end.

Definition verified (ir : Operation) : bool := forallb op_verified (walk ir).

(** Modelled from the spec: the replicate construct, here the operation of
    layer [rl]: [n] replicas, one region of one block, and operands grouped in
    sets of [n], one set per argument of the block of the region.  The
    positions of the operands fit the 32 bits the code counts them on. *)
Definition replicate_verified (n : Z) (rl : Layer) : Prop :=
  l_kind rl = ReplicateOp n
  /\ l_regions_before rl = [] /\ l_blocks_before rl = []
  /\ l_blocks_after rl = [] /\ l_regions_after rl = []
  /\ (0 < n < 2147483648)%Z
  /\ length (l_operands rl) = Z.to_nat n * length (l_args rl)
  /\ (Z.of_nat (length (l_operands rl)) < two32)%Z.

(** The IRs [HoistReplicateInvariantOps] is meant for: the replicate, the
    operation of layer [rl], stands at position [c] between [pre] and [post]
    and holds [body]; identities are not shared, no use dangles, the
    operations are verified, a terminator of the body is a
    [tf_device.return], and no operation that the walk meets before an
    operation of the body uses a result of it. *)
Definition well_formed (n : Z) (c : Context) (pre post : list Operation)
    (rl : Layer) (body : list Operation) : Prop :=
  let ir := plug c (pre ++ fill rl body :: post) in
  unique_ids ir
  /\ no_dangling ir = true
  /\ verified ir = true
  /\ replicate_verified n rl
  /\ (forall a, In a body -> isTerminator (op_kind a) = true ->
                op_kind a = DeviceReturnOp)
  /\ (forall a, In a body ->
        existsb (uses_result_of (op_id a)) (preceding (op_id a) (walk ir)) = false).

(** How an operation of the body stands after the walk over the [tf.Shape]
    operations: it is the operation it was, by identity and kind, or it is
    the [tf.VariableShape] put in the place of a [tf.Shape]. *)
Definition shape_replaced (x x' : Operation) : Prop :=
  (op_id x' = op_id x /\ op_kind x' = op_kind x)
  \/ (op_kind x = ShapeOp /\ op_kind x' = VariableShapeOp).

(** The walk of line 137 over the [tf.Shape] operations under the replicate. *)
Definition shape_ops (rep : Operation) : list OpId :=
  map op_id (filter (fun o => isa_ShapeOp (op_kind o)) (walk rep)).

End ReplicateInvariantOpHoisting.

(** ** Sample programs *)

Module Samples.
Import IR.
Import String.StringSyntax.
Local Open Scope string_scope.

Definition T : MlirType := TensorType 0.

(** [func @f(%x, %y) -> (T, T) { %1 = "tf.Add"(%x, %y); return %1, %y }] *)
Definition func_add : Operation :=
  mkOperation 0 (FuncOp [T; T] [T; T]) [] []
    [mkRegion
       [mkBlock 0 [T; T]
          [mkOperation 1 (OtherOp "tf.Add" false)
             [BlockArgument 0 0; BlockArgument 0 1] [T] [];
           mkOperation 2 StdReturnOp [OpResult 1 0; BlockArgument 0 1] [] []]]].

(** A function of two blocks. *)
Definition func_two_blocks : Operation :=
  mkOperation 0 (FuncOp [T] [T]) [] []
    [mkRegion
       [mkBlock 0 [T] [mkOperation 1 (OtherOp "std.br" true) [] [] []];
        mkBlock 1 [] [mkOperation 2 StdReturnOp [BlockArgument 0 0] [] []]]].

(** A function without results. *)
Definition func_no_result : Operation :=
  mkOperation 0 (FuncOp [T] []) [] []
    [mkRegion
       [mkBlock 0 [T]
          [mkOperation 1 (OtherOp "tf.NoOp" false) [] [] [];
           mkOperation 2 StdReturnOp [] [] []]]].

(** [tf_device.replicate([%a0, %a1, %a2] as %r) {n = 3}] holding a
    [tf.Shape] of [%r], an operation on that shape, an operation on [%r], and
    an operation whose region uses the latter. *)
Definition replicate3 (body : list Operation) : Operation :=
  mkOperation 1 (ReplicateOp 3)
    [BlockArgument 0 0; BlockArgument 0 1; BlockArgument 0 2] []
    [mkRegion [mkBlock 1 [T] body]].

Definition shape_of_r : Operation :=
  mkOperation 2 ShapeOp [BlockArgument 1 0] [T] [].

Definition func_root : Layer :=
  mkLayer 0 (FuncOp [T; T; T] []) [] [] [] [] 0 [T; T; T] [] [].

Definition replicate3_layer : Layer :=
  mkLayer 1 (ReplicateOp 3)
    [BlockArgument 0 0; BlockArgument 0 1; BlockArgument 0 2] []
    [] [] 1 [T] [] [].

Definition std_return : Operation := mkOperation 5 StdReturnOp [] [] [].
Definition device_return : Operation := mkOperation 4 DeviceReturnOp [] [] [].

(** The block of the replicate, seen from the function. *)
Definition in_replicate3 : Context :=
  Under (AtRoot func_root) [] replicate3_layer [std_return].

Definition op_a : Operation :=
  mkOperation 3 (OtherOp "tf.opA" false) [OpResult 2 0] [T] [].

Definition func_shape : Operation :=
  plug in_replicate3 [shape_of_r; op_a; device_return].

(** [%7 = tf.ReadVariableOp(%r); %8 = tf.Shape(%7); %9 = tf.opC(%8)] in the
    replicate. *)
Definition read_of_r : Operation :=
  mkOperation 7 ReadVariableOp [BlockArgument 1 0] [T] [].

Definition shape_of_read : Operation :=
  mkOperation 8 ShapeOp [OpResult 7 0] [T] [].

Definition op_c : Operation :=
  mkOperation 9 (OtherOp "tf.opC" false) [OpResult 8 0] [T] [].

Definition func_read : Operation :=
  plug in_replicate3 [read_of_r; shape_of_read; op_c; device_return].

(** A replicate whose body holds an operation on a value of the function, an
    operation whose region uses [%r], and an operation on the first one. *)
Definition op_outer : Operation :=
  mkOperation 2 (OtherOp "tf.opA" false) [BlockArgument 0 1] [T] [].

Definition op_nested_r : Operation :=
  mkOperation 3 (OtherOp "tf.opB" false) [BlockArgument 0 2] [T]
    [mkRegion
       [mkBlock 2 []
          [mkOperation 6 (OtherOp "tf.opD" true) [BlockArgument 1 0] [] []]]].

Definition op_on_outer : Operation :=
  mkOperation 7 (OtherOp "tf.opE" false) [OpResult 2 0] [T] [].

Definition hoist_body : list Operation :=
  [op_outer; op_nested_r; op_on_outer; device_return].

Definition func_hoist : Operation :=
  plug (AtRoot func_root) [fill replicate3_layer hoist_body; std_return].

(** The operation nested in [op_nested_r], and an operation without
    operands. *)
Definition op_d : Operation :=
  mkOperation 6 (OtherOp "tf.opD" true) [BlockArgument 1 0] [] [].

Definition op_const : Operation :=
  mkOperation 2 (OtherOp "tf.Const" false) [] [T] [].

(** A replicate whose body holds an operation on values of the function, with
    a nested operation on a value of the function. *)
Definition op_inner_outer : Operation :=
  mkOperation 6 (OtherOp "tf.opD" true) [BlockArgument 0 0] [] [].

Definition op_outer_nested : Operation :=
  mkOperation 3 (OtherOp "tf.opB" false) [BlockArgument 0 2] [T]
    [mkRegion [mkBlock 2 [] [op_inner_outer]]].

Definition func_nested : Operation :=
  plug (AtRoot func_root)
    [fill replicate3_layer [op_outer_nested; device_return]; std_return].

(** A function of one result whose return has two operands, and a function of
    two results whose return has one. *)
Definition func_long_return : Operation :=
  mkOperation 0 (FuncOp [T; T] [T]) [] []
    [mkRegion
       [mkBlock 0 [T; T]
          [mkOperation 1 (OtherOp "tf.Add" false)
             [BlockArgument 0 0; BlockArgument 0 1] [T] [];
           mkOperation 2 StdReturnOp [OpResult 1 0; BlockArgument 0 1] [] []]]].

Definition func_short_return : Operation :=
  mkOperation 0 (FuncOp [T] [T; T]) [] []
    [mkRegion
       [mkBlock 0 [T]
          [mkOperation 1 StdReturnOp [BlockArgument 0 0] [] []]]].

(** A replicate that holds the two kinds of [tf.Shape] the pass rewrites: one
    of [%r], and one of a [tf.ReadVariableOp] of [%r] whose result has two
    users. *)
Definition op_f : Operation :=
  mkOperation 6 (OtherOp "tf.opF" false) [OpResult 8 0; OpResult 9 0] [T] [].

Definition shapes_body : list Operation :=
  [shape_of_r; op_a; read_of_r; shape_of_read; op_c; op_f; device_return].

Definition func_shapes : Operation :=
  plug (AtRoot func_root) [fill replicate3_layer shapes_body; std_return].

End Samples.

(** * Properties *)

(** ** Facts on the IR model *)

Module IRFacts.
Import IR.

#[local] Arguments fill : simpl never.

Lemma walk_self (o : Operation) : In o (walk o).
Proof. destruct o. left. reflexivity. Qed.

Lemma walk_fill (l : Layer) (ops : list Operation) :
  walk (fill l ops)
  = fill l ops
    :: flat_map walk_region (l_regions_before l)
    ++ (flat_map walk_block (l_blocks_before l)
        ++ flat_map walk ops
        ++ flat_map walk_block (l_blocks_after l))
    ++ flat_map walk_region (l_regions_after l).
Proof.
  unfold fill. cbn [walk]. rewrite flat_map_app. cbn [flat_map walk_region].
  rewrite flat_map_app. cbn [flat_map walk_block].
  rewrite <- !app_assoc. reflexivity.
Qed.

Lemma blocks_of_fill (l : Layer) (ops : list Operation) :
  blocks_of (fill l ops)
  = flat_map blocks_of_region (l_regions_before l)
    ++ (flat_map blocks_of_block (l_blocks_before l)
        ++ (mkBlock (l_block l) (l_args l) ops :: flat_map blocks_of ops)
        ++ flat_map blocks_of_block (l_blocks_after l))
    ++ flat_map blocks_of_region (l_regions_after l).
Proof.
  unfold fill. cbn [blocks_of]. rewrite flat_map_app.
  cbn [flat_map blocks_of_region].
  rewrite flat_map_app. cbn [flat_map blocks_of_block].
  rewrite <- !app_assoc. reflexivity.
Qed.

Lemma walk_plug_in (c : Context) (ops : list Operation) (o : Operation) :
  In o (flat_map walk ops) -> In o (walk (plug c ops)).
Proof.
  revert ops. induction c as [l | c IH before l after]; intros ops Hin; cbn [plug].
  - rewrite walk_fill. right. rewrite !in_app_iff. auto.
  - apply IH. rewrite flat_map_app. cbn [flat_map]. rewrite walk_fill.
    rewrite in_app_iff. right. right. rewrite !in_app_iff. auto 10.
Qed.

Lemma blocks_of_plug_in (c : Context) (ops : list Operation) (b : Block) :
  In b (flat_map blocks_of ops) -> In b (blocks_of (plug c ops)).
Proof.
  revert ops. induction c as [l | c IH before l after]; intros ops Hin; cbn [plug].
  - rewrite blocks_of_fill. rewrite !in_app_iff. cbn [In]. auto 10.
  - apply IH. rewrite flat_map_app. cbn [flat_map]. rewrite blocks_of_fill.
    rewrite !in_app_iff. cbn [In]. rewrite ?in_app_iff. auto 10.
Qed.

(** Permutations of concatenations. *)
Lemma perm_pull {A : Type} (a l x y : list A) :
  Permutation l (x ++ y) -> Permutation (a ++ l) (x ++ a ++ y).
Proof.
  intros H. rewrite H. rewrite !app_assoc.
  apply Permutation_app_tail. apply Permutation_app_comm.
Qed.

Lemma perm_pull_last {A : Type} (a l x : list A) :
  Permutation l x -> Permutation (a ++ l) (x ++ a).
Proof. intros H. rewrite H. apply Permutation_app_comm. Qed.

Ltac perm_step :=
  repeat rewrite <- app_assoc; repeat rewrite app_nil_r; repeat rewrite app_nil_l;
  lazymatch goal with
  | |- Permutation [] [] => constructor
  | |- Permutation ?a ?a => reflexivity
  | |- Permutation (?a ++ ?l) (?a ++ ?r) => apply Permutation_app_head
  | |- Permutation (?a ++ ?l) (?r ++ ?rest) => perm_find_top a r rest
  end
with perm_find_top a r rest :=
  lazymatch rest with
  | a ++ ?rest' => apply (@perm_pull _ a _ r rest')
  | a => apply (@perm_pull_last _ a _ r)
  | ?r' ++ ?rest' =>
      rewrite (app_assoc r r' rest'); perm_find_top a (r ++ r') rest'
  end.

Ltac solve_perm := repeat perm_step.

(** The identities of an IR are those around the position and those in the
    block at the position. *)
Lemma op_ids_fill (l : Layer) (ops : list Operation) :
  Permutation (op_ids (fill l ops))
    ((l_id l :: map op_id (layer_side_ops l)) ++ map op_id (flat_map walk ops)).
Proof.
  unfold op_ids, layer_side_ops. rewrite walk_fill. cbn [map].
  rewrite !map_app. change (op_id (fill l ops)) with (l_id l).
  change (l_id l :: ?x) with ([l_id l] ++ x).
  solve_perm.
Qed.

Lemma op_ids_plug (c : Context) (ops : list Operation) :
  Permutation (op_ids (plug c ops))
    (ctx_op_ids c ++ map op_id (flat_map walk ops)).
Proof.
  revert ops. induction c as [l | c IH before l after]; intros ops; cbn [plug].
  - apply op_ids_fill.
  - rewrite IH. rewrite flat_map_app. cbn [flat_map]. rewrite !map_app.
    fold (op_ids (fill l ops)). rewrite op_ids_fill.
    cbn [ctx_op_ids].
    change (l_id l :: ?x) with ([l_id l] ++ x).
    solve_perm.
Qed.

Lemma block_ids_fill (l : Layer) (ops : list Operation) :
  Permutation (block_ids (fill l ops))
    ((l_block l :: map blk_id (layer_side_blocks l))
     ++ map blk_id (flat_map blocks_of ops)).
Proof.
  unfold block_ids, layer_side_blocks. rewrite blocks_of_fill. rewrite !map_app.
  cbn [map blk_id].
  change (l_block l :: ?x) with ([l_block l] ++ x).
  solve_perm.
Qed.

Lemma block_ids_plug (c : Context) (ops : list Operation) :
  Permutation (block_ids (plug c ops))
    (ctx_block_ids c ++ map blk_id (flat_map blocks_of ops)).
Proof.
  revert ops. induction c as [l | c IH before l after]; intros ops; cbn [plug].
  - apply block_ids_fill.
  - rewrite IH. rewrite flat_map_app. cbn [flat_map]. rewrite !map_app.
    fold (block_ids (fill l ops)). rewrite block_ids_fill.
    cbn [ctx_block_ids].
    change (l_block l :: ?x) with ([l_block l] ++ x).
    solve_perm.
Qed.

Lemma tree_ind (P : Operation -> Prop) (Q : Region -> Prop) (B : Block -> Prop) :
  (forall i k vs ts rs, Forall Q rs -> P (mkOperation i k vs ts rs)) ->
  (forall bs, Forall B bs -> Q (mkRegion bs)) ->
  (forall i a os, Forall P os -> B (mkBlock i a os)) ->
  (forall o, P o) /\ (forall r, Q r) /\ (forall b, B b).
Proof.
  intros HP HQ HB. repeat split.
  - apply (Operation_tree_ind HP HQ HB).
  - apply (Region_tree_ind HP HQ HB).
  - apply (Block_tree_ind HP HQ HB).
Qed.

Lemma nodes_fill (l : Layer) (ops : list Operation) :
  Permutation (nodes (fill l ops))
    ((strip (fill l []) :: map strip (layer_side_ops l))
     ++ map strip (flat_map walk ops)).
Proof.
  unfold nodes, layer_side_ops. rewrite walk_fill. cbn [map].
  rewrite !map_app. change (strip (fill l ops)) with (strip (fill l [])).
  change (strip (fill l []) :: ?x) with ([strip (fill l [])] ++ x).
  solve_perm.
Qed.

Lemma nodes_plug (c : Context) (ops : list Operation) :
  Permutation (nodes (plug c ops)) (ctx_nodes c ++ map strip (flat_map walk ops)).
Proof.
  revert ops. induction c as [l | c IH before l after]; intros ops; cbn [plug].
  - apply nodes_fill.
  - rewrite IH. rewrite flat_map_app. cbn [flat_map]. rewrite !map_app.
    fold (nodes (fill l ops)). rewrite nodes_fill.
    cbn [ctx_nodes].
    change (strip (fill l []) :: ?x) with ([strip (fill l [])] ++ x).
    solve_perm.
Qed.

Lemma block_heads_fill (l : Layer) (ops : list Operation) :
  Permutation (block_heads (fill l ops))
    ((mkBlock (l_block l) (l_args l) [] :: map strip_block (layer_side_blocks l))
     ++ map strip_block (flat_map blocks_of ops)).
Proof.
  unfold block_heads, layer_side_blocks. rewrite blocks_of_fill. rewrite !map_app.
  cbn [map].
  change (strip_block (mkBlock (l_block l) (l_args l) ops))
    with (mkBlock (l_block l) (l_args l) []).
  change (mkBlock (l_block l) (l_args l) [] :: ?x)
    with ([mkBlock (l_block l) (l_args l) []] ++ x).
  solve_perm.
Qed.

Lemma block_heads_plug (c : Context) (ops : list Operation) :
  Permutation (block_heads (plug c ops))
    (ctx_block_heads c ++ map strip_block (flat_map blocks_of ops)).
Proof.
  revert ops. induction c as [l | c IH before l after]; intros ops; cbn [plug].
  - apply block_heads_fill.
  - rewrite IH. rewrite flat_map_app. cbn [flat_map]. rewrite !map_app.
    fold (block_heads (fill l ops)). rewrite block_heads_fill.
    cbn [ctx_block_heads].
    change (mkBlock (l_block l) (l_args l) [] :: ?x)
      with ([mkBlock (l_block l) (l_args l) []] ++ x).
    solve_perm.
Qed.

(** *** Lookup by identity *)

Lemma find_unique {A : Type} (f : A -> nat) (l : list A) (a : A) :
  NoDup (map f l) -> In a l -> find (fun x => Nat.eqb (f x) (f a)) l = Some a.
Proof.
  induction l as [|x l IH]; simpl; [tauto|].
  intros Hnd [-> | Hin].
  - rewrite Nat.eqb_refl. reflexivity.
  - inversion Hnd as [|? ? Hx Hnd']; subst.
    destruct (Nat.eqb (f x) (f a)) eqn:E.
    + apply Nat.eqb_eq in E. exfalso. apply Hx. rewrite E.
      apply in_map. exact Hin.
    + apply IH; assumption.
Qed.

Lemma find_op_unique (ir o : Operation) :
  NoDup (op_ids ir) -> In o (walk ir) -> find_op ir (op_id o) = Some o.
Proof. intros Hnd Hin. unfold find_op. apply (find_unique op_id); assumption. Qed.

Lemma find_op_Some (ir : Operation) (i : OpId) (o : Operation) :
  find_op ir i = Some o -> In o (walk ir) /\ op_id o = i.
Proof.
  unfold find_op. intros H. apply find_some in H. destruct H as [Hin He].
  apply Nat.eqb_eq in He. auto.
Qed.

Lemma find_op_None (ir : Operation) (i : OpId) :
  ~ In i (op_ids ir) -> find_op ir i = None.
Proof.
  intros Hn. unfold find_op.
  destruct (find _ _) as [o|] eqn:E; [|reflexivity].
  apply find_some in E. destruct E as [Hin He]. apply Nat.eqb_eq in He.
  exfalso. apply Hn. rewrite <- He. apply in_map. exact Hin.
Qed.

Lemma find_op_plug (c : Context) (pre post : list Operation) (o : Operation) :
  NoDup (op_ids (plug c (pre ++ o :: post))) ->
  find_op (plug c (pre ++ o :: post)) (op_id o) = Some o.
Proof.
  intros Hnd. apply find_op_unique; [exact Hnd|].
  apply walk_plug_in. rewrite flat_map_app. cbn [flat_map].
  rewrite !in_app_iff. right. left. apply walk_self.
Qed.

(** *** Rewriting where the target is absent *)

Lemma map_id_Forall {A : Type} (g : A -> A) (l : list A) :
  Forall (fun a => g a = a) l -> map g l = l.
Proof. induction 1; simpl; congruence. Qed.

Lemma flat_map_single_Forall {A : Type} (g : A -> list A) (l : list A) :
  Forall (fun a => g a = [a]) l -> flat_map g l = l.
Proof. induction 1 as [|a l Ha _ IH]; simpl; [reflexivity|]. rewrite Ha, IH. reflexivity. Qed.

Lemma rewrite_absent (f : Operation -> list Operation) (t : OpId) :
  by_id f t ->
  (forall o, ~ In t (op_ids o) -> rewrite_op f o = [o])
  /\ (forall r, ~ In t (map op_id (walk_region r)) -> rewrite_region f r = r)
  /\ (forall b, ~ In t (map op_id (walk_block b)) -> rewrite_block f b = b).
Proof.
  intros Hf. apply tree_ind.
  - intros i k vs ts rs IH Hn. unfold op_ids in Hn.
    cbn [walk map In op_id] in Hn.
    cbn [rewrite_op]. rewrite map_id_Forall.
    + apply Hf. simpl. intros ->. tauto.
    + rewrite Forall_forall in *. intros r Hr. apply IH; [exact Hr|].
      intros Hin. apply Hn. right. rewrite in_map_iff in *.
      destruct Hin as (x & Hx & Hin). exists x. split; [exact Hx|].
      apply in_flat_map. eauto.
  - intros bs IH Hn. cbn [rewrite_region]. f_equal. apply map_id_Forall.
    rewrite Forall_forall in *. intros b Hb. apply IH; [exact Hb|].
    intros Hin. apply Hn. cbn [walk_region]. rewrite in_map_iff in *.
    destruct Hin as (x & Hx & Hin). exists x. split; [exact Hx|].
    apply in_flat_map. eauto.
  - intros i a os IH Hn. cbn [rewrite_block]. f_equal.
    apply flat_map_single_Forall.
    rewrite Forall_forall in *. intros o Ho. apply IH; [exact Ho|].
    intros Hin. apply Hn. cbn [walk_block]. unfold op_ids in Hin.
    rewrite in_map_iff in *.
    destruct Hin as (x & Hx & Hin). exists x. split; [exact Hx|].
    apply in_flat_map. eauto.
Qed.

Lemma rewrite_ops_absent (f : Operation -> list Operation) (t : OpId)
    (ops : list Operation) :
  by_id f t ->
  ~ In t (map op_id (flat_map walk ops)) ->
  flat_map (rewrite_op f) ops = ops.
Proof.
  intros Hf Hn. apply flat_map_single_Forall. rewrite Forall_forall.
  intros o Ho. apply (rewrite_absent Hf). intros Hin. apply Hn.
  unfold op_ids in Hin. rewrite in_map_iff in *.
  destruct Hin as (x & Hx & Hin). exists x. split; [exact Hx|].
  apply in_flat_map. eauto.
Qed.

Lemma rewrite_regions_absent (f : Operation -> list Operation) (t : OpId)
    (rs : list Region) :
  by_id f t ->
  ~ In t (map op_id (flat_map walk_region rs)) ->
  map (rewrite_region f) rs = rs.
Proof.
  intros Hf Hn. apply map_id_Forall. rewrite Forall_forall.
  intros r Hr. apply (rewrite_absent Hf). intros Hin. apply Hn.
  rewrite in_map_iff in *.
  destruct Hin as (x & Hx & Hin). exists x. split; [exact Hx|].
  apply in_flat_map. eauto.
Qed.

Lemma rewrite_blocks_absent (f : Operation -> list Operation) (t : OpId)
    (bs : list Block) :
  by_id f t ->
  ~ In t (map op_id (flat_map walk_block bs)) ->
  map (rewrite_block f) bs = bs.
Proof.
  intros Hf Hn. apply map_id_Forall. rewrite Forall_forall.
  intros b Hb. apply (rewrite_absent Hf). intros Hin. apply Hn.
  rewrite in_map_iff in *.
  destruct Hin as (x & Hx & Hin). exists x. split; [exact Hx|].
  apply in_flat_map. eauto.
Qed.

(** Rewriting by identity acts in the block that holds the target. *)
Lemma rewrite_fill_regions (f : Operation -> list Operation) (t : OpId)
    (l : Layer) (ops : list Operation) :
  by_id f t ->
  ~ In t (map op_id (layer_side_ops l)) ->
  map (rewrite_region f) (op_regions (fill l ops))
  = op_regions (fill l (flat_map (rewrite_op f) ops)).
Proof.
  intros Hf Hn. unfold layer_side_ops in Hn.
  rewrite !map_app, !in_app_iff in Hn.
  unfold fill. cbn [op_regions]. rewrite map_app. cbn [map rewrite_region].
  rewrite map_app. cbn [map rewrite_block].
  rewrite (rewrite_regions_absent (l_regions_before l) Hf) by tauto.
  rewrite (rewrite_regions_absent (l_regions_after l) Hf) by tauto.
  rewrite (rewrite_blocks_absent (l_blocks_before l) Hf) by tauto.
  rewrite (rewrite_blocks_absent (l_blocks_after l) Hf) by tauto.
  reflexivity.
Qed.

Lemma rewrite_plug (f : Operation -> list Operation) (t : OpId) (c : Context)
    (ops : list Operation) :
  by_id f t ->
  ~ In t (ctx_op_ids c) ->
  rewrite f (plug c ops) = plug c (flat_map (rewrite_op f) ops).
Proof.
  intros Hf. revert ops.
  induction c as [l | c IH before l after]; intros ops Hn; cbn [plug].
  - cbn [ctx_op_ids] in Hn. cbn [In] in Hn.
    pose proof (@rewrite_fill_regions f t l ops Hf) as Hr.
    unfold fill in *. cbn [rewrite op_regions] in *. rewrite Hr by tauto.
    reflexivity.
  - cbn [ctx_op_ids] in Hn. cbn [In] in Hn. rewrite !in_app_iff in Hn.
    rewrite IH by tauto. f_equal.
    rewrite flat_map_app. cbn [flat_map].
    rewrite (rewrite_ops_absent before Hf) by tauto.
    rewrite (rewrite_ops_absent after Hf) by tauto.
    f_equal.
    pose proof (@rewrite_fill_regions f t l ops Hf) as Hr.
    unfold fill in *. cbn [rewrite_op op_regions] in *. rewrite Hr by tauto.
    rewrite Hf; [reflexivity|].
    cbn [op_id]. intros E. apply Hn. left. exact E.
Qed.

(** *** Rewriting of operands keeps the structure *)

Lemma walk_map_operands (g : OpId -> list Value -> list Value) :
  (forall o, walk (map_operands g o) = map (map_operands g) (walk o))
  /\ (forall r, walk_region (map_operands_region g r)
                = map (map_operands g) (walk_region r))
  /\ (forall b, walk_block (map_operands_block g b)
                = map (map_operands g) (walk_block b)).
Proof.
  apply tree_ind.
  - intros i k vs ts rs IH. cbn [map_operands walk].
    cbn [map map_operands]. f_equal.
    induction IH as [|r rs Hr _ IHrs]; [reflexivity|].
    cbn [map flat_map]. rewrite map_app, Hr, IHrs. reflexivity.
  - intros bs IH. cbn [map_operands_region walk_region].
    induction IH as [|b bs Hb _ IHbs]; [reflexivity|].
    cbn [map flat_map]. rewrite map_app, Hb, IHbs. reflexivity.
  - intros i a os IH. cbn [map_operands_block walk_block].
    induction IH as [|o os Ho _ IHos]; [reflexivity|].
    cbn [map flat_map]. rewrite map_app, Ho, IHos. reflexivity.
Qed.

Lemma op_id_map_operands g (o : Operation) : op_id (map_operands g o) = op_id o.
Proof. destruct o; reflexivity. Qed.

Lemma op_kind_map_operands g (o : Operation) : op_kind (map_operands g o) = op_kind o.
Proof. destruct o; reflexivity. Qed.

Lemma op_results_map_operands g (o : Operation) :
  op_results (map_operands g o) = op_results o.
Proof. destruct o; reflexivity. Qed.

Lemma op_operands_map_operands g (o : Operation) :
  op_operands (map_operands g o) = g (op_id o) (op_operands o).
Proof. destruct o; reflexivity. Qed.

Lemma op_ids_map_operands g (o : Operation) : op_ids (map_operands g o) = op_ids o.
Proof.
  unfold op_ids. rewrite (proj1 (walk_map_operands g)), map_map.
  apply map_ext. intros x. apply op_id_map_operands.
Qed.

Lemma blocks_of_map_operands (g : OpId -> list Value -> list Value) :
  (forall o, blocks_of (map_operands g o) = map (map_operands_block g) (blocks_of o))
  /\ (forall r, blocks_of_region (map_operands_region g r)
                = map (map_operands_block g) (blocks_of_region r))
  /\ (forall b, blocks_of_block (map_operands_block g b)
                = map (map_operands_block g) (blocks_of_block b)).
Proof.
  apply tree_ind.
  - intros i k vs ts rs IH. cbn [map_operands blocks_of].
    induction IH as [|r rs Hr _ IHrs]; [reflexivity|].
    cbn [map flat_map]. rewrite map_app, Hr, IHrs. reflexivity.
  - intros bs IH. cbn [map_operands_region blocks_of_region].
    induction IH as [|b bs Hb _ IHbs]; [reflexivity|].
    cbn [map flat_map]. rewrite map_app, Hb, IHbs. reflexivity.
  - intros i a os IH. cbn [map_operands_block blocks_of_block map]. f_equal.
    induction IH as [|o os Ho _ IHos]; [reflexivity|].
    cbn [map flat_map]. rewrite map_app, Ho, IHos. reflexivity.
Qed.

Lemma blk_id_map_operands g (b : Block) : blk_id (map_operands_block g b) = blk_id b.
Proof. destruct b; reflexivity. Qed.

Lemma blk_args_map_operands g (b : Block) :
  blk_args (map_operands_block g b) = blk_args b.
Proof. destruct b; reflexivity. Qed.

Lemma block_ids_map_operands g (o : Operation) :
  block_ids (map_operands g o) = block_ids o.
Proof.
  unfold block_ids. rewrite (proj1 (blocks_of_map_operands g)), map_map.
  apply map_ext. intros x. apply blk_id_map_operands.
Qed.

Lemma find_map {A : Type} (p : A -> bool) (h : A -> A) (l : list A) :
  (forall a, p (h a) = p a) ->
  find p (map h l) = option_map h (find p l).
Proof.
  intros Hp. induction l as [|a l IH]; simpl; [reflexivity|].
  rewrite Hp. destruct (p a); [reflexivity | exact IH].
Qed.

Lemma find_op_map_operands g (ir : Operation) (i : OpId) :
  find_op (map_operands g ir) i = option_map (map_operands g) (find_op ir i).
Proof.
  unfold find_op. rewrite (proj1 (walk_map_operands g)).
  apply find_map. intros a. rewrite op_id_map_operands. reflexivity.
Qed.

(** Rewriting of operands is a rewriting of the blocks that keeps every
    operation in place. *)
Lemma rewrite_with_operands (g : OpId -> list Value -> list Value) :
  (forall o, rewrite_op (with_operands g) o = [map_operands g o])
  /\ (forall r, rewrite_region (with_operands g) r = map_operands_region g r)
  /\ (forall b, rewrite_block (with_operands g) b = map_operands_block g b).
Proof.
  apply tree_ind.
  - intros i k vs ts rs IH. cbn [rewrite_op map_operands].
    unfold with_operands, set_operands. cbn [op_id op_kind op_operands op_results op_regions].
    do 2 f_equal. apply map_ext_Forall. exact IH.
  - intros bs IH. cbn [rewrite_region map_operands_region]. f_equal.
    apply map_ext_Forall. exact IH.
  - intros i a os IH. cbn [rewrite_block map_operands_block]. f_equal.
    induction IH as [|o os Ho _ IHos]; [reflexivity|].
    cbn [flat_map map]. rewrite Ho, IHos. reflexivity.
Qed.

Lemma map_operands_rewrite g (ir : Operation) :
  g (op_id ir) (op_operands ir) = op_operands ir ->
  map_operands g ir = rewrite (with_operands g) ir.
Proof.
  destruct ir as [i k vs ts rs]. cbn [op_id op_operands map_operands rewrite].
  intros ->. f_equal. apply map_ext. intros r.
  symmetry. apply (rewrite_with_operands g).
Qed.

(** *** Locations *)

Lemma op_locations_keys :
  (forall o ctx, map fst (op_locations ctx o) = op_ids o)
  /\ (forall r ctx, map fst (region_op_locations ctx r) = map op_id (walk_region r))
  /\ (forall b ctx, map fst (block_op_locations ctx b) = map op_id (walk_block b)).
Proof.
  apply tree_ind.
  - intros i k vs ts rs IH ctx. unfold op_ids. cbn [op_locations walk].
    cbn [map fst op_id]. f_equal.
    generalize 0. induction IH as [|r rs Hr _ IHrs]; intros n; [reflexivity|].
    cbn [flat_mapi flat_map]. rewrite !map_app, Hr, IHrs. reflexivity.
  - intros bs IH ctx. cbn [region_op_locations walk_region].
    induction IH as [|b bs Hb _ IHbs]; [reflexivity|].
    cbn [flat_map]. rewrite !map_app, Hb, IHbs. reflexivity.
  - intros i a os IH ctx. cbn [block_op_locations walk_block].
    induction IH as [|o os Ho _ IHos]; [reflexivity|].
    cbn [flat_map]. rewrite !map_app, Ho, IHos. reflexivity.
Qed.

Lemma block_locations_keys :
  (forall o ctx, map fst (block_locations ctx o) = block_ids o)
  /\ (forall r ctx, map fst (region_block_locations ctx r)
                    = map blk_id (blocks_of_region r))
  /\ (forall b ctx, map fst (block_block_locations ctx b)
                    = map blk_id (blocks_of_block b)).
Proof.
  apply tree_ind.
  - intros i k vs ts rs IH ctx. unfold block_ids. cbn [block_locations blocks_of].
    generalize 0. induction IH as [|r rs Hr _ IHrs]; intros n; [reflexivity|].
    cbn [flat_mapi flat_map]. rewrite !map_app, Hr, IHrs. reflexivity.
  - intros bs IH ctx. cbn [region_block_locations blocks_of_region].
    induction IH as [|b bs Hb _ IHbs]; [reflexivity|].
    cbn [flat_map]. rewrite !map_app, Hb, IHbs. reflexivity.
  - intros i a os IH ctx. cbn [block_block_locations blocks_of_block map fst blk_id].
    f_equal.
    induction IH as [|o os Ho _ IHos]; [reflexivity|].
    cbn [flat_map]. rewrite !map_app. unfold block_ids in Ho. rewrite Ho, IHos.
    reflexivity.
Qed.

Lemma lookup_unique {A : Type} (l : list (nat * A)) (i : nat) (x : A) :
  NoDup (map fst l) -> In (i, x) l -> lookup i l = Some x.
Proof.
  intros Hnd Hin. unfold lookup.
  pose proof (@find_unique _ fst l (i, x) Hnd Hin) as H. cbn [fst] in H.
  rewrite H. reflexivity.
Qed.

Lemma flat_mapi_app {A B : Type} (f : nat -> A -> list B) (n : nat) (l l' : list A) :
  flat_mapi f n (l ++ l') = flat_mapi f n l ++ flat_mapi f (n + length l) l'.
Proof.
  revert n. induction l as [|a l IH]; intros n; cbn [flat_mapi app length].
  - rewrite Nat.add_0_r. reflexivity.
  - rewrite IH, <- app_assoc. do 3 f_equal. lia.
Qed.

(** The operations and blocks of the block at a position lie below the regions
    of the position. *)
Lemma op_locations_fill_in (l : Layer) (ops : list Operation) (ctx : list RegionRef)
    (e : OpId * list RegionRef) :
  In e (flat_map (op_locations (layer_region l :: ctx)) ops) ->
  In e (op_locations ctx (fill l ops)).
Proof.
  intros Hin. unfold fill. cbn [op_locations]. rewrite flat_mapi_app.
  cbn [flat_mapi region_op_locations]. rewrite flat_map_app.
  cbn [flat_map block_op_locations].
  unfold layer_region in Hin. rewrite Nat.add_0_l.
  cbn [In]. rewrite !in_app_iff. tauto.
Qed.

Lemma block_locations_fill_in (l : Layer) (ops : list Operation) (ctx : list RegionRef)
    (e : BlockId * list RegionRef) :
  In e (flat_map (block_locations (layer_region l :: ctx)) ops) ->
  In e (block_locations ctx (fill l ops)).
Proof.
  intros Hin. unfold fill. cbn [block_locations]. rewrite flat_mapi_app.
  cbn [flat_mapi region_block_locations]. rewrite flat_map_app.
  cbn [flat_map block_block_locations].
  unfold layer_region in Hin. rewrite Nat.add_0_l.
  rewrite !in_app_iff. cbn [In]. rewrite ?in_app_iff. tauto.
Qed.

Lemma block_locations_fill_block (l : Layer) (ops : list Operation)
    (ctx : list RegionRef) :
  In (l_block l, layer_region l :: ctx) (block_locations ctx (fill l ops)).
Proof.
  unfold fill. cbn [block_locations]. rewrite flat_mapi_app.
  cbn [flat_mapi region_block_locations]. rewrite flat_map_app.
  cbn [flat_map block_block_locations].
  unfold layer_region. rewrite Nat.add_0_l.
  rewrite !in_app_iff. cbn [In]. tauto.
Qed.

Lemma op_locations_self (o : Operation) (ctx : list RegionRef) :
  In (op_id o, ctx) (op_locations ctx o).
Proof. destruct o. left. reflexivity. Qed.

Lemma op_locations_plug_in (c : Context) (ops : list Operation)
    (e : OpId * list RegionRef) :
  In e (flat_map (op_locations (ctx_chain c)) ops) ->
  In e (op_locations [] (plug c ops)).
Proof.
  revert ops. induction c as [l | c IH before l after]; intros ops Hin;
    cbn [plug ctx_chain] in *.
  - apply op_locations_fill_in. exact Hin.
  - apply IH. rewrite flat_map_app. cbn [flat_map]. rewrite !in_app_iff.
    right. left. apply op_locations_fill_in. exact Hin.
Qed.

Lemma block_locations_plug_in (c : Context) (ops : list Operation)
    (e : BlockId * list RegionRef) :
  In e (flat_map (block_locations (ctx_chain c)) ops) ->
  In e (block_locations [] (plug c ops)).
Proof.
  revert ops. induction c as [l | c IH before l after]; intros ops Hin;
    cbn [plug ctx_chain] in *.
  - apply block_locations_fill_in. exact Hin.
  - apply IH. rewrite flat_map_app. cbn [flat_map]. rewrite !in_app_iff.
    right. left. apply block_locations_fill_in. exact Hin.
Qed.

Lemma walk_unfold (o : Operation) :
  walk o = o :: flat_map walk_region (op_regions o).
Proof. destruct o; reflexivity. Qed.

(** In an IR without shared identities, the identity of an operation is met
    nowhere else. *)
Lemma NoDup_plug_focus (c : Context) (pre post : list Operation) (o : Operation) :
  NoDup (op_ids (plug c (pre ++ o :: post))) ->
  ~ In (op_id o)
      (ctx_op_ids c ++ map op_id (flat_map walk pre)
       ++ map op_id (flat_map walk post)
       ++ map op_id (flat_map walk_region (op_regions o))).
Proof.
  intros Hnd.
  assert (Hp : Permutation (op_ids (plug c (pre ++ o :: post)))
                 ([op_id o] ++ ctx_op_ids c ++ map op_id (flat_map walk pre)
                  ++ map op_id (flat_map walk post)
                  ++ map op_id (flat_map walk_region (op_regions o)))).
  { rewrite op_ids_plug. rewrite flat_map_app. cbn [flat_map].
    rewrite walk_unfold. rewrite !map_app. cbn [map].
    change (op_id o :: ?x) with ([op_id o] ++ x). solve_perm. }
  apply (Permutation_NoDup Hp) in Hnd. cbn [app] in Hnd.
  apply NoDup_cons_iff in Hnd. tauto.
Qed.

Lemma walk_plug (c : Context) (ops : list Operation) :
  Permutation (walk (plug c ops))
    (ctx_spine_ops c ops ++ ctx_side_ops c ++ flat_map walk ops).
Proof.
  revert ops. induction c as [l | c IH before l after]; intros ops;
    cbn [plug ctx_spine_ops ctx_side_ops].
  - rewrite walk_fill. unfold layer_side_ops.
    change (fill l ops :: ?x) with ([fill l ops] ++ x). solve_perm.
  - rewrite IH. rewrite flat_map_app. cbn [flat_map]. rewrite walk_fill.
    unfold layer_side_ops.
    set (sp := ctx_spine_ops c (before ++ fill l ops :: after)).
    set (o := fill l ops).
    change (o :: ?x) with ([o] ++ x).
    solve_perm.
Qed.

(** The walk of an IR, around the block at a position. *)
Lemma walk_fill_around (l : Layer) (ops : list Operation) :
  walk (fill l ops) = layer_walk_before l ops ++ flat_map walk ops ++ layer_walk_after l.
Proof.
  rewrite walk_fill. unfold layer_walk_before, layer_walk_after.
  cbn [app]. rewrite <- !app_assoc. reflexivity.
Qed.

Lemma walk_plug_around (c : Context) (ops : list Operation) :
  walk (plug c ops) = ctx_walk_before c ops ++ flat_map walk ops ++ ctx_walk_after c.
Proof.
  revert ops. induction c as [l | c IH before l after]; intros ops;
    cbn [plug ctx_walk_before ctx_walk_after].
  - apply walk_fill_around.
  - rewrite IH. rewrite flat_map_app. cbn [flat_map]. rewrite walk_fill_around.
    rewrite <- !app_assoc. reflexivity.
Qed.

(** What the walk meets before the block at a position does not depend, apart
    from the operations it holds, on what the block holds. *)
Lemma strip_ctx_walk_before (c : Context) (ops ops' : list Operation) :
  map strip (ctx_walk_before c ops) = map strip (ctx_walk_before c ops').
Proof.
  revert ops ops'. induction c as [l | c IH before l after]; intros ops ops';
    cbn [ctx_walk_before].
  - reflexivity.
  - rewrite !map_app. f_equal. apply IH.
Qed.

Lemma uses_result_of_strip (op : OpId) (x : Operation) :
  uses_result_of op (strip x) = uses_result_of op x.
Proof. reflexivity. Qed.

Lemma preceding_split (p s : list Operation) (a : Operation) :
  NoDup (map op_id (p ++ a :: s)) -> preceding (op_id a) (p ++ a :: s) = p.
Proof.
  induction p as [|x p IH]; cbn [app map preceding]; intros Hnd.
  - rewrite Nat.eqb_refl. reflexivity.
  - apply NoDup_cons_iff in Hnd. destruct Hnd as [Hx Hnd].
    destruct (Nat.eqb_spec (op_id x) (op_id a)) as [E|_].
    + exfalso. apply Hx. rewrite E, map_app. apply in_or_app. right. left. reflexivity.
    + f_equal. apply IH. exact Hnd.
Qed.

(** The operations met before an operation that stands in the block at a
    position. *)
Lemma preceding_plug (c : Context) (pre post : list Operation) (a : Operation) :
  NoDup (op_ids (plug c (pre ++ a :: post))) ->
  preceding (op_id a) (walk (plug c (pre ++ a :: post)))
  = ctx_walk_before c (pre ++ a :: post) ++ flat_map walk pre.
Proof.
  intros Hnd. unfold op_ids in Hnd. revert Hnd.
  rewrite walk_plug_around, flat_map_app. cbn [flat_map]. rewrite walk_unfold.
  rewrite <- !app_assoc. cbn [app]. rewrite app_assoc.
  apply preceding_split.
Qed.

Lemma existsb_none {A : Type} (f : A -> bool) (l : list A) :
  existsb f l = false <-> forall x, In x l -> f x = false.
Proof.
  split.
  - intros H x Hx. destruct (f x) eqn:E; [|reflexivity].
    rewrite <- H. symmetry. apply existsb_exists. eauto.
  - intros H. apply not_true_is_false. rewrite existsb_exists.
    intros (x & Hx & E). rewrite (H x Hx) in E. discriminate.
Qed.

Lemma spine_has_region (c : Context) (ops : list Operation) (o : Operation) :
  In o (ctx_spine_ops c ops) -> op_regions o <> [].
Proof.
  revert ops. induction c as [l | c IH before l after]; intros ops;
    cbn [ctx_spine_ops In].
  - intros [<- | []]. unfold fill. cbn [op_regions]. intros E.
    apply (f_equal (@length _)) in E. rewrite length_app in E. cbn in E. lia.
  - intros [<- | Hin]; [|eauto].
    unfold fill. cbn [op_regions]. intros E.
    apply (f_equal (@length _)) in E. rewrite length_app in E. cbn in E. lia.
Qed.

(** An operation without regions is beside the position or in its block. *)
Lemma walk_plug_leaf (c : Context) (ops : list Operation) (o : Operation) :
  op_regions o = [] ->
  In o (walk (plug c ops)) <-> In o (ctx_side_ops c ++ flat_map walk ops).
Proof.
  intros Hr. split; intros Hin.
  - apply (Permutation_in _ (walk_plug c ops)) in Hin.
    apply in_app_or in Hin. destruct Hin as [Hin | Hin]; [|exact Hin].
    apply spine_has_region in Hin. contradiction.
  - apply (Permutation_in _ (Permutation_sym (walk_plug c ops))).
    apply in_or_app. right. exact Hin.
Qed.

Lemma op_locations_fill (l : Layer) (ops : list Operation) (ctx : list RegionRef) :
  op_locations ctx (fill l ops)
  = layer_locations_before ctx l
    ++ flat_map (op_locations (layer_region l :: ctx)) ops
    ++ layer_locations_after ctx l.
Proof.
  unfold fill, layer_locations_before, layer_locations_after, layer_region.
  cbn [op_locations]. rewrite flat_mapi_app.
  cbn [flat_mapi region_op_locations]. rewrite flat_map_app.
  cbn [flat_map block_op_locations]. rewrite Nat.add_0_l.
  cbn [app]. rewrite <- !app_assoc. reflexivity.
Qed.

Lemma op_locations_plug (c : Context) (ops : list Operation) :
  op_locations [] (plug c ops)
  = ctx_locations_before c
    ++ flat_map (op_locations (ctx_chain c)) ops
    ++ ctx_locations_after c.
Proof.
  revert ops. induction c as [l | c IH before l after]; intros ops;
    cbn [plug ctx_locations_before ctx_locations_after ctx_chain].
  - apply op_locations_fill.
  - rewrite IH. rewrite flat_map_app. cbn [flat_map]. rewrite op_locations_fill.
    rewrite <- !app_assoc. reflexivity.
Qed.

Lemma block_locations_fill (l : Layer) (ops : list Operation) (ctx : list RegionRef) :
  block_locations ctx (fill l ops)
  = layer_block_locations_before ctx l
    ++ flat_map (block_locations (layer_region l :: ctx)) ops
    ++ layer_block_locations_after ctx l.
Proof.
  unfold fill, layer_block_locations_before, layer_block_locations_after, layer_region.
  cbn [block_locations]. rewrite flat_mapi_app.
  cbn [flat_mapi region_block_locations]. rewrite flat_map_app.
  cbn [flat_map block_block_locations]. rewrite Nat.add_0_l.
  rewrite <- !app_assoc. reflexivity.
Qed.

Lemma block_locations_plug (c : Context) (ops : list Operation) :
  block_locations [] (plug c ops)
  = ctx_block_locations_before c
    ++ flat_map (block_locations (ctx_chain c)) ops
    ++ ctx_block_locations_after c.
Proof.
  revert ops. induction c as [l | c IH before l after]; intros ops;
    cbn [plug ctx_block_locations_before ctx_block_locations_after ctx_chain].
  - apply block_locations_fill.
  - rewrite IH. rewrite flat_map_app. cbn [flat_map]. rewrite block_locations_fill.
    rewrite <- !app_assoc. reflexivity.
Qed.

(** The region that holds an operation under [o], or a block under [o], is a
    region of an operation under [o]; [o] itself is held by the innermost of
    the regions [o] stands in. *)
Lemma op_locations_head :
  (forall o ctx e, In e (op_locations ctx o) ->
     e = (op_id o, ctx)
     \/ exists y k rest, snd e = (y, k) :: rest /\ In y (op_ids o))
  /\ (forall r ctx e, In e (region_op_locations ctx r) ->
        (exists o, In o (flat_map blk_ops (reg_blocks r)) /\ e = (op_id o, ctx))
        \/ exists y k rest, snd e = (y, k) :: rest
                            /\ In y (map op_id (walk_region r)))
  /\ (forall b ctx e, In e (block_op_locations ctx b) ->
        (exists o, In o (blk_ops b) /\ e = (op_id o, ctx))
        \/ exists y k rest, snd e = (y, k) :: rest
                            /\ In y (map op_id (walk_block b))).
Proof.
  apply tree_ind.
  - intros i k vs ts rs IH ctx e Hin. cbn [op_locations] in Hin.
    destruct Hin as [<- | Hin]; [left; reflexivity|].
    right.
    assert (Hgen : forall m, In e (flat_mapi
                     (fun n r => region_op_locations ((i, n) :: ctx) r) m rs) ->
              exists y k' rest, snd e = (y, k') :: rest
                /\ (y = i \/ In y (map op_id (flat_map walk_region rs)))).
    { clear Hin. induction IH as [|r rs Hr _ IHrs]; intros m Hin; cbn [flat_mapi] in Hin;
        [destruct Hin|].
      apply in_app_or in Hin. destruct Hin as [Hin | Hin].
      - destruct (Hr _ _ Hin) as [(o & Ho & ->) | (y & k' & rest & Hs & Hy)].
        + exists i, m, ctx. split; [reflexivity | left; reflexivity].
        + exists y, k', rest. split; [exact Hs|]. right.
          cbn [flat_map]. rewrite map_app, in_app_iff. left. exact Hy.
      - destruct (IHrs _ Hin) as (y & k' & rest & Hs & Hy).
        exists y, k', rest. split; [exact Hs|].
        destruct Hy as [-> | Hy]; [left; reflexivity|]. right.
        cbn [flat_map]. rewrite map_app, in_app_iff. right. exact Hy. }
    destruct (Hgen 0 Hin) as (y & k' & rest & Hs & Hy).
    exists y, k', rest. split; [exact Hs|].
    unfold op_ids. cbn [walk map In op_id].
    destruct Hy as [-> | Hy]; auto.
  - intros bs IH ctx e Hin. cbn [region_op_locations] in Hin. cbn [reg_blocks walk_region].
    induction IH as [|b bs Hb _ IHbs]; cbn [flat_map] in *; [destruct Hin|].
    apply in_app_or in Hin. destruct Hin as [Hin | Hin].
    + destruct (Hb _ _ Hin) as [(o & Ho & ->) | (y & k' & rest & Hs & Hy)].
      * left. exists o. split; [apply in_or_app; left; exact Ho | reflexivity].
      * right. exists y, k', rest. split; [exact Hs|].
        rewrite map_app, in_app_iff. left. exact Hy.
    + destruct (IHbs Hin) as [(o & Ho & ->) | (y & k' & rest & Hs & Hy)].
      * left. exists o. split; [apply in_or_app; right; exact Ho | reflexivity].
      * right. exists y, k', rest. split; [exact Hs|].
        rewrite map_app, in_app_iff. right. exact Hy.
  - intros i a os IH ctx e Hin. cbn [block_op_locations] in Hin. cbn [blk_ops walk_block].
    induction IH as [|o os Ho _ IHos]; cbn [flat_map] in *; [destruct Hin|].
    apply in_app_or in Hin. destruct Hin as [Hin | Hin].
    + destruct (Ho _ _ Hin) as [-> | (y & k' & rest & Hs & Hy)].
      * left. exists o. split; [left; reflexivity | reflexivity].
      * right. exists y, k', rest. split; [exact Hs|].
        rewrite map_app, in_app_iff. left. exact Hy.
    + destruct (IHos Hin) as [(o' & Ho' & ->) | (y & k' & rest & Hs & Hy)].
      * left. exists o'. split; [right; exact Ho' | reflexivity].
      * right. exists y, k', rest. split; [exact Hs|].
        rewrite map_app, in_app_iff. right. exact Hy.
Qed.

Lemma block_locations_head :
  (forall o ctx e, In e (block_locations ctx o) ->
     exists y k rest, snd e = (y, k) :: rest /\ In y (op_ids o))
  /\ (forall r ctx e, In e (region_block_locations ctx r) ->
        (exists b, In b (reg_blocks r) /\ e = (blk_id b, ctx))
        \/ exists y k rest, snd e = (y, k) :: rest
                            /\ In y (map op_id (walk_region r)))
  /\ (forall b ctx e, In e (block_block_locations ctx b) ->
        e = (blk_id b, ctx)
        \/ exists y k rest, snd e = (y, k) :: rest
                            /\ In y (map op_id (walk_block b))).
Proof.
  apply tree_ind.
  - intros i k vs ts rs IH ctx e Hin. cbn [block_locations] in Hin.
    assert (Hgen : forall m, In e (flat_mapi
                     (fun n r => region_block_locations ((i, n) :: ctx) r) m rs) ->
              exists y k' rest, snd e = (y, k') :: rest
                /\ (y = i \/ In y (map op_id (flat_map walk_region rs)))).
    { clear Hin. induction IH as [|r rs Hr _ IHrs]; intros m Hin; cbn [flat_mapi] in Hin;
        [destruct Hin|].
      apply in_app_or in Hin. destruct Hin as [Hin | Hin].
      - destruct (Hr _ _ Hin) as [(o & Ho & ->) | (y & k' & rest & Hs & Hy)].
        + exists i, m, ctx. split; [reflexivity | left; reflexivity].
        + exists y, k', rest. split; [exact Hs|]. right.
          cbn [flat_map]. rewrite map_app, in_app_iff. left. exact Hy.
      - destruct (IHrs _ Hin) as (y & k' & rest & Hs & Hy).
        exists y, k', rest. split; [exact Hs|].
        destruct Hy as [-> | Hy]; [left; reflexivity|]. right.
        cbn [flat_map]. rewrite map_app, in_app_iff. right. exact Hy. }
    destruct (Hgen 0 Hin) as (y & k' & rest & Hs & Hy).
    exists y, k', rest. split; [exact Hs|].
    unfold op_ids. cbn [walk map In op_id].
    destruct Hy as [-> | Hy]; auto.
  - intros bs IH ctx e Hin. cbn [region_block_locations] in Hin.
    cbn [reg_blocks walk_region].
    induction IH as [|b bs Hb _ IHbs]; cbn [flat_map] in *; [destruct Hin|].
    apply in_app_or in Hin. destruct Hin as [Hin | Hin].
    + destruct (Hb _ _ Hin) as [-> | (y & k' & rest & Hs & Hy)].
      * left. exists b. split; [left; reflexivity | reflexivity].
      * right. exists y, k', rest. split; [exact Hs|].
        rewrite map_app, in_app_iff. left. exact Hy.
    + destruct (IHbs Hin) as [(b' & Hb' & ->) | (y & k' & rest & Hs & Hy)].
      * left. exists b'. split; [right; exact Hb' | reflexivity].
      * right. exists y, k', rest. split; [exact Hs|].
        rewrite map_app, in_app_iff. right. exact Hy.
  - intros i a os IH ctx e Hin. cbn [block_block_locations] in Hin.
    cbn [blk_id walk_block]. destruct Hin as [<- | Hin]; [left; reflexivity|].
    right.
    induction IH as [|o os Ho _ IHos]; cbn [flat_map] in *; [destruct Hin|].
    apply in_app_or in Hin. destruct Hin as [Hin | Hin].
    + destruct (Ho _ _ Hin) as (y & k' & rest & Hs & Hy).
      exists y, k', rest. split; [exact Hs|].
      rewrite map_app, in_app_iff. left. exact Hy.
    + destruct (IHos Hin) as (y & k' & rest & Hs & Hy).
      exists y, k', rest. split; [exact Hs|].
      rewrite map_app, in_app_iff. right. exact Hy.
Qed.

Lemma ctx_chain_ids (c : Context) (y : OpId) (k : nat) :
  In (y, k) (ctx_chain c) -> In y (ctx_op_ids c).
Proof.
  induction c as [l | c IH before l after]; cbn [ctx_chain ctx_op_ids In].
  - intros [[= <- _] | []]. left. reflexivity.
  - intros [[= <- _] | Hin]; [left; reflexivity|].
    right. rewrite !in_app_iff. auto.
Qed.

Lemma op_locations_map_operands (g : OpId -> list Value -> list Value) :
  (forall o ctx, op_locations ctx (map_operands g o) = op_locations ctx o)
  /\ (forall r ctx, region_op_locations ctx (map_operands_region g r)
                    = region_op_locations ctx r)
  /\ (forall b ctx, block_op_locations ctx (map_operands_block g b)
                    = block_op_locations ctx b).
Proof.
  apply tree_ind.
  - intros i k vs ts rs IH ctx. cbn [map_operands op_locations]. f_equal.
    generalize 0. induction IH as [|r rs Hr _ IHrs]; intros m; [reflexivity|].
    cbn [map flat_mapi]. rewrite Hr, IHrs. reflexivity.
  - intros bs IH ctx. cbn [map_operands_region region_op_locations].
    induction IH as [|b bs Hb _ IHbs]; [reflexivity|].
    cbn [map flat_map]. rewrite Hb, IHbs. reflexivity.
  - intros i a os IH ctx. cbn [map_operands_block block_op_locations].
    induction IH as [|o os Ho _ IHos]; [reflexivity|].
    cbn [map flat_map]. rewrite Ho, IHos. reflexivity.
Qed.

Lemma lookup_app {A : Type} (i : nat) (l l' : list (nat * A)) :
  lookup i (l ++ l')
  = match lookup i l with Some x => Some x | None => lookup i l' end.
Proof.
  unfold lookup. induction l as [|[k x] l IH]; cbn [app find fst]; [reflexivity|].
  destruct (Nat.eqb k i); [reflexivity | exact IH].
Qed.

(** *** The primitives at a position *)

Lemma rewrite_op_at (f : Operation -> list Operation) (t : OpId) (o : Operation) :
  by_id f t ->
  ~ In t (map op_id (flat_map walk_region (op_regions o))) ->
  rewrite_op f o = f o.
Proof.
  intros Hf Hn. destruct o as [i k vs ts rs]. cbn [rewrite_op op_regions] in *.
  rewrite (rewrite_regions_absent rs Hf Hn). reflexivity.
Qed.

Lemma rewrite_focus (f : Operation -> list Operation) (c : Context)
    (pre post : list Operation) (o : Operation) :
  by_id f (op_id o) ->
  NoDup (op_ids (plug c (pre ++ o :: post))) ->
  rewrite f (plug c (pre ++ o :: post)) = plug c (pre ++ f o ++ post).
Proof.
  intros Hf Hnd. apply NoDup_plug_focus in Hnd. rewrite !in_app_iff in Hnd.
  rewrite (@rewrite_plug f (op_id o) c _ Hf) by tauto. f_equal.
  rewrite flat_map_app. cbn [flat_map].
  rewrite (@rewrite_ops_absent f (op_id o) pre Hf) by tauto.
  rewrite (@rewrite_ops_absent f (op_id o) post Hf) by tauto.
  rewrite (@rewrite_op_at f (op_id o) o Hf) by tauto. reflexivity.
Qed.

Lemma by_id_insert_before (t : OpId) (new_op : Operation) :
  by_id (insert_before t new_op) t.
Proof.
  intros x Hx. unfold insert_before.
  destruct (Nat.eqb_spec (op_id x) t); [contradiction | reflexivity].
Qed.

Lemma by_id_unlink (t : OpId) : by_id (unlink t) t.
Proof.
  intros x Hx. unfold unlink.
  destruct (Nat.eqb_spec (op_id x) t); [contradiction | reflexivity].
Qed.

Lemma set_operands_same (o : Operation) : set_operands (op_operands o) o = o.
Proof. destruct o; reflexivity. Qed.

Lemma by_id_put_operand (t : OpId) (idx : nat) (v : Value) :
  by_id (with_operands (put_operand t idx v)) t.
Proof.
  intros x Hx. unfold with_operands, put_operand.
  destruct (Nat.eqb_spec (op_id x) t); [contradiction|].
  rewrite set_operands_same. reflexivity.
Qed.

Lemma insertBefore_plug (c : Context) (pre post : list Operation)
    (o new_op : Operation) :
  NoDup (op_ids (plug c (pre ++ o :: post))) ->
  insertBefore (plug c (pre ++ o :: post)) (op_id o) new_op
  = plug c (pre ++ new_op :: o :: post).
Proof.
  intros Hnd. unfold insertBefore.
  rewrite (@rewrite_focus _ c pre post o (@by_id_insert_before (op_id o) new_op) Hnd).
  unfold insert_before. rewrite Nat.eqb_refl. reflexivity.
Qed.

Lemma remove_plug (c : Context) (pre post : list Operation) (o : Operation) :
  NoDup (op_ids (plug c (pre ++ o :: post))) ->
  remove (plug c (pre ++ o :: post)) (op_id o) = plug c (pre ++ post).
Proof.
  intros Hnd. unfold remove.
  rewrite (@rewrite_focus _ c pre post o (@by_id_unlink (op_id o)) Hnd).
  unfold unlink. rewrite Nat.eqb_refl. reflexivity.
Qed.

Lemma root_in_ctx (c : Context) (ops : list Operation) :
  In (op_id (plug c ops)) (ctx_op_ids c).
Proof.
  revert ops. induction c as [l | c IH before l after]; intros ops; cbn [plug ctx_op_ids].
  - left. reflexivity.
  - right. rewrite !in_app_iff. right. right. right. apply IH.
Qed.

Lemma replace_nth_lt (idx : nat) (v : Value) (vs : list Value) :
  idx < length vs -> exists vs', replace_nth idx v vs = Some vs'.
Proof.
  revert idx. induction vs as [|w vs IH]; intros [|idx] Hl; simpl in *; try lia.
  - eauto.
  - destruct (IH idx) as (vs' & ->); [lia|]. simpl. eauto.
Qed.

Lemma setOperandOf_plug (c : Context) (pre post : list Operation) (o : Operation)
    (idx : nat) (v : Value) (vs' : list Value) :
  NoDup (op_ids (plug c (pre ++ o :: post))) ->
  replace_nth idx v (op_operands o) = Some vs' ->
  setOperandOf (plug c (pre ++ o :: post)) (op_id o) idx v
  = Some (plug c (pre ++ set_operands vs' o :: post)).
Proof.
  intros Hnd Hr. unfold setOperandOf. rewrite (@find_op_plug c pre post o Hnd).
  assert (Hlt : idx < length (op_operands o)).
  { clear -Hr. revert idx vs' Hr.
    induction (op_operands o) as [|w vs IH]; intros [|idx] vs'; simpl; try discriminate.
    - lia.
    - destruct (replace_nth idx v vs) eqn:E; [|discriminate].
      intros _. specialize (IH _ _ E). lia. }
  apply Nat.ltb_lt in Hlt. rewrite Hlt. f_equal.
  pose proof (@NoDup_plug_focus c pre post o Hnd) as Hf. rewrite !in_app_iff in Hf.
  rewrite map_operands_rewrite.
  - rewrite (@rewrite_focus _ c pre post o (@by_id_put_operand (op_id o) idx v) Hnd).
    unfold with_operands, put_operand. rewrite Nat.eqb_refl, Hr. reflexivity.
  - unfold put_operand.
    destruct (Nat.eqb_spec (op_id (plug c (pre ++ o :: post))) (op_id o)) as [E|E];
      [|reflexivity].
    exfalso. apply Hf. left. rewrite <- E. apply root_in_ctx.
Qed.

(** Putting an operation in a block adds its operations and blocks to those
    of the IR. *)
Lemma op_ids_plug_insert (c : Context) (pre post : list Operation) (o : Operation) :
  Permutation (op_ids (plug c (pre ++ o :: post)))
    (op_ids o ++ op_ids (plug c (pre ++ post))).
Proof.
  rewrite !op_ids_plug. rewrite !flat_map_app. cbn [flat_map].
  rewrite !map_app. fold (op_ids o). solve_perm.
Qed.

Lemma block_ids_plug_insert (c : Context) (pre post : list Operation) (o : Operation) :
  Permutation (block_ids (plug c (pre ++ o :: post)))
    (block_ids o ++ block_ids (plug c (pre ++ post))).
Proof.
  rewrite !block_ids_plug. rewrite !flat_map_app. cbn [flat_map].
  rewrite !map_app. fold (block_ids o). solve_perm.
Qed.

Lemma nodes_plug_insert (c : Context) (pre post : list Operation) (o : Operation) :
  Permutation (nodes (plug c (pre ++ o :: post)))
    (nodes o ++ nodes (plug c (pre ++ post))).
Proof.
  rewrite !nodes_plug. rewrite !flat_map_app. cbn [flat_map].
  rewrite !map_app. fold (nodes o). solve_perm.
Qed.

Lemma block_heads_plug_insert (c : Context) (pre post : list Operation) (o : Operation) :
  Permutation (block_heads (plug c (pre ++ o :: post)))
    (block_heads o ++ block_heads (plug c (pre ++ post))).
Proof.
  rewrite !block_heads_plug. rewrite !flat_map_app. cbn [flat_map].
  rewrite !map_app. fold (block_heads o). solve_perm.
Qed.

Lemma fresh_op_id_not_in (ir : Operation) : ~ In (fresh_op_id ir) (op_ids ir).
Proof.
  unfold fresh_op_id. intros Hin.
  pose proof (proj1 (list_max_le (op_ids ir) (list_max (op_ids ir)))
                (Nat.le_refl _)) as Hle.
  rewrite Forall_forall in Hle. apply Hle in Hin. lia.
Qed.

Lemma fresh_block_id_not_in (ir : Operation) : ~ In (fresh_block_id ir) (block_ids ir).
Proof.
  unfold fresh_block_id. intros Hin.
  pose proof (proj1 (list_max_le (block_ids ir) (list_max (block_ids ir)))
                (Nat.le_refl _)) as Hle.
  rewrite Forall_forall in Hle. apply Hle in Hin. lia.
Qed.

(** Rewriting of blocks and rewriting of operands commute. *)
Lemma rewrite_map_operands (f : Operation -> list Operation)
    (g : OpId -> list Value -> list Value) :
  (forall x, f (map_operands g x) = map (map_operands g) (f x)) ->
  (forall o, rewrite_op f (map_operands g o) = map (map_operands g) (rewrite_op f o))
  /\ (forall r, rewrite_region f (map_operands_region g r)
                = map_operands_region g (rewrite_region f r))
  /\ (forall b, rewrite_block f (map_operands_block g b)
                = map_operands_block g (rewrite_block f b)).
Proof.
  intros Hf. apply tree_ind.
  - intros i k vs ts rs IH. cbn [map_operands rewrite_op].
    rewrite <- Hf. cbn [map_operands]. do 2 f_equal.
    rewrite !map_map. apply map_ext_Forall. exact IH.
  - intros bs IH. cbn [map_operands_region rewrite_region]. f_equal.
    rewrite !map_map. apply map_ext_Forall. exact IH.
  - intros i a os IH. cbn [map_operands_block rewrite_block]. f_equal.
    induction IH as [|o os Ho _ IHos]; [reflexivity|].
    cbn [map flat_map]. rewrite map_app, Ho, IHos. reflexivity.
Qed.

Lemma remove_map_operands (g : OpId -> list Value -> list Value)
    (ir : Operation) (t : OpId) :
  remove (map_operands g ir) t = map_operands g (remove ir t).
Proof.
  unfold remove. destruct ir as [i k vs ts rs]. cbn [map_operands rewrite].
  f_equal. rewrite !map_map. apply map_ext. intros r.
  apply rewrite_map_operands. intros x. unfold unlink.
  rewrite op_id_map_operands. destruct (Nat.eqb (op_id x) t); reflexivity.
Qed.

(** *** Liveness *)

Lemma unique_by_id (ir x y : Operation) :
  NoDup (op_ids ir) -> In x (walk ir) -> In y (walk ir) -> op_id x = op_id y -> x = y.
Proof.
  intros Hnd Hx Hy E.
  pose proof (find_op_unique _ _ Hnd Hx) as H1.
  pose proof (find_op_unique _ _ Hnd Hy) as H2.
  rewrite E in H1. congruence.
Qed.

Lemma no_dangling_spec (ir : Operation) :
  no_dangling ir = true <->
  forall nd v, In nd (nodes ir) -> In v (op_operands nd) -> live ir v = true.
Proof.
  unfold no_dangling. rewrite forallb_forall. split.
  - intros H nd v Hnd Hv. specialize (H nd Hnd). rewrite forallb_forall in H. auto.
  - intros H nd Hnd. rewrite forallb_forall. intros v Hv. eauto.
Qed.

Lemma live_in_incl (ops ops' : list Operation) (blks blks' : list Block) (v : Value) :
  incl ops ops' -> incl blks blks' ->
  live_in ops blks v = true -> live_in ops' blks' v = true.
Proof.
  unfold live_in. intros Ho Hb. rewrite !orb_true_iff, !existsb_exists.
  intros [(x & Hx & Hd) | (x & Hx & Hd)]; [left | right]; exists x; auto.
Qed.

Lemma live_result (ir : Operation) (i : OpId) (k : nat) :
  live ir (OpResult i k) = true ->
  exists o, In o (walk ir) /\ op_id o = i /\ k < length (op_results o).
Proof.
  unfold live, live_in. rewrite orb_true_iff, !existsb_exists.
  intros [(nd & Hnd & Hd) | (b & _ & Hb)]; [|discriminate].
  unfold nodes in Hnd. rewrite in_map_iff in Hnd. destruct Hnd as (o & <- & Ho).
  cbn [defines strip op_id op_results] in Hd.
  apply andb_true_iff in Hd. destruct Hd as [Hi Hk].
  apply Nat.eqb_eq in Hi. apply Nat.ltb_lt in Hk. eauto.
Qed.

Lemma in_nodes_walk (ir nd : Operation) :
  In nd (nodes ir) <-> exists o, In o (walk ir) /\ strip o = nd.
Proof.
  unfold nodes. rewrite in_map_iff. split; intros (o & H1 & H2); exists o; auto.
Qed.

End IRFacts.

(** ** Facts on the structuring pass *)

Module FunctionalToExecutorFacts.
Import IR FunctionalToExecutor.

Lemma back_last (ops : list Operation) (t : Operation) :
  back (ops ++ [t]) = Some t.
Proof.
  induction ops as [|o ops IH]; simpl; [reflexivity|].
  rewrite IH. destruct ops; reflexivity.
Qed.

Lemma back_inv (ops : list Operation) (t : Operation) :
  back ops = Some t -> ops = removelast ops ++ [t].
Proof.
  induction ops as [|o ops IH]; simpl; [discriminate|].
  destruct ops as [|o' ops'].
  - intros [= ->]. reflexivity.
  - intros H. specialize (IH H).
    change (o :: o' :: ops' = (o :: removelast (o' :: ops')) ++ [t]).
    simpl. f_equal. exact IH.
Qed.

Lemma replace_nth_length idx v vs vs' :
  replace_nth idx v vs = Some vs' -> length vs' = length vs.
Proof.
  revert idx vs'. induction vs as [|w vs IH]; intros [|idx] vs'; simpl; try discriminate.
  - intros [= <-]. reflexivity.
  - destruct (replace_nth idx v vs) eqn:E; simpl; [|discriminate].
    intros [= <-]. simpl. f_equal. eapply IH; eauto.
Qed.

(** Writing [vs] from position [length pre] on, into an operand list that is
    long enough. *)
Lemma setOperands_spec (vs pre old post : list Value) (o : Operation) :
  op_operands o = pre ++ old ++ post ->
  length old = length vs ->
  setOperands (length pre) vs o = Some (set_operands (pre ++ vs ++ post) o).
Proof.
  revert pre old o. induction vs as [|v vs IH]; intros pre old o Ho Hl.
  - destruct old; [|discriminate]. simpl in *. rewrite <- Ho.
    destruct o; reflexivity.
  - destruct old as [|w old]; [discriminate|]. simpl.
    assert (Hr : replace_nth (length pre) v (op_operands o)
                 = Some (pre ++ v :: old ++ post)).
    { rewrite Ho. clear. induction pre as [|p pre IHp]; simpl; [reflexivity|].
      simpl in IHp. rewrite IHp. reflexivity. }
    unfold setOperand. rewrite Hr. simpl.
    specialize (IH (pre ++ [v]) old (set_operands (pre ++ v :: old ++ post) o)).
    rewrite length_app in IH. simpl in IH. rewrite Nat.add_1_r in IH.
    rewrite IH.
    + unfold set_operands. simpl. rewrite <- app_assoc. reflexivity.
    + simpl. rewrite <- app_assoc. reflexivity.
    + simpl in Hl. lia.
Qed.

Lemma setOperands_preserves (vs : list Value) (idx : nat) (o o' : Operation) :
  setOperands idx vs o = Some o' ->
  op_id o' = op_id o /\ op_kind o' = op_kind o /\ op_results o' = op_results o
  /\ op_regions o' = op_regions o.
Proof.
  revert idx o. induction vs as [|v vs IH]; intros idx o; simpl.
  - intros [= <-]. auto.
  - unfold setOperand.
    destruct (replace_nth idx v (op_operands o)) as [ws|]; simpl; [|discriminate].
    intros H. apply IH in H. destruct o; simpl in *. exact H.
Qed.

Lemma getResults_length (o : Operation) :
  length (getResults o) = length (op_results o).
Proof. unfold getResults. rewrite length_map, length_seq. reflexivity. Qed.

(** What a run that passes every check builds. *)
Lemma runOnFunction_inv (func func' : Operation) :
  applicable func = true ->
  runOnFunction func = Some func' ->
  exists body copy_range return_op return_op',
    op_regions func = [mkRegion [body]]
    /\ blk_ops body = copy_range ++ [return_op]
    /\ op_kind return_op = StdReturnOp
    /\ already_graph copy_range = false
    /\ let graph_id := fresh_op_id func in
       let island_id := S graph_id in
       let island_types := fn_results func ++ [ControlType] in
       let fetch :=
         mkOperation (S island_id) FetchOp
           (to_fetch (map (OpResult island_id) (seq 0 (length island_types)))) [] [] in
       let yield := mkOperation (S (S island_id)) YieldOp (op_operands return_op) [] [] in
       let island :=
         mkOperation island_id IslandOp [] island_types
           [mkRegion [mkBlock (S (fresh_block_id func)) [] (copy_range ++ [yield])]] in
       let graph_op :=
         mkOperation graph_id GraphOp [] (fn_results func)
           [mkRegion [mkBlock (fresh_block_id func) [] [island; fetch]]] in
       setOperands 0 (getResults graph_op) return_op = Some return_op'
       /\ func' = mkOperation (op_id func) (op_kind func) (op_operands func)
                    (op_results func)
                    [mkRegion [mkBlock (blk_id body) (blk_args body)
                                 [graph_op; return_op']]].
Proof.
  unfold applicable, runOnFunction, getBlocks, fn_results.
  destruct (op_kind func) as [ins res| | | | | | | | | | |]; try discriminate.
  destruct (op_regions func) as [|[blocks] [|r rs]]; try discriminate.
  simpl. rewrite app_nil_r.
  destruct blocks as [|body [|b bs]]; try discriminate.
  destruct (already_graph (without_terminator (blk_ops body))) eqn:Hg; [discriminate|].
  unfold getTerminator.
  destruct (back (blk_ops body)) as [t|] eqn:Hb; [|discriminate].
  simpl. intros Hret.
  assert (Hk : op_kind t = StdReturnOp) by (destruct (op_kind t); try discriminate; reflexivity).
  rewrite Hk. simpl. rewrite ?Hret. simpl.
  destruct (setOperands 0 _ t) as [t'|] eqn:Hs; [|discriminate].
  intros [= <-].
  exists body, (removelast (blk_ops body)), t, t'.
  repeat split; try assumption.
  apply back_inv. exact Hb.
Qed.

Lemma applicable_return (func : Operation) (body : Block) (return_op : Operation) :
  op_regions func = [mkRegion [body]] ->
  applicable func = true ->
  back (blk_ops body) = Some return_op ->
  op_kind return_op = StdReturnOp.
Proof.
  intros Hr Ha Hb. unfold applicable, getBlocks in Ha. rewrite Hr in Ha.
  cbn [flat_map reg_blocks app] in Ha. rewrite Hb in Ha.
  apply andb_true_iff in Ha. destruct Ha as [_ Ha].
  destruct (op_kind return_op); try discriminate Ha; reflexivity.
Qed.

(** The run returns: on a function of one block that ends with a [ReturnOp]
    of at least as many operands as the function has results, no assertion
    fails. *)
Lemma runOnFunction_succeeds (func : Operation) (ins res : list MlirType)
    (body : Block) (return_op : Operation) :
  op_kind func = FuncOp ins res ->
  op_regions func = [mkRegion [body]] ->
  back (blk_ops body) = Some return_op ->
  op_kind return_op = StdReturnOp ->
  length res <= length (op_operands return_op) ->
  exists func', runOnFunction func = Some func'.
Proof.
  intros Hk Hr Hb Hret Hl. unfold runOnFunction. rewrite Hk, Hr.
  destruct (already_graph _); [eauto|].
  unfold getTerminator. rewrite Hb, Hret. cbn [isTerminator isa_StdReturnOp negb].
  cbv zeta.
  set (graph_op := mkOperation (fresh_op_id func) GraphOp [] res _).
  pose proof (@setOperands_spec (getResults graph_op) []
                (firstn (length res) (op_operands return_op))
                (skipn (length res) (op_operands return_op)) return_op) as Hs.
  cbn [length app] in Hs. rewrite Hs.
  - rewrite Hret. cbn [isa_StdReturnOp negb]. eauto.
  - symmetry. apply firstn_skipn.
  - rewrite getResults_length, firstn_length_le; [reflexivity | exact Hl].
Qed.

(** C5. A function whose body has more than one block, or whose single block
    ends with a terminator other than [ReturnOp], is returned as it is: the
    pass returns normally and nothing is mutated. *)
Theorem C5_inapplicable_function_unchanged
    (func : Operation) (ins res : list MlirType) (blocks : list Block) :
  op_kind func = FuncOp ins res ->
  op_regions func = [mkRegion blocks] ->
  (1 < length blocks
   \/ exists body t, blocks = [body]
                    /\ getTerminator (blk_ops body) = Some t
                    /\ isa_StdReturnOp (op_kind t) = false) ->
  runOnFunction func = Some func.
Proof.
  intros Hk Hr H. unfold runOnFunction. rewrite Hk, Hr.
  destruct H as [Hl | (body & t & -> & Ht & Hn)].
  - destruct blocks as [|b [|b' bs]]; simpl in Hl; try lia; reflexivity.
  - rewrite Ht, Hn. simpl.
    destruct (already_graph _); reflexivity.
Qed.

Lemma C5_inapplicable_function_unchanged_witness :
  runOnFunction Samples.func_two_blocks = Some Samples.func_two_blocks.
Proof.
  apply (@C5_inapplicable_function_unchanged Samples.func_two_blocks
           [Samples.T] [Samples.T]
           (flat_map reg_blocks (op_regions Samples.func_two_blocks)));
    [reflexivity | reflexivity | left; simpl; lia].
Defined.

(** C9. On a function that passes the checks, whose return has at least as
    many operands as the function has results, the run returns, and it puts a
    new graph operation, with the result types of the function, at the start
    of the function block; the graph holds an island whose result types are
    those of the function plus a control result; the operations of the block
    other than its terminator are in the island's block in their order; the
    function block is left with the graph followed by the return. *)
Theorem C9_graph_and_island_built
    (func : Operation) (ins res : list MlirType) (body : Block)
    (return_op : Operation) :
  op_kind func = FuncOp ins res ->
  op_regions func = [mkRegion [body]] ->
  applicable func = true ->
  back (blk_ops body) = Some return_op ->
  length res <= length (op_operands return_op) ->
  exists func' graph_op island fetch yield return_op',
    runOnFunction func = Some func'
    /\ body_ops func' = [graph_op; return_op']
    /\ length (getBlocks func') = 1
    /\ op_kind graph_op = GraphOp
    /\ op_results graph_op = fn_results func
    /\ ~ In (op_id graph_op) (op_ids func)
    /\ block_of_op graph_op = [island; fetch]
    /\ op_kind island = IslandOp
    /\ op_results island = fn_results func ++ [ControlType]
    /\ block_of_op island = without_terminator (body_ops func) ++ [yield]
    /\ op_kind yield = YieldOp
    /\ op_kind fetch = FetchOp
    /\ op_id return_op' = op_id return_op
    /\ op_kind return_op' = StdReturnOp.
Proof.
  intros Hfk Hfr Ha Hb Hl.
  destruct (runOnFunction_succeeds _ Hfk Hfr Hb (applicable_return _ Hfr Ha Hb) Hl)
    as [func' Hr].
  destruct (runOnFunction_inv _ Ha Hr)
    as (body' & copy & ret & ret' & Hreg & Hops & Hk & Hg & Hs & E).
  rewrite Hfr in Hreg. injection Hreg as <-.
  assert (ret = return_op) as ->
    by (rewrite Hops, back_last in Hb; congruence).
  rewrite E in Hr. clear E func'.
  apply setOperands_preserves in Hs. destruct Hs as (Hid & Hkind & _ & _).
  unfold body_ops, block_of_op, getBlocks. rewrite Hfr. simpl.
  rewrite !app_nil_r, Hops.
  eexists _, _, _, _, _, ret'.
  split; [exact Hr|]. simpl.
  split; [reflexivity|].
  split; [reflexivity|].
  split; [reflexivity|].
  split; [reflexivity|].
  split.
  { simpl. unfold fresh_op_id. intros Hin.
    pose proof (proj1 (list_max_le (op_ids func) (list_max (op_ids func)))
                  (Nat.le_refl _)) as Hle.
    rewrite Forall_forall in Hle. apply Hle in Hin. lia. }
  split; [reflexivity|].
  split; [reflexivity|].
  split; [reflexivity|].
  split.
  { simpl. rewrite app_nil_r. unfold without_terminator.
    rewrite removelast_last. reflexivity. }
  repeat split; try reflexivity; congruence.
Qed.

Lemma C9_graph_and_island_built_witness :
  exists return_op, back (body_ops Samples.func_add) = Some return_op
    /\ exists func' graph_op island fetch yield return_op',
         runOnFunction Samples.func_add = Some func'
         /\ body_ops func' = [graph_op; return_op']
         /\ length (getBlocks func') = 1
         /\ op_kind graph_op = GraphOp
         /\ op_results graph_op = fn_results Samples.func_add
         /\ ~ In (op_id graph_op) (op_ids Samples.func_add)
         /\ block_of_op graph_op = [island; fetch]
         /\ op_kind island = IslandOp
         /\ op_results island = fn_results Samples.func_add ++ [ControlType]
         /\ block_of_op island = without_terminator (body_ops Samples.func_add) ++ [yield]
         /\ op_kind yield = YieldOp
         /\ op_kind fetch = FetchOp
         /\ op_id return_op' = op_id return_op
         /\ op_kind return_op' = StdReturnOp.
Proof.
  eexists. split; [reflexivity|].
  eapply (@C9_graph_and_island_built Samples.func_add);
    [reflexivity | reflexivity | reflexivity | reflexivity | simpl; lia].
Defined.

(** C7. On a function that passes the checks, the run returns; the island's
    block ends with a yield whose operands are the operands the return had
    before the run, and the return's operands are, position by position, the
    results of the graph.  The return and the function type agree on the
    number of results. *)
Theorem C7_yield_and_return_wiring
    (func : Operation) (ins res : list MlirType) (body : Block)
    (return_op : Operation) :
  op_kind func = FuncOp ins res ->
  op_regions func = [mkRegion [body]] ->
  applicable func = true ->
  back (blk_ops body) = Some return_op ->
  length (op_operands return_op) = length res ->
  exists func' graph_op island fetch yield return_op' moved,
    runOnFunction func = Some func'
    /\ body_ops func' = [graph_op; return_op']
    /\ block_of_op graph_op = [island; fetch]
    /\ block_of_op island = moved ++ [yield]
    /\ op_kind yield = YieldOp
    /\ op_operands yield = op_operands return_op
    /\ op_id return_op' = op_id return_op
    /\ op_operands return_op' = getResults graph_op
    /\ length (op_operands return_op') = length (op_operands return_op)
    /\ forall i, i < length (op_operands return_op) ->
         nth_error (op_operands return_op') i = Some (OpResult (op_id graph_op) i).
Proof.
  intros Hfk Hfr Ha Hb Hl.
  assert (Hle : length res <= length (op_operands return_op)) by lia.
  destruct (runOnFunction_succeeds _ Hfk Hfr Hb (applicable_return _ Hfr Ha Hb) Hle)
    as [func' Hr].
  exists func'. revert Hr.
  assert (Hres : fn_results func = res) by (unfold fn_results; rewrite Hfk; reflexivity).
  rewrite <- Hres in Hl. intros Hr.
  destruct (runOnFunction_inv _ Ha Hr)
    as (body' & copy & ret & ret' & Hreg & Hops & Hk & Hg & Hs & E).
  rewrite Hfr in Hreg. injection Hreg as <-.
  assert (ret = return_op) as ->
    by (rewrite Hops, back_last in Hb; congruence).
  rewrite E in Hr |- *. clear E.
  pose proof (setOperands_preserves _ _ _ Hs) as (Hid & _).
  set (graph_op := mkOperation (fresh_op_id func) GraphOp [] (fn_results func) _) in *.
  assert (Hop : op_operands ret' = getResults graph_op).
  { pose proof (@setOperands_spec (getResults graph_op) [] (op_operands return_op) []
                  return_op) as Hspec.
    simpl in Hspec. rewrite !app_nil_r in Hspec.
    rewrite Hspec in Hs; [| reflexivity | rewrite getResults_length; exact Hl].
    injection Hs as <-. reflexivity. }
  unfold body_ops, block_of_op. simpl.
  eexists graph_op, _, _, _, ret', copy.
  split; [exact Hr|].
  split; [reflexivity|].
  split; [reflexivity|].
  split; [simpl; rewrite app_nil_r; reflexivity|].
  split; [reflexivity|].
  split; [reflexivity|].
  split; [exact Hid|].
  split; [exact Hop|].
  split; [rewrite Hop, getResults_length; simpl; congruence|].
  intros i Hi. rewrite Hop. unfold getResults.
  rewrite nth_error_map, nth_error_seq.
  replace (i <? length (op_results graph_op)) with true; [reflexivity|].
  symmetry. apply Nat.ltb_lt. simpl. lia.
Qed.

Lemma C7_yield_and_return_wiring_witness :
  exists return_op,
    back (body_ops Samples.func_add) = Some return_op
    /\ exists func' graph_op island fetch yield return_op' moved,
         runOnFunction Samples.func_add = Some func'
         /\ body_ops func' = [graph_op; return_op']
         /\ block_of_op graph_op = [island; fetch]
         /\ block_of_op island = moved ++ [yield]
         /\ op_kind yield = YieldOp
         /\ op_operands yield = op_operands return_op
         /\ op_id return_op' = op_id return_op
         /\ op_operands return_op' = getResults graph_op
         /\ length (op_operands return_op') = length (op_operands return_op)
         /\ forall i, i < length (op_operands return_op) ->
              nth_error (op_operands return_op') i = Some (OpResult (op_id graph_op) i).
Proof.
  eexists. split; [reflexivity|].
  eapply (@C7_yield_and_return_wiring Samples.func_add); reflexivity.
Defined.

(** C8. On a function that passes the checks, whose return has at least as
    many operands as the function has results, the run returns, and the
    graph's block ends with a fetch whose operands are the island's results,
    the last (control) result left out exactly when the island has more than
    one result: the control result alone for a function without results, the
    first [k] results for a function of [k > 0] results. *)
Theorem C8_fetch_operands
    (func : Operation) (ins res : list MlirType) (body : Block)
    (return_op : Operation) :
  op_kind func = FuncOp ins res ->
  op_regions func = [mkRegion [body]] ->
  applicable func = true ->
  back (blk_ops body) = Some return_op ->
  length res <= length (op_operands return_op) ->
  exists func' graph_op island fetch return_op',
    runOnFunction func = Some func'
    /\ body_ops func' = [graph_op; return_op']
    /\ block_of_op graph_op = [island; fetch]
    /\ op_kind fetch = FetchOp
    /\ length (getResults island) = S (length (fn_results func))
    /\ op_operands fetch
       = (if Nat.ltb 1 (length (getResults island))
          then removelast (getResults island)
          else getResults island)
    /\ (length (fn_results func) = 0 ->
        op_operands fetch = [OpResult (op_id island) 0])
    /\ (0 < length (fn_results func) ->
        op_operands fetch = firstn (length (fn_results func)) (getResults island)).
Proof.
  intros Hfk Hfr Ha Hb Hl.
  destruct (runOnFunction_succeeds _ Hfk Hfr Hb (applicable_return _ Hfr Ha Hb) Hl)
    as [func' Hr].
  destruct (runOnFunction_inv _ Ha Hr)
    as (body' & copy & ret & ret' & Hreg & Hops & Hk & Hg & Hs & E).
  rewrite E in Hr. clear E func'.
  unfold body_ops, block_of_op.
  eexists _, _, _, _, ret'.
  split; [exact Hr|]. simpl.
  split; [reflexivity|].
  split; [reflexivity|].
  split; [reflexivity|].
  unfold getResults, to_fetch. simpl.
  rewrite !length_map, !length_seq, !length_app. simpl.
  rewrite Nat.add_1_r.
  split; [reflexivity|].
  split; [|split].
  - destruct (length (fn_results func)); reflexivity.
  - intros ->. reflexivity.
  - intros Hpos. destruct (length (fn_results func)) as [|k] eqn:E; [lia|].
    simpl Nat.eqb. cbv iota.
    rewrite removelast_firstn_len, length_map, length_seq. reflexivity.
Qed.

Lemma C8_fetch_operands_witness :
  exists func' graph_op island fetch return_op',
    runOnFunction Samples.func_no_result = Some func'
    /\ body_ops func' = [graph_op; return_op']
         /\ block_of_op graph_op = [island; fetch]
         /\ op_kind fetch = FetchOp
         /\ length (getResults island) = S (length (fn_results Samples.func_no_result))
         /\ op_operands fetch
            = (if Nat.ltb 1 (length (getResults island))
               then removelast (getResults island)
               else getResults island)
         /\ (length (fn_results Samples.func_no_result) = 0 ->
             op_operands fetch = [OpResult (op_id island) 0])
         /\ (0 < length (fn_results Samples.func_no_result) ->
             op_operands fetch
             = firstn (length (fn_results Samples.func_no_result)) (getResults island)).
Proof.
  eapply (@C8_fetch_operands Samples.func_no_result);
    [reflexivity | reflexivity | reflexivity | reflexivity | simpl; lia].
Defined.

Lemma runOnFunction_not_applicable (func func' : Operation) :
  applicable func = false ->
  runOnFunction func = Some func' ->
  func' = func.
Proof.
  unfold applicable, runOnFunction, getBlocks.
  destruct (op_kind func) as [ins res| | | | | | | | | | |]; try discriminate.
  destruct (op_regions func) as [|[blocks] [|r rs]]; try discriminate.
  simpl. rewrite app_nil_r.
  destruct blocks as [|body [|b bs]]; try (intros _ [= <-]; reflexivity).
  destruct (already_graph (without_terminator (blk_ops body))) eqn:Hg;
    [intros _ [= <-]; reflexivity|].
  unfold getTerminator.
  destruct (back (blk_ops body)) as [t|] eqn:Hb; [|discriminate].
  simpl. intros Hret.
  destruct (isTerminator (op_kind t)); [|discriminate].
  rewrite Hret. simpl. intros [= <-]. reflexivity.
Qed.

(** A function whose block holds a graph and a terminator is returned as it
    is (lines 63-69). *)
Lemma runOnFunction_already_graph
    (func graph_op t : Operation) (ins res : list MlirType) (b : BlockId)
    (a : list MlirType) :
  op_kind func = FuncOp ins res ->
  op_regions func = [mkRegion [mkBlock b a [graph_op; t]]] ->
  op_kind graph_op = GraphOp ->
  runOnFunction func = Some func.
Proof.
  intros Hk Hr Hg. unfold runOnFunction. rewrite Hk, Hr. simpl. rewrite Hg.
  reflexivity.
Qed.

(** C4. The structuring pass is idempotent: a second run returns the result
    of the first.  A run that passes the checks leaves a block whose only
    operation before the terminator is a graph, and a function of that shape
    is returned without mutation. *)
Theorem C4_structuring_idempotent (func func' : Operation) :
  runOnFunction func = Some func' ->
  runOnFunction func' = Some func'
  /\ (applicable func = true ->
      exists graph_op t,
        without_terminator (body_ops func') = [graph_op]
        /\ back (body_ops func') = Some t
        /\ op_kind graph_op = GraphOp
        /\ isTerminator (op_kind t) = true)
  /\ (forall f ins res b a graph_op t,
        op_kind f = FuncOp ins res ->
        op_regions f = [mkRegion [mkBlock b a [graph_op; t]]] ->
        op_kind graph_op = GraphOp ->
        runOnFunction f = Some f).
Proof.
  intros Hr.
  assert (Hfn : exists ins res, op_kind func = FuncOp ins res).
  { unfold runOnFunction in Hr. destruct (op_kind func); try discriminate. eauto. }
  destruct Hfn as (ins & res & Hfn).
  assert (Hidem : runOnFunction func' = Some func').
  { destruct (applicable func) eqn:Ha.
    - destruct (runOnFunction_inv _ Ha Hr)
        as (body & copy & ret & ret' & Hreg & Hops & Hk & Hg & Hs & ->).
      eapply runOnFunction_already_graph; [exact Hfn | reflexivity | reflexivity].
    - pose proof (runOnFunction_not_applicable _ Ha Hr) as ->. exact Hr. }
  split; [exact Hidem|].
  split; [|intros; eapply runOnFunction_already_graph; eauto].
  intros Ha.
  destruct (runOnFunction_inv _ Ha Hr)
    as (body & copy & ret & ret' & Hreg & Hops & Hk & Hg & Hs & ->).
  apply setOperands_preserves in Hs. destruct Hs as (_ & Hkind & _).
  eexists _, ret'. unfold body_ops, block_of_op. simpl.
  split; [reflexivity|]. split; [reflexivity|]. split; [reflexivity|].
  rewrite Hkind, Hk. reflexivity.
Qed.

Lemma C4_structuring_idempotent_witness :
  exists func',
    runOnFunction Samples.func_add = Some func'
    /\ func' <> Samples.func_add
    /\ runOnFunction func' = Some func'.
Proof.
  eexists. split; [reflexivity|]. split; [discriminate|].
  apply (@C4_structuring_idempotent Samples.func_add). reflexivity.
Defined.

End FunctionalToExecutorFacts.

(** ** Facts on the hoisting pass *)

Module ReplicateInvariantOpHoistingFacts.
Import IR IRFacts ReplicateInvariantOpHoisting.

#[local] Arguments fill : simpl never.

Lemma replica_operand_index_exact (n : Z) (i : nat) :
  (0 <= n < 2147483648)%Z ->
  (n * Z.of_nat i < two32)%Z ->
  replica_operand_index (to_int (getLimitedValue n)) i = Z.to_nat (n * Z.of_nat i).
Proof.
  intros Hn Hi. unfold replica_operand_index, to_int, getLimitedValue, two32 in *.
  rewrite Z.mod_mod by lia.
  rewrite (Z.mod_small n) by lia.
  destruct (Z.ltb_spec n 2147483648); [|lia].
  rewrite (Z.mod_small n) by lia.
  rewrite Z.mod_small by lia. reflexivity.
Qed.

Lemma op_ids_set_operands (c : Context) (pre post : list Operation)
    (o : Operation) (vs : list Value) :
  Permutation (op_ids (plug c (pre ++ set_operands vs o :: post)))
    (op_ids (plug c (pre ++ o :: post))).
Proof.
  rewrite !op_ids_plug. apply Permutation_app_head.
  rewrite !flat_map_app. cbn [flat_map]. rewrite !walk_unfold.
  destruct o; cbn [set_operands op_regions op_id op_kind op_results].
  rewrite !map_app. reflexivity.
Qed.

(** C2. A [tf.Shape] whose operand is argument [i] of the block of a
    replicate over [n] replicas gets, as its operand, the operand of the
    replicate at position [n * i], the one of the first replica; it stays a
    [tf.Shape] at its place and nothing else changes. *)
Theorem C2_shape_operand_is_first_replica
    (c : Context) (pre post : list Operation) (shape rep : Operation)
    (body : Block) (n : Z) (i : nat) (first_replica : Value) :
  let ir := plug c (pre ++ shape :: post) in
  NoDup (op_ids ir) ->
  op_kind shape = ShapeOp ->
  op_operands shape = [BlockArgument (blk_id body) i] ->
  find_op ir (op_id rep) = Some rep ->
  op_kind rep = ReplicateOp n ->
  GetBody rep = Some body ->
  (0 <= n < 2147483648)%Z ->
  (n * Z.of_nat i < two32)%Z ->
  nth_error (op_operands rep) (Z.to_nat (n * Z.of_nat i)) = Some first_replica ->
  let ir' := plug c (pre ++ set_operands [first_replica] shape :: post) in
  MakeShapeOpInvariant (op_id rep) (to_int (getLimitedValue n)) (blk_id body)
    ir (op_id shape) = Some ir'
  /\ find_op ir' (op_id shape) = Some (set_operands [first_replica] shape)
  /\ op_kind (set_operands [first_replica] shape) = ShapeOp.
Proof.
  intros ir Hnd Hk Hops Hrep Hrk Hbody Hn Hi Hnth ir'.
  split; [|split].
  - unfold MakeShapeOpInvariant.
    unfold ir at 1. rewrite (@find_op_plug c pre post shape Hnd).
    rewrite Hops. cbn [nth_error]. rewrite Nat.eqb_refl. cbn [negb].
    unfold getOperand. rewrite Hrep.
    rewrite replica_operand_index_exact by assumption. rewrite Hnth.
    apply setOperandOf_plug; [exact Hnd|]. rewrite Hops. reflexivity.
  - assert (Hnd' : NoDup (op_ids ir')).
    { eapply Permutation_NoDup; [|exact Hnd].
      apply Permutation_sym. apply op_ids_set_operands. }
    pose proof (@find_op_plug c pre post (set_operands [first_replica] shape) Hnd') as H.
    destruct shape; exact H.
  - destruct shape; exact Hk.
Qed.

(** Three replicas, [%r] bound to [[a0; a1; a2]]: the shape ends on [a0]. *)
Lemma C2_shape_operand_is_first_replica_witness :
  MakeShapeOpInvariant 1 3 1 Samples.func_shape 2
  = Some (plug Samples.in_replicate3
            [set_operands [BlockArgument 0 0] Samples.shape_of_r;
             Samples.op_a; Samples.device_return])
  /\ find_op
       (plug Samples.in_replicate3
          [set_operands [BlockArgument 0 0] Samples.shape_of_r;
           Samples.op_a; Samples.device_return]) 2
     = Some (set_operands [BlockArgument 0 0] Samples.shape_of_r)
  /\ op_kind (set_operands [BlockArgument 0 0] Samples.shape_of_r) = ShapeOp.
Proof.
  apply (@C2_shape_operand_is_first_replica Samples.in_replicate3 []
           [Samples.op_a; Samples.device_return]
           Samples.shape_of_r
           (Samples.replicate3
              [Samples.shape_of_r; Samples.op_a; Samples.device_return])
           (mkBlock 1 [Samples.T]
              [Samples.shape_of_r; Samples.op_a; Samples.device_return])
           3%Z 0 (BlockArgument 0 0)).
  - repeat constructor; simpl; intuition congruence.
  - reflexivity.
  - reflexivity.
  - reflexivity.
  - reflexivity.
  - reflexivity.
  - lia.
  - reflexivity.
  - reflexivity.
Defined.

(** *** A [tf.Shape] of a [tf.ReadVariableOp] of a replicated argument *)

Lemma replace_result_not_old (old new : OpId) (n k : nat) (v : Value) :
  old <> new ->
  (forall k', v = OpResult old k' -> k' < n) ->
  replace_result old new n v <> OpResult old k.
Proof.
  intros Hne Hk. destruct v as [o k'|b k']; cbn [replace_result]; [|discriminate].
  destruct (Nat.eqb_spec o old) as [->|Ho]; cbn [andb].
  - specialize (Hk k' eq_refl). apply Nat.ltb_lt in Hk. rewrite Hk.
    intros [= E _]. congruence.
  - intros [= E _]. congruence.
Qed.

Lemma erase_check_after_rebind (old new : OpId) (n : nat) (ir : Operation) :
  old <> new ->
  (forall nd k, In nd (nodes ir) -> In (OpResult old k) (op_operands nd) -> k < n) ->
  existsb (fun x => existsb (defined_by [old] []) (op_operands x))
    (walk (map_operands (rebind_uses old new n) ir)) = false.
Proof.
  intros Hne Hk. apply not_true_is_false. rewrite existsb_exists.
  intros (x & Hx & Hex). rewrite existsb_exists in Hex.
  destruct Hex as (v & Hv & Hd).
  rewrite (proj1 (walk_map_operands _)) in Hx. rewrite in_map_iff in Hx.
  destruct Hx as (y & <- & Hy).
  rewrite op_operands_map_operands in Hv. unfold rebind_uses in Hv.
  rewrite in_map_iff in Hv. destruct Hv as (w & <- & Hw).
  assert (Hbound : forall k', w = OpResult old k' -> k' < n).
  { intros k' ->. apply (Hk (strip y)); [|exact Hw].
    apply in_nodes_walk. eauto. }
  destruct (replace_result old new n w) as [o k|b k] eqn:E;
    cbn [defined_by existsb] in Hd; [|discriminate].
  rewrite orb_false_r in Hd. apply Nat.eqb_eq in Hd. subst o.
  exact (@replace_result_not_old old new n k w Hne Hbound E).
Qed.

Section ReadVariableCase.
Variables (c : Context) (pre post : list Operation).
Variables (shape read rep : Operation) (body : Block).
Variables (n : Z) (i j : nat) (first_replica : Value) (ty : MlirType).

Let ir : Operation := plug c (pre ++ shape :: post).

Hypothesis Hnd : NoDup (op_ids ir).
Hypothesis Hlive : no_dangling ir = true.
Hypothesis Hshape_operands : op_operands shape = [OpResult (op_id read) j].
Hypothesis Hshape_results : op_results shape = [ty].
Hypothesis Hshape_regions : op_regions shape = [].
Hypothesis Hread : find_op ir (op_id read) = Some read.
Hypothesis Hread_kind : op_kind read = ReadVariableOp.
Hypothesis Hread_operands : op_operands read = [BlockArgument (blk_id body) i].
Hypothesis Hrep : find_op ir (op_id rep) = Some rep.
Hypothesis Hrep_kind : op_kind rep = ReplicateOp n.
Hypothesis Hbody : GetBody rep = Some body.
Hypothesis Hn : (0 <= n < 2147483648)%Z.
Hypothesis Hi : (n * Z.of_nat i < two32)%Z.
Hypothesis Hnth :
  nth_error (op_operands rep) (Z.to_nat (n * Z.of_nat i)) = Some first_replica.

Let new_shape_op : Operation :=
  mkOperation (fresh_op_id ir) VariableShapeOp [first_replica] [ty] [].

Lemma shape_in_ir : In shape (walk ir).
Proof.
  apply walk_plug_in. rewrite flat_map_app. cbn [flat_map].
  rewrite !in_app_iff. right. left. apply walk_self.
Qed.

Lemma fresh_not_shape : op_id shape <> fresh_op_id ir.
Proof.
  intros E. apply (@fresh_op_id_not_in ir). rewrite <- E.
  apply in_map. exact shape_in_ir.
Qed.

Lemma NoDup_with_new : NoDup (op_ids (plug c (pre ++ new_shape_op :: shape :: post))).
Proof.
  eapply Permutation_NoDup.
  - apply Permutation_sym. apply op_ids_plug_insert.
  - cbn [op_ids new_shape_op walk flat_map app map op_id].
    constructor; [apply fresh_op_id_not_in | exact Hnd].
Qed.

(** The uses of the results of the shape are uses of its only result. *)
Lemma shape_uses_bound (nd : Operation) (k : nat) :
  In nd (nodes (plug c (pre ++ new_shape_op :: post))) ->
  In (OpResult (op_id shape) k) (op_operands nd) ->
  k < 1.
Proof.
  intros Hin Hv.
  assert (Hl : live ir (OpResult (op_id shape) k) = true).
  { apply (Permutation_in _ (nodes_plug_insert c pre post new_shape_op)) in Hin.
    apply in_app_or in Hin. destruct Hin as [Hin | Hin].
    - cbn in Hin. destruct Hin as [<- | []]. cbn in Hv. destruct Hv as [E | []].
      pose proof (find_op_Some _ _ Hrep) as [Hr _].
      apply (proj1 (no_dangling_spec ir) Hlive (strip rep)).
      + apply in_nodes_walk. eauto.
      + cbn. rewrite <- E. eapply nth_error_In. exact Hnth.
    - apply (proj1 (no_dangling_spec ir) Hlive nd); [|exact Hv].
      apply (Permutation_in _ (Permutation_sym (nodes_plug_insert c pre post shape))).
      apply in_or_app. right. exact Hin. }
  apply live_result in Hl. destruct Hl as (o & Ho & Hid & Hk).
  assert (o = shape) as -> by (eapply unique_by_id; eauto using shape_in_ir).
  rewrite Hshape_results in Hk. exact Hk.
Qed.

Lemma MakeShapeOpInvariant_read_variable :
  MakeShapeOpInvariant (op_id rep) (to_int (getLimitedValue n)) (blk_id body)
    ir (op_id shape)
  = Some (map_operands (rebind_uses (op_id shape) (fresh_op_id ir) 1)
            (plug c (pre ++ new_shape_op :: post))).
Proof.
  unfold MakeShapeOpInvariant.
  unfold ir at 1. rewrite (@find_op_plug c pre post shape Hnd).
  rewrite Hshape_operands. cbn [nth_error]. fold ir. rewrite Hread.
  rewrite Hread_kind. cbn [isa_ReadVariableOp negb].
  rewrite Hread_operands. cbn [nth_error]. rewrite Nat.eqb_refl. cbn [negb].
  unfold getOperand. rewrite Hrep.
  rewrite replica_operand_index_exact by assumption. rewrite Hnth.
  rewrite Hshape_results. cbn [nth_error]. fold new_shape_op.
  unfold ir at 1. rewrite (insertBefore_plug _ _ _ _ _ Hnd).
  pose proof NoDup_with_new as Hnd1.
  unfold replaceAllUsesWith.
  change (pre ++ new_shape_op :: shape :: post)
    with (pre ++ [new_shape_op] ++ shape :: post) in *.
  rewrite app_assoc in *.
  rewrite (@find_op_plug c (pre ++ [new_shape_op]) post shape Hnd1).
  rewrite <- app_assoc in *. cbn [app op_id new_shape_op] in *.
  change (fresh_op_id ir) with (op_id new_shape_op).
  rewrite (@find_op_plug c pre (shape :: post) new_shape_op Hnd1).
  rewrite Hshape_results. cbn [new_shape_op op_results length Nat.eqb].
  unfold erase. rewrite find_op_map_operands.
  change (pre ++ new_shape_op :: shape :: post)
    with (pre ++ [new_shape_op] ++ shape :: post) in *.
  rewrite app_assoc in *.
  rewrite (@find_op_plug c (pre ++ [new_shape_op]) post shape Hnd1).
  cbn [option_map]. rewrite remove_map_operands.
  rewrite (remove_plug _ _ _ _ Hnd1). rewrite <- app_assoc. cbn [app].
  rewrite op_ids_map_operands.
  assert (Hids : op_ids shape = [op_id shape]).
  { unfold op_ids. rewrite walk_unfold, Hshape_regions. reflexivity. }
  assert (Hblks : block_ids (map_operands
                    (rebind_uses (op_id shape) (op_id new_shape_op) 1) shape) = []).
  { rewrite block_ids_map_operands. unfold block_ids.
    destruct shape; cbn in *. subst. reflexivity. }
  rewrite Hids, Hblks.
  rewrite erase_check_after_rebind; [reflexivity | exact fresh_not_shape |].
  intros nd k. apply shape_uses_bound.
Qed.

End ReadVariableCase.

Lemma filter_none {A : Type} (p : A -> bool) (l : list A) :
  (forall x, In x l -> p x = false) -> filter p l = [].
Proof.
  induction l as [|a l IH]; intros H; cbn [filter]; [reflexivity|].
  rewrite (H a) by (left; reflexivity). apply IH. intros x Hx. apply H. right. exact Hx.
Qed.

Lemma nodes_map_operands (g : OpId -> list Value -> list Value) (ir : Operation) :
  nodes (map_operands g ir)
  = map (fun nd => set_operands (g (op_id nd) (op_operands nd)) nd) (nodes ir).
Proof.
  unfold nodes. rewrite (proj1 (walk_map_operands g)), !map_map.
  apply map_ext. intros [i k vs ts rs]. reflexivity.
Qed.

(** C3. A [tf.Shape] of the result of a [tf.ReadVariableOp] of argument [i] of
    the block of a replicate over [n] replicas is replaced: a new
    [tf.VariableShape] on the operand of the replicate at position [n * i]
    stands where the shape stood, every use of the result of the shape is a
    use of the result of the new operation, and the shape is gone.  A
    [tf.Shape] whose operand is neither an argument of the block of the
    replicate nor the result of such a read is left as it is. *)
Theorem C3_shape_of_read_variable_replaced
    (c : Context) (pre post : list Operation) (shape read rep : Operation)
    (body : Block) (n : Z) (i j : nat) (first_replica : Value) (ty : MlirType) :
  let ir := plug c (pre ++ shape :: post) in
  let new_id := fresh_op_id ir in
  let new_shape_op := mkOperation new_id VariableShapeOp [first_replica] [ty] [] in
  let ir' := map_operands (rebind_uses (op_id shape) new_id 1)
               (plug c (pre ++ new_shape_op :: post)) in
  NoDup (op_ids ir) ->
  no_dangling ir = true ->
  op_kind shape = ShapeOp ->
  op_operands shape = [OpResult (op_id read) j] ->
  op_results shape = [ty] ->
  op_regions shape = [] ->
  find_op ir (op_id read) = Some read ->
  op_kind read = ReadVariableOp ->
  op_operands read = [BlockArgument (blk_id body) i] ->
  find_op ir (op_id rep) = Some rep ->
  op_kind rep = ReplicateOp n ->
  GetBody rep = Some body ->
  (0 <= n < 2147483648)%Z ->
  (n * Z.of_nat i < two32)%Z ->
  nth_error (op_operands rep) (Z.to_nat (n * Z.of_nat i)) = Some first_replica ->
  first_replica <> OpResult (op_id shape) 0 ->
  (MakeShapeOpInvariant (op_id rep) (to_int (getLimitedValue n)) (blk_id body)
     ir (op_id shape) = Some ir'
   /\ find_op ir' new_id = Some new_shape_op
   /\ find_op ir' (op_id shape) = None
   /\ (forall o, In o (walk ir) -> op_id o <> op_id shape ->
        In (set_operands
              (map (replace_result (op_id shape) new_id 1) (op_operands o))
              (strip o))
           (nodes ir'))
   /\ (forall k, users ir' (OpResult (op_id shape) k) = []))
  /\ (forall (ir0 : Operation) (replicate_op : OpId) (num_replicas : Z)
             (replicate_block : BlockId) (s : Operation) (input : Value),
        find_op ir0 (op_id s) = Some s ->
        nth_error (op_operands s) 0 = Some input ->
        (forall k, input <> BlockArgument replicate_block k) ->
        (forall d k, input = OpResult d k ->
           exists def, find_op ir0 d = Some def
             /\ (op_kind def = ReadVariableOp ->
                 exists r, nth_error (op_operands def) 0 = Some r
                   /\ forall k', r <> BlockArgument replicate_block k')) ->
        MakeShapeOpInvariant replicate_op num_replicas replicate_block ir0 (op_id s)
        = Some ir0).
Proof.
  intros ir new_id new_shape_op ir' Hnd Hlive Hk Hops Hres Hregs Hread Hrk Hrops
    Hrep Hrepk Hbody Hn Hi Hnth Hfirst.
  assert (Hne : op_id shape <> new_id).
  { apply (@fresh_not_shape c pre post shape). }
  assert (Hnd1 : NoDup (op_ids (plug c (pre ++ new_shape_op :: post)))).
  { eapply Permutation_NoDup.
    - apply Permutation_sym. apply op_ids_plug_insert.
    - cbn [op_ids new_shape_op walk flat_map app map op_id].
      constructor.
      + intros Hin. apply (@fresh_op_id_not_in ir).
        apply (Permutation_in _ (Permutation_sym (op_ids_plug_insert c pre post shape))).
        apply in_or_app. right. exact Hin.
      + apply (Permutation_NoDup (op_ids_plug_insert c pre post shape)) in Hnd.
        apply NoDup_app_remove_l in Hnd. exact Hnd. }
  split; [split; [|split; [|split; [|split]]]|].
  - apply MakeShapeOpInvariant_read_variable with (read := read) (i := i) (j := j);
      assumption.
  - unfold ir'. rewrite find_op_map_operands.
    change new_id with (op_id new_shape_op).
    rewrite (@find_op_plug c pre post new_shape_op Hnd1). cbn [option_map].
    f_equal. cbn [new_shape_op map_operands op_id rebind_uses map].
    f_equal. f_equal.
    destruct first_replica as [o k|b k]; cbn [replace_result]; [|reflexivity].
    destruct (Nat.eqb_spec o (op_id shape)) as [->|]; [|reflexivity].
    destruct k as [|k]; [congruence | reflexivity].
  - unfold ir'. rewrite find_op_map_operands. rewrite find_op_None; [reflexivity|].
    intros Hin.
    apply (Permutation_in _ (op_ids_plug_insert c pre post new_shape_op)) in Hin.
    cbn [op_ids new_shape_op walk flat_map app map op_id In] in Hin.
    destruct Hin as [E | Hin]; [congruence|].
    apply (Permutation_NoDup (op_ids_plug_insert c pre post shape)) in Hnd.
    unfold op_ids at 1 in Hnd. rewrite walk_unfold, Hregs in Hnd.
    cbn [flat_map app map] in Hnd. apply NoDup_cons_iff in Hnd. tauto.
  - intros o Ho Hid. unfold ir'. rewrite nodes_map_operands.
    apply in_map_iff. exists (strip o). split.
    + destruct o; reflexivity.
    + apply (Permutation_in _ (Permutation_sym
               (nodes_plug_insert c pre post new_shape_op))).
      apply in_or_app. right.
      assert (Hin : In (strip o) (nodes ir)) by (apply in_nodes_walk; eauto).
      apply (Permutation_in _ (nodes_plug_insert c pre post shape)) in Hin.
      apply in_app_or in Hin. destruct Hin as [Hin | Hin]; [|exact Hin].
      unfold nodes in Hin. rewrite walk_unfold, Hregs in Hin.
      cbn [flat_map app map In] in Hin. destruct Hin as [E | []].
      exfalso. apply Hid. apply (f_equal op_id) in E.
      destruct o, shape. cbn in E. cbn. congruence.
  - intros k. unfold users.
    apply filter_none. intros nd Hin.
    apply not_true_is_false. rewrite existsb_exists. intros (v & Hv & He).
    assert (v = OpResult (op_id shape) k) as ->.
    { destruct v as [o k'|b k']; cbn [Value_eqb] in He; [|discriminate].
      apply andb_true_iff in He. destruct He as [E1 E2].
      apply Nat.eqb_eq in E1, E2. congruence. }
    unfold ir' in Hin. rewrite nodes_map_operands in Hin.
    rewrite in_map_iff in Hin. destruct Hin as (nd0 & <- & Hin0).
    cbn [set_operands op_operands] in Hv. unfold rebind_uses in Hv.
    rewrite in_map_iff in Hv. destruct Hv as (w & Hw & Hwin).
    revert Hw. apply replace_result_not_old; [exact Hne|].
    intros k' ->.
    apply (@shape_uses_bound c pre post shape rep n i first_replica ty
             Hnd Hlive Hres Hrep Hnth nd0 k'); assumption.
  - clear. intros ir0 replicate_op num_replicas replicate_block s input
      Hs Hin Hnarg Hdef.
    unfold MakeShapeOpInvariant. rewrite Hs, Hin.
    destruct input as [d k|b k].
    + destruct (Hdef d k eq_refl) as (def & Hd & Hr). rewrite Hd.
      destruct (isa_ReadVariableOp (op_kind def)) eqn:E; [|reflexivity].
      cbn [negb].
      assert (Hrk : op_kind def = ReadVariableOp)
        by (destruct (op_kind def); try discriminate; reflexivity).
      destruct (Hr Hrk) as (r & Hr0 & Hrn). rewrite Hr0.
      destruct r as [o k'|b k']; [reflexivity|].
      destruct (Nat.eqb_spec b replicate_block) as [->|]; [|reflexivity].
      exfalso. apply (Hrn k'). reflexivity.
    + destruct (Nat.eqb_spec b replicate_block) as [->|]; [|reflexivity].
      exfalso. apply (Hnarg k). reflexivity.
Qed.

Lemma NoDup_app_not_in {A : Type} (l l' : list A) (x : A) :
  NoDup (l ++ l') -> In x l -> ~ In x l'.
Proof.
  induction l as [|a l IH]; cbn [app In]; [tauto|].
  intros Hnd [-> | Hin] Hx.
  - apply NoDup_cons_iff in Hnd. apply (proj1 Hnd). apply in_or_app. right. exact Hx.
  - apply NoDup_cons_iff in Hnd. apply (IH (proj2 Hnd) Hin Hx).
Qed.

Lemma C3_shape_of_read_variable_replaced_witness :
  let ir' :=
    plug Samples.in_replicate3
      [Samples.read_of_r;
       mkOperation 10 VariableShapeOp [BlockArgument 0 0] [Samples.T] [];
       set_operands [OpResult 10 0] Samples.op_c;
       Samples.device_return] in
  MakeShapeOpInvariant 1 3 1 Samples.func_read 8 = Some ir'
  /\ find_op ir' 8 = None
  /\ users ir' (OpResult 8 0) = []
  /\ MakeShapeOpInvariant 1 3 1 ir' 10 = Some ir'.
Proof.
  pose proof (@C3_shape_of_read_variable_replaced Samples.in_replicate3
                [Samples.read_of_r] [Samples.op_c; Samples.device_return]
                Samples.shape_of_read Samples.read_of_r
                (Samples.replicate3
                   [Samples.read_of_r; Samples.shape_of_read; Samples.op_c;
                    Samples.device_return])
                (mkBlock 1 [Samples.T]
                   [Samples.read_of_r; Samples.shape_of_read; Samples.op_c;
                    Samples.device_return])
                3%Z 0 0 (BlockArgument 0 0) Samples.T) as H.
  cbv zeta in H.
  destruct H as [(H1 & H2 & H3 & H4 & H5) H6].
  - repeat constructor; simpl; intuition congruence.
  - reflexivity.
  - reflexivity.
  - reflexivity.
  - reflexivity.
  - reflexivity.
  - reflexivity.
  - reflexivity.
  - reflexivity.
  - reflexivity.
  - reflexivity.
  - reflexivity.
  - lia.
  - reflexivity.
  - reflexivity.
  - discriminate.
  - cbv zeta. split; [exact H1|]. split; [exact H3|]. split; [exact (H5 0)|].
    apply (H6 _ 1 3%Z 1 (mkOperation 10 VariableShapeOp [BlockArgument 0 0] [Samples.T] [])
             (BlockArgument 0 0)).
    + reflexivity.
    + reflexivity.
    + intros k. discriminate.
    + intros d k. discriminate.
Defined.

Lemma replace_result_block_argument (old new : OpId) (n : nat) (b : BlockId) (k : nat) :
  replace_result old new n (BlockArgument b k) = BlockArgument b k.
Proof. reflexivity. Qed.

Lemma op_locations_leaf (o : Operation) (ctx : list RegionRef) :
  op_regions o = [] -> op_locations ctx o = [(op_id o, ctx)].
Proof. destruct o as [i k vs ts rs]. cbn. intros ->. reflexivity. Qed.

Lemma uses_value (v : Value) (nd : Operation) :
  existsb (Value_eqb v) (op_operands nd) = true <-> In v (op_operands nd).
Proof.
  rewrite existsb_exists. split.
  - intros (w & Hw & He).
    destruct v as [o k|b k], w as [o' k'|b' k']; cbn [Value_eqb] in He;
      try discriminate;
      apply andb_true_iff in He; destruct He as [E1 E2];
      apply Nat.eqb_eq in E1, E2; subst; exact Hw.
  - intros Hin. exists v. split; [exact Hin|].
    destruct v; cbn [Value_eqb]; rewrite !Nat.eqb_refl; reflexivity.
Qed.

(** C10. When a [tf.Shape] of a [tf.ReadVariableOp] is replaced, the read is
    left as it is, where it is: same operation, same operand (the argument of
    the block of the replicate), same enclosing regions.  This also holds when
    the shape was the only user of the read, which then has no use left. *)
Theorem C10_read_variable_left_in_place
    (c : Context) (pre post : list Operation) (shape read rep : Operation)
    (body : Block) (n : Z) (i j : nat) (first_replica : Value) (ty : MlirType) :
  let ir := plug c (pre ++ shape :: post) in
  let new_id := fresh_op_id ir in
  let new_shape_op := mkOperation new_id VariableShapeOp [first_replica] [ty] [] in
  let ir' := map_operands (rebind_uses (op_id shape) new_id 1)
               (plug c (pre ++ new_shape_op :: post)) in
  NoDup (op_ids ir) ->
  no_dangling ir = true ->
  op_kind shape = ShapeOp ->
  op_operands shape = [OpResult (op_id read) j] ->
  op_results shape = [ty] ->
  op_regions shape = [] ->
  find_op ir (op_id read) = Some read ->
  op_kind read = ReadVariableOp ->
  op_operands read = [BlockArgument (blk_id body) i] ->
  op_regions read = [] ->
  find_op ir (op_id rep) = Some rep ->
  op_kind rep = ReplicateOp n ->
  GetBody rep = Some body ->
  (0 <= n < 2147483648)%Z ->
  (n * Z.of_nat i < two32)%Z ->
  nth_error (op_operands rep) (Z.to_nat (n * Z.of_nat i)) = Some first_replica ->
  MakeShapeOpInvariant (op_id rep) (to_int (getLimitedValue n)) (blk_id body)
    ir (op_id shape) = Some ir'
  /\ find_op ir' (op_id read) = Some read
  /\ lookup (op_id read) (op_locations [] ir')
     = lookup (op_id read) (op_locations [] ir)
  /\ (users ir (OpResult (op_id read) j) = [strip shape] ->
      users ir' (OpResult (op_id read) j) = []).
Proof.
  intros ir new_id new_shape_op ir' Hnd Hlive Hk Hops Hres Hregs Hread Hrk Hrops
    Hrregs Hrep Hrepk Hbody Hn Hi Hnth.
  assert (Hne : op_id shape <> new_id).
  { apply (@fresh_not_shape c pre post shape). }
  pose proof (find_op_Some _ _ Hread) as [Hrin _].
  pose proof (find_op_Some _ _ Hrep) as [Hrepin _].
  assert (Hrs : op_id read <> op_id shape).
  { intros E. assert (read = shape).
    { eapply unique_by_id; eauto. apply (@shape_in_ir c pre post shape). }
    subst read. rewrite Hops in Hrops. discriminate. }
  assert (Hrn : op_id read <> new_id).
  { intros E. apply (@fresh_op_id_not_in ir). fold new_id. rewrite <- E.
    apply in_map. exact Hrin. }
  assert (Hnd1 : NoDup (op_ids (plug c (pre ++ new_shape_op :: post)))).
  { eapply Permutation_NoDup.
    - apply Permutation_sym. apply op_ids_plug_insert.
    - cbn [op_ids new_shape_op walk flat_map app map op_id].
      constructor.
      + intros Hin. apply (@fresh_op_id_not_in ir).
        apply (Permutation_in _ (Permutation_sym (op_ids_plug_insert c pre post shape))).
        apply in_or_app. right. exact Hin.
      + apply (Permutation_NoDup (op_ids_plug_insert c pre post shape)) in Hnd.
        apply NoDup_app_remove_l in Hnd. exact Hnd. }
  split; [|split; [|split]].
  - apply MakeShapeOpInvariant_read_variable with (read := read) (i := i) (j := j);
      assumption.
  - unfold ir'. rewrite find_op_map_operands.
    assert (Hin : In read (walk (plug c (pre ++ new_shape_op :: post)))).
    { apply (walk_plug_leaf c _ read Hrregs).
      apply (walk_plug_leaf c _ read Hrregs) in Hrin.
      rewrite flat_map_app, !in_app_iff in *. cbn [flat_map] in *.
      rewrite in_app_iff in *. rewrite (walk_unfold shape), Hregs in Hrin.
      cbn [flat_map app In] in Hrin.
      destruct Hrin as [H | [H | [[H | []] | H]]]; auto.
      subst read. congruence. }
    rewrite (find_op_unique _ _ Hnd1 Hin). cbn [option_map]. f_equal.
    destruct read as [ri rk rvs rts rrs]. cbn in Hrops, Hrregs. subst rvs rrs.
    reflexivity.
  - unfold ir'. rewrite (proj1 (op_locations_map_operands _)).
    unfold ir. rewrite !op_locations_plug. rewrite !flat_map_app.
    cbn [flat_map]. rewrite (@op_locations_leaf shape _ Hregs).
    rewrite (@op_locations_leaf new_shape_op _ eq_refl).
    rewrite !lookup_app. cbn [new_shape_op op_id].
    assert (H1 : lookup (op_id read) [(new_id, ctx_chain c)] = None).
    { unfold lookup. cbn [find fst].
      destruct (Nat.eqb_spec new_id (op_id read)) as [E|_]; [congruence|reflexivity]. }
    assert (H2 : lookup (op_id read) [(op_id shape, ctx_chain c)] = None).
    { unfold lookup. cbn [find fst].
      destruct (Nat.eqb_spec (op_id shape) (op_id read)) as [E|_];
        [congruence|reflexivity]. }
    rewrite H1, H2. reflexivity.
  - intros Honly. unfold users. apply filter_none. intros nd Hin.
    apply not_true_is_false. rewrite uses_value. intros Hv.
    unfold ir' in Hin. rewrite nodes_map_operands in Hin.
    rewrite in_map_iff in Hin. destruct Hin as (nd0 & <- & Hin0).
    cbn [set_operands op_operands] in Hv. unfold rebind_uses in Hv.
    rewrite in_map_iff in Hv. destruct Hv as (w & Hw & Hwin).
    assert (Hw' : w = OpResult (op_id read) j).
    { destruct w as [o k|b k]; cbn [replace_result] in Hw; [|discriminate].
      destruct (Nat.eqb o (op_id shape) && Nat.ltb k 1); [|exact Hw].
      injection Hw as E _. congruence. }
    subst w.
    assert (Huser : forall x, In x (nodes ir) ->
                      In (OpResult (op_id read) j) (op_operands x) ->
                      x = strip shape).
    { intros x Hx Hu.
      assert (Hf : In x (users ir (OpResult (op_id read) j))).
      { unfold users. apply filter_In. split; [exact Hx|]. apply uses_value. exact Hu. }
      rewrite Honly in Hf. destruct Hf as [<- | []]. reflexivity. }
    apply (Permutation_in _ (nodes_plug_insert c pre post new_shape_op)) in Hin0.
    apply in_app_or in Hin0. destruct Hin0 as [Hin0 | Hin0].
    + cbn in Hin0. destruct Hin0 as [<- | []]. cbn in Hwin.
      destruct Hwin as [E | []].
      assert (Hx : strip rep = strip shape).
      { apply Huser; [apply in_nodes_walk; eauto|].
        cbn. rewrite <- E. eapply nth_error_In. exact Hnth. }
      apply (f_equal op_kind) in Hx. destruct rep, shape. cbn in *. congruence.
    + assert (Hx : nd0 = strip shape).
      { apply Huser; [|exact Hwin].
        apply (Permutation_in _ (Permutation_sym (nodes_plug_insert c pre post shape))).
        apply in_or_app. right. exact Hin0. }
      subst nd0.
      apply (Permutation_NoDup (op_ids_plug_insert c pre post shape)) in Hnd.
      apply NoDup_app_not_in with (x := op_id shape) in Hnd.
      * apply Hnd. unfold nodes in Hin0. rewrite in_map_iff in Hin0.
        destruct Hin0 as (o & Ho & Hoin). apply in_map_iff. exists o.
        split; [|exact Hoin]. apply (f_equal op_id) in Ho.
        destruct o, shape. cbn in *. congruence.
      * apply in_map. apply walk_self.
Qed.

Lemma C10_read_variable_left_in_place_witness :
  let ir' :=
    plug Samples.in_replicate3
      [Samples.read_of_r;
       mkOperation 10 VariableShapeOp [BlockArgument 0 0] [Samples.T] [];
       set_operands [OpResult 10 0] Samples.op_c;
       Samples.device_return] in
  users Samples.func_read (OpResult 7 0) = [strip Samples.shape_of_read]
  /\ MakeShapeOpInvariant 1 3 1 Samples.func_read 8 = Some ir'
  /\ find_op ir' 7 = Some Samples.read_of_r
  /\ lookup 7 (op_locations [] ir') = Some [(1, 0); (0, 0)]
  /\ users ir' (OpResult 7 0) = [].
Proof.
  pose proof (@C10_read_variable_left_in_place Samples.in_replicate3
                [Samples.read_of_r] [Samples.op_c; Samples.device_return]
                Samples.shape_of_read Samples.read_of_r
                (Samples.replicate3
                   [Samples.read_of_r; Samples.shape_of_read; Samples.op_c;
                    Samples.device_return])
                (mkBlock 1 [Samples.T]
                   [Samples.read_of_r; Samples.shape_of_read; Samples.op_c;
                    Samples.device_return])
                3%Z 0 0 (BlockArgument 0 0) Samples.T) as H.
  cbv zeta in H.
  destruct H as (H1 & H2 & H3 & H4).
  - repeat constructor; simpl; intuition congruence.
  - reflexivity.
  - reflexivity.
  - reflexivity.
  - reflexivity.
  - reflexivity.
  - reflexivity.
  - reflexivity.
  - reflexivity.
  - reflexivity.
  - reflexivity.
  - reflexivity.
  - reflexivity.
  - lia.
  - reflexivity.
  - reflexivity.
  - cbv zeta. split; [reflexivity|]. split; [exact H1|]. split; [exact H2|].
    split; [etransitivity; [exact H3 | reflexivity] | exact (H4 eq_refl)].
Defined.

(** *** The hoisting loop *)

Section HoistLoop.
Variables (c : Context) (pre post : list Operation) (rl : Layer).

(** The replicate is the operation of layer [rl]: its body is the first block
    of its first region. *)
Hypothesis Hregion : l_regions_before rl = [].
Hypothesis Hblock : l_blocks_before rl = [].

Local Abbreviation hoist_state := (hoisted_state c pre post rl).

Lemma hoist_state_inner (hoisted body : list Operation) :
  hoist_state hoisted body = plug (Under c (pre ++ hoisted) rl post) body.
Proof. unfold hoisted_state. cbn [plug]. rewrite <- app_assoc. reflexivity. Qed.

Lemma hoist_state_outer (hoisted body : list Operation) :
  hoist_state hoisted body = plug c ((pre ++ hoisted) ++ fill rl body :: post).
Proof. unfold hoisted_state. rewrite <- app_assoc. reflexivity. Qed.

Lemma op_ids_hoist_state (hoisted body : list Operation) :
  Permutation (op_ids (hoist_state hoisted body))
    (map op_id (flat_map walk hoisted) ++ map op_id (flat_map walk body)
     ++ ctx_op_ids (Under c pre rl post)).
Proof.
  rewrite hoist_state_inner, op_ids_plug. cbn [ctx_op_ids].
  rewrite flat_map_app, map_app.
  change (l_id rl :: ?x) with ([l_id rl] ++ x).
  solve_perm.
Qed.

Lemma op_ids_hoist_state_move (hoisted kept rest : list Operation) (a : Operation) :
  Permutation (op_ids (hoist_state (hoisted ++ [a]) (kept ++ rest)))
    (op_ids (hoist_state hoisted (kept ++ a :: rest))).
Proof.
  rewrite !op_ids_hoist_state. rewrite !flat_map_app. cbn [flat_map].
  rewrite !map_app. rewrite app_nil_r. solve_perm.
Qed.

Lemma GetBody_fill (body : list Operation) :
  GetBody (fill rl body) = Some (mkBlock (l_block rl) (l_args rl) body).
Proof. unfold GetBody, fill. cbn [op_regions]. rewrite Hregion, Hblock. reflexivity. Qed.

Lemma find_replicate (hoisted body : list Operation) :
  NoDup (op_ids (hoist_state hoisted body)) ->
  find_op (hoist_state hoisted body) (l_id rl) = Some (fill rl body).
Proof.
  intros Hnd. rewrite hoist_state_outer in *.
  exact (@find_op_plug c (pre ++ hoisted) post (fill rl body) Hnd).
Qed.

Lemma find_inner (hoisted kept rest : list Operation) (a : Operation) :
  NoDup (op_ids (hoist_state hoisted (kept ++ a :: rest))) ->
  find_op (hoist_state hoisted (kept ++ a :: rest)) (op_id a) = Some a.
Proof.
  intros Hnd. rewrite hoist_state_inner in *.
  exact (@find_op_plug (Under c (pre ++ hoisted) rl post) kept rest a Hnd).
Qed.

(** [moveBefore] takes the operation out of the body and puts it right before
    the replicate, after the operations hoisted so far. *)
Lemma existsb_strip (op : OpId) (l : list Operation) :
  existsb (uses_result_of op) (map strip l) = existsb (uses_result_of op) l.
Proof. induction l as [|x l IH]; cbn [map existsb]; [reflexivity|]. rewrite IH. reflexivity. Qed.

Lemma moveBefore_hoist_state (hoisted kept rest : list Operation) (a : Operation) :
  NoDup (op_ids (hoist_state hoisted (kept ++ a :: rest))) ->
  moveBefore (hoist_state hoisted (kept ++ a :: rest)) (op_id a) (l_id rl)
  = if existsb (uses_result_of (op_id a)) (met_before c pre hoisted) then None
    else Some (hoist_state (hoisted ++ [a]) (kept ++ rest)).
Proof.
  intros Hnd. unfold moveBefore.
  rewrite (find_inner _ _ _ _ Hnd), (find_replicate _ _ Hnd). cbv zeta.
  assert (Hrm : remove (hoist_state hoisted (kept ++ a :: rest)) (op_id a)
                = hoist_state hoisted (kept ++ rest)).
  { rewrite !hoist_state_inner in *. apply remove_plug. exact Hnd. }
  rewrite Hrm.
  assert (Hnd' : NoDup (op_ids (hoist_state hoisted (kept ++ rest)))).
  { rewrite !hoist_state_inner in *.
    apply (Permutation_NoDup (op_ids_plug_insert _ kept rest a)) in Hnd.
    apply NoDup_app_remove_l in Hnd. exact Hnd. }
  assert (Hmove : insertBefore (hoist_state hoisted (kept ++ rest)) (l_id rl) a
                  = plug c ((pre ++ hoisted) ++ a :: fill rl (kept ++ rest) :: post)).
  { rewrite !hoist_state_outer in *.
    change (l_id rl) with (op_id (fill rl (kept ++ rest))).
    apply (insertBefore_plug _ _ _ _ a Hnd'). }
  rewrite Hmove.
  assert (Hnd2 : NoDup (op_ids (plug c ((pre ++ hoisted) ++ a
                                        :: fill rl (kept ++ rest) :: post)))).
  { eapply Permutation_NoDup; [|exact Hnd].
    rewrite <- (op_ids_hoist_state_move hoisted kept rest a).
    unfold hoisted_state. rewrite <- !app_assoc. reflexivity. }
  rewrite (preceding_plug _ _ _ _ Hnd2).
  assert (Hcheck : existsb (uses_result_of (op_id a))
                     (ctx_walk_before c ((pre ++ hoisted) ++ a
                                         :: fill rl (kept ++ rest) :: post)
                      ++ flat_map walk (pre ++ hoisted))
                   = existsb (uses_result_of (op_id a)) (met_before c pre hoisted)).
  { unfold met_before. rewrite <- map_app, existsb_strip.
    rewrite <- (existsb_strip _ (_ ++ _)), map_app.
    rewrite (strip_ctx_walk_before c _ []), <- map_app.
    apply existsb_strip. }
  rewrite Hcheck. unfold hoisted_state. rewrite <- !app_assoc. reflexivity.
Qed.

Lemma NoDup_direct_ids (ops : list Operation) :
  NoDup (map op_id (flat_map walk ops)) -> NoDup (map op_id ops).
Proof.
  induction ops as [|a ops IH]; cbn [flat_map map]; [constructor|].
  rewrite map_app, walk_unfold. cbn [map app]. intros Hnd.
  apply NoDup_cons_iff in Hnd. destruct Hnd as [Hn Hnd].
  constructor.
  - intros Hin. apply Hn. apply in_or_app. right.
    rewrite in_map_iff in *. destruct Hin as (x & Hx & Hin).
    exists x. split; [exact Hx|]. apply in_flat_map. exists x.
    split; [exact Hin | apply walk_self].
  - apply IH. apply NoDup_app_remove_l in Hnd. exact Hnd.
Qed.

Lemma NoDup_body (hoisted body : list Operation) :
  NoDup (op_ids (hoist_state hoisted body)) -> NoDup (map op_id body).
Proof.
  intros Hnd. apply (Permutation_NoDup (op_ids_hoist_state hoisted body)) in Hnd.
  apply NoDup_app_remove_l in Hnd. apply NoDup_app_remove_r in Hnd.
  apply NoDup_direct_ids. exact Hnd.
Qed.

Lemma among_cons (a : Operation) (ops : list Operation) (x : Operation) :
  among (a :: ops) x = Nat.eqb (op_id x) (op_id a) || among ops x.
Proof. reflexivity. Qed.

Lemma among_false (ops : list Operation) (x : Operation) :
  ~ In (op_id x) (map op_id ops) -> among ops x = false.
Proof.
  intros Hn. unfold among. apply not_true_is_false. rewrite existsb_exists.
  intros (y & Hy & E). apply Nat.eqb_eq in E. subst y. contradiction.
Qed.

Lemma among_filter_false (p : Operation -> bool) (rest : list Operation) (a : Operation) :
  ~ In (op_id a) (map op_id rest) -> among (filter p rest) a = false.
Proof.
  intros Hn. apply among_false. intros Hin. apply Hn.
  rewrite in_map_iff in *. destruct Hin as (x & Hx & Hin).
  apply filter_In in Hin. exists x. tauto.
Qed.

Lemma met_before_incl (hoisted hoisted' : list Operation) :
  incl hoisted hoisted' -> incl (met_before c pre hoisted) (met_before c pre hoisted').
Proof.
  intros Hi x. unfold met_before. rewrite !in_app_iff, !in_map_iff.
  intros [H | (y & <- & Hy)]; [left; exact H|]. right. exists y. split; [reflexivity|].
  rewrite in_flat_map in *. destruct Hy as (o & Ho & Hy). exists o. split; [|exact Hy].
  rewrite in_app_iff in *. destruct Ho as [Ho | Ho]; [left; exact Ho | right; auto].
Qed.

Lemma uses_follow_head (hoisted rest : list Operation) (a : Operation) :
  uses_follow c pre hoisted (a :: rest) ->
  existsb (uses_result_of (op_id a)) (met_before c pre hoisted) = false.
Proof. intros Hf. specialize (Hf [] a rest eq_refl). rewrite app_nil_r in Hf. exact Hf. Qed.

Lemma uses_follow_moved (hoisted rest : list Operation) (a : Operation) :
  uses_follow c pre hoisted (a :: rest) -> uses_follow c pre (hoisted ++ [a]) rest.
Proof.
  intros Hf before x after E. rewrite <- app_assoc. cbn [app].
  apply (Hf (a :: before) x after). rewrite E. reflexivity.
Qed.

Lemma uses_follow_kept (hoisted rest : list Operation) (a : Operation) :
  uses_follow c pre hoisted (a :: rest) -> uses_follow c pre hoisted rest.
Proof.
  intros Hf before x after E.
  assert (H : existsb (uses_result_of (op_id x))
                (met_before c pre (hoisted ++ a :: before)) = false)
    by (apply (Hf (a :: before) x after); rewrite E; reflexivity).
  rewrite existsb_none in *. intros y Hy. apply H.
  revert Hy. apply met_before_incl. intros z. rewrite !in_app_iff. cbn [In]. tauto.
Qed.

(** The loop, from any of its turns on: [hoisted] and [kept] are what the
    turns so far moved and left, [rest] is what is still to visit.  The loop
    fails only when a move is refused, and no move is refused when uses follow
    definitions. *)
Lemma hoist_loop (rest : list Operation) :
  forall hoisted kept,
    NoDup (op_ids (hoist_state hoisted (kept ++ rest))) ->
    exists moved,
      (let run := foreach (hoist_inner_op (l_id rl) (l_id rl, 0)) (map op_id rest)
                    (hoist_state hoisted (kept ++ rest)) in
       let result := hoist_state (hoisted ++ moved)
                       (kept ++ filter (fun a => negb (among moved a)) rest) in
       (run = Some result \/ run = None)
       /\ (uses_follow c pre hoisted rest -> run = Some result))
      /\ moved = filter (among moved) rest
      /\ forall before a after,
           rest = before ++ a :: after ->
           (among moved a = true <->
            isa_DeviceReturnOp (op_kind a) = false
            /\ IsOpReplicateInvariant
                 (hoist_state (hoisted ++ filter (among moved) before)
                    (kept ++ filter (fun a => negb (among moved a)) before
                          ++ a :: after))
                 (l_id rl, 0) a = true).
Proof.
  induction rest as [|a rest IH]; intros hoisted kept Hnd.
  - exists []. cbn [map foreach filter]. rewrite !app_nil_r.
    split; [split; [left; reflexivity | reflexivity]|]. split; [reflexivity|].
    intros [|b before] x after E; discriminate.
  - pose proof (NoDup_body _ _ Hnd) as Hids. rewrite map_app in Hids.
    apply NoDup_app_remove_l in Hids. cbn [map] in Hids.
    apply NoDup_cons_iff in Hids. destruct Hids as [Ha Hids].
    assert (Hhead :
              foreach (hoist_inner_op (l_id rl) (l_id rl, 0)) (map op_id (a :: rest))
                (hoist_state hoisted (kept ++ a :: rest))
              = match (if isa_DeviceReturnOp (op_kind a)
                       then Some (hoist_state hoisted (kept ++ a :: rest))
                       else if IsOpReplicateInvariant
                                 (hoist_state hoisted (kept ++ a :: rest))
                                 (l_id rl, 0) a
                            then moveBefore (hoist_state hoisted (kept ++ a :: rest))
                                   (op_id a) (l_id rl)
                            else Some (hoist_state hoisted (kept ++ a :: rest)))
                with
                | Some ir' =>
                    foreach (hoist_inner_op (l_id rl) (l_id rl, 0)) (map op_id rest) ir'
                | None => None
                end).
    { cbn [map foreach]. unfold hoist_inner_op at 1.
      rewrite (find_inner _ _ _ _ Hnd). reflexivity. }
    destruct (negb (isa_DeviceReturnOp (op_kind a))
              && IsOpReplicateInvariant (hoist_state hoisted (kept ++ a :: rest))
                   (l_id rl, 0) a) eqn:Hd.
    + (* the operation is moved *)
      apply andb_true_iff in Hd. destruct Hd as [Hret Hinv].
      apply negb_true_iff in Hret. rewrite Hret, Hinv in Hhead.
      rewrite (moveBefore_hoist_state _ _ _ _ Hnd) in Hhead.
      assert (Hnd' : NoDup (op_ids (hoist_state (hoisted ++ [a]) (kept ++ rest)))).
      { eapply Permutation_NoDup; [|exact Hnd].
        apply Permutation_sym. apply op_ids_hoist_state_move. }
      destruct (IH (hoisted ++ [a]) kept Hnd') as (moved & Hrun & Hmoved & Hiff).
      cbv zeta in Hrun. destruct Hrun as [Hpart Htotal].
      assert (Hext : forall x, In x rest -> among (a :: moved) x = among moved x).
      { intros x Hx. rewrite among_cons.
        destruct (Nat.eqb_spec (op_id x) (op_id a)) as [E|_]; [|reflexivity].
        exfalso. apply Ha. rewrite <- E. apply in_map. exact Hx. }
      assert (Hself : among (a :: moved) a = true).
      { rewrite among_cons, Nat.eqb_refl. reflexivity. }
      assert (Hf1 : forall l, incl l rest ->
                      filter (among (a :: moved)) l = filter (among moved) l).
      { intros l Hl. apply filter_ext_in. intros x Hx. apply Hext, Hl, Hx. }
      assert (Hf2 : forall l, incl l rest ->
                      filter (fun x => negb (among (a :: moved) x)) l
                      = filter (fun x => negb (among moved x)) l).
      { intros l Hl. apply filter_ext_in. intros x Hx. f_equal. apply Hext, Hl, Hx. }
      exists (a :: moved). split; [|split].
      * cbv zeta. rewrite Hhead. cbn [filter]. rewrite Hself. cbn [negb].
        rewrite (Hf2 rest (incl_refl _)). rewrite <- app_assoc in Hpart, Htotal.
        cbn [app] in Hpart, Htotal.
        split.
        -- destruct (existsb _ (met_before c pre hoisted)); [right; reflexivity|].
           exact Hpart.
        -- intros Hf. rewrite (uses_follow_head Hf).
           apply Htotal. apply uses_follow_moved. exact Hf.
      * cbn [filter]. rewrite Hself. rewrite (Hf1 rest (incl_refl _)).
        f_equal. exact Hmoved.
      * intros [|b before] x after E; cbn [app] in E; injection E as <- E.
        -- subst rest. cbn [filter]. rewrite !app_nil_r. cbn [app].
           rewrite Hself, Hret, Hinv. tauto.
        -- subst rest.
           assert (Hinc : incl before (before ++ x :: after))
             by (apply incl_appl, incl_refl).
           rewrite (Hext x) by (apply in_or_app; right; left; reflexivity).
           cbn [filter]. rewrite Hself. cbn [negb].
           rewrite (Hf1 before Hinc), (Hf2 before Hinc).
           rewrite (Hiff before x after eq_refl).
           rewrite <- !app_assoc. reflexivity.
    + (* the operation stays *)
      assert (Hstep : (if isa_DeviceReturnOp (op_kind a)
                       then Some (hoist_state hoisted (kept ++ a :: rest))
                       else if IsOpReplicateInvariant
                                 (hoist_state hoisted (kept ++ a :: rest))
                                 (l_id rl, 0) a
                            then moveBefore (hoist_state hoisted (kept ++ a :: rest))
                                   (op_id a) (l_id rl)
                            else Some (hoist_state hoisted (kept ++ a :: rest)))
                      = Some (hoist_state hoisted ((kept ++ [a]) ++ rest))).
      { rewrite <- app_assoc. cbn [app].
        destruct (isa_DeviceReturnOp (op_kind a)); [reflexivity|].
        cbn [negb andb] in Hd. rewrite Hd. reflexivity. }
      rewrite Hstep in Hhead.
      assert (Hnd' : NoDup (op_ids (hoist_state hoisted ((kept ++ [a]) ++ rest)))).
      { rewrite <- app_assoc. exact Hnd. }
      destruct (IH hoisted (kept ++ [a]) Hnd') as (moved & Hrun & Hmoved & Hiff).
      cbv zeta in Hrun. destruct Hrun as [Hpart Htotal].
      assert (Hself : among moved a = false).
      { rewrite Hmoved. apply among_filter_false. exact Ha. }
      exists moved. split; [|split].
      * cbv zeta. rewrite Hhead. cbn [filter]. rewrite Hself. cbn [negb].
        rewrite <- !app_assoc in Hpart, Htotal. cbn [app] in Hpart, Htotal.
        rewrite <- !app_assoc. cbn [app].
        split; [exact Hpart|].
        intros Hf. apply Htotal. apply (uses_follow_kept Hf).
      * cbn [filter]. rewrite Hself. exact Hmoved.
      * intros [|b before] x after E; cbn [app] in E; injection E as <- E.
        -- subst rest. cbn [filter]. rewrite !app_nil_r. cbn [app].
           rewrite Hself. split; [discriminate|].
           intros [Hr Hi]. rewrite Hr, Hi in Hd. discriminate.
        -- subst rest. cbn [filter]. rewrite Hself. cbn [negb].
           rewrite (Hiff before x after eq_refl).
           rewrite <- !app_assoc. reflexivity.
Qed.

End HoistLoop.

(** *** What the loop reads, in terms of the IR it started from *)

Lemma lookup_iff {A : Type} (l : list (nat * A)) (i : nat) (x : A) :
  NoDup (map fst l) -> (lookup i l = Some x <-> In (i, x) l).
Proof.
  intros Hnd. split; [|apply lookup_unique; exact Hnd].
  unfold lookup. destruct (find _ l) as [[k y]|] eqn:E; [|discriminate].
  cbn [option_map snd]. intros [= ->]. apply find_some in E.
  destruct E as [Hin He]. cbn [fst] in He. apply Nat.eqb_eq in He. subst k. exact Hin.
Qed.

Lemma ctx_chain_not_nil (c : Context) : ctx_chain c <> [].
Proof. destruct c; discriminate. Qed.

Lemma RegionRef_eqb_spec (r s : RegionRef) : RegionRef_eqb r s = true <-> r = s.
Proof.
  destruct r as [a b], s as [a' b']. unfold RegionRef_eqb. cbn [fst snd].
  rewrite andb_true_iff, !Nat.eqb_eq. split; [intros [-> ->]; reflexivity|].
  intros [= -> ->]. auto.
Qed.

Section HoistStatic.
Variables (c : Context) (pre post : list Operation) (rl : Layer).
Hypothesis Hregion : l_regions_before rl = [].
Variables (hoisted body : list Operation).

Local Abbreviation state := (hoisted_state c pre post rl hoisted body).
Local Abbreviation inner_chain := (layer_region rl :: ctx_chain c).

Hypothesis Hops : NoDup (op_ids state).
Hypothesis Hblks : NoDup (block_ids state).

Local Abbreviation fixed_ops := (fixed_ops c pre post rl).
Local Abbreviation fixed_blocks := (fixed_blocks c pre post rl).
Local Abbreviation defined_outside := (defined_outside c pre post rl).

Lemma state_op_locations (e : OpId * list RegionRef) :
  In e (op_locations [] state) <->
  In e fixed_ops
  \/ In e (flat_map (op_locations (ctx_chain c)) hoisted)
  \/ In e (flat_map (op_locations inner_chain) body).
Proof.
  unfold hoisted_state, ReplicateInvariantOpHoisting.fixed_ops. rewrite op_locations_plug.
  rewrite !flat_map_app. cbn [flat_map]. rewrite op_locations_fill.
  rewrite !in_app_iff. tauto.
Qed.

Lemma state_block_locations (e : BlockId * list RegionRef) :
  In e (block_locations [] state) <->
  In e fixed_blocks
  \/ In e (flat_map (block_locations (ctx_chain c)) hoisted)
  \/ In e (flat_map (block_locations inner_chain) body).
Proof.
  unfold hoisted_state, ReplicateInvariantOpHoisting.fixed_blocks. rewrite block_locations_plug.
  rewrite !flat_map_app. cbn [flat_map]. rewrite block_locations_fill.
  rewrite !in_app_iff. tauto.
Qed.

Lemma moving_ids_not_in_ctx (y : OpId) :
  In y (map op_id (flat_map walk hoisted)) \/ In y (map op_id (flat_map walk body)) ->
  ~ In y (ctx_op_ids c) /\ y <> l_id rl.
Proof.
  intros Hy.
  pose proof (Permutation_NoDup (op_ids_hoist_state c pre post rl hoisted body) Hops)
    as Hnd.
  rewrite app_assoc in Hnd.
  assert (Hin : In y (map op_id (flat_map walk hoisted)
                      ++ map op_id (flat_map walk body)))
    by (apply in_or_app; exact Hy).
  pose proof (NoDup_app_not_in _ _ y Hnd Hin) as Hn.
  cbn [ctx_op_ids In] in Hn. rewrite !in_app_iff in Hn.
  split; [tauto|]. intros ->. tauto.
Qed.

Lemma replicate_not_in_chain : ~ In (layer_region rl) (ctx_chain c).
Proof.
  intros Hin. unfold layer_region in Hin. apply ctx_chain_ids in Hin.
  pose proof (Permutation_NoDup (op_ids_hoist_state c pre post rl hoisted body) Hops)
    as Hnd.
  apply NoDup_app_remove_l in Hnd. apply NoDup_app_remove_l in Hnd.
  cbn [ctx_op_ids] in Hnd. apply NoDup_cons_iff in Hnd.
  apply (proj1 Hnd). rewrite !in_app_iff. auto.
Qed.

Lemma state_region_ancestors :
  region_ancestors state (l_id rl, 0) = ctx_chain c.
Proof.
  unfold region_ancestors. cbn [fst].
  rewrite (@lookup_unique _ (op_locations [] state) (l_id rl) (ctx_chain c)).
  - reflexivity.
  - rewrite (proj1 op_locations_keys). exact Hops.
  - apply state_op_locations. left.
    unfold ReplicateInvariantOpHoisting.fixed_ops, layer_locations_before.
    rewrite !in_app_iff. cbn [In]. auto 20.
Qed.

Lemma state_isProperAncestor (r : RegionRef) :
  isProperAncestor state r (l_id rl, 0) = true <-> In r (ctx_chain c).
Proof.
  unfold isProperAncestor. rewrite state_region_ancestors.
  rewrite andb_true_iff, negb_true_iff, existsb_exists. split.
  - intros (_ & x & Hx & He). apply RegionRef_eqb_spec in He. subst x. exact Hx.
  - intros Hin. split.
    + apply not_true_is_false. rewrite RegionRef_eqb_spec. intros ->.
      apply replicate_not_in_chain. unfold layer_region. rewrite Hregion. exact Hin.
    + exists r. split; [exact Hin | apply RegionRef_eqb_spec; reflexivity].
Qed.

Lemma state_reads_invariant (v : Value) :
  reads_invariant state (l_id rl, 0) v <->
  match v with
  | OpResult x _ =>
      exists r ch, In (x, r :: ch) (op_locations [] state) /\ In r (ctx_chain c)
  | BlockArgument b _ =>
      exists r ch, In (b, r :: ch) (block_locations [] state) /\ In r (ctx_chain c)
  end.
Proof.
  unfold reads_invariant.
  assert (Hko : NoDup (map fst (op_locations [] state)))
    by (rewrite (proj1 op_locations_keys); exact Hops).
  assert (Hkb : NoDup (map fst (block_locations [] state)))
    by (rewrite (proj1 block_locations_keys); exact Hblks).
  destruct v as [x k|b k]; cbn [getParentRegion].
  - split.
    + intros (r & Hg & Hp). apply state_isProperAncestor in Hp.
      destruct (lookup x (op_locations [] state)) as [[|r' ch]|] eqn:E;
        try discriminate.
      injection Hg as ->. apply (lookup_iff _ _ _ Hko) in E. eauto.
    + intros (r & ch & Hin & Hr). exists r.
      apply (lookup_iff _ _ _ Hko) in Hin. rewrite Hin.
      split; [reflexivity | apply state_isProperAncestor; exact Hr].
  - split.
    + intros (r & Hg & Hp). apply state_isProperAncestor in Hp.
      destruct (lookup b (block_locations [] state)) as [[|r' ch]|] eqn:E;
        try discriminate.
      injection Hg as ->. apply (lookup_iff _ _ _ Hkb) in E. eauto.
    + intros (r & ch & Hin & Hr). exists r.
      apply (lookup_iff _ _ _ Hkb) in Hin. rewrite Hin.
      split; [reflexivity | apply state_isProperAncestor; exact Hr].
Qed.

Lemma moving_head_not_in_chain (ops : list Operation) (y : OpId) (k : nat) :
  incl ops hoisted \/ incl ops body ->
  In y (map op_id (flat_map walk ops)) -> ~ In (y, k) (ctx_chain c).
Proof.
  intros Hincl Hy Hin. apply ctx_chain_ids in Hin.
  assert (Hy' : In y (map op_id (flat_map walk hoisted))
                \/ In y (map op_id (flat_map walk body))).
  { rewrite in_map_iff in Hy. destruct Hy as (o & <- & Ho).
    apply in_flat_map in Ho. destruct Ho as (a & Ha & Ho).
    destruct Hincl as [Hi | Hi]; [left | right];
      apply in_map; apply in_flat_map; exists a; split; auto. }
  apply moving_ids_not_in_ctx in Hy'. tauto.
Qed.

Lemma state_reads_invariant_iff (v : Value) :
  reads_invariant state (l_id rl, 0) v <->
  defined_outside v \/ exists h k, In h hoisted /\ v = OpResult (op_id h) k.
Proof.
  rewrite state_reads_invariant.
  destruct v as [x k|b k]; cbn [ReplicateInvariantOpHoisting.defined_outside].
  - split.
    + intros (r & ch & Hin & Hr). apply state_op_locations in Hin.
      destruct Hin as [Hin | [Hin | Hin]]; [left; eauto | |].
      * apply in_flat_map in Hin. destruct Hin as (h & Hh & Hin).
        destruct (proj1 op_locations_head h _ _ Hin)
          as [[= -> _] | (y & k' & rest & Hs & Hy)].
        -- right. eauto.
        -- cbn [snd] in Hs. injection Hs as -> _. exfalso.
           apply (@moving_head_not_in_chain [h] y k'); [left | | exact Hr].
           ++ intros z [<- | []]. exact Hh.
           ++ cbn [flat_map]. rewrite app_nil_r. exact Hy.
      * apply in_flat_map in Hin. destruct Hin as (o & Ho & Hin).
        destruct (proj1 op_locations_head o _ _ Hin)
          as [[= _ -> _] | (y & k' & rest & Hs & Hy)].
        -- exfalso. exact (replicate_not_in_chain Hr).
        -- cbn [snd] in Hs. injection Hs as -> _. exfalso.
           apply (@moving_head_not_in_chain [o] y k'); [right | | exact Hr].
           ++ intros z [<- | []]. exact Ho.
           ++ cbn [flat_map]. rewrite app_nil_r. exact Hy.
    + intros [(r & ch & Hin & Hr) | (h & k' & Hh & [= -> _])].
      * exists r, ch. split; [|exact Hr]. apply state_op_locations. auto.
      * destruct (ctx_chain c) as [|r ch] eqn:E; [destruct (ctx_chain_not_nil c E)|].
        exists r, ch. split; [|left; reflexivity].
        apply state_op_locations. right. left. apply in_flat_map.
        exists h. split; [exact Hh|]. rewrite E. apply op_locations_self.
  - split.
    + intros (r & ch & Hin & Hr). apply state_block_locations in Hin.
      destruct Hin as [Hin | [Hin | Hin]]; [left; eauto | |].
      * apply in_flat_map in Hin. destruct Hin as (h & Hh & Hin).
        destruct (proj1 block_locations_head h _ _ Hin) as (y & k' & rest & Hs & Hy).
        cbn [snd] in Hs. injection Hs as -> _. exfalso.
        apply (@moving_head_not_in_chain [h] y k'); [left | | exact Hr].
        -- intros z [<- | []]. exact Hh.
        -- cbn [flat_map]. rewrite app_nil_r. exact Hy.
      * apply in_flat_map in Hin. destruct Hin as (o & Ho & Hin).
        destruct (proj1 block_locations_head o _ _ Hin) as (y & k' & rest & Hs & Hy).
        cbn [snd] in Hs. injection Hs as -> _. exfalso.
        apply (@moving_head_not_in_chain [o] y k'); [right | | exact Hr].
        -- intros z [<- | []]. exact Ho.
        -- cbn [flat_map]. rewrite app_nil_r. exact Hy.
    + intros [(r & ch & Hin & Hr) | (h & k' & _ & [=])].
      exists r, ch. split; [|exact Hr]. apply state_block_locations. auto.
Qed.

End HoistStatic.

Lemma IsOpReplicateInvariant_spec (ir : Operation) (replicate_region : RegionRef)
    (op : Operation) :
  IsOpReplicateInvariant ir replicate_region op = true <->
  forall inner_op operand,
    In inner_op (walk op) -> In operand (op_operands inner_op) ->
    exists parent_region,
      getParentRegion ir operand = Some parent_region
      /\ isProperAncestor ir parent_region replicate_region = true.
Proof.
  unfold IsOpReplicateInvariant. rewrite forallb_forall. split.
  - intros H inner v Hin Hv. specialize (H inner Hin).
    rewrite forallb_forall in H. specialize (H v Hv).
    destruct (getParentRegion ir v) as [r|]; [eauto | discriminate].
  - intros H inner Hin. rewrite forallb_forall. intros v Hv.
    destruct (H inner v Hin Hv) as (r & -> & Hr). exact Hr.
Qed.

Lemma block_ids_hoist_state (c : Context) (pre post : list Operation) (rl : Layer)
    (hoisted body : list Operation) :
  Permutation (block_ids (hoisted_state c pre post rl hoisted body))
    (map blk_id (flat_map blocks_of hoisted) ++ map blk_id (flat_map blocks_of body)
     ++ ctx_block_ids (Under c pre rl post)).
Proof.
  rewrite hoist_state_inner, block_ids_plug. cbn [ctx_block_ids].
  rewrite flat_map_app, map_app.
  change (l_block rl :: ?x) with ([l_block rl] ++ x).
  solve_perm.
Qed.

Lemma partition_flat_map {A B : Type} (f : A -> list B) (p : A -> bool) (l : list A) :
  Permutation (flat_map f (filter p l) ++ flat_map f (filter (fun a => negb (p a)) l))
    (flat_map f l).
Proof.
  induction l as [|a l IH]; cbn [filter flat_map app]; [constructor|].
  destruct (p a); cbn [negb flat_map].
  - rewrite <- app_assoc. apply Permutation_app_head. exact IH.
  - rewrite <- IH. solve_perm.
Qed.

(** The identities of the IR at a turn of the loop are those of the IR the
    loop started from. *)
Lemma unique_ids_turn (c : Context) (pre post : list Operation) (rl : Layer)
    (p : Operation -> bool) (before after : list Operation) (a : Operation) :
  unique_ids (hoisted_state c pre post rl [] (before ++ a :: after)) ->
  unique_ids (hoisted_state c pre post rl (filter p before)
                (filter (fun x => negb (p x)) before ++ a :: after)).
Proof.
  intros [Ho Hb]. split.
  - eapply Permutation_NoDup; [|exact Ho].
    rewrite !op_ids_hoist_state. cbn [flat_map map app].
    rewrite !app_assoc. apply Permutation_app_tail. rewrite <- map_app.
    apply Permutation_map. apply Permutation_sym.
    rewrite !flat_map_app, app_assoc. apply Permutation_app_tail.
    apply partition_flat_map.
  - eapply Permutation_NoDup; [|exact Hb].
    rewrite !block_ids_hoist_state. cbn [flat_map map app].
    rewrite !app_assoc. apply Permutation_app_tail. rewrite <- map_app.
    apply Permutation_map. apply Permutation_sym.
    rewrite !flat_map_app, app_assoc. apply Permutation_app_tail.
    apply partition_flat_map.
Qed.

(** When no operation the walk meets before an operation of the body uses a
    result of it, uses follow definitions at the start of the loop. *)
Lemma uses_follow_start (c : Context) (pre post : list Operation) (rl : Layer)
    (body : list Operation) :
  let ir := plug c (pre ++ fill rl body :: post) in
  NoDup (op_ids ir) ->
  (forall a, In a body ->
     existsb (uses_result_of (op_id a)) (preceding (op_id a) (walk ir)) = false) ->
  uses_follow c pre [] body.
Proof.
  intros ir Hnd Hord before a after E. cbn [app].
  assert (Ha : In a body) by (rewrite E; apply in_or_app; right; left; reflexivity).
  specialize (Hord a Ha). revert Hord.
  assert (Eir : ir = plug (Under c pre rl post) (before ++ a :: after))
    by (unfold ir; rewrite E; reflexivity).
  rewrite Eir in Hnd |- *. rewrite (preceding_plug _ _ _ _ Hnd).
  cbn [ctx_walk_before]. rewrite !existsb_none. intros Hord x Hx.
  unfold met_before in Hx.
  rewrite (strip_ctx_walk_before c [] (pre ++ fill rl (before ++ a :: after) :: post)) in Hx.
  rewrite <- map_app, in_map_iff in Hx. destruct Hx as (y & <- & Hy).
  rewrite uses_result_of_strip. apply Hord.
  rewrite flat_map_app in Hy. rewrite !in_app_iff in *. tauto.
Qed.

(** The loop of the hoisting pass over the body of a replicate.  The
    operations it relocates stand right before the replicate, after what was
    there, in the order they had in the body; the others stay in the body in
    their order.  An operation of the body is relocated if and only if it is
    not a terminator and every operand of every operation met by walking it is
    defined in a region that is a proper ancestor of the region of the
    replicate.  The regions are read in the IR as it is when the loop visits
    the operation, the operations relocated before it standing in front of the
    replicate: in terms of the IR the loop started from, the operand is
    defined in a proper ancestor of the region of the replicate, or it is a
    result of an operation of the body relocated earlier.  The terminator of
    the body is a [tf_device.return], and uses follow definitions: no
    operation that the walk of the IR meets before an operation of the body
    uses a result of it, so that no move is refused. *)
Lemma hoist_invariant_ops_reads
    (c : Context) (pre post : list Operation) (rl : Layer) (body : list Operation) :
  let ir := plug c (pre ++ fill rl body :: post) in
  unique_ids ir ->
  l_regions_before rl = [] ->
  l_blocks_before rl = [] ->
  (forall a, In a body -> isTerminator (op_kind a) = true ->
             op_kind a = DeviceReturnOp) ->
  (forall a, In a body ->
             existsb (uses_result_of (op_id a)) (preceding (op_id a) (walk ir))
             = false) ->
  exists hoisted,
    hoist_invariant_ops (l_id rl) ir
    = Some (plug c (pre ++ hoisted
                    ++ fill rl (filter (fun a => negb (among hoisted a)) body)
                    :: post))
    /\ hoisted = filter (among hoisted) body
    /\ (forall a, In a body -> isTerminator (op_kind a) = true -> ~ In a hoisted)
    /\ forall before a after,
         body = before ++ a :: after ->
         let current :=
           plug c (pre ++ filter (among hoisted) before
                   ++ fill rl (filter (fun a => negb (among hoisted a)) before
                               ++ a :: after)
                   :: post) in
         (In a hoisted <->
          isTerminator (op_kind a) = false
          /\ forall inner_op operand,
               In inner_op (walk a) -> In operand (op_operands inner_op) ->
               reads_invariant current (l_id rl, 0) operand)
         /\ (In a hoisted <->
             isTerminator (op_kind a) = false
             /\ forall inner_op operand,
                  In inner_op (walk a) -> In operand (op_operands inner_op) ->
                  reads_invariant ir (l_id rl, 0) operand
                  \/ exists h k, In h hoisted /\ In h before
                                 /\ operand = OpResult (op_id h) k).
Proof.
  intros ir Hu Hregion Hblock Hterm Hord.
  pose proof (proj1 Hu) as Hnd.
  assert (Hnd0 : NoDup (op_ids (hoisted_state c pre post rl [] ([] ++ body))))
    by exact Hnd.
  destruct (@hoist_loop c pre post rl body [] [] Hnd0)
    as (moved & Hrun & Hmoved & Hiff).
  cbv zeta in Hrun. destruct Hrun as [_ Hrun].
  specialize (Hrun (@uses_follow_start c pre post rl body Hnd Hord)).
  assert (Hin : forall a, In a body -> (In a moved <-> among moved a = true)).
  { intros a Ha. rewrite Hmoved at 1. rewrite filter_In. tauto. }
  assert (Hret : forall a, In a body ->
            (isa_DeviceReturnOp (op_kind a) = false <-> isTerminator (op_kind a) = false)).
  { intros a Ha. specialize (Hterm a Ha).
    destruct (isTerminator (op_kind a)) eqn:Et.
    - rewrite (Hterm eq_refl). cbn. split; discriminate.
    - assert (Hd : isa_DeviceReturnOp (op_kind a) = false)
        by (destruct (op_kind a); try reflexivity; discriminate Et).
      rewrite Hd. tauto. }
  assert (Hdyn : forall before a after,
            body = before ++ a :: after ->
            (In a moved <->
             isTerminator (op_kind a) = false
             /\ forall inner_op operand,
                  In inner_op (walk a) -> In operand (op_operands inner_op) ->
                  reads_invariant
                    (hoisted_state c pre post rl (filter (among moved) before)
                       (filter (fun a => negb (among moved a)) before ++ a :: after))
                    (l_id rl, 0) operand)).
  { intros before a after E.
    assert (Ha : In a body) by (rewrite E; apply in_or_app; right; left; reflexivity).
    rewrite (Hin a Ha), (Hiff before a after E), (Hret a Ha).
    rewrite IsOpReplicateInvariant_spec. reflexivity. }
  exists moved. split; [|split; [|split]].
  - unfold hoist_invariant_ops.
    change ir with (hoisted_state c pre post rl [] body).
    rewrite (@find_replicate c pre post rl [] body Hnd).
    rewrite (@GetBody_fill rl Hregion Hblock body). cbn [blk_ops].
    exact Hrun.
  - exact Hmoved.
  - intros a Ha Ht Hm. apply (Hin a Ha) in Hm.
    apply in_split in Ha. destruct Ha as (before & after & ->).
    apply (Hiff before a after eq_refl) in Hm. destruct Hm as [Hr _].
    apply Hret in Hr; [congruence|].
    apply in_or_app. right. left. reflexivity.
  - intros before a after E current. split; [exact (Hdyn before a after E)|].
    rewrite (Hdyn before a after E).
    assert (Hu0 : unique_ids (hoisted_state c pre post rl [] (before ++ a :: after)))
      by (rewrite <- E; exact Hu).
    pose proof (unique_ids_turn c pre post rl (among moved) before after a Hu0)
      as [Ho1 Hb1].
    destruct Hu0 as [Ho0 Hb0].
    assert (Hstat : forall v,
              reads_invariant
                (hoisted_state c pre post rl (filter (among moved) before)
                   (filter (fun a => negb (among moved a)) before ++ a :: after))
                (l_id rl, 0) v
              <-> reads_invariant ir (l_id rl, 0) v
                  \/ exists h k, In h moved /\ In h before
                                 /\ v = OpResult (op_id h) k).
    { intros v.
      rewrite (@state_reads_invariant_iff c pre post rl Hregion _ _ Ho1 Hb1 v).
      change ir with (hoisted_state c pre post rl [] body). rewrite E.
      rewrite (@state_reads_invariant_iff c pre post rl Hregion _ _ Ho0 Hb0 v).
      assert (Hfil : forall h, In h (filter (among moved) before)
                               <-> In h moved /\ In h before).
      { intros h. rewrite filter_In. split.
        - intros [Hb Hm]. split; [|exact Hb]. apply Hin; [|exact Hm].
          rewrite E. apply in_or_app. left. exact Hb.
        - intros [Hm Hb]. split; [exact Hb|]. apply Hin; [|exact Hm].
          rewrite E. apply in_or_app. left. exact Hb. }
      split.
      - intros [Hout | (h & k & Hh & Hv)]; [left; left; exact Hout|].
        right. apply Hfil in Hh. exists h, k. tauto.
      - intros [[Hout | (h & k & [] & _)] | (h & k & Hm & Hb & Hv)];
          [left; exact Hout|].
        right. exists h, k. split; [apply Hfil; auto | exact Hv]. }
    split; intros [Ht Hall]; (split; [exact Ht|]);
      intros inner_op operand Hi Ho; apply Hstat; apply (Hall inner_op operand Hi Ho).
Qed.

End ReplicateInvariantOpHoistingFacts.

(** ** No dangling use *)

Module NoDanglingFacts.
Import IR IRFacts ReplicateInvariantOpHoisting ReplicateInvariantOpHoistingFacts.

#[local] Arguments fill : simpl never.
Unset Implicit Arguments.

Lemma live_mono (ir ir' : Operation) (v : Value) :
  defs_preserved ir ir' -> live ir v = true -> live ir' v = true.
Proof.
  intros [Hops Hblks]. unfold live, live_in.
  rewrite !orb_true_iff, !existsb_exists.
  intros [(nd & Hnd & Hd) | (b & Hb & Hd)].
  - left. destruct (Hops nd Hnd) as (nd' & Hin & Hid & Hres). exists nd'.
    split; [exact Hin|]. destruct v; cbn [defines] in *; [|discriminate].
    rewrite Hid, Hres. exact Hd.
  - right. destruct (Hblks b Hb) as (b' & Hin & Hid & Hargs). exists b'.
    split; [exact Hin|]. destruct v; cbn [binds] in *; [discriminate|].
    rewrite Hid, Hargs. exact Hd.
Qed.

Lemma defs_preserved_incl (ir ir' : Operation) :
  incl (nodes ir) (nodes ir') -> incl (block_heads ir) (block_heads ir') ->
  defs_preserved ir ir'.
Proof.
  intros H1 H2. split.
  - intros nd Hnd. exists nd. auto.
  - intros b Hb. exists b. auto.
Qed.

Lemma defs_preserved_perm (ir ir' : Operation) :
  Permutation (nodes ir) (nodes ir') ->
  Permutation (block_heads ir) (block_heads ir') ->
  defs_preserved ir ir'.
Proof.
  intros H1 H2. apply defs_preserved_incl; intros x Hx;
    eapply Permutation_in; eauto.
Qed.

Lemma no_dangling_perm (ir ir' : Operation) :
  Permutation (nodes ir) (nodes ir') ->
  Permutation (block_heads ir) (block_heads ir') ->
  no_dangling ir = true -> no_dangling ir' = true.
Proof.
  intros H1 H2 Hl. apply no_dangling_spec. intros nd v Hnd Hv.
  apply (live_mono ir ir' v (defs_preserved_perm ir ir' H1 H2)).
  apply (proj1 (no_dangling_spec ir) Hl nd v); [|exact Hv].
  eapply Permutation_in; [apply Permutation_sym; exact H1 | exact Hnd].
Qed.

Lemma live_own_result (ir o : Operation) (k : nat) :
  In o (walk ir) -> k < length (op_results o) ->
  live ir (OpResult (op_id o) k) = true.
Proof.
  intros Hin Hk. unfold live, live_in. apply orb_true_iff. left.
  apply existsb_exists. exists (strip o). split.
  - apply in_nodes_walk. eauto.
  - cbn [defines strip op_id op_results]. rewrite Nat.eqb_refl.
    apply Nat.ltb_lt in Hk. rewrite Hk. reflexivity.
Qed.

(** *** Finding the position of an operation *)

Lemma plug_ctx_under (outer : Context) (before after : list Operation)
    (c' : Context) (ops : list Operation) :
  plug (ctx_under outer before after c') ops
  = plug outer (before ++ plug c' ops :: after).
Proof.
  revert ops. induction c' as [l | c'' IH b l a]; intros ops;
    cbn [ctx_under plug]; [reflexivity | apply IH].
Qed.

Lemma locate_in_ops (ops : list Operation) (o : Operation) :
  Forall (fun x => forall o, In o (walk x) ->
            o = x \/ exists c pre post, x = plug c (pre ++ o :: post)) ops ->
  In o (flat_map walk ops) ->
  exists before x after,
    ops = before ++ x :: after
    /\ (o = x \/ exists c pre post, x = plug c (pre ++ o :: post)).
Proof.
  intros IH Hin. apply in_flat_map in Hin. destruct Hin as (x & Hx & Ho).
  rewrite Forall_forall in IH. specialize (IH x Hx o Ho).
  apply in_split in Hx. destruct Hx as (before & after & ->).
  exists before, x, after. auto.
Qed.

Lemma locate (ir : Operation) :
  forall o, In o (walk ir) ->
    o = ir \/ exists c pre post, ir = plug c (pre ++ o :: post).
Proof.
  revert ir.
  apply (@Operation_tree_ind
           (fun x => forall o, In o (walk x) ->
              o = x \/ exists c pre post, x = plug c (pre ++ o :: post))
           (fun r => forall o, In o (walk_region r) ->
              exists bb bid args ba before x after,
                r = mkRegion (bb ++ mkBlock bid args (before ++ x :: after) :: ba)
                /\ (o = x \/ exists c pre post, x = plug c (pre ++ o :: post)))
           (fun b => forall o, In o (walk_block b) ->
              exists before x after,
                blk_ops b = before ++ x :: after
                /\ (o = x \/ exists c pre post, x = plug c (pre ++ o :: post)))).
  - intros i k vs ts rs IH o Hin. cbn [walk] in Hin.
    destruct Hin as [<- | Hin]; [left; reflexivity|].
    right. apply in_flat_map in Hin. destruct Hin as (r & Hr & Ho).
    rewrite Forall_forall in IH.
    destruct (IH r Hr o Ho) as (bb & bid & args & ba & before & x & after & -> & Hx).
    apply in_split in Hr. destruct Hr as (rb & ra & ->).
    set (l := mkLayer i k vs ts rb bb bid args ba ra).
    destruct Hx as [-> | (c & pre & post & ->)].
    + exists (AtRoot l), before, after. reflexivity.
    + exists (ctx_under (AtRoot l) before after c), pre, post.
      rewrite plug_ctx_under. reflexivity.
  - intros bs IH o Hin. cbn [walk_region] in Hin.
    apply in_flat_map in Hin. destruct Hin as (b & Hb & Ho).
    rewrite Forall_forall in IH.
    destruct (IH b Hb o Ho) as (before & x & after & Hops & Hx).
    apply in_split in Hb. destruct Hb as (bb & ba & ->).
    destruct b as [bid args ops]. cbn [blk_ops] in Hops. subst ops.
    exists bb, bid, args, ba, before, x, after. auto.
  - intros i a os IH o Hin. cbn [walk_block] in Hin. cbn [blk_ops].
    apply locate_in_ops; assumption.
Qed.

Lemma op_id_plug (c : Context) (ops ops' : list Operation) :
  op_id (plug c ops) = op_id (plug c ops') /\ op_kind (plug c ops) = op_kind (plug c ops').
Proof.
  revert ops ops'. induction c as [l | c IH before l after]; intros ops ops';
    cbn [plug]; [split; reflexivity | apply IH].
Qed.

(** *** The structuring pass *)

Lemma replace_nth_In (idx : nat) (v : Value) (vs vs' : list Value) (w : Value) :
  replace_nth idx v vs = Some vs' -> In w vs' -> w = v \/ In w vs.
Proof.
  revert idx vs'. induction vs as [|x vs IH]; intros [|idx] vs'; cbn [replace_nth];
    try discriminate.
  - intros [= <-]. cbn [In]. intuition.
  - destruct (replace_nth idx v vs) as [ws|] eqn:E; cbn [option_map]; [|discriminate].
    intros [= <-]. cbn [In]. intros [-> | Hin]; [auto|].
    destruct (IH idx ws E Hin); auto.
Qed.

Lemma setOperands_In (vs : list Value) (idx : nat) (o o' : Operation) (w : Value) :
  FunctionalToExecutor.setOperands idx vs o = Some o' ->
  In w (op_operands o') -> In w vs \/ In w (op_operands o).
Proof.
  revert idx o. induction vs as [|v vs IH]; intros idx o; cbn [FunctionalToExecutor.setOperands].
  - intros [= <-]. auto.
  - unfold setOperand.
    destruct (replace_nth idx v (op_operands o)) as [ws|] eqn:E;
      cbn [option_map]; [|discriminate].
    intros Hs Hin. destruct (IH _ _ Hs Hin) as [H | H]; [cbn [In]; auto|].
    destruct o; cbn [set_operands op_operands] in *.
    destruct (replace_nth_In _ _ _ _ _ E H) as [-> | H']; cbn [In]; auto.
Qed.

Lemma removelast_In {A : Type} (l : list A) (x : A) : In x (removelast l) -> In x l.
Proof.
  induction l as [|a l IH]; cbn [removelast]; [tauto|].
  destruct l as [|b l]; [intros []|].
  cbn [In] in *. intros [-> | Hin]; auto.
Qed.

Lemma in_nodes_ops (ops : list Operation) (ir : Operation) (nd : Operation) :
  incl (flat_map walk ops) (walk ir) ->
  In nd (map strip (flat_map walk ops)) -> In nd (nodes ir).
Proof.
  intros Hincl Hin. rewrite in_map_iff in Hin. destruct Hin as (o & <- & Ho).
  apply in_nodes_walk. exists o. auto.
Qed.

Lemma walk_one_block i k vs ts bid args ops :
  walk (mkOperation i k vs ts [mkRegion [mkBlock bid args ops]])
  = mkOperation i k vs ts [mkRegion [mkBlock bid args ops]] :: flat_map walk ops.
Proof. cbn [walk walk_region walk_block flat_map]. rewrite !app_nil_r. reflexivity. Qed.

Lemma blocks_of_one_block i k vs ts bid args ops :
  blocks_of (mkOperation i k vs ts [mkRegion [mkBlock bid args ops]])
  = mkBlock bid args ops :: flat_map blocks_of ops.
Proof.
  cbn [blocks_of blocks_of_region blocks_of_block flat_map].
  rewrite !app_nil_r. reflexivity.
Qed.

Lemma structuring_no_dangling (func func' : Operation) :
  no_dangling func = true ->
  FunctionalToExecutor.runOnFunction func = Some func' ->
  no_dangling func' = true.
Proof.
  intros Hlive Hrun.
  destruct (FunctionalToExecutor.applicable func) eqn:Ha.
  2:{ rewrite (@FunctionalToExecutorFacts.runOnFunction_not_applicable _ _ Ha Hrun).
      exact Hlive. }
  destruct (@FunctionalToExecutorFacts.runOnFunction_inv _ _ Ha Hrun)
    as (body & copy & ret & ret' & Hreg & Hops & Hk & Hg & Hs & Hf).
  cbv zeta in Hs, Hf.
  set (island_id := S (fresh_op_id func)) in *.
  set (island_types := FunctionalToExecutor.fn_results func ++ [ControlType]) in *.
  set (yield := mkOperation (S (S island_id)) YieldOp (op_operands ret) [] []) in *.
  set (fetch := mkOperation (S island_id) FetchOp _ [] []) in *.
  set (island := mkOperation island_id IslandOp [] island_types _) in *.
  set (graph := mkOperation (fresh_op_id func) GraphOp [] _ _) in *.
  destruct func as [fid fk fvs fts frs]. cbn [op_regions op_id op_kind op_operands op_results] in *.
  subst frs. destruct body as [bid bargs bops]. cbn [blk_ops blk_id blk_args] in *.
  subst bops.
  pose proof (@FunctionalToExecutorFacts.setOperands_preserves _ _ _ _ Hs)
    as (Hid & Hkind & Hres & Hregs).
  set (func := mkOperation fid fk fvs fts [mkRegion [mkBlock bid bargs (copy ++ [ret])]]) in *.
  (* the operations and the blocks of the two functions *)
  assert (Hw : Permutation (walk func)
                 (flat_map walk copy
                  ++ (flat_map walk_region (op_regions ret) ++ [ret])
                  ++ [func])).
  { unfold func at 1. rewrite walk_one_block, flat_map_app. fold func.
    cbn [flat_map]. rewrite (walk_unfold ret).
    change (func :: ?x) with ([func] ++ x). change (ret :: ?x) with ([ret] ++ x).
    solve_perm. }
  assert (Hw' : Permutation (walk func')
                  (flat_map walk copy ++ [yield] ++ [island] ++ [fetch]
                   ++ [graph]
                   ++ (flat_map walk_region (op_regions ret) ++ [ret'])
                   ++ [func'])).
  { assert (Hwi : walk island = island :: flat_map walk copy ++ [yield]).
    { unfold island at 1. rewrite walk_one_block, flat_map_app. reflexivity. }
    assert (Hwg : walk graph = graph :: walk island ++ [fetch]).
    { unfold graph at 1. rewrite walk_one_block. reflexivity. }
    assert (Hwf : walk func' = func' :: walk graph ++ walk ret').
    { rewrite Hf at 1. rewrite walk_one_block. cbn [flat_map].
      rewrite app_nil_r, <- Hf. reflexivity. }
    rewrite Hwf, Hwg, Hwi, (walk_unfold ret'), Hregs.
    change (func' :: ?x) with ([func'] ++ x). change (graph :: ?x) with ([graph] ++ x).
    change (island :: ?x) with ([island] ++ x). change (ret' :: ?x) with ([ret'] ++ x).
    solve_perm. }
  assert (HN : forall x, In x (nodes func) <->
                 In x (map strip (flat_map walk copy
                                  ++ (flat_map walk_region (op_regions ret) ++ [ret])
                                  ++ [func]))).
  { intros x. unfold nodes. rewrite Hw. reflexivity. }
  assert (HN' : forall x, In x (nodes func') <->
                  In x (map strip (flat_map walk copy ++ [yield] ++ [island]
                                   ++ [fetch] ++ [graph]
                                   ++ (flat_map walk_region (op_regions ret) ++ [ret'])
                                   ++ [func']))).
  { intros x. unfold nodes. rewrite Hw'. reflexivity. }
  assert (Hb : blocks_of func
               = mkBlock bid bargs (copy ++ [ret])
                 :: flat_map blocks_of copy ++ blocks_of ret).
  { unfold func. rewrite blocks_of_one_block, flat_map_app.
    cbn [flat_map]. rewrite !app_nil_r. reflexivity. }
  assert (Hbret : blocks_of ret' = blocks_of ret).
  { destruct ret, ret'. cbn in Hregs. subst. reflexivity. }
  assert (Hb' : exists b1 b2 b3,
             blocks_of func' = b1 :: b2 :: b3 :: flat_map blocks_of copy ++ blocks_of ret
             /\ strip_block b1 = strip_block (mkBlock bid bargs (copy ++ [ret]))).
  { assert (Hbi : exists b3, blocks_of island = b3 :: flat_map blocks_of copy).
    { unfold island. rewrite blocks_of_one_block, flat_map_app. cbn [flat_map].
      change (blocks_of yield) with (@nil Block). rewrite !app_nil_r. eauto. }
    destruct Hbi as (b3 & Hbi).
    assert (Hbg : exists b2, blocks_of graph = b2 :: b3 :: flat_map blocks_of copy).
    { unfold graph. rewrite blocks_of_one_block. cbn [flat_map]. fold island.
      rewrite Hbi. change (blocks_of fetch) with (@nil Block).
      rewrite !app_nil_r. cbn [app]. eauto. }
    destruct Hbg as (b2 & Hbg).
    rewrite Hf. rewrite blocks_of_one_block. cbn [flat_map].
    rewrite Hbg, Hbret. rewrite !app_nil_r. cbn [app].
    eexists _, b2, b3. split; reflexivity. }
  destruct Hb' as (b1 & b2 & b3 & Hb' & Hb1).
  assert (Hstrip_ret : op_id (strip ret') = op_id (strip ret)
                       /\ op_results (strip ret') = op_results (strip ret)).
  { cbn. rewrite Hid, Hres. auto. }
  assert (Hstrip_func : strip func' = strip func) by (rewrite Hf; reflexivity).
  assert (Hdefs : defs_preserved func func').
  { split.
    - intros nd Hnd. apply HN in Hnd.
      rewrite !map_app, !in_app_iff in Hnd. cbn [map In] in Hnd.
      destruct Hnd as [H | [[H | [H | []]] | [H | []]]].
      + exists nd. split; [|auto]. apply HN'. rewrite !map_app, !in_app_iff. auto.
      + exists nd. split; [|auto]. apply HN'. rewrite !map_app, !in_app_iff. auto 10.
      + exists (strip ret'). subst nd. destruct Hstrip_ret as [E1 E2].
        split; [|rewrite E1, E2; auto].
        apply HN'. rewrite !map_app, !in_app_iff. cbn [map In]. auto 20.
      + exists nd. split; [|auto]. subst nd. rewrite <- Hstrip_func.
        apply HN'. rewrite !map_app, !in_app_iff. cbn [map In]. auto 20.
    - intros b Hin. unfold block_heads in Hin. rewrite Hb in Hin.
      cbn [map In] in Hin. unfold block_heads. rewrite Hb'. cbn [map In].
      destruct Hin as [H | H].
      + exists (strip_block b1). subst b. rewrite Hb1. auto.
      + exists b. auto. }
  apply no_dangling_spec. intros nd v Hnd Hv.
  assert (Hold : forall x, In x (nodes func) -> In v (op_operands x) ->
                   live func' v = true).
  { intros x Hx Hvx. apply (live_mono func func' v Hdefs).
    apply (proj1 (no_dangling_spec func) Hlive x v Hx Hvx). }
  assert (Hret_node : In (strip ret) (nodes func)).
  { apply HN. rewrite !map_app, !in_app_iff. cbn [map In]. auto 10. }
  apply HN' in Hnd.
  rewrite !map_app, !in_app_iff in Hnd. cbn [map In] in Hnd.
  destruct Hnd as [H | [[H | []] | [[H | []] | [[H | []] | [[H | []] | [[H | [H | []]] | [H | []]]]]]]].
  - apply (Hold nd); [|exact Hv]. apply HN. rewrite !map_app, !in_app_iff. auto.
  - subst nd. cbn [strip yield op_operands] in Hv. apply (Hold (strip ret)); assumption.
  - subst nd. destruct Hv.
  - subst nd. cbn [strip fetch op_operands] in Hv.
    unfold FunctionalToExecutor.to_fetch in Hv.
    assert (Hv' : In v (map (OpResult island_id) (seq 0 (length island_types)))).
    { destruct (Nat.eqb _ 1); [exact Hv | apply removelast_In; exact Hv]. }
    rewrite in_map_iff in Hv'. destruct Hv' as (k & <- & Hk').
    apply in_seq in Hk'.
    apply (live_own_result func' island k).
    + rewrite Hw'. rewrite !in_app_iff. cbn [In]. auto 10.
    + cbn [island op_results]. lia.
  - subst nd. destruct Hv.
  - apply (Hold nd); [|exact Hv]. apply HN. rewrite !map_app, !in_app_iff. auto.
  - subst nd. cbn [strip op_operands] in Hv.
    destruct (setOperands_In _ _ _ _ _ Hs Hv) as [Hg' | Ho].
    + unfold getResults in Hg'. rewrite in_map_iff in Hg'.
      destruct Hg' as (k & <- & Hk'). apply in_seq in Hk'.
      apply (live_own_result func' graph k).
      * rewrite Hw'. rewrite !in_app_iff. cbn [In]. auto 10.
      * lia.
    + apply (Hold (strip ret)); assumption.
  - subst nd. rewrite Hstrip_func in Hv. apply (Hold (strip func)); [|exact Hv].
    apply HN. rewrite !map_app, !in_app_iff. cbn [map In]. auto 10.
Qed.

(** *** The primitives keep the invariant *)

Lemma block_heads_map_operands (g : OpId -> list Value -> list Value) (ir : Operation) :
  block_heads (map_operands g ir) = block_heads ir.
Proof.
  unfold block_heads. rewrite (proj1 (blocks_of_map_operands g)), map_map.
  apply map_ext. intros [i a os]. reflexivity.
Qed.

Lemma defs_preserved_map_operands (g : OpId -> list Value -> list Value) (ir : Operation) :
  defs_preserved ir (map_operands g ir).
Proof.
  split.
  - intros nd Hnd. rewrite nodes_map_operands.
    exists (set_operands (g (op_id nd) (op_operands nd)) nd). split.
    + apply in_map_iff. exists nd. auto.
    + destruct nd; cbn. auto.
  - intros b Hb. rewrite block_heads_map_operands. exists b. auto.
Qed.

Lemma same_root_map_operands (g : OpId -> list Value -> list Value) (ir : Operation) :
  same_root ir (map_operands g ir).
Proof. destruct ir. split; reflexivity. Qed.

Lemma same_root_rewrite (f : Operation -> list Operation) (ir : Operation) :
  same_root ir (rewrite f ir).
Proof. destruct ir. split; reflexivity. Qed.

Lemma same_root_refl (ir : Operation) : same_root ir ir.
Proof. split; reflexivity. Qed.

Lemma same_root_trans (ir1 ir2 ir3 : Operation) :
  same_root ir1 ir2 -> same_root ir2 ir3 -> same_root ir1 ir3.
Proof. intros [H1 H2] [H3 H4]. split; congruence. Qed.

Lemma sound_map_operands (g : OpId -> list Value -> list Value) (ir : Operation) :
  sound ir ->
  (forall nd v, In nd (nodes ir) -> In v (g (op_id nd) (op_operands nd)) ->
                live ir v = true) ->
  sound (map_operands g ir).
Proof.
  intros [Hnd Hlive] Hg. split.
  - rewrite op_ids_map_operands. exact Hnd.
  - apply no_dangling_spec. intros nd' v Hin Hv.
    rewrite nodes_map_operands in Hin. apply in_map_iff in Hin.
    destruct Hin as (nd & <- & Hin). cbn [set_operands op_operands] in Hv.
    apply (live_mono ir _ v (defs_preserved_map_operands g ir)).
    apply (Hg nd v Hin Hv).
Qed.

Lemma operand_live (ir o : Operation) (v : Value) :
  no_dangling ir = true -> In o (walk ir) -> In v (op_operands o) ->
  live ir v = true.
Proof.
  intros Hlive Ho Hv.
  apply (proj1 (no_dangling_spec ir) Hlive (strip o) v); [|exact Hv].
  apply in_nodes_walk. eauto.
Qed.

Lemma node_operand_live (ir nd : Operation) (v : Value) :
  no_dangling ir = true -> In nd (nodes ir) -> In v (op_operands nd) ->
  live ir v = true.
Proof. intros Hlive Hnd Hv. exact (proj1 (no_dangling_spec ir) Hlive nd v Hnd Hv). Qed.

Lemma sound_setOperandOf (ir ir' : Operation) (op : OpId) (idx : nat) (v : Value) :
  sound ir -> live ir v = true ->
  setOperandOf ir op idx v = Some ir' ->
  sound ir' /\ same_root ir ir'.
Proof.
  intros Hs Hv. unfold setOperandOf.
  destruct (find_op ir op) as [o|]; [|discriminate].
  destruct (Nat.ltb idx (length (op_operands o))); [|discriminate].
  intros [= <-]. split; [|apply same_root_map_operands].
  apply sound_map_operands; [exact Hs|].
  intros nd w Hnd Hw. unfold put_operand in Hw.
  destruct (Nat.eqb (op_id nd) op);
    [|exact (node_operand_live ir nd w (proj2 Hs) Hnd Hw)].
  destruct (replace_nth idx v (op_operands nd)) as [ws|] eqn:E;
    [|exact (node_operand_live ir nd w (proj2 Hs) Hnd Hw)].
  destruct (replace_nth_In _ _ _ _ _ E Hw) as [-> | Hw'];
    [exact Hv | exact (node_operand_live ir nd w (proj2 Hs) Hnd Hw')].
Qed.

Lemma sound_replaceAllUsesWith (ir ir' : Operation) (old new : OpId) :
  sound ir ->
  replaceAllUsesWith ir old new = Some ir' ->
  sound ir' /\ same_root ir ir'.
Proof.
  intros Hs. unfold replaceAllUsesWith.
  destruct (find_op ir old) as [o|]; [|discriminate].
  destruct (find_op ir new) as [o'|] eqn:Hnew; [|discriminate].
  destruct (Nat.eqb_spec (length (op_results o)) (length (op_results o')))
    as [El|]; [|discriminate].
  intros [= <-]. split; [|apply same_root_map_operands].
  apply sound_map_operands; [exact Hs|].
  intros nd w Hnd Hw. unfold rebind_uses in Hw. apply in_map_iff in Hw.
  destruct Hw as (v & <- & Hv).
  pose proof (node_operand_live ir nd v (proj2 Hs) Hnd Hv) as Hl.
  destruct v as [i k|b k]; cbn [replace_result]; [|exact Hl].
  destruct (Nat.eqb i old && Nat.ltb k (length (op_results o))) eqn:E; [|exact Hl].
  apply andb_true_iff in E. destruct E as [_ Hk]. apply Nat.ltb_lt in Hk.
  apply find_op_Some in Hnew. destruct Hnew as [Hin <-].
  apply live_own_result; [exact Hin | lia].
Qed.

Lemma rewrite_root_absent (f : Operation -> list Operation) (t : OpId) (ir : Operation) :
  by_id f t ->
  ~ In t (map op_id (flat_map walk_region (op_regions ir))) ->
  rewrite f ir = ir.
Proof.
  intros Hf Hn. destruct ir as [i k vs ts rs]. cbn [rewrite op_regions] in *.
  rewrite (@rewrite_regions_absent f t rs Hf Hn). reflexivity.
Qed.

Lemma root_id_alone (ir : Operation) :
  NoDup (op_ids ir) ->
  ~ In (op_id ir) (map op_id (flat_map walk_region (op_regions ir))).
Proof.
  intros Hnd Hin. unfold op_ids in Hnd. rewrite walk_unfold in Hnd.
  cbn [map] in Hnd. apply NoDup_cons_iff in Hnd. apply (proj1 Hnd). exact Hin.
Qed.

(** A new operation without regions, with live operands, put before an
    operation of the IR. *)
Lemma sound_insertBefore (ir target : Operation) (k : OpKind) (vs : list Value)
    (ts : list MlirType) :
  sound ir ->
  In target (walk ir) ->
  (forall v, In v vs -> live ir v = true) ->
  let new_op := mkOperation (fresh_op_id ir) k vs ts [] in
  let ir' := insertBefore ir (op_id target) new_op in
  sound ir' /\ same_root ir ir'
  /\ (target = ir \/ Permutation (nodes ir') (strip new_op :: nodes ir))
  /\ Permutation (block_heads ir') (block_heads ir).
Proof.
  intros [Hnd Hlive] Hin Hvs new_op ir'.
  destruct (locate ir target Hin) as [-> | (c & pre & post & E)].
  - assert (E : ir' = ir).
    { unfold ir', insertBefore.
      apply (rewrite_root_absent _ (op_id ir) ir (@by_id_insert_before (op_id ir) new_op)).
      apply root_id_alone. exact Hnd. }
    rewrite E. repeat split; auto.
  - assert (E' : ir' = plug c (pre ++ new_op :: target :: post)).
    { unfold ir'. rewrite E at 1. apply insertBefore_plug. rewrite <- E. exact Hnd. }
    assert (Hn : Permutation (nodes ir') (strip new_op :: nodes ir)).
    { rewrite E', E. apply (nodes_plug_insert c pre (target :: post) new_op). }
    assert (Hb : Permutation (block_heads ir') (block_heads ir)).
    { rewrite E', E.
      apply (block_heads_plug_insert c pre (target :: post) new_op). }
    split; [split|split; [|split]].
    + eapply Permutation_NoDup.
      * apply Permutation_sym. rewrite E'.
        apply (op_ids_plug_insert c pre (target :: post) new_op).
      * cbn [new_op op_ids walk flat_map app map op_id]. rewrite <- E.
        constructor; [apply fresh_op_id_not_in | exact Hnd].
    + apply no_dangling_spec. intros nd v Hndin Hv.
      assert (Hd : defs_preserved ir ir').
      { apply defs_preserved_incl.
        - intros x Hx. apply (Permutation_in _ (Permutation_sym Hn)). right. exact Hx.
        - intros x Hx. apply (Permutation_in _ (Permutation_sym Hb)). exact Hx. }
      apply (live_mono ir ir' v Hd).
      apply (Permutation_in _ Hn) in Hndin. destruct Hndin as [<- | Hndin].
      * apply Hvs. exact Hv.
      * exact (node_operand_live ir nd v Hlive Hndin Hv).
    + rewrite E', E. split; apply op_id_plug.
    + right. exact Hn.
    + exact Hb.
Qed.

Lemma defined_by_node (o nd : Operation) (v : Value) :
  In nd (nodes o) -> defines v nd = true ->
  defined_by (op_ids o) (block_ids o) v = true.
Proof.
  intros Hin Hd. destruct v as [i k|b k]; cbn [defines defined_by] in *; [|discriminate].
  apply andb_true_iff in Hd. destruct Hd as [Hi _]. apply Nat.eqb_eq in Hi.
  apply existsb_exists. exists i. split; [|apply Nat.eqb_refl].
  apply in_nodes_walk in Hin. destruct Hin as (x & Hx & <-).
  cbn [strip op_id] in Hi. rewrite <- Hi. apply in_map. exact Hx.
Qed.

Lemma defined_by_block (o b : Operation) (hd : Block) (v : Value) :
  In hd (block_heads o) -> binds v hd = true ->
  defined_by (op_ids o) (block_ids o) v = true.
Proof.
  intros Hin Hd. destruct v as [i k|i k]; cbn [binds defined_by] in *; [discriminate|].
  apply andb_true_iff in Hd. destruct Hd as [Hi _]. apply Nat.eqb_eq in Hi.
  apply existsb_exists. exists i. split; [|apply Nat.eqb_refl].
  unfold block_heads in Hin. apply in_map_iff in Hin. destruct Hin as (x & <- & Hx).
  cbn [strip_block blk_id] in Hi. rewrite <- Hi. unfold block_ids.
  apply in_map. exact Hx.
Qed.

(** After [erase], nothing uses a value the erased operation defined. *)
Lemma sound_erase (ir ir' : Operation) (op : OpId) :
  sound ir ->
  erase ir op = Some ir' ->
  sound ir' /\ same_root ir ir'
  /\ forall x k, In x (walk ir') -> ~ In (OpResult op k) (op_operands x).
Proof.
  intros [Hnd Hlive]. unfold erase.
  destruct (find_op ir op) as [o|] eqn:Hfind; [|discriminate].
  destruct (existsb _ (walk (remove ir op))) eqn:Hcheck; [discriminate|].
  intros [= <-].
  apply find_op_Some in Hfind. destruct Hfind as [Hin <-].
  assert (Huse : forall x v, In x (walk (remove ir (op_id o))) ->
                   In v (op_operands x) ->
                   defined_by (op_ids o) (block_ids o) v = false).
  { intros x v Hx Hv. apply not_true_is_false. intros Hd.
    apply not_true_iff_false in Hcheck. apply Hcheck.
    apply existsb_exists. exists x. split; [exact Hx|].
    apply existsb_exists. exists v. auto. }
  assert (Hthird : forall x k, In x (walk (remove ir (op_id o))) ->
                     ~ In (OpResult (op_id o) k) (op_operands x)).
  { intros x k Hx Hv. specialize (Huse x _ Hx Hv). cbn [defined_by] in Huse.
    apply not_true_iff_false in Huse. apply Huse. apply existsb_exists.
    exists (op_id o). split; [|apply Nat.eqb_refl].
    apply in_map. apply walk_self. }
  destruct (locate ir o Hin) as [-> | (c & pre & post & E)].
  - assert (E : remove ir (op_id ir) = ir).
    { apply (rewrite_root_absent _ (op_id ir) ir (@by_id_unlink (op_id ir))).
      apply root_id_alone. exact Hnd. }
    rewrite E in *. repeat split; auto.
  - assert (E' : remove ir (op_id o) = plug c (pre ++ post)).
    { rewrite E at 1. apply remove_plug. rewrite <- E. exact Hnd. }
    rewrite E' in *.
    pose proof (nodes_plug_insert c pre post o) as Hn. rewrite <- E in Hn.
    pose proof (block_heads_plug_insert c pre post o) as Hb. rewrite <- E in Hb.
    split; [split|split; [|exact Hthird]].
    + pose proof (op_ids_plug_insert c pre post o) as Hi. rewrite <- E in Hi.
      apply (Permutation_NoDup Hi) in Hnd. apply NoDup_app_remove_l in Hnd. exact Hnd.
    + apply no_dangling_spec. intros nd v Hndin Hv.
      assert (Hl : live ir v = true).
      { apply (node_operand_live ir nd v Hlive); [|exact Hv].
        apply (Permutation_in _ (Permutation_sym Hn)). apply in_or_app. auto. }
      apply in_nodes_walk in Hndin. destruct Hndin as (x & Hx & <-).
      cbn [strip op_operands] in Hv. specialize (Huse x v Hx Hv).
      unfold live, live_in in *. rewrite orb_true_iff, !existsb_exists in *.
      destruct Hl as [(d & Hd & Hdef) | (d & Hd & Hdef)].
      * apply (Permutation_in _ Hn) in Hd. apply in_app_or in Hd.
        destruct Hd as [Hd | Hd]; [|eauto].
        rewrite (defined_by_node o d v Hd Hdef) in Huse. discriminate.
      * apply (Permutation_in _ Hb) in Hd. apply in_app_or in Hd.
        destruct Hd as [Hd | Hd]; [|eauto].
        rewrite (defined_by_block o o d v Hd Hdef) in Huse. discriminate.
    + rewrite E. split; apply op_id_plug.
Qed.

Lemma getOperand_live (ir : Operation) (op : OpId) (idx : nat) (v : Value) :
  no_dangling ir = true -> getOperand ir op idx = Some v -> live ir v = true.
Proof.
  intros Hlive. unfold getOperand.
  destruct (find_op ir op) as [o|] eqn:E; [|discriminate].
  intros Hn. apply find_op_Some in E. destruct E as [Hin _].
  apply (operand_live ir o v Hlive Hin). eapply nth_error_In. exact Hn.
Qed.

Lemma sound_MakeShapeOpInvariant (replicate_op : OpId) (num_replicas : Z)
    (replicate_block : BlockId) (ir ir' : Operation) (shape_op : OpId) :
  sound ir ->
  MakeShapeOpInvariant replicate_op num_replicas replicate_block ir shape_op = Some ir' ->
  sound ir' /\ same_root ir ir'.
Proof.
  intros Hs. unfold MakeShapeOpInvariant.
  destruct (find_op ir shape_op) as [shape|] eqn:Hshape; [|discriminate].
  apply find_op_Some in Hshape. destruct Hshape as [Hin <-].
  destruct (nth_error (op_operands shape) 0) as [[def k|owner argNumber]|];
    [| |discriminate].
  - destruct (find_op ir def) as [read|]; [|discriminate].
    destruct (negb (isa_ReadVariableOp (op_kind read)));
      [intros [= <-]; split; [exact Hs | apply same_root_refl]|].
    destruct (nth_error (op_operands read) 0) as [[d' k'|owner argNumber]|];
      [intros [= <-]; split; [exact Hs | apply same_root_refl] | | discriminate].
    destruct (negb (Nat.eqb owner replicate_block));
      [intros [= <-]; split; [exact Hs | apply same_root_refl]|].
    destruct (getOperand ir replicate_op _) as [first_replica|] eqn:Hop; [|discriminate].
    destruct (nth_error (op_results shape) 0) as [ty|]; [|discriminate].
    cbn [op_id].
    destruct (sound_insertBefore ir shape VariableShapeOp [first_replica] [ty] Hs Hin)
      as (Hs1 & Hr1 & _).
    { intros v [<- | []]. exact (getOperand_live _ _ _ _ (proj2 Hs) Hop). }
    destruct (replaceAllUsesWith _ (op_id shape) (fresh_op_id ir)) as [ir2|] eqn:Hrauw;
      [|discriminate].
    destruct (sound_replaceAllUsesWith _ _ _ _ Hs1 Hrauw) as (Hs2 & Hr2).
    intros Herase.
    destruct (sound_erase _ _ _ Hs2 Herase) as (Hs3 & Hr3 & _).
    split; [exact Hs3|].
    eapply same_root_trans; [|exact Hr3]. eapply same_root_trans; eassumption.
  - destruct (negb (Nat.eqb owner replicate_block));
      [intros [= <-]; split; [exact Hs | apply same_root_refl]|].
    destruct (getOperand ir replicate_op _) as [first_replica|] eqn:Hop; [|discriminate].
    apply sound_setOperandOf; [exact Hs|].
    exact (getOperand_live _ _ _ _ (proj2 Hs) Hop).
Qed.

(** *** The hoisting loop keeps the invariant *)

Lemma nodes_hoisted_state (c : Context) (pre post : list Operation) (rl : Layer)
    (hoisted body : list Operation) :
  Permutation (nodes (hoisted_state c pre post rl hoisted body))
    (map strip (flat_map walk hoisted) ++ map strip (flat_map walk body)
     ++ ctx_nodes (Under c pre rl post)).
Proof.
  rewrite hoist_state_inner, nodes_plug. cbn [ctx_nodes].
  rewrite flat_map_app, map_app.
  change (strip (fill rl []) :: ?x) with ([strip (fill rl [])] ++ x).
  solve_perm.
Qed.

Lemma block_heads_hoisted_state (c : Context) (pre post : list Operation) (rl : Layer)
    (hoisted body : list Operation) :
  Permutation (block_heads (hoisted_state c pre post rl hoisted body))
    (map strip_block (flat_map blocks_of hoisted)
     ++ map strip_block (flat_map blocks_of body)
     ++ ctx_block_heads (Under c pre rl post)).
Proof.
  rewrite hoist_state_inner, block_heads_plug. cbn [ctx_block_heads].
  rewrite flat_map_app, map_app.
  change (mkBlock (l_block rl) (l_args rl) [] :: ?x)
    with ([mkBlock (l_block rl) (l_args rl) []] ++ x).
  solve_perm.
Qed.

Lemma partition_perm {A B : Type} (f : A -> list B) (p : A -> bool) (l : list A) :
  Permutation (flat_map f (filter p l) ++ flat_map f (filter (fun a => negb (p a)) l))
    (flat_map f l).
Proof.
  induction l as [|a l IH]; cbn [filter flat_map app]; [constructor|].
  destruct (p a); cbn [negb flat_map].
  - rewrite <- app_assoc. apply Permutation_app_head. exact IH.
  - rewrite <- IH. solve_perm.
Qed.

Lemma GetBody_layer (rep : Operation) (body : Block) :
  GetBody rep = Some body ->
  exists bs rs, rep = fill (layer_of rep body bs rs) (blk_ops body).
Proof.
  unfold GetBody. destruct rep as [i k vs ts [|[[|b bs]] rs]]; try discriminate.
  cbn [op_regions]. intros [= <-]. exists bs, rs. destruct b. reflexivity.
Qed.

Lemma sound_hoist_invariant_ops (replicate_op : OpId) (ir ir' : Operation) :
  sound ir -> replicate_op <> op_id ir ->
  hoist_invariant_ops replicate_op ir = Some ir' ->
  sound ir' /\ same_root ir ir'.
Proof.
  intros [Hnd Hlive] Hroot. unfold hoist_invariant_ops.
  destruct (find_op ir replicate_op) as [rep|] eqn:Hrep; [|discriminate].
  destruct (GetBody rep) as [body|] eqn:Hbody; [|discriminate].
  apply find_op_Some in Hrep. destruct Hrep as [Hin <-].
  destruct (GetBody_layer rep body Hbody) as (bs & rs & Hfill).
  set (rl := layer_of rep body bs rs) in *.
  destruct (locate ir rep Hin) as [-> | (c & pre & post & E)]; [congruence|].
  rewrite Hfill in E.
  assert (E0 : ir = hoisted_state c pre post rl [] ([] ++ blk_ops body)) by exact E.
  rewrite E0 in Hnd.
  destruct (@hoist_loop c pre post rl (blk_ops body) [] [] Hnd)
    as (moved & Hrun & Hmoved & _).
  cbv zeta in Hrun. destruct Hrun as [[Hrun | Hrun] _];
    change (op_id rep) with (l_id rl); rewrite E0 at 1; rewrite Hrun;
    [|discriminate].
  intros [= <-]. cbn [app].
  set (kept := filter (fun a => negb (among moved a)) (blk_ops body)) in *.
  assert (Hn : Permutation (nodes (hoisted_state c pre post rl moved kept)) (nodes ir)).
  { rewrite E0. rewrite !nodes_hoisted_state. cbn [flat_map map app].
    rewrite !app_assoc. apply Permutation_app_tail. rewrite <- map_app.
    apply Permutation_map. rewrite Hmoved at 1. apply partition_perm. }
  assert (Hb : Permutation (block_heads (hoisted_state c pre post rl moved kept))
                 (block_heads ir)).
  { rewrite E0. rewrite !block_heads_hoisted_state. cbn [flat_map map app].
    rewrite !app_assoc. apply Permutation_app_tail. rewrite <- map_app.
    apply Permutation_map. rewrite Hmoved at 1. apply partition_perm. }
  split; [split|].
  - eapply Permutation_NoDup; [|exact Hnd].
    rewrite !op_ids_hoist_state. cbn [flat_map map app].
    rewrite !app_assoc. apply Permutation_app_tail. rewrite <- map_app.
    apply Permutation_map. apply Permutation_sym.
    rewrite Hmoved at 1. apply partition_perm.
  - apply (no_dangling_perm ir); [apply Permutation_sym; exact Hn
                                 | apply Permutation_sym; exact Hb | exact Hlive].
  - rewrite E0. unfold hoisted_state. split; apply op_id_plug.
Qed.

Lemma foreach_invariant {A : Type} (P : Operation -> Prop)
    (step : Operation -> A -> option Operation) (l : list A) :
  (forall ir a ir', P ir -> step ir a = Some ir' -> P ir') ->
  forall ir ir', P ir -> foreach step l ir = Some ir' -> P ir'.
Proof.
  intros Hstep. induction l as [|a l IH]; intros ir ir' HP; cbn [foreach].
  - intros [= <-]. exact HP.
  - destruct (step ir a) as [ir1|] eqn:E; [|discriminate].
    apply IH. exact (Hstep ir a ir1 HP E).
Qed.

Lemma sound_HoistReplicateInvariantOps (ir ir' : Operation) (replicate_op : OpId) :
  sound ir -> isa_ReplicateOp (op_kind ir) = false ->
  HoistReplicateInvariantOps ir replicate_op = Some ir' ->
  sound ir' /\ same_root ir ir'.
Proof.
  intros Hs Hk. unfold HoistReplicateInvariantOps.
  destruct (find_op ir replicate_op) as [rep|] eqn:Hrep; [|discriminate].
  destruct (op_kind rep) as [| | | | | |n| | | | |] eqn:Hrk; try discriminate.
  destruct (GetBody rep) as [body|]; [|discriminate].
  destruct (foreach _ _ ir) as [ir1|] eqn:Hshapes; [|discriminate].
  assert (H1 : sound ir1 /\ same_root ir ir1).
  { revert Hshapes.
    apply (foreach_invariant (fun x => sound x /\ same_root ir x)).
    - intros x a x' [Hx Hrx] Hstep.
      destruct (sound_MakeShapeOpInvariant _ _ _ _ _ _ Hx Hstep) as [Hx' Hrx'].
      split; [exact Hx' | eapply same_root_trans; eassumption].
    - split; [exact Hs | apply same_root_refl]. }
  destruct H1 as [Hs1 Hr1]. intros Hloop.
  assert (Hne : replicate_op <> op_id ir1).
  { intros E. destruct Hr1 as [Hid _]. rewrite Hid in E.
    apply find_op_Some in Hrep. destruct Hrep as [Hin Hid'].
    assert (rep = ir).
    { apply (@unique_by_id ir rep ir (proj1 Hs) Hin (walk_self ir)). congruence. }
    subst rep. rewrite Hrk in Hk. discriminate. }
  destruct (sound_hoist_invariant_ops _ _ _ Hs1 Hne Hloop) as [Hs2 Hr2].
  split; [exact Hs2 | eapply same_root_trans; eassumption].
Qed.

(** Whatever the replicates visited, and in whatever order. *)
Lemma sound_hoisting_visits (func func' : Operation) (replicates : list OpId) :
  sound func -> isa_ReplicateOp (op_kind func) = false ->
  foreach HoistReplicateInvariantOps replicates func = Some func' ->
  sound func' /\ same_root func func'.
Proof.
  intros Hs Hk.
  apply (foreach_invariant (fun x => sound x /\ same_root func x)).
  - intros x a x' [Hx Hrx] Hstep.
    assert (Hkx : isa_ReplicateOp (op_kind x) = false).
    { destruct Hrx as [_ ->]. exact Hk. }
    destruct (sound_HoistReplicateInvariantOps _ _ _ Hx Hkx Hstep) as [Hx' Hrx'].
    split; [exact Hx' | eapply same_root_trans; eassumption].
  - split; [exact Hs | apply same_root_refl].
Qed.

Lemma sound_hoisting_pass (func func' : Operation) :
  sound func ->
  ReplicateInvariantOpHoisting.runOnFunction func = Some func' ->
  sound func' /\ same_root func func'.
Proof.
  intros Hs. unfold ReplicateInvariantOpHoisting.runOnFunction.
  destruct (op_kind func) as [ins res| | | | | | | | | | |] eqn:Hk; try discriminate.
  apply sound_hoisting_visits; [exact Hs|]. rewrite Hk. reflexivity.
Qed.

End NoDanglingFacts.

(** ** Further properties of the structuring pass *)

Module StructuringFacts.
Import IR IRFacts FunctionalToExecutor FunctionalToExecutorFacts NoDanglingFacts.

#[local] Arguments fill : simpl never.
Unset Implicit Arguments.

Lemma op_ids_same_shell (o o' : Operation) :
  op_id o' = op_id o -> op_regions o' = op_regions o -> op_ids o' = op_ids o.
Proof.
  intros Hi Hr. unfold op_ids. rewrite !walk_unfold. cbn [map]. rewrite Hi, Hr.
  reflexivity.
Qed.

Lemma block_ids_same_shell (o o' : Operation) :
  op_regions o' = op_regions o -> block_ids o' = block_ids o.
Proof.
  destruct o, o'. cbn [op_regions]. intros ->. reflexivity.
Qed.

Ltac cons_to_app :=
  repeat match goal with
         | |- context [?a :: ?x] =>
             lazymatch x with
             | [] => fail
             | _ => change (a :: x) with ([a] ++ x)
             end
         end.

(** The identities of a function wrapped into a graph and an island. *)
Lemma wrapped_ids (fid : OpId) (fk : OpKind) (fvs : list Value) (fts : list MlirType)
    (bid : BlockId) (bargs : list MlirType) (copy : list Operation)
    (ret ret' : Operation) (g : OpId) (b : BlockId) (tys ftys : list MlirType)
    (fetched args : list Value) :
  op_id ret' = op_id ret -> op_regions ret' = op_regions ret ->
  let yield := mkOperation (S (S (S g))) YieldOp args [] [] in
  let fetch := mkOperation (S (S g)) FetchOp fetched [] [] in
  let island :=
    mkOperation (S g) IslandOp [] tys [mkRegion [mkBlock (S b) [] (copy ++ [yield])]] in
  let graph := mkOperation g GraphOp [] ftys [mkRegion [mkBlock b [] [island; fetch]]] in
  let func := mkOperation fid fk fvs fts [mkRegion [mkBlock bid bargs (copy ++ [ret])]] in
  let func' := mkOperation fid fk fvs fts [mkRegion [mkBlock bid bargs [graph; ret']]] in
  Permutation (op_ids func') ([g; S g; S (S g); S (S (S g))] ++ op_ids func)
  /\ Permutation (block_ids func') ([b; S b] ++ block_ids func).
Proof.
  intros Hid Hregs yield fetch island graph func func'.
  split.
  - assert (Hwi : walk island = island :: flat_map walk copy ++ [yield]).
    { unfold island at 1. rewrite walk_one_block, flat_map_app. reflexivity. }
    assert (Hwg : walk graph = graph :: walk island ++ [fetch]).
    { unfold graph at 1. rewrite walk_one_block. reflexivity. }
    unfold op_ids, func, func'. rewrite !walk_one_block. cbn [flat_map].
    rewrite Hwg, Hwi, flat_map_app. cbn [flat_map]. rewrite !app_nil_r.
    cbn [map app]. rewrite !map_app. cbn [map app].
    fold (op_ids ret') (op_ids ret).
    rewrite (op_ids_same_shell ret ret' Hid Hregs).
    cbn [op_id]. cons_to_app.
    change (op_id graph) with g. change (op_id island) with (S g).
    change (op_id yield) with (S (S (S g))). change (op_id fetch) with (S (S g)).
    unfold OpId. solve_perm.
  - assert (Hbi : blocks_of island
                  = mkBlock (S b) [] (copy ++ [yield]) :: flat_map blocks_of copy).
    { unfold island at 1. rewrite blocks_of_one_block, flat_map_app.
      cbn [flat_map]. change (blocks_of yield) with (@nil Block).
      rewrite !app_nil_r. reflexivity. }
    assert (Hbg : blocks_of graph
                  = mkBlock b [] [island; fetch] :: blocks_of island).
    { unfold graph at 1. rewrite blocks_of_one_block. cbn [flat_map].
      change (blocks_of fetch) with (@nil Block). rewrite !app_nil_r. reflexivity. }
    unfold block_ids, func, func'. rewrite !blocks_of_one_block. cbn [flat_map].
    rewrite Hbg, Hbi, flat_map_app. cbn [flat_map]. rewrite !app_nil_r.
    cbn [map app blk_id]. rewrite !map_app.
    fold (block_ids ret') (block_ids ret).
    rewrite (block_ids_same_shell ret ret' Hregs).
    cons_to_app. unfold BlockId. solve_perm.
Qed.

(** The identities of the function a run builds. *)
Lemma structuring_ids (func func' : Operation) :
  applicable func = true ->
  runOnFunction func = Some func' ->
  Permutation (op_ids func')
    ([fresh_op_id func; S (fresh_op_id func); S (S (fresh_op_id func));
      S (S (S (fresh_op_id func)))] ++ op_ids func)
  /\ Permutation (block_ids func')
       ([fresh_block_id func; S (fresh_block_id func)] ++ block_ids func).
Proof.
  intros Ha Hr.
  destruct (@runOnFunction_inv _ _ Ha Hr)
    as (body & copy & ret & ret' & Hreg & Hops & Hk & Hg & Hs & Hf).
  cbv zeta in Hs, Hf.
  pose proof (@setOperands_preserves _ _ _ _ Hs) as (Hid & _ & _ & Hregs).
  assert (E : func = mkOperation (op_id func) (op_kind func) (op_operands func)
                       (op_results func)
                       [mkRegion [mkBlock (blk_id body) (blk_args body) (copy ++ [ret])]]).
  { destruct func, body. cbn in *. congruence. }
  pose proof (wrapped_ids (op_id func) (op_kind func) (op_operands func)
                (op_results func) (blk_id body) (blk_args body) copy ret ret'
                (fresh_op_id func) (fresh_block_id func)
                (fn_results func ++ [ControlType]) (fn_results func)
                (to_fetch (map (OpResult (S (fresh_op_id func)))
                             (seq 0 (length (fn_results func ++ [ControlType])))))
                (op_operands ret) Hid Hregs) as H.
  cbv zeta in H. rewrite <- E in H. rewrite Hf. exact H.
Qed.

Lemma fresh_op_id_above (ir : Operation) (k : nat) :
  ~ In (fresh_op_id ir + k) (op_ids ir).
Proof.
  unfold fresh_op_id. intros Hin.
  pose proof (proj1 (list_max_le (op_ids ir) (list_max (op_ids ir)))
                (Nat.le_refl _)) as Hle.
  rewrite Forall_forall in Hle. apply Hle in Hin. lia.
Qed.

Lemma fresh_block_id_above (ir : Operation) (k : nat) :
  ~ In (fresh_block_id ir + k) (block_ids ir).
Proof.
  unfold fresh_block_id. intros Hin.
  pose proof (proj1 (list_max_le (block_ids ir) (list_max (block_ids ir)))
                (Nat.le_refl _)) as Hle.
  rewrite Forall_forall in Hle. apply Hle in Hin. lia.
Qed.

(** X1. On a function that passes the checks the run deletes nothing: the
    operations of the result are those of the function and four more (the
    graph, the island, the fetch and the yield), its blocks are those of the
    function and two more, and the new identities are not in use in the
    function. *)
Theorem structuring_adds_four_operations
    (func : Operation) (ins res : list MlirType) (body : Block)
    (return_op : Operation) :
  op_kind func = FuncOp ins res ->
  op_regions func = [mkRegion [body]] ->
  applicable func = true ->
  back (blk_ops body) = Some return_op ->
  length res <= length (op_operands return_op) ->
  exists func' new_ops new_blocks,
    runOnFunction func = Some func'
    /\ Permutation (op_ids func') (new_ops ++ op_ids func)
    /\ Permutation (block_ids func') (new_blocks ++ block_ids func)
    /\ length new_ops = 4 /\ length new_blocks = 2
    /\ (forall i, In i new_ops -> ~ In i (op_ids func))
    /\ (forall b, In b new_blocks -> ~ In b (block_ids func)).
Proof.
  intros Hfk Hfr Ha Hb Hl.
  destruct (@runOnFunction_succeeds _ _ _ _ _ Hfk Hfr Hb
              (@applicable_return _ _ _ Hfr Ha Hb) Hl) as [func' Hr].
  destruct (structuring_ids func func' Ha Hr) as [Hops Hblks].
  exists func', [fresh_op_id func; S (fresh_op_id func); S (S (fresh_op_id func));
                 S (S (S (fresh_op_id func)))],
    [fresh_block_id func; S (fresh_block_id func)].
  split; [exact Hr|]. split; [exact Hops|]. split; [exact Hblks|].
  split; [reflexivity|]. split; [reflexivity|]. split.
  - intros i [<- | [<- | [<- | [<- | []]]]].
    + pose proof (fresh_op_id_above func 0) as H. rewrite Nat.add_0_r in H. exact H.
    + pose proof (fresh_op_id_above func 1) as H. rewrite Nat.add_1_r in H. exact H.
    + pose proof (fresh_op_id_above func 2) as H.
      replace (fresh_op_id func + 2) with (S (S (fresh_op_id func))) in H by lia. exact H.
    + pose proof (fresh_op_id_above func 3) as H.
      replace (fresh_op_id func + 3) with (S (S (S (fresh_op_id func)))) in H by lia.
      exact H.
  - intros b [<- | [<- | []]].
    + pose proof (fresh_block_id_above func 0) as H. rewrite Nat.add_0_r in H. exact H.
    + pose proof (fresh_block_id_above func 1) as H. rewrite Nat.add_1_r in H. exact H.
Qed.

Lemma structuring_adds_four_operations_witness :
  exists func' new_ops new_blocks,
    runOnFunction Samples.func_add = Some func'
    /\ Permutation (op_ids func') (new_ops ++ op_ids Samples.func_add)
    /\ Permutation (block_ids func') (new_blocks ++ block_ids Samples.func_add)
    /\ length new_ops = 4 /\ length new_blocks = 2
    /\ (forall i, In i new_ops -> ~ In i (op_ids Samples.func_add))
    /\ (forall b, In b new_blocks -> ~ In b (block_ids Samples.func_add)).
Proof.
  eapply (structuring_adds_four_operations Samples.func_add);
    [reflexivity | reflexivity | reflexivity | reflexivity | simpl; lia].
Defined.

(** X2. The run keeps identities unique: when no two operations and no two
    blocks of the function share an identity, none do in the result. *)
Theorem structuring_keeps_ids_unique (func func' : Operation) :
  unique_ids func ->
  runOnFunction func = Some func' ->
  unique_ids func'.
Proof.
  intros [Hops Hblks] Hr.
  destruct (applicable func) eqn:Ha.
  2:{ rewrite (@runOnFunction_not_applicable _ _ Ha Hr). split; assumption. }
  destruct (structuring_ids func func' Ha Hr) as [Po Pb].
  split.
  - apply (Permutation_NoDup (Permutation_sym Po)).
    pose proof (fresh_op_id_above func 0) as H0. rewrite Nat.add_0_r in H0.
    pose proof (fresh_op_id_above func 1) as H1. rewrite Nat.add_1_r in H1.
    pose proof (fresh_op_id_above func 2) as H2.
    replace (fresh_op_id func + 2) with (S (S (fresh_op_id func))) in H2 by lia.
    pose proof (fresh_op_id_above func 3) as H3.
    replace (fresh_op_id func + 3) with (S (S (S (fresh_op_id func)))) in H3 by lia.
    cbn [app]. repeat (apply NoDup_cons; [cbn [In]; intros Hin; intuition lia|]).
    exact Hops.
  - apply (Permutation_NoDup (Permutation_sym Pb)).
    pose proof (fresh_block_id_above func 0) as H0. rewrite Nat.add_0_r in H0.
    pose proof (fresh_block_id_above func 1) as H1. rewrite Nat.add_1_r in H1.
    cbn [app]. repeat (apply NoDup_cons; [cbn [In]; intros Hin; intuition lia|]).
    exact Hblks.
Qed.

Lemma structuring_keeps_ids_unique_witness :
  exists func',
    runOnFunction Samples.func_add = Some func' /\ unique_ids func'.
Proof.
  eexists. split; [reflexivity|].
  apply (structuring_keeps_ids_unique Samples.func_add); [|reflexivity].
  split; repeat constructor; simpl; intuition congruence.
Defined.

(** X3. The run changes the function exactly when every check passes: with a
    check that does not pass the result is the function itself, and when all
    pass the result is another function. *)
Theorem structuring_changes_iff_applicable (func func' : Operation) :
  runOnFunction func = Some func' ->
  (func' = func <-> applicable func = false).
Proof.
  intros Hr. split.
  - intros E. destruct (applicable func) eqn:Ha; [|reflexivity]. exfalso.
    destruct (structuring_ids func func' Ha Hr) as [Po _].
    apply (fresh_op_id_not_in func). rewrite <- E at 2.
    apply (Permutation_in _ (Permutation_sym Po)). left. reflexivity.
  - intros Ha. exact (@runOnFunction_not_applicable _ _ Ha Hr).
Qed.

Lemma structuring_changes_iff_applicable_witness :
  exists func',
    runOnFunction Samples.func_add = Some func'
    /\ (func' = Samples.func_add <-> applicable Samples.func_add = false).
Proof.
  eexists. split; [reflexivity|].
  apply (structuring_changes_iff_applicable Samples.func_add). reflexivity.
Defined.

Lemma replace_nth_ge (idx : nat) (v : Value) (vs : list Value) :
  length vs <= idx -> replace_nth idx v vs = None.
Proof.
  revert idx. induction vs as [|w vs IH]; intros idx Hl; [destruct idx; reflexivity|].
  destruct idx as [|idx]; cbn [length] in Hl; [lia|].
  cbn [replace_nth]. rewrite IH by lia. reflexivity.
Qed.

(** Writing past the end of the operand list fails. *)
Lemma setOperands_past_end (vs : list Value) (idx : nat) (o : Operation) :
  idx <= length (op_operands o) ->
  length (op_operands o) < idx + length vs ->
  setOperands idx vs o = None.
Proof.
  revert idx o. induction vs as [|v vs IH]; intros idx o Hle Hlt;
    cbn [length] in Hlt; [lia|].
  cbn [setOperands]. unfold setOperand.
  destruct (replace_nth idx v (op_operands o)) as [ws|] eqn:E; [|reflexivity].
  cbn [option_map].
  assert (Hidx : idx < length (op_operands o)).
  { destruct (Nat.lt_ge_cases idx (length (op_operands o))) as [H|H]; [exact H|].
    rewrite (replace_nth_ge idx v _ H) in E. discriminate. }
  apply replace_nth_length in E.
  apply IH; destruct o; cbn [set_operands op_operands] in *; lia.
Qed.

(** X4. The loop of lines 101-103 runs over the results of the graph, not
    over the operands of the return: when the return has more operands than
    the function has results, the run returns, the first operands of the
    return become the results of the graph, and the operands past them are
    left as they were. *)
Theorem structuring_keeps_extra_return_operands
    (func : Operation) (ins res : list MlirType) (body : Block)
    (return_op : Operation) :
  op_kind func = FuncOp ins res ->
  op_regions func = [mkRegion [body]] ->
  applicable func = true ->
  back (blk_ops body) = Some return_op ->
  length res <= length (op_operands return_op) ->
  exists func' graph_op return_op',
    runOnFunction func = Some func'
    /\ body_ops func' = [graph_op; return_op']
    /\ op_kind graph_op = GraphOp
    /\ op_operands return_op'
       = getResults graph_op ++ skipn (length res) (op_operands return_op)
    /\ length (getResults graph_op) = length res.
Proof.
  intros Hfk Hfr Ha Hb Hl.
  destruct (@runOnFunction_succeeds _ _ _ _ _ Hfk Hfr Hb
              (@applicable_return _ _ _ Hfr Ha Hb) Hl) as [func' Hr].
  destruct (@runOnFunction_inv _ _ Ha Hr)
    as (body' & copy & ret & ret' & Hreg & Hops & Hk & Hg & Hs & E).
  cbv zeta in Hs, E.
  rewrite Hfr in Hreg. injection Hreg as <-.
  assert (ret = return_op) as ->
    by (rewrite Hops, back_last in Hb; congruence).
  assert (Hres : fn_results func = res) by (unfold fn_results; rewrite Hfk; reflexivity).
  set (graph_op := mkOperation (fresh_op_id func) GraphOp [] (fn_results func) _) in *.
  assert (Hlen : length (getResults graph_op) = length res).
  { rewrite getResults_length. cbn [graph_op op_results]. rewrite Hres. reflexivity. }
  pose proof (@setOperands_spec (getResults graph_op) []
                (firstn (length res) (op_operands return_op))
                (skipn (length res) (op_operands return_op)) return_op) as Hspec.
  cbn [length app] in Hspec. rewrite Hspec in Hs.
  - injection Hs as <-. exists func', graph_op, (set_operands
      (getResults graph_op ++ skipn (length res) (op_operands return_op)) return_op).
    split; [exact Hr|]. rewrite E at 1. unfold body_ops, block_of_op.
    cbn [op_regions flat_map reg_blocks blk_ops app].
    split; [reflexivity|]. split; [reflexivity|].
    split; [destruct return_op; reflexivity | exact Hlen].
  - symmetry. apply firstn_skipn.
  - rewrite Hlen, firstn_length_le; [reflexivity | exact Hl].
Qed.

Lemma structuring_keeps_extra_return_operands_witness :
  exists func' graph_op return_op',
    runOnFunction Samples.func_long_return = Some func'
    /\ body_ops func' = [graph_op; return_op']
    /\ op_kind graph_op = GraphOp
    /\ op_operands return_op'
       = getResults graph_op ++ skipn 1 [OpResult 1 0; BlockArgument 0 1]
    /\ length (getResults graph_op) = 1.
Proof.
  apply (structuring_keeps_extra_return_operands Samples.func_long_return
           [Samples.T; Samples.T] [Samples.T]
           (mkBlock 0 [Samples.T; Samples.T] (body_ops Samples.func_long_return))
           (mkOperation 2 StdReturnOp [OpResult 1 0; BlockArgument 0 1] [] []));
    [reflexivity | reflexivity | reflexivity | reflexivity | simpl; lia].
Defined.

(** X5. When the return has fewer operands than the function has results,
    the loop of lines 101-103 sets an operand the return does not have: the
    run stops on the assertion of [setOperand]. *)
Theorem structuring_fails_on_short_return
    (func : Operation) (ins res : list MlirType) (body : Block)
    (return_op : Operation) :
  op_kind func = FuncOp ins res ->
  op_regions func = [mkRegion [body]] ->
  applicable func = true ->
  back (blk_ops body) = Some return_op ->
  length (op_operands return_op) < length res ->
  runOnFunction func = None.
Proof.
  intros Hfk Hfr Ha Hb Hl.
  pose proof (@applicable_return _ _ _ Hfr Ha Hb) as Hret.
  unfold applicable, getBlocks in Ha. rewrite Hfr in Ha.
  cbn [flat_map reg_blocks app] in Ha. apply andb_true_iff in Ha.
  destruct Ha as [Hg _]. apply negb_true_iff in Hg.
  unfold runOnFunction. rewrite Hfk, Hfr, Hg.
  unfold getTerminator. rewrite Hb, Hret. cbn [isTerminator isa_StdReturnOp negb].
  cbv zeta. rewrite setOperands_past_end.
  - rewrite Hret. reflexivity.
  - lia.
  - rewrite getResults_length. cbn [op_results]. lia.
Qed.

Lemma structuring_fails_on_short_return_witness :
  runOnFunction Samples.func_short_return = None.
Proof.
  eapply (structuring_fails_on_short_return Samples.func_short_return);
    [reflexivity | reflexivity | reflexivity | reflexivity | simpl; lia].
Defined.

End StructuringFacts.

(** ** Further properties of the hoisting pass *)

Module HoistingFacts.
Import IR IRFacts ReplicateInvariantOpHoisting ReplicateInvariantOpHoistingFacts.
Import NoDanglingFacts.

#[local] Arguments fill : simpl never.
Unset Implicit Arguments.

(** X6. The index [num_replicas * block_arg->getArgNumber()] is the product of
    the replica count and the argument number reduced modulo [2^32], whatever
    the value of the attribute: it is below [2^32], and it is the product
    itself when the product is in that range. *)
Theorem replica_operand_index_wraps (n : Z) (i : nat) :
  replica_operand_index (to_int (getLimitedValue n)) i
  = Z.to_nat (Z.modulo (n * Z.of_nat i) two32)
  /\ (Z.of_nat (replica_operand_index (to_int (getLimitedValue n)) i) < two32)%Z
  /\ ((0 <= n * Z.of_nat i < two32)%Z ->
      replica_operand_index (to_int (getLimitedValue n)) i
      = Z.to_nat (n * Z.of_nat i)).
Proof.
  assert (H32 : (0 < two32)%Z) by reflexivity.
  assert (Hnum : Z.modulo (to_int (getLimitedValue n)) two32 = Z.modulo n two32).
  { unfold to_int, getLimitedValue. cbv zeta. rewrite Z.mod_mod by lia.
    destruct (Z.ltb (Z.modulo n two32) 2147483648).
    - apply Z.mod_mod. lia.
    - rewrite Zminus_mod, Z.mod_same, Z.sub_0_r, !Z.mod_mod by lia. reflexivity. }
  assert (E : replica_operand_index (to_int (getLimitedValue n)) i
              = Z.to_nat (Z.modulo (n * Z.of_nat i) two32)).
  { unfold replica_operand_index. rewrite Hnum.
    rewrite Z.mul_mod_idemp_l by lia. reflexivity. }
  split; [exact E|]. split.
  - rewrite E. pose proof (Z.mod_pos_bound (n * Z.of_nat i) two32 H32). lia.
  - intros Hr. rewrite E. rewrite Z.mod_small by exact Hr. reflexivity.
Qed.

(** The loop, on the body of a replicate: what it returns and what it
    moves. *)
Lemma hoist_run (c : Context) (pre post : list Operation) (rl : Layer)
    (body : list Operation) :
  let ir := plug c (pre ++ fill rl body :: post) in
  NoDup (op_ids ir) ->
  l_regions_before rl = [] ->
  l_blocks_before rl = [] ->
  (forall a, In a body ->
             existsb (uses_result_of (op_id a)) (preceding (op_id a) (walk ir))
             = false) ->
  exists moved,
    hoist_invariant_ops (l_id rl) ir
    = Some (hoisted_state c pre post rl moved
              (filter (fun a => negb (among moved a)) body))
    /\ moved = filter (among moved) body
    /\ (forall a, In a body -> (In a moved <-> among moved a = true))
    /\ forall before a after,
         body = before ++ a :: after ->
         (among moved a = true <->
          isa_DeviceReturnOp (op_kind a) = false
          /\ IsOpReplicateInvariant
               (hoisted_state c pre post rl (filter (among moved) before)
                  (filter (fun a => negb (among moved a)) before ++ a :: after))
               (l_id rl, 0) a = true).
Proof.
  intros ir Hnd Hregion Hblock Hord.
  assert (Hnd0 : NoDup (op_ids (hoisted_state c pre post rl [] ([] ++ body))))
    by exact Hnd.
  destruct (hoist_loop c pre post rl body [] [] Hnd0)
    as (moved & Hrun & Hmoved & Hiff).
  cbv zeta in Hrun. destruct Hrun as [_ Hrun].
  specialize (Hrun (@uses_follow_start c pre post rl body Hnd Hord)).
  exists moved. split; [|split; [exact Hmoved|split; [|exact Hiff]]].
  - unfold hoist_invariant_ops.
    change ir with (hoisted_state c pre post rl [] body).
    rewrite (find_replicate c pre post rl [] body Hnd).
    rewrite (GetBody_fill rl Hregion Hblock body). cbn [blk_ops].
    exact Hrun.
  - intros a Ha. rewrite Hmoved at 1. rewrite filter_In. tauto.
Qed.

(** X7. The loop skips a [tf_device.return] and nothing else: an operation of
    the body of any other kind, such that neither it nor an operation nested
    in it has an operand, is relocated in front of the replicate. *)
Theorem operand_free_op_is_hoisted
    (c : Context) (pre post : list Operation) (rl : Layer)
    (body : list Operation) (a : Operation) :
  let ir := plug c (pre ++ fill rl body :: post) in
  NoDup (op_ids ir) ->
  l_regions_before rl = [] ->
  l_blocks_before rl = [] ->
  (forall b, In b body ->
             existsb (uses_result_of (op_id b)) (preceding (op_id b) (walk ir))
             = false) ->
  In a body ->
  isa_DeviceReturnOp (op_kind a) = false ->
  (forall x, In x (walk a) -> op_operands x = []) ->
  exists hoisted,
    hoist_invariant_ops (l_id rl) ir
    = Some (plug c (pre ++ hoisted
                    ++ fill rl (filter (fun b => negb (among hoisted b)) body)
                    :: post))
    /\ In a hoisted.
Proof.
  intros ir Hnd Hregion Hblock Hord Ha Hk Hfree.
  destruct (hoist_run c pre post rl body Hnd Hregion Hblock Hord)
    as (moved & Hrun & Hmoved & Hin & Hiff).
  exists moved. split; [exact Hrun|].
  apply (Hin a Ha).
  destruct (in_split _ _ Ha) as (before & after & E).
  apply (Hiff before a after E). split; [exact Hk|].
  apply IsOpReplicateInvariant_spec. intros x v Hx Hv.
  rewrite (Hfree x Hx) in Hv. destruct Hv.
Qed.

Lemma operand_free_op_is_hoisted_witness :
  exists hoisted,
    hoist_invariant_ops 1
      (plug (AtRoot Samples.func_root)
         ([] ++ fill Samples.replicate3_layer
                  [Samples.op_const; Samples.device_return]
          :: [Samples.std_return]))
    = Some (plug (AtRoot Samples.func_root)
              ([] ++ hoisted
               ++ fill Samples.replicate3_layer
                    (filter (fun b => negb (among hoisted b))
                       [Samples.op_const; Samples.device_return])
               :: [Samples.std_return]))
    /\ In Samples.op_const hoisted.
Proof.
  apply (operand_free_op_is_hoisted (AtRoot Samples.func_root) []
           [Samples.std_return]
           Samples.replicate3_layer [Samples.op_const; Samples.device_return]
           Samples.op_const).
  - repeat constructor; simpl; intuition congruence.
  - reflexivity.
  - reflexivity.
  - intros b Hb. cbn in Hb. destruct Hb as [<- | [<- | []]]; reflexivity.
  - left. reflexivity.
  - reflexivity.
  - intros x Hx. cbn in Hx. destruct Hx as [<- | []]. reflexivity.
Defined.

(** The block of the replicate is found in its region. *)
Lemma replicate_block_parent (c : Context) (pre post : list Operation) (rl : Layer)
    (hoisted body : list Operation) (i : nat) :
  NoDup (block_ids (hoisted_state c pre post rl hoisted body)) ->
  getParentRegion (hoisted_state c pre post rl hoisted body)
    (BlockArgument (l_block rl) i)
  = Some (layer_region rl).
Proof.
  intros Hblks. unfold getParentRegion.
  rewrite (lookup_unique (block_locations [] (hoisted_state c pre post rl hoisted body))
             (l_block rl) (layer_region rl :: ctx_chain c)).
  - reflexivity.
  - rewrite (proj1 block_locations_keys). exact Hblks.
  - apply state_block_locations. left.
    unfold fixed_blocks, layer_block_locations_before.
    rewrite !in_app_iff. cbn [In]. auto 20.
Qed.

(** X8. An operation of the body that uses an argument of the block of the
    replicate, itself or through an operation nested in it, is not relocated:
    the region that defines the argument is the region of the replicate, not
    a proper ancestor of it. *)
Theorem block_argument_user_stays
    (c : Context) (pre post : list Operation) (rl : Layer)
    (body : list Operation) (a x : Operation) (i : nat) :
  let ir := plug c (pre ++ fill rl body :: post) in
  unique_ids ir ->
  l_regions_before rl = [] ->
  l_blocks_before rl = [] ->
  (forall b, In b body ->
             existsb (uses_result_of (op_id b)) (preceding (op_id b) (walk ir))
             = false) ->
  In a body ->
  In x (walk a) ->
  In (BlockArgument (l_block rl) i) (op_operands x) ->
  exists hoisted,
    hoist_invariant_ops (l_id rl) ir
    = Some (plug c (pre ++ hoisted
                    ++ fill rl (filter (fun b => negb (among hoisted b)) body)
                    :: post))
    /\ ~ In a hoisted
    /\ In a (filter (fun b => negb (among hoisted b)) body).
Proof.
  intros ir Hu Hregion Hblock Hord Ha Hx Hv.
  destruct (hoist_run c pre post rl body (proj1 Hu) Hregion Hblock Hord)
    as (moved & Hrun & Hmoved & Hin & Hiff).
  exists moved. split; [exact Hrun|].
  assert (Hstay : among moved a = false).
  { apply not_true_is_false. intros Hm.
    destruct (in_split _ _ Ha) as (before & after & E).
    apply (Hiff before a after E) in Hm. destruct Hm as [_ Hinv].
    rewrite IsOpReplicateInvariant_spec in Hinv.
    destruct (Hinv x _ Hx Hv) as (r & Hr & Hanc).
    assert (Hu0 : unique_ids (hoisted_state c pre post rl [] (before ++ a :: after)))
      by (rewrite <- E; exact Hu).
    pose proof (unique_ids_turn c pre post rl (among moved) before after a Hu0)
      as [_ Hb1].
    rewrite (replicate_block_parent c pre post rl _ _ i Hb1) in Hr.
    injection Hr as <-. unfold layer_region in Hanc. rewrite Hregion in Hanc.
    cbn [length] in Hanc. unfold isProperAncestor in Hanc.
    assert (Hrefl : RegionRef_eqb (l_id rl, 0) (l_id rl, 0) = true)
      by (apply RegionRef_eqb_spec; reflexivity).
    rewrite Hrefl in Hanc. discriminate. }
  split.
  - intros Hm. apply (Hin a Ha) in Hm. congruence.
  - apply filter_In. split; [exact Ha|]. rewrite Hstay. reflexivity.
Qed.

Lemma block_argument_user_stays_witness :
  exists hoisted,
    hoist_invariant_ops 1 Samples.func_hoist
    = Some (plug (AtRoot Samples.func_root)
              ([] ++ hoisted
               ++ fill Samples.replicate3_layer
                    (filter (fun b => negb (among hoisted b)) Samples.hoist_body)
               :: [Samples.std_return]))
    /\ ~ In Samples.op_nested_r hoisted
    /\ In Samples.op_nested_r
         (filter (fun b => negb (among hoisted b)) Samples.hoist_body).
Proof.
  apply (block_argument_user_stays (AtRoot Samples.func_root) []
           [Samples.std_return] Samples.replicate3_layer Samples.hoist_body
           Samples.op_nested_r
           Samples.op_d 0).
  - split; repeat constructor; simpl; intuition congruence.
  - reflexivity.
  - reflexivity.
  - intros b Hb. cbn in Hb.
    destruct Hb as [<- | [<- | [<- | [<- | []]]]]; reflexivity.
  - right. left. reflexivity.
  - right. left. reflexivity.
  - left. reflexivity.
Defined.

(** X9. The loop only moves operations: when it returns, the operations of
    the result are those of the IR, each with its identity, kind, operands and
    results, the blocks are those of the IR with their arguments, and the
    operation at the root is the same. *)
Theorem hoist_loop_only_moves (replicate_op : OpId) (ir ir' : Operation) :
  NoDup (op_ids ir) ->
  replicate_op <> op_id ir ->
  hoist_invariant_ops replicate_op ir = Some ir' ->
  Permutation (nodes ir') (nodes ir)
  /\ Permutation (block_heads ir') (block_heads ir)
  /\ op_id ir' = op_id ir /\ op_kind ir' = op_kind ir.
Proof.
  intros Hnd Hroot. unfold hoist_invariant_ops.
  destruct (find_op ir replicate_op) as [rep|] eqn:Hrep; [|discriminate].
  destruct (GetBody rep) as [body|] eqn:Hbody; [|discriminate].
  apply find_op_Some in Hrep. destruct Hrep as [Hin <-].
  destruct (GetBody_layer rep body Hbody) as (bs & rs & Hfill).
  set (rl := layer_of rep body bs rs) in *.
  destruct (locate ir rep Hin) as [-> | (c & pre & post & E)]; [congruence|].
  rewrite Hfill in E.
  assert (E0 : ir = hoisted_state c pre post rl [] ([] ++ blk_ops body)) by exact E.
  rewrite E0 in Hnd.
  destruct (hoist_loop c pre post rl (blk_ops body) [] [] Hnd)
    as (moved & Hrun & Hmoved & _).
  cbv zeta in Hrun. destruct Hrun as [[Hrun | Hrun] _];
    change (op_id rep) with (l_id rl); rewrite E0 at 1; rewrite Hrun;
    [|discriminate].
  intros [= <-]. cbn [app].
  split; [|split].
  - rewrite E0. rewrite !nodes_hoisted_state. cbn [flat_map map app].
    rewrite !app_assoc. apply Permutation_app_tail. rewrite <- map_app.
    apply Permutation_map. rewrite Hmoved at 1. apply partition_perm.
  - rewrite E0. rewrite !block_heads_hoisted_state. cbn [flat_map map app].
    rewrite !app_assoc. apply Permutation_app_tail. rewrite <- map_app.
    apply Permutation_map. rewrite Hmoved at 1. apply partition_perm.
  - rewrite E0. unfold hoisted_state. apply op_id_plug.
Qed.

Lemma hoist_loop_only_moves_witness :
  exists ir',
    hoist_invariant_ops 1 Samples.func_hoist = Some ir'
    /\ ir' <> Samples.func_hoist
    /\ Permutation (nodes ir') (nodes Samples.func_hoist)
    /\ Permutation (block_heads ir') (block_heads Samples.func_hoist)
    /\ op_id ir' = op_id Samples.func_hoist
    /\ op_kind ir' = op_kind Samples.func_hoist.
Proof.
  eexists. split; [reflexivity|]. split; [discriminate|].
  apply (hoist_loop_only_moves 1 Samples.func_hoist); [|discriminate|reflexivity].
  repeat constructor; simpl; intuition congruence.
Defined.

(** The walk of an operation met by a walk is part of that walk. *)
Lemma walk_nested :
  (forall o x, In x (walk o) -> incl (walk x) (walk o))
  /\ (forall r x, In x (walk_region r) -> incl (walk x) (walk_region r))
  /\ (forall b x, In x (walk_block b) -> incl (walk x) (walk_block b)).
Proof.
  apply tree_ind.
  - intros i k vs ts rs IH x Hx. cbn [walk] in Hx.
    destruct Hx as [<- | Hx]; [apply incl_refl|].
    apply in_flat_map in Hx. destruct Hx as (r & Hr & Hx).
    rewrite Forall_forall in IH. intros y Hy. cbn [walk]. right.
    apply in_flat_map. exists r. split; [exact Hr|]. exact (IH r Hr x Hx y Hy).
  - intros bs IH x Hx. cbn [walk_region] in *.
    apply in_flat_map in Hx. destruct Hx as (b & Hb & Hx).
    rewrite Forall_forall in IH. intros y Hy.
    apply in_flat_map. exists b. split; [exact Hb|]. exact (IH b Hb x Hx y Hy).
  - intros i a os IH x Hx. cbn [walk_block] in *.
    apply in_flat_map in Hx. destruct Hx as (o & Ho & Hx).
    rewrite Forall_forall in IH. intros y Hy.
    apply in_flat_map. exists o. split; [exact Ho|]. exact (IH o Ho x Hx y Hy).
Qed.

(** X10. The test covers what is nested: an operation met by the walk of an
    operation that [IsOpReplicateInvariant] accepts is accepted too, so an
    operation that holds a rejected one is rejected. *)
Theorem invariance_covers_nested_operations
    (ir : Operation) (replicate_region : RegionRef) (op x : Operation) :
  In x (walk op) ->
  IsOpReplicateInvariant ir replicate_region op = true ->
  IsOpReplicateInvariant ir replicate_region x = true.
Proof.
  intros Hx Hop. rewrite IsOpReplicateInvariant_spec in *.
  intros y v Hy Hv. apply (Hop y v); [|exact Hv].
  exact (proj1 walk_nested op x Hx y Hy).
Qed.

Lemma invariance_covers_nested_operations_witness :
  IsOpReplicateInvariant Samples.func_nested (1, 0) Samples.op_outer_nested = true
  /\ IsOpReplicateInvariant Samples.func_nested (1, 0) Samples.op_inner_outer = true.
Proof.
  split; [reflexivity|].
  apply (invariance_covers_nested_operations Samples.func_nested (1, 0)
           Samples.op_outer_nested Samples.op_inner_outer);
    [right; left; reflexivity | reflexivity].
Defined.

Lemma unique_ids_final (c : Context) (pre post : list Operation) (rl : Layer)
    (p : Operation -> bool) (body : list Operation) :
  unique_ids (hoisted_state c pre post rl [] body) ->
  unique_ids (hoisted_state c pre post rl (filter p body)
                (filter (fun x => negb (p x)) body)).
Proof.
  intros [Ho Hb]. split.
  - eapply Permutation_NoDup; [|exact Ho].
    rewrite !op_ids_hoist_state. cbn [flat_map map app].
    rewrite !app_assoc. apply Permutation_app_tail. rewrite <- map_app.
    apply Permutation_map. apply Permutation_sym. apply partition_perm.
  - eapply Permutation_NoDup; [|exact Hb].
    rewrite !block_ids_hoist_state. cbn [flat_map map app].
    rewrite !app_assoc. apply Permutation_app_tail. rewrite <- map_app.
    apply Permutation_map. apply Permutation_sym. apply partition_perm.
Qed.

Lemma foreach_fixed {A : Type} (step : Operation -> A -> option Operation)
    (l : list A) (ir : Operation) :
  (forall a, In a l -> step ir a = Some ir) -> foreach step l ir = Some ir.
Proof.
  induction l as [|a l IH]; intros H; cbn [foreach]; [reflexivity|].
  rewrite (H a (or_introl eq_refl)). apply IH. intros b Hb. apply H. right. exact Hb.
Qed.

Lemma forallb_false_witness {A : Type} (f : A -> bool) (l : list A) :
  forallb f l = false -> exists x, In x l /\ f x = false.
Proof.
  induction l as [|a l IH]; cbn [forallb]; [discriminate|].
  destruct (f a) eqn:E; cbn [andb].
  - intros H. destruct (IH H) as (x & Hx & Hf). exists x. split; [right; exact Hx | exact Hf].
  - intros _. exists a. split; [left; reflexivity | exact E].
Qed.

(** An operation that the test rejects has an operand that does not read as
    invariant. *)
Lemma rejected_operand (ir : Operation) (r : RegionRef) (op : Operation) :
  IsOpReplicateInvariant ir r op = false ->
  exists x v, In x (walk op) /\ In v (op_operands x) /\ ~ reads_invariant ir r v.
Proof.
  unfold IsOpReplicateInvariant. intros H.
  apply forallb_false_witness in H. destruct H as (x & Hx & H).
  apply forallb_false_witness in H. destruct H as (v & Hv & H).
  exists x, v. split; [exact Hx|]. split; [exact Hv|].
  intros (pr & Hp & Ha). rewrite Hp, Ha in H. discriminate.
Qed.

(** X11. The loop reaches a fixed point in one run: run again on its result,
    it moves nothing and returns that result. *)
Theorem hoist_loop_idempotent
    (c : Context) (pre post : list Operation) (rl : Layer) (body : list Operation) :
  let ir := plug c (pre ++ fill rl body :: post) in
  unique_ids ir ->
  l_regions_before rl = [] ->
  l_blocks_before rl = [] ->
  (forall b, In b body ->
             existsb (uses_result_of (op_id b)) (preceding (op_id b) (walk ir))
             = false) ->
  exists ir',
    hoist_invariant_ops (l_id rl) ir = Some ir'
    /\ hoist_invariant_ops (l_id rl) ir' = Some ir'.
Proof.
  intros ir Hu Hregion Hblock Hord.
  destruct (hoist_run c pre post rl body (proj1 Hu) Hregion Hblock Hord)
    as (moved & Hrun & Hmoved & Hin & Hiff).
  pose proof (@uses_follow_start c pre post rl body (proj1 Hu) Hord) as Hfollow.
  set (kept := filter (fun a => negb (among moved a)) body) in *.
  exists (hoisted_state c pre post rl moved kept). split; [exact Hrun|].
  assert (HuF : unique_ids (hoisted_state c pre post rl moved kept)).
  { pose proof (unique_ids_final c pre post rl (among moved) body Hu) as H.
    rewrite <- Hmoved in H. exact H. }
  destruct HuF as [HoF HbF].
  unfold hoist_invariant_ops.
  rewrite (find_replicate c pre post rl moved kept HoF).
  rewrite (GetBody_fill rl Hregion Hblock kept). cbn [blk_ops].
  apply foreach_fixed. intros i Hi.
  rewrite in_map_iff in Hi. destruct Hi as (a & <- & Hk).
  assert (Hak : In a body /\ among moved a = false).
  { unfold kept in Hk. apply filter_In in Hk. destruct Hk as [Ha Hn].
    split; [exact Ha|]. apply negb_true_iff. exact Hn. }
  destruct Hak as [Ha Hstay].
  unfold hoist_inner_op.
  assert (Hwalk : In a (walk (hoisted_state c pre post rl moved kept))).
  { rewrite hoist_state_inner. apply walk_plug_in. apply in_flat_map.
    exists a. split; [exact Hk | apply walk_self]. }
  rewrite (find_op_unique _ a HoF Hwalk).
  destruct (isa_DeviceReturnOp (op_kind a)) eqn:Hret; [reflexivity|].
  destruct (IsOpReplicateInvariant (hoisted_state c pre post rl moved kept)
              (l_id rl, 0) a) eqn:Hinv; [|reflexivity].
  exfalso.
  destruct (in_split _ _ Ha) as (before & after & E).
  assert (Hturn : IsOpReplicateInvariant
                    (hoisted_state c pre post rl (filter (among moved) before)
                       (filter (fun a => negb (among moved a)) before ++ a :: after))
                    (l_id rl, 0) a = false).
  { apply not_true_is_false. intros Ht.
    assert (Hm : among moved a = true) by (apply (Hiff before a after E); auto).
    congruence. }
  destruct (rejected_operand _ _ _ Hturn) as (x & v & Hx & Hv & Hnot).
  rewrite IsOpReplicateInvariant_spec in Hinv.
  assert (HF : reads_invariant (hoisted_state c pre post rl moved kept) (l_id rl, 0) v)
    by exact (Hinv x v Hx Hv).
  assert (Hu0 : unique_ids (hoisted_state c pre post rl [] (before ++ a :: after)))
    by (rewrite <- E; exact Hu).
  pose proof (unique_ids_turn c pre post rl (among moved) before after a Hu0)
    as [Ho1 Hb1].
  rewrite (state_reads_invariant_iff c pre post rl Hregion _ _ HoF HbF v) in HF.
  rewrite (state_reads_invariant_iff c pre post rl Hregion _ _ Ho1 Hb1 v) in Hnot.
  destruct HF as [Hout | (h & k & Hh & Ev)]; [apply Hnot; left; exact Hout|].
  assert (Hhb : In h body /\ among moved h = true).
  { rewrite Hmoved in Hh. apply filter_In in Hh. exact Hh. }
  destruct Hhb as [Hhb Hhm]. rewrite E in Hhb.
  apply in_app_or in Hhb. destruct Hhb as [Hhb | [<- | Hhb]].
  - apply Hnot. right. exists h, k. split; [|exact Ev].
    apply filter_In. split; assumption.
  - congruence.
  - destruct (in_split _ _ Hhb) as (a1 & a2 & Eafter).
    assert (Esplit : body = (before ++ a :: a1) ++ h :: a2).
    { rewrite E, Eafter, <- app_assoc. reflexivity. }
    pose proof (Hfollow _ _ _ Esplit) as Hf. cbn [app] in Hf.
    rewrite existsb_none in Hf.
    assert (Hmet : In (strip x) (met_before c pre (before ++ a :: a1))).
    { unfold met_before. apply in_or_app. right. apply in_map.
      apply in_flat_map. exists a. split; [|exact Hx].
      rewrite !in_app_iff. cbn [In]. auto. }
    specialize (Hf _ Hmet). rewrite uses_result_of_strip in Hf.
    assert (Huse : uses_result_of (op_id h) x = true).
    { unfold uses_result_of. apply existsb_exists. exists v.
      split; [exact Hv|]. rewrite Ev. apply Nat.eqb_refl. }
    congruence.
Qed.

Lemma hoist_loop_idempotent_witness :
  exists ir',
    hoist_invariant_ops 1 Samples.func_hoist = Some ir'
    /\ ir' <> Samples.func_hoist
    /\ hoist_invariant_ops 1 ir' = Some ir'.
Proof.
  destruct (hoist_loop_idempotent (AtRoot Samples.func_root) []
              [Samples.std_return] Samples.replicate3_layer Samples.hoist_body)
    as (ir' & H1 & H2).
  - split; repeat constructor; simpl; intuition congruence.
  - reflexivity.
  - reflexivity.
  - intros b Hb. cbn in Hb.
    destruct Hb as [<- | [<- | [<- | [<- | []]]]]; reflexivity.
  - exists ir'. split; [exact H1|]. split; [|exact H2].
    intros E. rewrite E in H1. discriminate H1.
Defined.

(** *** The rewrite of a shape followed by the loop *)

Lemma split_at_middle {A : Type} (before after B A' : list A) (s a : A) :
  before ++ s :: after = B ++ a :: A' ->
  (exists l, before = B ++ a :: l /\ A' = l ++ s :: after)
  \/ (B = before /\ a = s /\ A' = after)
  \/ (exists l, B = before ++ s :: l /\ after = l ++ a :: A').
Proof.
  revert B. induction before as [|x bf IH]; intros [|b B'] E; cbn [app] in E.
  - injection E as -> ->. right. left. auto.
  - injection E as -> ->. right. right. exists B'. auto.
  - injection E as -> <-. left. exists bf. auto.
  - injection E as -> E. destruct (IH B' E) as [(l & -> & ->) | [(-> & -> & ->) | (l & -> & ->)]].
    + left. exists l. auto.
    + right. left. auto.
    + right. right. exists l. auto.
Qed.

Lemma filter_single {A : Type} (p : A -> bool) (l : list A) (s : A) :
  NoDup l -> In s l -> p s = true ->
  (forall x, In x l -> p x = true -> x = s) ->
  filter p l = [s].
Proof.
  induction l as [|a l IH]; intros Hnd Hs Hp Hall; [destruct Hs|].
  apply NoDup_cons_iff in Hnd. destruct Hnd as [Ha Hnd]. cbn [filter].
  destruct Hs as [-> | Hs].
  - rewrite Hp. f_equal. apply filter_none. intros x Hx.
    apply not_true_is_false. intros Hpx.
    apply Ha. rewrite <- (Hall x (or_intror Hx) Hpx). exact Hx.
  - destruct (p a) eqn:Hpa.
    + exfalso. apply Ha. rewrite (Hall a (or_introl eq_refl) Hpa). exact Hs.
    + apply IH; [exact Hnd | exact Hs | exact Hp |].
      intros x Hx. apply Hall. right. exact Hx.
Qed.

(** The result of an operation of the body is defined in the region of the
    replicate, so it does not read as invariant. *)
Lemma body_result_not_invariant (c : Context) (pre post : list Operation) (rl : Layer)
    (hoisted body : list Operation) (a : Operation) (k : nat) :
  l_regions_before rl = [] ->
  NoDup (op_ids (hoisted_state c pre post rl hoisted body)) ->
  In a body ->
  ~ reads_invariant (hoisted_state c pre post rl hoisted body) (l_id rl, 0)
      (OpResult (op_id a) k).
Proof.
  intros Hregion Hnd Ha (r & Hr & Hanc).
  unfold getParentRegion in Hr.
  rewrite (lookup_unique (op_locations [] (hoisted_state c pre post rl hoisted body))
             (op_id a) (layer_region rl :: ctx_chain c)) in Hr.
  - injection Hr as <-. unfold layer_region in Hanc. rewrite Hregion in Hanc.
    cbn [length] in Hanc. unfold isProperAncestor in Hanc.
    assert (Hrefl : RegionRef_eqb (l_id rl, 0) (l_id rl, 0) = true)
      by (apply RegionRef_eqb_spec; reflexivity).
    rewrite Hrefl in Hanc. discriminate.
  - rewrite (proj1 op_locations_keys). exact Hnd.
  - apply state_op_locations. right. right. apply in_flat_map.
    exists a. split; [exact Ha | apply op_locations_self].
Qed.

(** Uses still follow definitions after the rewrite of the operands of an
    operation of the body, when the new operands are not results of the
    operations that stand after it in the body. *)
Lemma uses_follow_set_operands (c : Context) (pre before after : list Operation)
    (shape : Operation) (vs : list Value) :
  uses_follow c pre [] (before ++ shape :: after) ->
  (forall a, In a after -> uses_result_of (op_id a) (set_operands vs shape) = false) ->
  uses_follow c pre [] (before ++ set_operands vs shape :: after).
Proof.
  intros Hf Hnew B a A E. cbn [app].
  destruct (split_at_middle _ _ _ _ _ _ E)
    as [(l & -> & ->) | [(-> & -> & ->) | (l & -> & ->)]].
  - apply (Hf B a (l ++ shape :: after)). rewrite <- app_assoc. reflexivity.
  - replace (op_id (set_operands vs shape)) with (op_id shape)
      by (destruct shape; reflexivity).
    apply (Hf before shape after). reflexivity.
  - assert (H0 : existsb (uses_result_of (op_id a))
                   (met_before c pre (before ++ shape :: l)) = false).
    { apply (Hf (before ++ shape :: l) a A). rewrite <- app_assoc. reflexivity. }
    rewrite existsb_none in *. intros y Hy.
    assert (Hcase : In y (met_before c pre (before ++ shape :: l))
                    \/ y = strip (set_operands vs shape)).
    { unfold met_before in *. rewrite !flat_map_app in *. cbn [flat_map] in *.
      rewrite !walk_unfold in *.
      replace (op_regions (set_operands vs shape)) with (op_regions shape) in Hy
        by (destruct shape; reflexivity).
      clear H0 Hf Hnew E.
      rewrite !map_app in Hy |- *. cbn [app map] in Hy |- *.
      rewrite !in_app_iff in Hy |- *. cbn [In] in Hy |- *.
      rewrite !in_app_iff in Hy |- *.
      destruct Hy as [H | [H | [H | [H | [H | H]]]]]; auto 10. }
    destruct Hcase as [Hold | ->]; [exact (H0 y Hold)|].
    rewrite uses_result_of_strip. apply Hnew.
    apply in_or_app. right. left. reflexivity.
Qed.

(** The loop under the hypothesis that uses follow definitions. *)
Lemma hoist_run_follow (c : Context) (pre post : list Operation) (rl : Layer)
    (body : list Operation) :
  let ir := plug c (pre ++ fill rl body :: post) in
  NoDup (op_ids ir) ->
  l_regions_before rl = [] ->
  l_blocks_before rl = [] ->
  uses_follow c pre [] body ->
  exists moved,
    hoist_invariant_ops (l_id rl) ir
    = Some (hoisted_state c pre post rl moved
              (filter (fun a => negb (among moved a)) body))
    /\ moved = filter (among moved) body
    /\ (forall a, In a body -> (In a moved <-> among moved a = true))
    /\ forall before a after,
         body = before ++ a :: after ->
         (among moved a = true <->
          isa_DeviceReturnOp (op_kind a) = false
          /\ IsOpReplicateInvariant
               (hoisted_state c pre post rl (filter (among moved) before)
                  (filter (fun a => negb (among moved a)) before ++ a :: after))
               (l_id rl, 0) a = true).
Proof.
  intros ir Hnd Hregion Hblock Hfollow.
  assert (Hnd0 : NoDup (op_ids (hoisted_state c pre post rl [] ([] ++ body))))
    by exact Hnd.
  destruct (hoist_loop c pre post rl body [] [] Hnd0)
    as (moved & Hrun & Hmoved & Hiff).
  cbv zeta in Hrun. destruct Hrun as [_ Hrun].
  specialize (Hrun Hfollow).
  exists moved. split; [|split; [exact Hmoved|split; [|exact Hiff]]].
  - unfold hoist_invariant_ops.
    change ir with (hoisted_state c pre post rl [] body).
    rewrite (find_replicate c pre post rl [] body Hnd).
    rewrite (GetBody_fill rl Hregion Hblock body). cbn [blk_ops].
    exact Hrun.
  - intros a Ha. rewrite Hmoved at 1. rewrite filter_In. tauto.
Qed.

(** X12. [HoistReplicateInvariantOps] rewrites before it hoists, so a
    [tf.Shape] of an argument of the block of the replicate leaves the
    replicate: when the operand of the first replica is defined outside the
    replicate, the [tf.Shape], now on that operand, is among the operations
    put in front of the replicate.  The [tf.Shape] is the only one under the
    replicate. *)
Theorem shape_of_replicated_argument_is_hoisted
    (c : Context) (pre post : list Operation) (rl : Layer)
    (before after : list Operation) (shape : Operation)
    (n : Z) (i : nat) (first_replica : Value) :
  let body := before ++ shape :: after in
  let ir := plug c (pre ++ fill rl body :: post) in
  let shape' := set_operands [first_replica] shape in
  let body' := before ++ shape' :: after in
  unique_ids ir ->
  l_regions_before rl = [] ->
  l_blocks_before rl = [] ->
  l_kind rl = ReplicateOp n ->
  op_kind shape = ShapeOp ->
  op_operands shape = [BlockArgument (l_block rl) i] ->
  op_regions shape = [] ->
  (forall x, In x (walk (fill rl body)) -> isa_ShapeOp (op_kind x) = true ->
             x = shape) ->
  (0 <= n < 2147483648)%Z ->
  (n * Z.of_nat i < two32)%Z ->
  nth_error (l_operands rl) (Z.to_nat (n * Z.of_nat i)) = Some first_replica ->
  reads_invariant ir (l_id rl, 0) first_replica ->
  (forall b, In b body ->
             existsb (uses_result_of (op_id b)) (preceding (op_id b) (walk ir))
             = false) ->
  exists hoisted,
    HoistReplicateInvariantOps ir (l_id rl)
    = Some (plug c (pre ++ hoisted
                    ++ fill rl (filter (fun b => negb (among hoisted b)) body')
                    :: post))
    /\ In shape' hoisted.
Proof.
  intros body ir shape' body' Hu Hregion Hblock Hkind Hsk Hops Hsr Honly Hn Hi Hnth
    Hinv Hord.
  destruct Hu as [Hnd Hblks].
  set (c' := Under c pre rl post).
  assert (Eir : ir = plug c' (before ++ shape :: after)) by reflexivity.
  assert (Hst : ir = hoisted_state c pre post rl [] body) by reflexivity.
  (* the rewrite of the shape *)
  assert (Hrewrite :
            MakeShapeOpInvariant (l_id rl) (to_int (getLimitedValue n)) (l_block rl)
              ir (op_id shape)
            = Some (plug c' (before ++ shape' :: after))).
  { unfold MakeShapeOpInvariant. rewrite Eir at 1.
    rewrite (find_op_plug c' before after shape Hnd).
    rewrite Hops. cbn [nth_error]. rewrite Nat.eqb_refl. cbn [negb].
    unfold getOperand. rewrite Hst at 1.
    rewrite (find_replicate c pre post rl [] body Hnd).
    unfold fill at 1. cbn [op_operands].
    rewrite (@replica_operand_index_exact n i Hn Hi). rewrite Hnth.
    rewrite Eir. apply (setOperandOf_plug c' before after shape 0 first_replica).
    - exact Hnd.
    - rewrite Hops. reflexivity. }
  (* the walk over the shapes visits this one only *)
  assert (Hshapes : map op_id (filter (fun o => isa_ShapeOp (op_kind o))
                                 (walk (fill rl body)))
                    = [op_id shape]).
  { rewrite (filter_single (fun o => isa_ShapeOp (op_kind o))
               (walk (fill rl body)) shape); [reflexivity | | | |].
    - apply (NoDup_map_inv op_id).
      pose proof (Permutation_NoDup (op_ids_plug c (pre ++ fill rl body :: post)) Hnd)
        as H.
      apply NoDup_app_remove_l in H. rewrite flat_map_app, map_app in H.
      apply NoDup_app_remove_l in H. cbn [flat_map] in H. rewrite map_app in H.
      apply NoDup_app_remove_r in H. exact H.
    - rewrite walk_fill. right. rewrite !in_app_iff. right. left. right. left.
      apply in_flat_map. exists shape. split; [|apply walk_self].
      apply in_or_app. right. left. reflexivity.
    - cbn beta. rewrite Hsk. reflexivity.
    - exact Honly. }
  (* the IR after the rewrite *)
  set (ir1 := plug c (pre ++ fill rl body' :: post)).
  assert (Hnd1 : NoDup (op_ids ir1)).
  { apply (Permutation_NoDup
             (Permutation_sym (op_ids_set_operands c' before after shape [first_replica]))).
    exact Hnd. }
  assert (Hblks1 : NoDup (block_ids ir1)).
  { eapply Permutation_NoDup; [|exact Hblks].
    change ir1 with (plug c' (before ++ shape' :: after)). rewrite Eir.
    rewrite !block_ids_plug. apply Permutation_app_head.
    rewrite !flat_map_app. cbn [flat_map].
    replace (blocks_of shape') with (blocks_of shape)
      by (unfold shape'; destruct shape; reflexivity).
    reflexivity. }
  assert (Hfollow : uses_follow c pre [] body').
  { apply uses_follow_set_operands.
    - exact (@uses_follow_start c pre post rl body Hnd Hord).
    - intros a Ha. apply not_true_is_false. intros Huse.
      unfold uses_result_of in Huse. apply existsb_exists in Huse.
      destruct Huse as (v & Hv & Ev).
      replace (op_operands (set_operands [first_replica] shape))
        with [first_replica] in Hv by (destruct shape; reflexivity).
      destruct Hv as [<- | []].
      destruct first_replica as [o k|]; [|discriminate Ev].
      apply Nat.eqb_eq in Ev. subst o.
      apply (body_result_not_invariant c pre post rl [] body a k Hregion Hnd);
        [|exact Hinv].
      apply in_or_app. right. right. exact Ha. }
  destruct (hoist_run_follow c pre post rl body' Hnd1 Hregion Hblock Hfollow)
    as (moved & Hrun & Hmoved & Hin & Hiff).
  exists moved. split.
  - unfold HoistReplicateInvariantOps. rewrite Hst at 1.
    rewrite (find_replicate c pre post rl [] body Hnd).
    unfold fill at 1. cbn [op_kind]. rewrite Hkind.
    fold (fill rl body).
    rewrite (GetBody_fill rl Hregion Hblock body). cbn [blk_id].
    rewrite Hshapes. cbn [foreach]. rewrite Hrewrite. exact Hrun.
  - assert (Hs' : In shape' body')
      by (apply in_or_app; right; left; reflexivity).
    apply (Hin shape' Hs').
    apply (Hiff before shape' after eq_refl). split.
    + unfold shape'. destruct shape; cbn in *. rewrite Hsk. reflexivity.
    + apply IsOpReplicateInvariant_spec. intros x v Hx Hv.
      rewrite walk_unfold in Hx.
      replace (op_regions shape') with (@nil Region) in Hx
        by (unfold shape'; destruct shape; cbn in *; congruence).
      destruct Hx as [<- | []].
      replace (op_operands shape') with [first_replica] in Hv
        by (unfold shape'; destruct shape; reflexivity).
      destruct Hv as [<- | []].
      assert (Hu1 : unique_ids (hoisted_state c pre post rl [] (before ++ shape' :: after)))
        by (split; assumption).
      pose proof (unique_ids_turn c pre post rl (among moved) before after shape' Hu1)
        as [Ho2 Hb2].
      apply (state_reads_invariant_iff c pre post rl Hregion _ _ Ho2 Hb2).
      left.
      rewrite Hst in Hinv.
      apply (state_reads_invariant_iff c pre post rl Hregion [] body Hnd Hblks) in Hinv.
      destruct Hinv as [Hout | (h & k & [] & _)]. exact Hout.
Qed.

Lemma shape_of_replicated_argument_is_hoisted_witness :
  exists hoisted,
    HoistReplicateInvariantOps Samples.func_shape 1
    = Some (plug (AtRoot Samples.func_root)
              ([] ++ hoisted
               ++ fill Samples.replicate3_layer
                    (filter (fun b => negb (among hoisted b))
                       ([] ++ set_operands [BlockArgument 0 0] Samples.shape_of_r
                        :: [Samples.op_a; Samples.device_return]))
               :: [Samples.std_return]))
    /\ In (set_operands [BlockArgument 0 0] Samples.shape_of_r) hoisted.
Proof.
  apply (shape_of_replicated_argument_is_hoisted (AtRoot Samples.func_root) []
           [Samples.std_return] Samples.replicate3_layer []
           [Samples.op_a; Samples.device_return] Samples.shape_of_r 3 0
           (BlockArgument 0 0)).
  - split; repeat constructor; simpl; intuition congruence.
  - reflexivity.
  - reflexivity.
  - reflexivity.
  - reflexivity.
  - reflexivity.
  - reflexivity.
  - intros x Hx Hk. unfold fill in Hx. cbn in Hx.
    destruct Hx as [<- | [<- | [<- | [<- | []]]]];
      try discriminate Hk; reflexivity.
  - lia.
  - reflexivity.
  - reflexivity.
  - exists (0, 0). split; reflexivity.
  - intros b Hb. cbn in Hb. destruct Hb as [<- | [<- | [<- | []]]]; reflexivity.
Defined.

End HoistingFacts.

(** ** The walk over the [tf.Shape] operations, then the loop *)

Module HoistReplicateInvariantOpsFacts.
Import IR IRFacts ReplicateInvariantOpHoisting ReplicateInvariantOpHoistingFacts.
Import NoDanglingFacts.

#[local] Arguments fill : simpl never.
Unset Implicit Arguments.

(** *** Rewriting of operands, seen from a position *)

Lemma map_operands_fill (g : OpId -> list Value -> list Value) (l : Layer)
    (ops : list Operation) :
  map_operands g (fill l ops)
  = fill (map_operands_layer g l) (map (map_operands g) ops).
Proof.
  unfold fill, map_operands_layer. cbn [map_operands l_id l_kind l_operands
    l_results l_regions_before l_blocks_before l_block l_args l_blocks_after
    l_regions_after].
  rewrite map_app. cbn [map map_operands_region]. rewrite map_app.
  reflexivity.
Qed.

Lemma map_operands_plug (g : OpId -> list Value -> list Value) (c : Context) :
  forall ops,
    map_operands g (plug c ops)
    = plug (map_operands_ctx g c) (map (map_operands g) ops).
Proof.
  induction c as [l | c IH before l after]; intros ops;
    cbn [plug map_operands_ctx].
  - apply map_operands_fill.
  - rewrite IH, map_app. cbn [map]. rewrite map_operands_fill. reflexivity.
Qed.

Lemma flat_map_walk_map_operands (g : OpId -> list Value -> list Value)
    (ops : list Operation) :
  flat_map walk (map (map_operands g) ops)
  = map (map_operands g) (flat_map walk ops).
Proof.
  induction ops as [|x ops IH]; cbn [map flat_map]; [reflexivity|].
  rewrite map_app, IH. f_equal. apply walk_map_operands.
Qed.

(** *** Operations under a block *)

Lemma plug_inner (outer : Context) (h : Inner) (ops : list Operation) :
  plug (inner_ctx outer h) ops = plug outer (inner_ops h ops).
Proof.
  destruct h as [|before c after]; cbn [inner_ctx inner_ops]; [reflexivity|].
  apply plug_ctx_under.
Qed.

Lemma locate_under (body : list Operation) (o : Operation) :
  In o (flat_map walk body) ->
  exists h ps qs, body = inner_ops h (ps ++ o :: qs).
Proof.
  intros Hin.
  destruct (locate_in_ops body o) as (before & x & after & E & Hx);
    [apply Forall_forall; intros x _; apply locate | exact Hin |].
  destruct Hx as [-> | (c & pre & post & ->)].
  - exists Here, before, after. exact E.
  - exists (Below before c after), pre, post. exact E.
Qed.

(** *** The order of the walk, apart from what the operations hold *)

Lemma preceding_map (h : Operation -> Operation) (t : OpId) (l : list Operation) :
  (forall x, op_id (h x) = op_id x) ->
  preceding t (map h l) = map h (preceding t l).
Proof.
  intros Hid. induction l as [|x l IH]; cbn [map preceding]; [reflexivity|].
  rewrite Hid. destruct (Nat.eqb (op_id x) t); [reflexivity|].
  cbn [map]. f_equal. exact IH.
Qed.

Lemma order_nodes (ir : Operation) (t : OpId) :
  existsb (uses_result_of t) (preceding t (walk ir))
  = existsb (uses_result_of t) (preceding t (nodes ir)).
Proof.
  unfold nodes. rewrite (preceding_map strip) by (intros x; reflexivity).
  symmetry. apply existsb_strip.
Qed.

Lemma uses_result_of_false (op : OpId) (x : Operation) :
  uses_result_of op x = false <->
  forall k, ~ In (OpResult op k) (op_operands x).
Proof.
  unfold uses_result_of. rewrite existsb_none. split.
  - intros H k Hin. specialize (H _ Hin). cbn in H.
    rewrite Nat.eqb_refl in H. discriminate.
  - intros H v Hin. destruct v as [o k|b k]; [|reflexivity].
    destruct (Nat.eqb_spec o op) as [->|_]; [|reflexivity].
    exfalso. exact (H k Hin).
Qed.

(** *** What the verifier grants is kept *)

Lemma forallb_map_same {A : Type} (f : A -> bool) (h : A -> A) (l : list A) :
  (forall x, f (h x) = f x) -> forallb f (map h l) = forallb f l.
Proof.
  intros H. induction l as [|x l IH]; cbn [map forallb]; [reflexivity|].
  rewrite H, IH. reflexivity.
Qed.

Lemma op_verified_map_operands (g : OpId -> list Value -> list Value) (x : Operation) :
  (forall i vs, length (g i vs) = length vs) ->
  op_verified (map_operands g x) = op_verified x.
Proof.
  intros Hlen. destruct x as [i k vs ts rs]. unfold op_verified.
  cbn [map_operands op_kind op_operands op_results op_regions].
  rewrite Hlen, length_map. reflexivity.
Qed.

Lemma verified_map_operands (g : OpId -> list Value -> list Value) (ir : Operation) :
  (forall i vs, length (g i vs) = length vs) ->
  verified (map_operands g ir) = verified ir.
Proof.
  intros Hlen. unfold verified. rewrite (proj1 (walk_map_operands g)).
  apply forallb_map_same. intros x. apply op_verified_map_operands. exact Hlen.
Qed.

Lemma op_verified_fill (l : Layer) (ops ops' : list Operation) :
  op_verified (fill l ops) = op_verified (fill l ops').
Proof.
  unfold op_verified, fill. cbn [op_kind op_operands op_results op_regions].
  rewrite !length_app. reflexivity.
Qed.

Lemma verified_ctx_walk_before (c : Context) (ops ops' : list Operation) :
  forallb op_verified (ctx_walk_before c ops)
  = forallb op_verified (ctx_walk_before c ops').
Proof.
  revert ops ops'. induction c as [l | c IH before l after]; intros ops ops';
    cbn [ctx_walk_before]; unfold layer_walk_before.
  - cbn [forallb]. rewrite (op_verified_fill l ops ops'). reflexivity.
  - rewrite !forallb_app. cbn [forallb].
    rewrite (op_verified_fill l ops ops').
    rewrite (IH _ (before ++ fill l ops' :: after)). reflexivity.
Qed.

Lemma verified_plug (c : Context) (ops : list Operation) :
  verified (plug c ops)
  = forallb op_verified (ctx_walk_before c [])
    && forallb op_verified (flat_map walk ops)
    && forallb op_verified (ctx_walk_after c).
Proof.
  unfold verified. rewrite walk_plug_around, !forallb_app.
  rewrite (verified_ctx_walk_before c ops []). apply andb_assoc.
Qed.

Lemma walk_leaf (o : Operation) : op_regions o = [] -> walk o = [o].
Proof. intros H. rewrite walk_unfold, H. reflexivity. Qed.

Lemma verified_swap (c : Context) (ps qs : list Operation) (o o' : Operation) :
  verified (plug c (ps ++ o :: qs)) = true ->
  op_verified o' = true -> op_regions o' = [] ->
  verified (plug c (ps ++ o' :: qs)) = true.
Proof.
  rewrite !verified_plug, !flat_map_app. cbn [flat_map].
  rewrite !forallb_app. intros H Ho' Hleaf.
  rewrite (walk_leaf o' Hleaf). cbn [forallb]. rewrite Ho'.
  apply andb_prop in H. destruct H as [H H3].
  apply andb_prop in H. destruct H as [H1 H].
  apply andb_prop in H. destruct H as [H2 H].
  apply andb_prop in H. destruct H as [_ H4].
  rewrite H1, H2, H3, H4. reflexivity.
Qed.

Lemma verified_op (ir x : Operation) :
  verified ir = true -> In x (walk ir) -> op_verified x = true.
Proof.
  unfold verified. rewrite forallb_forall. intros H Hin. exact (H x Hin).
Qed.

Lemma length_one {A : Type} (l : list A) : length l = 1 -> exists a, l = [a].
Proof.
  destruct l as [|a [|b l]]; try discriminate. intros _. exists a. reflexivity.
Qed.

Lemma verified_shape (x : Operation) :
  op_verified x = true -> op_kind x = ShapeOp ->
  (exists v, op_operands x = [v]) /\ (exists ty, op_results x = [ty])
  /\ op_regions x = [].
Proof.
  unfold op_verified. intros H Hk. rewrite Hk in H.
  apply andb_prop in H. destruct H as [H H3].
  apply andb_prop in H. destruct H as [H1 H2].
  apply Nat.eqb_eq in H1, H2, H3.
  split; [apply length_one; exact H1|].
  split; [apply length_one; exact H2|].
  destruct (op_regions x); [reflexivity | discriminate].
Qed.

Lemma verified_read (x : Operation) :
  op_verified x = true -> op_kind x = ReadVariableOp ->
  exists v, op_operands x = [v].
Proof.
  unfold op_verified. intros H Hk. rewrite Hk in H.
  apply Nat.eqb_eq in H. apply length_one. exact H.
Qed.

(** *** One operation of a block put in the place of another *)

Lemma op_ids_leaf (o : Operation) : op_regions o = [] -> op_ids o = [op_id o].
Proof. intros H. unfold op_ids. rewrite (walk_leaf o H). reflexivity. Qed.

Lemma block_ids_leaf (o : Operation) : op_regions o = [] -> block_ids o = [].
Proof. intros H. unfold block_ids. destruct o. cbn in *. subst. reflexivity. Qed.

Lemma unique_ids_swap (c : Context) (ps qs : list Operation) (o o' : Operation) :
  unique_ids (plug c (ps ++ o :: qs)) ->
  op_regions o = [] -> op_regions o' = [] ->
  op_id o' = op_id o \/ ~ In (op_id o') (op_ids (plug c (ps ++ o :: qs))) ->
  unique_ids (plug c (ps ++ o' :: qs)).
Proof.
  intros [Hops Hblks] Ho Ho' Hid. split.
  - eapply Permutation_NoDup;
      [apply Permutation_sym; apply op_ids_plug_insert|].
    apply (Permutation_NoDup (op_ids_plug_insert c ps qs o)) in Hops.
    rewrite (op_ids_leaf o Ho) in Hops. rewrite (op_ids_leaf o' Ho').
    cbn [app] in *. apply NoDup_cons_iff in Hops. destruct Hops as [Hn Hnd].
    constructor; [|exact Hnd].
    destruct Hid as [-> | Hfresh]; [exact Hn|].
    intros Hin. apply Hfresh.
    apply (Permutation_in _ (Permutation_sym (op_ids_plug_insert c ps qs o))).
    apply in_or_app. right. exact Hin.
  - eapply Permutation_NoDup;
      [apply Permutation_sym; apply block_ids_plug_insert|].
    apply (Permutation_NoDup (block_ids_plug_insert c ps qs o)) in Hblks.
    rewrite (block_ids_leaf o Ho) in Hblks. rewrite (block_ids_leaf o' Ho').
    exact Hblks.
Qed.

Lemma inner_ops_related (R : Operation -> Operation -> Prop) (h : Inner)
    (ps qs : list Operation) (o o' : Operation) :
  (forall x, R x x) ->
  (forall c ops ops', R (plug c ops) (plug c ops')) ->
  R o o' ->
  Forall2 R (inner_ops h (ps ++ o :: qs)) (inner_ops h (ps ++ o' :: qs)).
Proof.
  intros Hrefl Hplug Ho.
  assert (Hsame : forall l, Forall2 R l l)
    by (induction l; constructor; auto).
  destruct h as [|before c after]; cbn [inner_ops].
  - apply Forall2_app; [apply Hsame|]. constructor; [exact Ho | apply Hsame].
  - apply Forall2_app; [apply Hsame|]. constructor; [apply Hplug | apply Hsame].
Qed.

Lemma shape_replaced_refl (x : Operation) : shape_replaced x x.
Proof. left. split; reflexivity. Qed.

Lemma shape_replaced_plug (c : Context) (ops ops' : list Operation) :
  shape_replaced (plug c ops) (plug c ops').
Proof. left. destruct (op_id_plug c ops' ops) as [H1 H2]. split; assumption. Qed.

Lemma under_swap (h : Inner) (ps qs : list Operation) (o o' x : Operation) :
  In x (flat_map walk (inner_ops h (ps ++ o :: qs))) ->
  op_regions o = [] -> op_id x <> op_id o ->
  exists x', In x' (flat_map walk (inner_ops h (ps ++ o' :: qs)))
             /\ op_id x' = op_id x /\ op_kind x' = op_kind x.
Proof.
  intros Hin Ho Hid.
  assert (Hhole : forall y, In y (flat_map walk (ps ++ o :: qs)) ->
            op_id y = op_id x -> In y (flat_map walk (ps ++ o' :: qs))).
  { intros y Hy Ey. rewrite flat_map_app in *. cbn [flat_map] in *.
    rewrite (walk_leaf o Ho) in Hy. rewrite !in_app_iff in *. cbn [In app] in Hy.
    destruct Hy as [Hy | [[<- | []] | Hy]]; [tauto | congruence | tauto]. }
  destruct h as [|before c after]; cbn [inner_ops] in *.
  - exists x. split; [apply Hhole; [exact Hin | reflexivity] | split; reflexivity].
  - rewrite flat_map_app in Hin. cbn [flat_map] in Hin.
    rewrite !in_app_iff in Hin.
    assert (Hgoal : forall x',
              In x' (flat_map walk before)
              \/ In x' (walk (plug c (ps ++ o' :: qs)))
              \/ In x' (flat_map walk after) ->
              In x' (flat_map walk (before ++ plug c (ps ++ o' :: qs) :: after))).
    { intros x' H. rewrite flat_map_app. cbn [flat_map].
      rewrite !in_app_iff. exact H. }
    destruct Hin as [Hin | [Hin | Hin]];
      [exists x; split; [apply Hgoal; tauto | tauto] |
      | exists x; split; [apply Hgoal; tauto | tauto]].
    assert (Hn : In (strip x) (nodes (plug c (ps ++ o :: qs))))
      by (apply in_map; exact Hin).
    apply (Permutation_in _ (nodes_plug c _)) in Hn. apply in_app_or in Hn.
    destruct Hn as [Hn | Hn].
    + assert (Hn' : In (strip x) (nodes (plug c (ps ++ o' :: qs)))).
      { apply (Permutation_in _ (Permutation_sym (nodes_plug c _))).
        apply in_or_app. left. exact Hn. }
      apply in_nodes_walk in Hn'. destruct Hn' as (x' & Hx' & E).
      exists x'. split; [apply Hgoal; tauto|].
      split; [exact (f_equal op_id E) | exact (f_equal op_kind E)].
    + apply in_map_iff in Hn. destruct Hn as (y & E & Hy).
      exists y. split.
      * apply Hgoal. right. left. apply walk_plug_in. apply Hhole; [exact Hy|].
        exact (f_equal op_id E).
      * split; [exact (f_equal op_id E) | exact (f_equal op_kind E)].
Qed.

Lemma NoDup_map_inj {A B : Type} (f : A -> B) (l : list A) (x y : A) :
  NoDup (map f l) -> In x l -> In y l -> f x = f y -> x = y.
Proof.
  induction l as [|a l IH]; cbn [map]; intros Hnd Hx Hy E; [contradiction|].
  apply NoDup_cons_iff in Hnd. destruct Hnd as [Ha Hnd].
  destruct Hx as [-> | Hx], Hy as [-> | Hy].
  - reflexivity.
  - exfalso. apply Ha. rewrite E. apply in_map. exact Hy.
  - exfalso. apply Ha. rewrite <- E. apply in_map. exact Hx.
  - apply IH; assumption.
Qed.

Lemma NoDup_map_mid {A B : Type} (f : A -> B) (ps qs : list A) (o a : A) :
  NoDup (map f (ps ++ o :: qs)) -> In a (ps ++ qs) -> f a <> f o.
Proof.
  rewrite map_app. cbn [map]. intros Hnd Ha E.
  apply NoDup_remove_2 in Hnd. apply Hnd. rewrite <- E, <- map_app.
  apply in_map. exact Ha.
Qed.

(** The operations of a block after one of the operations under it is
    replaced: they are the operations it held, by identity and kind, apart
    from the operation replaced when it stood in the block itself. *)
Lemma inner_direct (h : Inner) (ps qs : list Operation) (o o' a' : Operation) :
  NoDup (map op_id (flat_map walk (inner_ops h (ps ++ o :: qs)))) ->
  In a' (inner_ops h (ps ++ o' :: qs)) ->
  (a' = o' /\ In o (inner_ops h (ps ++ o :: qs)))
  \/ exists a, In a (inner_ops h (ps ++ o :: qs))
               /\ op_id a = op_id a' /\ op_kind a = op_kind a'
               /\ op_id a <> op_id o.
Proof.
  intros Hnd Hin. destruct h as [|before c after]; cbn [inner_ops] in *.
  - apply NoDup_direct_ids in Hnd.
    apply in_app_or in Hin. destruct Hin as [Hin | [<- | Hin]].
    + right. exists a'. split; [apply in_or_app; tauto|].
      split; [reflexivity|]. split; [reflexivity|].
      apply (NoDup_map_mid op_id ps qs o a' Hnd). apply in_or_app. tauto.
    + left. split; [reflexivity|]. apply in_or_app. right. left. reflexivity.
    + right. exists a'. split; [apply in_or_app; right; right; exact Hin|].
      split; [reflexivity|]. split; [reflexivity|].
      apply (NoDup_map_mid op_id ps qs o a' Hnd). apply in_or_app. tauto.
  - rewrite flat_map_app in Hnd. cbn [flat_map] in Hnd.
    rewrite !map_app in Hnd.
    assert (Ho : In (op_id o) (map op_id (walk (plug c (ps ++ o :: qs))))).
    { apply in_map. apply walk_plug_in. rewrite flat_map_app. cbn [flat_map].
      apply in_or_app. right. apply in_or_app. left. apply walk_self. }
    apply in_app_or in Hin. destruct Hin as [Hin | [<- | Hin]].
    + right. exists a'. split; [apply in_or_app; tauto|].
      split; [reflexivity|]. split; [reflexivity|]. intros E.
      apply (NoDup_app_not_in _ _ (op_id a') Hnd).
      * apply in_map. apply in_flat_map. exists a'. split; [exact Hin | apply walk_self].
      * apply in_or_app. left. rewrite E. exact Ho.
    + right. exists (plug c (ps ++ o :: qs)).
      split; [apply in_or_app; right; left; reflexivity|].
      destruct (op_id_plug c (ps ++ o :: qs) (ps ++ o' :: qs)) as [E1 E2].
      split; [exact E1|]. split; [exact E2|]. intros E.
      apply NoDup_app_remove_l, NoDup_app_remove_r in Hnd.
      apply (NoDup_plug_focus c ps qs o Hnd). apply in_or_app. left.
      rewrite <- E. apply root_in_ctx.
    + right. exists a'. split; [apply in_or_app; right; right; exact Hin|].
      split; [reflexivity|]. split; [reflexivity|]. intros E.
      apply NoDup_app_remove_l in Hnd.
      apply (NoDup_app_not_in _ _ (op_id o) Hnd); [exact Ho|].
      rewrite <- E. apply in_map. apply in_flat_map.
      exists a'. split; [exact Hin | apply walk_self].
Qed.

(** The operations of the IR in the order of the walk, around an operation
    that holds no region. *)
Lemma nodes_plug_leaf (c : Context) (ps qs : list Operation) (o : Operation) :
  op_regions o = [] ->
  nodes (plug c (ps ++ o :: qs))
  = (map strip (ctx_walk_before c []) ++ map strip (flat_map walk ps))
    ++ strip o :: (map strip (flat_map walk qs) ++ map strip (ctx_walk_after c)).
Proof.
  intros Ho. unfold nodes. rewrite walk_plug_around, flat_map_app.
  cbn [flat_map]. rewrite (walk_leaf o Ho). rewrite !map_app.
  rewrite (strip_ctx_walk_before c _ []). cbn [map app].
  rewrite <- !app_assoc. reflexivity.
Qed.

Lemma preceding_swap (t : OpId) (X Y : list Operation) (a b : Operation) :
  op_id a <> t -> op_id b <> t ->
  forall y, In y (preceding t (X ++ b :: Y)) ->
            y = b \/ In y (preceding t (X ++ a :: Y)).
Proof.
  intros Ha Hb. induction X as [|x X IH]; cbn [app preceding]; intros y Hy.
  - destruct (Nat.eqb_spec (op_id b) t) as [E|_]; [contradiction|].
    destruct (Nat.eqb_spec (op_id a) t) as [E|_]; [contradiction|].
    destruct Hy as [<- | Hy]; [left; reflexivity | right; right; exact Hy].
  - destruct (Nat.eqb (op_id x) t); [contradiction|].
    destruct Hy as [<- | Hy]; [right; left; reflexivity|].
    destruct (IH y Hy) as [-> | H]; [left; reflexivity | right; right; exact H].
Qed.

Lemma preceding_at (X Y : list Operation) (b : Operation) :
  ~ In (op_id b) (map op_id X) -> preceding (op_id b) (X ++ b :: Y) = X.
Proof.
  induction X as [|x X IH]; cbn [app map preceding In]; intros Hn.
  - rewrite Nat.eqb_refl. reflexivity.
  - destruct (Nat.eqb_spec (op_id x) (op_id b)) as [E|_]; [tauto|].
    f_equal. apply IH. tauto.
Qed.

(** *** The operand of the first replica *)

Lemma replicate_state (c : Context) (pre post : list Operation) (rl : Layer)
    (h : Inner) (ops : list Operation) :
  plug c (pre ++ fill rl (inner_ops h ops) :: post)
  = plug (inner_ctx (Under c pre rl post) h) ops.
Proof. rewrite plug_inner. reflexivity. Qed.

Lemma find_replicate_op (c : Context) (pre post : list Operation) (rl : Layer)
    (body : list Operation) :
  NoDup (op_ids (plug c (pre ++ fill rl body :: post))) ->
  find_op (plug c (pre ++ fill rl body :: post)) (l_id rl) = Some (fill rl body).
Proof. intros Hnd. exact (find_op_plug c pre post (fill rl body) Hnd). Qed.

Lemma block_arg_bound (c : Context) (pre post : list Operation) (rl : Layer)
    (body : list Operation) (i : nat) :
  NoDup (block_ids (plug c (pre ++ fill rl body :: post))) ->
  live (plug c (pre ++ fill rl body :: post)) (BlockArgument (l_block rl) i) = true ->
  i < length (l_args rl).
Proof.
  intros Hnd Hlive. unfold live, live_in in Hlive.
  assert (Hd : existsb (defines (BlockArgument (l_block rl) i))
                 (nodes (plug c (pre ++ fill rl body :: post))) = false)
    by (apply existsb_none; intros x _; reflexivity).
  rewrite Hd in Hlive. cbn [orb] in Hlive.
  apply existsb_exists in Hlive. destruct Hlive as (hd & Hhd & Hb).
  unfold block_heads in Hhd. apply in_map_iff in Hhd.
  destruct Hhd as (b & <- & Hin). cbn in Hb.
  apply andb_prop in Hb. destruct Hb as [Hid Hlt].
  apply Nat.eqb_eq in Hid. apply Nat.ltb_lt in Hlt.
  assert (Hrep : In (mkBlock (l_block rl) (l_args rl) body)
                   (blocks_of (plug c (pre ++ fill rl body :: post)))).
  { apply blocks_of_plug_in. rewrite flat_map_app. cbn [flat_map].
    apply in_or_app. right. apply in_or_app. left.
    rewrite blocks_of_fill. apply in_or_app. right. apply in_or_app. left.
    apply in_or_app. right. apply in_or_app. left. left. reflexivity. }
  assert (E : b = mkBlock (l_block rl) (l_args rl) body)
    by (apply (NoDup_map_inj blk_id _ _ _ Hnd Hin Hrep); exact Hid).
  rewrite E in Hlt. exact Hlt.
Qed.

Lemma first_replica_found (n : Z) (c : Context) (pre post : list Operation)
    (rl : Layer) (body : list Operation) (i : nat) :
  let ir := plug c (pre ++ fill rl body :: post) in
  well_formed n c pre post rl body ->
  live ir (BlockArgument (l_block rl) i) = true ->
  (0 <= n < 2147483648)%Z /\ (n * Z.of_nat i < two32)%Z
  /\ exists v,
       nth_error (l_operands rl) (Z.to_nat (n * Z.of_nat i)) = Some v
       /\ getOperand ir (l_id rl)
            (replica_operand_index (to_int (getLimitedValue n)) i) = Some v.
Proof.
  intros ir ([Hops Hblks] & _ & _ & Hrep & _) Hlive.
  destruct Hrep as (_ & _ & _ & _ & _ & Hn & Hlen & H32).
  pose proof (block_arg_bound c pre post rl body i Hblks Hlive) as Hi.
  assert (Hidx : (n * Z.of_nat i < Z.of_nat (length (l_operands rl)))%Z).
  { rewrite Hlen, Nat2Z.inj_mul, Z2Nat.id by lia. nia. }
  split; [lia|]. split; [lia|].
  destruct (nth_error (l_operands rl) (Z.to_nat (n * Z.of_nat i))) as [v|] eqn:Env.
  - exists v. split; [reflexivity|]. unfold getOperand, ir.
    rewrite (find_replicate_op c pre post rl body Hops).
    rewrite replica_operand_index_exact by lia. exact Env.
  - exfalso. apply nth_error_None in Env. lia.
Qed.

(** An operand of the replicate is not a result of an operation of its body. *)
Lemma replicate_operand_outside (n : Z) (c : Context) (pre post : list Operation)
    (rl : Layer) (body : list Operation) (a : Operation) (v : Value) :
  well_formed n c pre post rl body ->
  In a body -> In v (l_operands rl) -> forall k, v <> OpResult (op_id a) k.
Proof.
  intros ([Hops _] & _ & _ & _ & _ & Hord) Ha Hv k ->.
  specialize (Hord a Ha).
  apply in_split in Ha. destruct Ha as (B & A & ->).
  change (plug c (pre ++ fill rl (B ++ a :: A) :: post))
    with (plug (Under c pre rl post) (B ++ a :: A)) in Hord, Hops.
  rewrite (preceding_plug (Under c pre rl post) B A a Hops) in Hord.
  rewrite existsb_none in Hord.
  assert (Hin : In (fill rl (B ++ a :: A))
                  (ctx_walk_before (Under c pre rl post) (B ++ a :: A)
                   ++ flat_map walk B)).
  { cbn [ctx_walk_before]. unfold layer_walk_before.
    apply in_or_app. left. apply in_or_app. right. apply in_or_app. right.
    left. reflexivity. }
  apply Hord in Hin. rewrite uses_result_of_false in Hin.
  exact (Hin k Hv).
Qed.

(** *** What a rewriting of one [tf.Shape] keeps *)

Lemma terminators_related (body body' : list Operation) :
  Forall2 shape_replaced body body' ->
  (forall a, In a body -> isTerminator (op_kind a) = true ->
             op_kind a = DeviceReturnOp) ->
  forall a', In a' body' -> isTerminator (op_kind a') = true ->
             op_kind a' = DeviceReturnOp.
Proof.
  induction 1 as [|x x' body body' HR _ IH]; intros Hterm a' Hin Ht;
    [contradiction|].
  destruct Hin as [<- | Hin].
  - destruct HR as [[_ Hk] | [_ Hk]]; rewrite Hk in *.
    + apply (Hterm x); [left; reflexivity | exact Ht].
    + discriminate Ht.
  - apply IH; [|exact Hin | exact Ht].
    intros a Ha. apply Hterm. right. exact Ha.
Qed.

Lemma shape_replaced_map (g : OpId -> list Value -> list Value)
    (body body' : list Operation) :
  Forall2 shape_replaced body body' ->
  Forall2 shape_replaced body (map (map_operands g) body').
Proof.
  induction 1 as [|x x' body body' HR _ IH]; cbn [map]; constructor; [|exact IH].
  unfold shape_replaced in *.
  rewrite op_id_map_operands, op_kind_map_operands. exact HR.
Qed.

Lemma shape_replaced_trans (l1 l2 l3 : list Operation) :
  Forall2 shape_replaced l1 l2 -> Forall2 shape_replaced l2 l3 ->
  Forall2 shape_replaced l1 l3.
Proof.
  intros H12. revert l3.
  induction H12 as [|x y l1 l2 HR _ IH]; intros l3 H23; inversion H23; subst;
    constructor; [|apply IH; assumption].
  match goal with H : shape_replaced y _ |- _ => destruct H as [[E1 E2] | [E1 E2]] end;
    destruct HR as [[F1 F2] | [F1 F2]].
  - left. split; congruence.
  - right. split; congruence.
  - right. split; congruence.
  - congruence.
Qed.

Lemma body_NoDup (c : Context) (pre post : list Operation) (rl : Layer)
    (body : list Operation) :
  NoDup (op_ids (plug c (pre ++ fill rl body :: post))) ->
  NoDup (map op_id (flat_map walk body)).
Proof.
  intros Hnd.
  apply (Permutation_NoDup (op_ids_plug (Under c pre rl post) body)) in Hnd.
  apply NoDup_app_remove_l in Hnd. exact Hnd.
Qed.

Lemma put_operand_In (s : OpId) (idx : nat) (v : Value) (i : OpId)
    (vs : list Value) (w : Value) :
  In w (put_operand s idx v i vs) -> w = v \/ In w vs.
Proof.
  unfold put_operand. destruct (Nat.eqb i s); [|tauto].
  destruct (replace_nth idx v vs) as [vs'|] eqn:E; [|tauto].
  apply (replace_nth_In idx v vs vs' w E).
Qed.

Lemma put_operand_length (s : OpId) (idx : nat) (v : Value) (i : OpId)
    (vs : list Value) :
  length (put_operand s idx v i vs) = length vs.
Proof.
  unfold put_operand. destruct (Nat.eqb i s); [|reflexivity].
  destruct (replace_nth idx v vs) as [vs'|] eqn:E; [|reflexivity].
  revert idx vs' E. induction vs as [|w vs IH]; intros idx vs' E;
    [destruct idx; discriminate|].
  destruct idx as [|idx]; cbn [replace_nth] in E.
  - injection E as <-. reflexivity.
  - destruct (replace_nth idx v vs) as [vs''|] eqn:E'; [|discriminate].
    cbn [option_map] in E. injection E as <-. cbn [length].
    f_equal. exact (IH idx vs'' E').
Qed.

(** Uses still follow definitions after an operand is set to a value that no
    operation of the body defines. *)
Lemma order_set_operand (ir : Operation) (s : OpId) (idx : nat) (v : Value)
    (t : OpId) :
  existsb (uses_result_of t) (preceding t (walk ir)) = false ->
  (forall k, v <> OpResult t k) ->
  existsb (uses_result_of t)
    (preceding t (walk (map_operands (put_operand s idx v) ir))) = false.
Proof.
  intros Hord Hv. rewrite (proj1 (walk_map_operands _)).
  rewrite preceding_map by (intros x; apply op_id_map_operands).
  rewrite existsb_none in *. intros y' Hy'. apply in_map_iff in Hy'.
  destruct Hy' as (y & <- & Hy). apply uses_result_of_false. intros k Hin.
  rewrite op_operands_map_operands in Hin. apply put_operand_In in Hin.
  destruct Hin as [E | Hin]; [exact (Hv k (eq_sym E))|].
  specialize (Hord y Hy). rewrite uses_result_of_false in Hord.
  exact (Hord k Hin).
Qed.

Lemma rebind_target (old new : OpId) (w : Value) (t k : nat) :
  replace_result old new 1 w = OpResult t k ->
  w = OpResult t k \/ (t = new /\ w = OpResult old k).
Proof.
  destruct w as [o i|b i]; cbn [replace_result]; [|discriminate].
  destruct (Nat.eqb_spec o old) as [->|_]; cbn [andb]; [|tauto].
  destruct (Nat.ltb i 1); [|tauto].
  intros E. injection E as <- <-. right. split; reflexivity.
Qed.

(** Uses still follow definitions after the uses of a [tf.Shape] are rebound
    to the operation put in its place. *)
Lemma order_replace (NX NY : list Operation) (sh nw : Operation) (v : Value) :
  let G := fun nd =>
    set_operands (rebind_uses (op_id sh) (op_id nw) 1 (op_id nd) (op_operands nd)) nd in
  op_operands nw = [v] ->
  (forall nd k, In nd NX -> ~ In (OpResult (op_id nw) k) (op_operands nd)) ->
  ~ In (op_id sh) (map op_id NX) ->
  ~ In (op_id nw) (map op_id NX) ->
  (forall t,
     t <> op_id sh -> t <> op_id nw ->
     existsb (uses_result_of t) (preceding t (NX ++ sh :: NY)) = false ->
     (forall k, v <> OpResult t k) ->
     existsb (uses_result_of t) (preceding t (map G (NX ++ nw :: NY))) = false)
  /\ (existsb (uses_result_of (op_id sh)) (preceding (op_id sh) (NX ++ sh :: NY))
      = false ->
      existsb (uses_result_of (op_id nw))
        (preceding (op_id nw) (map G (NX ++ nw :: NY))) = false).
Proof.
  intros G Hnw Hfresh Hs Hn.
  assert (HG : forall x, op_id (G x) = op_id x) by (intros x; reflexivity).
  split.
  - intros t Hts Htn Hord Hv. rewrite (preceding_map G) by exact HG.
    rewrite existsb_none in *. intros y' Hy'. apply in_map_iff in Hy'.
    destruct Hy' as (y & <- & Hy). apply uses_result_of_false. intros k Hin.
    cbn [G set_operands op_operands] in Hin. unfold rebind_uses in Hin.
    apply in_map_iff in Hin. destruct Hin as (w & Ew & Hw).
    apply rebind_target in Ew. destruct Ew as [-> | [E _]]; [|contradiction].
    apply (preceding_swap t NX NY sh nw (not_eq_sym Hts) (not_eq_sym Htn)) in Hy.
    destruct Hy as [-> | Hy].
    + rewrite Hnw in Hw. destruct Hw as [E | []]. exact (Hv k E).
    + specialize (Hord y Hy). rewrite uses_result_of_false in Hord.
      exact (Hord k Hw).
  - intros Hord. rewrite (preceding_map G) by exact HG.
    rewrite (preceding_at NX NY nw Hn).
    rewrite (preceding_at NX NY sh Hs) in Hord.
    rewrite existsb_none in *. intros y' Hy'. apply in_map_iff in Hy'.
    destruct Hy' as (y & <- & Hy). apply uses_result_of_false. intros k Hin.
    cbn [G set_operands op_operands] in Hin. unfold rebind_uses in Hin.
    apply in_map_iff in Hin. destruct Hin as (w & Ew & Hw).
    apply rebind_target in Ew. destruct Ew as [-> | [_ ->]].
    + exact (Hfresh y k Hy Hw).
    + specialize (Hord y Hy). rewrite uses_result_of_false in Hord.
      exact (Hord k Hw).
Qed.

Lemma replicate_in_walk (c : Context) (pre post : list Operation) (rl : Layer)
    (body : list Operation) :
  In (fill rl body) (walk (plug c (pre ++ fill rl body :: post))).
Proof.
  apply walk_plug_in. rewrite flat_map_app. cbn [flat_map].
  apply in_or_app. right. apply in_or_app. left. apply walk_self.
Qed.

Lemma under_in_walk (c : Context) (pre post : list Operation) (rl : Layer)
    (body : list Operation) (x : Operation) :
  In x (flat_map walk body) ->
  In x (walk (plug c (pre ++ fill rl body :: post))).
Proof.
  intros Hin. change (plug c (pre ++ fill rl body :: post))
    with (plug (Under c pre rl post) body).
  apply walk_plug_in. exact Hin.
Qed.

(** The operand of a [tf.Shape] under the replicate is set to an operand of
    the replicate (line 88). *)
Lemma step_set (n : Z) (c : Context) (pre post : list Operation) (rl : Layer)
    (h : Inner) (ps qs : list Operation) (shape : Operation) (w v : Value) :
  let body := inner_ops h (ps ++ shape :: qs) in
  let body' := inner_ops h (ps ++ set_operands [v] shape :: qs) in
  let ir := plug c (pre ++ fill rl body :: post) in
  well_formed n c pre post rl body ->
  op_kind shape = ShapeOp ->
  op_operands shape = [w] ->
  op_regions shape = [] ->
  In v (l_operands rl) ->
  setOperandOf ir (op_id shape) 0 v = Some (plug c (pre ++ fill rl body' :: post))
  /\ well_formed n c pre post rl body'.
Proof.
  intros body body' ir Hwf Hk Hops Hreg Hv.
  pose proof Hwf as ([Hnd Hblk] & Hlive & Hver & Hrep & Hterm & Hord).
  fold ir in Hnd, Hblk, Hlive, Hver, Hord.
  set (cs := inner_ctx (Under c pre rl post) h).
  assert (Eir : ir = plug cs (ps ++ shape :: qs))
    by (apply replicate_state).
  assert (Eir' : plug c (pre ++ fill rl body' :: post)
                 = plug cs (ps ++ set_operands [v] shape :: qs))
    by (apply replicate_state).
  assert (Hshape : In shape (walk ir)).
  { rewrite Eir. apply walk_plug_in. rewrite flat_map_app. cbn [flat_map].
    apply in_or_app. right. apply in_or_app. left. apply walk_self. }
  assert (Hset : setOperandOf ir (op_id shape) 0 v
                 = Some (plug c (pre ++ fill rl body' :: post))).
  { rewrite Eir', Eir.
    apply (@setOperandOf_plug cs ps qs shape 0 v [v]);
      [rewrite <- Eir; exact Hnd | rewrite Hops; reflexivity]. }
  assert (Hmap : plug c (pre ++ fill rl body' :: post)
                 = map_operands (put_operand (op_id shape) 0 v) ir).
  { pose proof Hset as H. unfold setOperandOf in H.
    rewrite (find_op_unique ir shape Hnd Hshape), Hops in H.
    cbn [length Nat.ltb Nat.leb] in H. injection H as H. symmetry. exact H. }
  assert (Hlv : live ir v = true).
  { apply (operand_live ir (fill rl body) v Hlive);
      [apply replicate_in_walk | exact Hv]. }
  split; [exact Hset|].
  unfold well_formed. cbv zeta.
  split; [|split; [|split; [|split; [|split]]]].
  - rewrite Eir'. apply (unique_ids_swap cs ps qs shape);
      [rewrite <- Eir; split; assumption | exact Hreg | exact Hreg
      | left; reflexivity].
  - exact (proj2 (proj1 (sound_setOperandOf ir _ (op_id shape) 0 v
                           (conj Hnd Hlive) Hlv Hset))).
  - rewrite Eir'. apply (verified_swap cs ps qs shape);
      [rewrite <- Eir; exact Hver | | exact Hreg].
    pose proof (verified_op ir shape Hver Hshape) as Hvs.
    unfold op_verified in *.
    cbn [set_operands op_kind op_operands op_results op_regions].
    rewrite Hk in *. rewrite Hops in Hvs. exact Hvs.
  - exact Hrep.
  - apply (terminators_related body body'); [|exact Hterm].
    apply inner_ops_related;
      [exact shape_replaced_refl | exact shape_replaced_plug
      | left; split; reflexivity].
  - intros a' Ha'. rewrite Hmap.
    assert (Ha : exists a, In a body /\ op_id a = op_id a').
    { destruct (inner_direct h ps qs shape (set_operands [v] shape) a'
                  (body_NoDup c pre post rl body Hnd) Ha')
        as [[-> Hin] | (a & Ha & Eid & _)].
      - exists shape. split; [exact Hin | reflexivity].
      - exists a. split; [exact Ha | exact Eid]. }
    destruct Ha as (a & Ha & <-).
    apply order_set_operand; [exact (Hord a Ha)|].
    exact (replicate_operand_outside n c pre post rl body a v Hwf Ha Hv).
Qed.

Lemma nodes_ids (ir : Operation) : map op_id (nodes ir) = op_ids ir.
Proof.
  unfold nodes, op_ids. rewrite map_map. apply map_ext. intros x. reflexivity.
Qed.

Lemma rebind_uses_length (old new : OpId) (k : nat) (i : OpId) (vs : list Value) :
  length (rebind_uses old new k i vs) = length vs.
Proof. unfold rebind_uses. apply length_map. Qed.

(** A [tf.Shape] of a [tf.ReadVariableOp] of a replicated argument is replaced
    (lines 104-110). *)
Lemma step_replace (n : Z) (c : Context) (pre post : list Operation) (rl : Layer)
    (h : Inner) (ps qs : list Operation) (shape read : Operation)
    (i j : nat) (v : Value) (ty : MlirType) :
  let body := inner_ops h (ps ++ shape :: qs) in
  let ir := plug c (pre ++ fill rl body :: post) in
  let new_shape_op := mkOperation (fresh_op_id ir) VariableShapeOp [v] [ty] [] in
  let g := rebind_uses (op_id shape) (fresh_op_id ir) 1 in
  let body' := map (map_operands g) (inner_ops h (ps ++ new_shape_op :: qs)) in
  let ir' :=
    plug (map_operands_ctx g c)
      (map (map_operands g) pre
       ++ fill (map_operands_layer g rl) body' :: map (map_operands g) post) in
  well_formed n c pre post rl body ->
  op_kind shape = ShapeOp ->
  op_operands shape = [OpResult (op_id read) j] ->
  op_results shape = [ty] ->
  op_regions shape = [] ->
  find_op ir (op_id read) = Some read ->
  op_kind read = ReadVariableOp ->
  op_operands read = [BlockArgument (l_block rl) i] ->
  (n * Z.of_nat i < two32)%Z ->
  nth_error (l_operands rl) (Z.to_nat (n * Z.of_nat i)) = Some v ->
  MakeShapeOpInvariant (l_id rl) (to_int (getLimitedValue n)) (l_block rl)
    ir (op_id shape) = Some ir'
  /\ well_formed n (map_operands_ctx g c) (map (map_operands g) pre)
       (map (map_operands g) post) (map_operands_layer g rl) body'.
Proof.
  intros body ir new_shape_op g body' ir' Hwf Hk Hops Hres Hreg Hread Hrk Hro
    Hi Hnth.
  pose proof Hwf as ([Hnd Hblk] & Hlive & Hver & Hrep & Hterm & Hord).
  fold ir in Hnd, Hblk, Hlive, Hver, Hord.
  set (cs := inner_ctx (Under c pre rl post) h).
  assert (Eir : ir = plug cs (ps ++ shape :: qs)) by (apply replicate_state).
  set (ir2 := plug cs (ps ++ new_shape_op :: qs)).
  assert (Eres : ir' = map_operands g ir2).
  { unfold ir', ir2, cs, body'. rewrite <- replicate_state.
    rewrite map_operands_plug, map_app. cbn [map].
    rewrite map_operands_fill. reflexivity. }
  assert (Hn : (0 <= n < 2147483648)%Z)
    by (destruct Hrep as (_ & _ & _ & _ & _ & Hn & _); lia).
  assert (Hrun : MakeShapeOpInvariant (l_id rl) (to_int (getLimitedValue n))
                   (l_block rl) ir (op_id shape) = Some ir').
  { rewrite Eres. unfold ir2, g, new_shape_op. rewrite Eir.
    apply (@MakeShapeOpInvariant_read_variable cs ps qs shape read
             (fill rl body) (mkBlock (l_block rl) (l_args rl) body) n i j v ty);
      rewrite <- ?Eir; try assumption.
    apply find_replicate_op. exact Hnd. }
  split; [exact Hrun|].
  assert (Hfresh : ~ In (fresh_op_id ir) (op_ids ir)) by apply fresh_op_id_not_in.
  assert (Hu2 : unique_ids ir2).
  { apply (unique_ids_swap cs ps qs shape);
      [rewrite <- Eir; split; assumption | exact Hreg | reflexivity|].
    right. rewrite <- Eir. exact Hfresh. }
  assert (Hv : In v (l_operands rl)) by (eapply nth_error_In; exact Hnth).
  unfold well_formed. cbv zeta. fold ir'. rewrite Eres.
  split; [|split; [|split; [|split; [|split]]]].
  - unfold unique_ids. rewrite op_ids_map_operands, block_ids_map_operands.
    exact Hu2.
  - rewrite <- Eres.
    exact (proj2 (proj1 (sound_MakeShapeOpInvariant _ _ _ ir ir' _
                           (conj Hnd Hlive) Hrun))).
  - rewrite verified_map_operands by (intros; apply rebind_uses_length).
    apply (verified_swap cs ps qs shape);
      [rewrite <- Eir; exact Hver | reflexivity | reflexivity].
  - destruct Hrep as (H1 & H2 & H3 & H4 & H5 & H6 & H7 & H8).
    unfold replicate_verified.
    cbn [map_operands_layer l_kind l_regions_before l_blocks_before
         l_blocks_after l_regions_after l_operands l_args].
    rewrite H2, H3, H4, H5. unfold g. rewrite rebind_uses_length.
    repeat split; try assumption; lia.
  - apply (terminators_related body body'); [|exact Hterm].
    apply shape_replaced_map. apply inner_ops_related;
      [exact shape_replaced_refl | exact shape_replaced_plug|].
    right. split; [exact Hk | reflexivity].
  - intros a' Ha'. unfold body' in Ha'. apply in_map_iff in Ha'.
    destruct Ha' as (a2 & <- & Ha2). rewrite op_id_map_operands.
    rewrite order_nodes, nodes_map_operands. unfold ir2.
    rewrite (nodes_plug_leaf cs ps qs new_shape_op eq_refl).
    set (NX := map strip (ctx_walk_before cs []) ++ map strip (flat_map walk ps)).
    set (NY := map strip (flat_map walk qs) ++ map strip (ctx_walk_after cs)).
    assert (EN : nodes ir = NX ++ strip shape :: NY)
      by (rewrite Eir; apply (nodes_plug_leaf cs ps qs shape Hreg)).
    assert (HNX : forall nd, In nd NX -> In nd (nodes ir))
      by (intros nd Hin; rewrite EN; apply in_or_app; left; exact Hin).
    assert (Hids : NoDup (map op_id (NX ++ strip shape :: NY)))
      by (rewrite <- EN, nodes_ids; exact Hnd).
    destruct (order_replace NX NY (strip shape) (strip new_shape_op) v)
      as [HA HB].
    + reflexivity.
    + intros nd k Hin Huse.
      pose proof (node_operand_live ir nd _ Hlive (HNX nd Hin) Huse) as Hl.
      apply live_result in Hl. destruct Hl as (o & Ho & Eo & _).
      apply Hfresh. change (op_id (strip new_shape_op)) with (fresh_op_id ir) in Eo.
      rewrite <- Eo. apply in_map. exact Ho.
    + rewrite map_app in Hids. cbn [map] in Hids.
      apply NoDup_remove_2 in Hids. intros Hin. apply Hids.
      apply in_or_app. left. exact Hin.
    + intros Hin. apply Hfresh. rewrite <- nodes_ids.
      apply in_map_iff in Hin. destruct Hin as (nd & E & Hin).
      change (op_id (strip new_shape_op)) with (fresh_op_id ir) in E.
      rewrite <- E. apply in_map. apply HNX. exact Hin.
    + destruct (inner_direct h ps qs shape new_shape_op a2
                  (body_NoDup c pre post rl body Hnd) Ha2)
        as [[-> Hin] | (a & Ha & Eid & _ & Hne)].
      * apply HB. rewrite <- EN.
        change (op_id (strip shape)) with (op_id shape).
        rewrite <- order_nodes. exact (Hord shape Hin).
      * rewrite <- Eid. apply HA.
        -- exact Hne.
        -- intros E. apply Hfresh.
           change (op_id (strip new_shape_op)) with (fresh_op_id ir) in E.
           rewrite <- E. apply in_map.
           apply under_in_walk. apply in_flat_map.
           exists a. split; [exact Ha | apply walk_self].
        -- rewrite <- EN, <- order_nodes. exact (Hord a Ha).
        -- exact (replicate_operand_outside n c pre post rl body a v Hwf Ha Hv).
Qed.

Lemma shape_replaced_same (l : list Operation) : Forall2 shape_replaced l l.
Proof. induction l; constructor; [apply shape_replaced_refl | assumption]. Qed.

(** *** One call of [MakeShapeOpInvariant]

    On a [tf.Shape] under the replicate of a well-formed IR the call returns,
    and the IR it leaves is well formed, with the replicate at a position of
    the same shape. *)
Lemma shape_step (n : Z) (c : Context) (pre post : list Operation) (rl : Layer)
    (body : list Operation) (shape : Operation) :
  let ir := plug c (pre ++ fill rl body :: post) in
  well_formed n c pre post rl body ->
  In shape (flat_map walk body) ->
  op_kind shape = ShapeOp ->
  exists c' pre' post' rl' body',
    MakeShapeOpInvariant (l_id rl) (to_int (getLimitedValue n)) (l_block rl)
      ir (op_id shape)
    = Some (plug c' (pre' ++ fill rl' body' :: post'))
    /\ well_formed n c' pre' post' rl' body'
    /\ l_id rl' = l_id rl /\ l_block rl' = l_block rl
    /\ Forall2 shape_replaced body body'
    /\ (forall x, In x (flat_map walk body) -> op_id x <> op_id shape ->
          exists x', In x' (flat_map walk body')
                     /\ op_id x' = op_id x /\ op_kind x' = op_kind x).
Proof.
  intros ir Hwf Hin Hk.
  pose proof Hwf as ([Hnd Hblk] & Hlive & Hver & Hrep & Hterm & Hord).
  fold ir in Hnd, Hblk, Hlive, Hver, Hord.
  assert (Hshape : In shape (walk ir)) by (apply under_in_walk; exact Hin).
  assert (Hfind : find_op ir (op_id shape) = Some shape)
    by (apply find_op_unique; assumption).
  destruct (verified_shape shape (verified_op ir shape Hver Hshape) Hk)
    as ((w & Hops) & (ty & Hres) & Hreg).
  assert (Hkeep :
    MakeShapeOpInvariant (l_id rl) (to_int (getLimitedValue n)) (l_block rl)
      ir (op_id shape) = Some ir ->
    exists c' pre' post' rl' body',
      MakeShapeOpInvariant (l_id rl) (to_int (getLimitedValue n)) (l_block rl)
        ir (op_id shape)
      = Some (plug c' (pre' ++ fill rl' body' :: post'))
      /\ well_formed n c' pre' post' rl' body'
      /\ l_id rl' = l_id rl /\ l_block rl' = l_block rl
      /\ Forall2 shape_replaced body body'
      /\ (forall x, In x (flat_map walk body) -> op_id x <> op_id shape ->
            exists x', In x' (flat_map walk body')
                       /\ op_id x' = op_id x /\ op_kind x' = op_kind x)).
  { intros H. exists c, pre, post, rl, body.
    split; [exact H|]. split; [exact Hwf|].
    split; [reflexivity|]. split; [reflexivity|].
    split; [apply shape_replaced_same|].
    intros x Hx _. exists x. auto. }
  destruct (locate_under body shape Hin) as (h & ps & qs & Ebody).
  destruct w as [d j | owner i].
  - (* the operand is a result *)
    pose proof (operand_live ir shape (OpResult d j) Hlive Hshape) as Hl.
    rewrite Hops in Hl. specialize (Hl (or_introl eq_refl)).
    apply live_result in Hl. destruct Hl as (read & Hread & <- & _).
    pose proof (find_op_unique ir read Hnd Hread) as Hfr.
    destruct (isa_ReadVariableOp (op_kind read)) eqn:Hrv.
    2:{ apply Hkeep. unfold MakeShapeOpInvariant.
        rewrite Hfind, Hops. cbn [nth_error]. rewrite Hfr, Hrv. reflexivity. }
    assert (Hrk : op_kind read = ReadVariableOp)
      by (destruct (op_kind read); try discriminate Hrv; reflexivity).
    destruct (verified_read read (verified_op ir read Hver Hread) Hrk)
      as (w' & Hro).
    destruct w' as [d' j' | owner i].
    { apply Hkeep. unfold MakeShapeOpInvariant.
      rewrite Hfind, Hops. cbn [nth_error]. rewrite Hfr, Hrv, Hro. reflexivity. }
    destruct (Nat.eqb_spec owner (l_block rl)) as [-> | Hne].
    2:{ apply Hkeep. unfold MakeShapeOpInvariant.
        rewrite Hfind, Hops. cbn [nth_error]. rewrite Hfr, Hrv, Hro.
        cbn [nth_error negb]. apply Nat.eqb_neq in Hne. rewrite Hne. reflexivity. }
    assert (Hla : live ir (BlockArgument (l_block rl) i) = true).
    { apply (operand_live ir read _ Hlive Hread). rewrite Hro. left. reflexivity. }
    destruct (first_replica_found n c pre post rl body i Hwf Hla)
      as (_ & Hi & v & Hnth & _).
    revert Hwf Hfr. unfold ir. rewrite Ebody. intros Hwf Hfr.
    destruct (step_replace n c pre post rl h ps qs shape read i j v ty
                Hwf Hk Hops Hres Hreg Hfr Hrk Hro Hi Hnth) as [Hrun Hwf'].
    cbv zeta in Hrun, Hwf'.
    eexists _, _, _, _, _. split; [exact Hrun|]. split; [exact Hwf'|].
    split; [reflexivity|]. split; [reflexivity|]. split.
    + apply shape_replaced_map. apply inner_ops_related;
        [exact shape_replaced_refl | exact shape_replaced_plug|].
      right. split; [exact Hk | reflexivity].
    + intros x Hx Hid.
      destruct (under_swap h ps qs shape
                  (mkOperation
                     (fresh_op_id
                        (plug c (pre ++ fill rl (inner_ops h (ps ++ shape :: qs))
                                 :: post)))
                     VariableShapeOp [v] [ty] []) x Hx Hreg Hid)
        as (x2 & Hx2 & E1 & E2).
      eexists (map_operands _ x2). split.
      * rewrite flat_map_walk_map_operands. apply in_map. exact Hx2.
      * rewrite op_id_map_operands, op_kind_map_operands. tauto.
  - (* the operand is a block argument *)
    destruct (Nat.eqb_spec owner (l_block rl)) as [-> | Hne].
    2:{ apply Hkeep. unfold MakeShapeOpInvariant.
        rewrite Hfind, Hops. cbn [nth_error negb].
        apply Nat.eqb_neq in Hne. rewrite Hne. reflexivity. }
    assert (Hla : live ir (BlockArgument (l_block rl) i) = true).
    { apply (operand_live ir shape _ Hlive Hshape). rewrite Hops. left. reflexivity. }
    destruct (first_replica_found n c pre post rl body i Hwf Hla)
      as (_ & _ & v & Hnth & Hget).
    assert (Hv : In v (l_operands rl)) by (eapply nth_error_In; exact Hnth).
    assert (Hrun : MakeShapeOpInvariant (l_id rl) (to_int (getLimitedValue n))
                     (l_block rl) ir (op_id shape)
                   = setOperandOf ir (op_id shape) 0 v).
    { unfold MakeShapeOpInvariant. rewrite Hfind, Hops. cbn [nth_error].
      rewrite Nat.eqb_refl. cbn [negb]. fold ir in Hget. rewrite Hget.
      reflexivity. }
    rewrite Hrun. clear Hrun Hkeep Hget.
    revert Hwf. unfold ir. rewrite Ebody. intros Hwf.
    destruct (step_set n c pre post rl h ps qs shape _ v Hwf Hk Hops Hreg Hv)
      as [Hset Hwf'].
    cbv zeta in Hset, Hwf'.
    eexists _, _, _, _, _. split; [exact Hset|]. split; [exact Hwf'|].
    split; [reflexivity|]. split; [reflexivity|]. split.
    + apply inner_ops_related;
        [exact shape_replaced_refl | exact shape_replaced_plug|].
      left. split; reflexivity.
    + intros x Hx Hid.
      exact (under_swap h ps qs shape (set_operands [v] shape) x Hx Hreg Hid).
Qed.

(** *** The walk over the [tf.Shape] operations (line 137) *)

Lemma shape_walk (n : Z) (rid : OpId) (b0 : BlockId) (ids : list OpId) :
  NoDup ids ->
  forall c pre post rl body,
    l_id rl = rid -> l_block rl = b0 ->
    well_formed n c pre post rl body ->
    (forall t, In t ids ->
       exists x, In x (flat_map walk body) /\ op_id x = t /\ op_kind x = ShapeOp) ->
    exists c1 pre1 post1 rl1 body1,
      foreach (MakeShapeOpInvariant rid (to_int (getLimitedValue n)) b0) ids
        (plug c (pre ++ fill rl body :: post))
      = Some (plug c1 (pre1 ++ fill rl1 body1 :: post1))
      /\ well_formed n c1 pre1 post1 rl1 body1
      /\ l_id rl1 = rid /\ l_block rl1 = b0
      /\ Forall2 shape_replaced body body1.
Proof.
  induction 1 as [|t ids Ht _ IH]; intros c pre post rl body Hid Hb Hwf Hrest.
  - exists c, pre, post, rl, body. cbn [foreach].
    split; [reflexivity|]. split; [exact Hwf|].
    split; [exact Hid|]. split; [exact Hb|]. apply shape_replaced_same.
  - destruct (Hrest t (or_introl eq_refl)) as (shape & Hin & <- & Hk).
    destruct (shape_step n c pre post rl body shape Hwf Hin Hk)
      as (c' & pre' & post' & rl' & body' & Hrun & Hwf' & Hid' & Hb' & HR & Hframe).
    cbv zeta in Hrun. rewrite Hid, Hb in Hrun.
    cbn [foreach]. rewrite Hrun.
    destruct (IH c' pre' post' rl' body')
      as (c1 & pre1 & post1 & rl1 & body1 & Hrun1 & Hwf1 & Hid1 & Hb1 & HR1).
    + congruence.
    + congruence.
    + exact Hwf'.
    + intros t Hin'. destruct (Hrest t (or_intror Hin')) as (x & Hx & <- & Hkx).
      destruct (Hframe x Hx) as (x' & Hx' & E1 & E2).
      * intros E. apply Ht. rewrite <- E. exact Hin'.
      * exists x'. split; [exact Hx'|]. split; [exact E1 | congruence].
    + exists c1, pre1, post1, rl1, body1.
      split; [exact Hrun1|]. split; [exact Hwf1|].
      split; [exact Hid1|]. split; [exact Hb1|].
      exact (shape_replaced_trans _ _ _ HR HR1).
Qed.

(** The identities of the [tf.Shape] operations of a sequence without shared
    identity are not shared. *)
Lemma shape_ids_NoDup (ops : list Operation) :
  NoDup (map op_id ops) ->
  NoDup (map op_id (filter (fun o => isa_ShapeOp (op_kind o)) ops)).
Proof.
  intros Hnd. induction ops as [|x ops IH]; [constructor|].
  cbn [map filter] in *. apply NoDup_cons_iff in Hnd. destruct Hnd as [Hx Hnd].
  destruct (isa_ShapeOp (op_kind x)); [|exact (IH Hnd)].
  cbn [map]. constructor; [|exact (IH Hnd)].
  intros Hin. apply Hx. apply in_map_iff in Hin. destruct Hin as (y & E & Hy).
  apply filter_In in Hy. rewrite <- E. apply in_map. tauto.
Qed.

(** The [tf.Shape] operations under a verified replicate are the ones under
    its body. *)
Lemma shape_ops_body (n : Z) (rl : Layer) (body : list Operation) :
  replicate_verified n rl ->
  shape_ops (fill rl body)
  = map op_id (filter (fun o => isa_ShapeOp (op_kind o)) (flat_map walk body)).
Proof.
  intros (Hk & H1 & H2 & H3 & H4 & _). unfold shape_ops.
  rewrite walk_fill, H1, H2, H3, H4. cbn [flat_map app filter].
  change (op_kind (fill rl body)) with (l_kind rl). rewrite Hk.
  cbn [isa_ShapeOp]. rewrite !app_nil_r. reflexivity.
Qed.

(** *** [HoistReplicateInvariantOps] on a well-formed IR *)

Lemma shape_walk_keeps_well_formed (n : Z) (c : Context) (pre post : list Operation)
    (rl : Layer) (body : list Operation) :
  well_formed n c pre post rl body ->
  exists c1 pre1 post1 rl1 body1,
    foreach (MakeShapeOpInvariant (l_id rl) (to_int (getLimitedValue n)) (l_block rl))
      (shape_ops (fill rl body)) (plug c (pre ++ fill rl body :: post))
    = Some (plug c1 (pre1 ++ fill rl1 body1 :: post1))
    /\ well_formed n c1 pre1 post1 rl1 body1
    /\ l_id rl1 = l_id rl /\ l_block rl1 = l_block rl
    /\ Forall2 shape_replaced body body1.
Proof.
  intros Hwf.
  pose proof Hwf as ([Hnd _] & _ & _ & Hrep & _).
  rewrite (shape_ops_body n rl body Hrep).
  apply shape_walk; [|reflexivity | reflexivity | exact Hwf|].
  - apply shape_ids_NoDup. exact (body_NoDup c pre post rl body Hnd).
  - intros t Hin. apply in_map_iff in Hin. destruct Hin as (x & <- & Hx).
    apply filter_In in Hx. destruct Hx as [Hx Hk].
    exists x. split; [exact Hx|]. split; [reflexivity|].
    destruct (op_kind x); try discriminate Hk; reflexivity.
Qed.

Lemma HoistReplicateInvariantOps_unfold (n : Z) (c : Context)
    (pre post : list Operation) (rl : Layer) (body : list Operation)
    (ir1 : Operation) :
  well_formed n c pre post rl body ->
  foreach (MakeShapeOpInvariant (l_id rl) (to_int (getLimitedValue n)) (l_block rl))
    (shape_ops (fill rl body)) (plug c (pre ++ fill rl body :: post)) = Some ir1 ->
  HoistReplicateInvariantOps (plug c (pre ++ fill rl body :: post)) (l_id rl)
  = hoist_invariant_ops (l_id rl) ir1.
Proof.
  intros ([Hnd _] & _ & _ & (Hk & H1 & H2 & _) & _) Hwalk.
  unfold HoistReplicateInvariantOps.
  rewrite (find_replicate_op c pre post rl body Hnd).
  change (op_kind (fill rl body)) with (l_kind rl). rewrite Hk.
  rewrite (GetBody_fill rl H1 H2 body). cbv zeta. cbn [blk_id].
  fold (shape_ops (fill rl body)). rewrite Hwalk. reflexivity.
Qed.

(** C1. [HoistReplicateInvariantOps] on a well-formed IR, in which the
    replicate, the operation of layer [rl], holds [body].  The walk over the
    [tf.Shape] operations under the replicate returns and leaves a well-formed
    IR [ir1], in which the replicate holds [body1]: the operations of [body],
    a [tf.VariableShape] standing where a [tf.Shape] was replaced.  The loop
    then relocates operations of [body1]: the function returns the IR in
    which the operations relocated stand right before the replicate, after
    what was there, in the order they had in the body, the others staying in
    the body in their order.  A terminator is not relocated.  An operation of
    the body is relocated if and only if it is not a terminator and every
    operand of every operation met by walking it is defined in a region that
    is a proper ancestor of the region of the replicate.  The regions are read
    in the IR as it is when the loop visits the operation, the operations
    relocated before it standing in front of the replicate; in terms of
    [ir1], the operand is defined in a proper ancestor of the region of the
    replicate or it is a result of an operation of the body relocated
    earlier. *)
Theorem C1_hoisting_of_invariant_ops
    (n : Z) (c : Context) (pre post : list Operation) (rl : Layer)
    (body : list Operation) :
  let ir := plug c (pre ++ fill rl body :: post) in
  well_formed n c pre post rl body ->
  exists c1 pre1 post1 rl1 body1 hoisted,
    let ir1 := plug c1 (pre1 ++ fill rl1 body1 :: post1) in
    foreach (MakeShapeOpInvariant (l_id rl) (to_int (getLimitedValue n)) (l_block rl))
      (shape_ops (fill rl body)) ir = Some ir1
    /\ well_formed n c1 pre1 post1 rl1 body1
    /\ l_id rl1 = l_id rl
    /\ Forall2 shape_replaced body body1
    /\ HoistReplicateInvariantOps ir (l_id rl)
       = Some (plug c1 (pre1 ++ hoisted
                        ++ fill rl1 (filter (fun a => negb (among hoisted a)) body1)
                        :: post1))
    /\ hoisted = filter (among hoisted) body1
    /\ (forall a, In a body1 -> isTerminator (op_kind a) = true -> ~ In a hoisted)
    /\ forall before a after,
         body1 = before ++ a :: after ->
         let current :=
           plug c1 (pre1 ++ filter (among hoisted) before
                    ++ fill rl1 (filter (fun a => negb (among hoisted a)) before
                                 ++ a :: after)
                    :: post1) in
         (In a hoisted <->
          isTerminator (op_kind a) = false
          /\ forall inner_op operand,
               In inner_op (walk a) -> In operand (op_operands inner_op) ->
               reads_invariant current (l_id rl, 0) operand)
         /\ (In a hoisted <->
             isTerminator (op_kind a) = false
             /\ forall inner_op operand,
                  In inner_op (walk a) -> In operand (op_operands inner_op) ->
                  reads_invariant ir1 (l_id rl, 0) operand
                  \/ exists h k, In h hoisted /\ In h before
                                 /\ operand = OpResult (op_id h) k).
Proof.
  intros ir Hwf.
  destruct (shape_walk_keeps_well_formed n c pre post rl body Hwf)
    as (c1 & pre1 & post1 & rl1 & body1 & Hwalk & Hwf1 & Hid & _ & HR).
  pose proof Hwf1 as (Hu & _ & _ & (_ & H1 & H2 & _) & Hterm & Hord).
  destruct (hoist_invariant_ops_reads c1 pre1 post1 rl1 body1 Hu H1 H2 Hterm Hord)
    as (hoisted & Hrun & Hfil & Hnot & Hiff).
  rewrite Hid in Hrun, Hiff.
  exists c1, pre1, post1, rl1, body1, hoisted. cbv zeta.
  split; [exact Hwalk|]. split; [exact Hwf1|]. split; [exact Hid|].
  split; [exact HR|]. split; [|split; [exact Hfil | split; [exact Hnot | exact Hiff]]].
  destruct Hwf as ([Hnd _] & _ & _ & (Hk & Hr1 & Hr2 & _) & _).
  unfold HoistReplicateInvariantOps, ir.
  rewrite (find_replicate_op c pre post rl body Hnd).
  change (op_kind (fill rl body)) with (l_kind rl). rewrite Hk.
  rewrite (GetBody_fill rl Hr1 Hr2 body). cbv zeta. cbn [blk_id].
  fold (shape_ops (fill rl body)). rewrite Hwalk. exact Hrun.
Qed.

Ltac sample_well_formed :=
  unfold well_formed; cbv zeta;
  split; [split; repeat constructor; simpl; intuition congruence|];
  split; [reflexivity|];
  split; [reflexivity|];
  split; [repeat split; reflexivity|];
  split;
    [ intros a Ha Ht; cbn in Ha;
      repeat (destruct Ha as [<- | Ha]; [try discriminate Ht; reflexivity|]);
      destruct Ha
    | intros a Ha; cbn in Ha;
      repeat (destruct Ha as [<- | Ha]; [reflexivity|]);
      destruct Ha ].

Lemma C1_hoisting_of_invariant_ops_witness :
  HoistReplicateInvariantOps Samples.func_shapes 1
  = Some (plug (AtRoot Samples.func_root)
            [set_operands [BlockArgument 0 0] Samples.shape_of_r;
             Samples.op_a;
             mkOperation 10 VariableShapeOp [BlockArgument 0 0] [Samples.T] [];
             set_operands [OpResult 10 0] Samples.op_c;
             set_operands [OpResult 10 0; OpResult 9 0] Samples.op_f;
             fill Samples.replicate3_layer [Samples.read_of_r; Samples.device_return];
             Samples.std_return])
  /\ exists c1 pre1 post1 rl1 body1 hoisted,
       HoistReplicateInvariantOps Samples.func_shapes 1
       = Some (plug c1 (pre1 ++ hoisted
                        ++ fill rl1 (filter (fun a => negb (among hoisted a)) body1)
                        :: post1))
       /\ hoisted = filter (among hoisted) body1
       /\ Forall2 shape_replaced Samples.shapes_body body1
       /\ well_formed 3 c1 pre1 post1 rl1 body1.
Proof.
  split; [reflexivity|].
  destruct (C1_hoisting_of_invariant_ops 3 (AtRoot Samples.func_root) []
              [Samples.std_return] Samples.replicate3_layer Samples.shapes_body)
    as (c1 & pre1 & post1 & rl1 & body1 & hoisted & _ & Hwf & _ & HR & Hrun & Hfil & _).
  - sample_well_formed.
  - exists c1, pre1, post1, rl1, body1, hoisted.
    split; [exact Hrun|]. split; [exact Hfil|]. split; [exact HR | exact Hwf].
Defined.

End HoistReplicateInvariantOpsFacts.

(** ** No dangling use after a pass *)

Module NoDanglingUseFacts.
Import IR IRFacts ReplicateInvariantOpHoisting ReplicateInvariantOpHoistingFacts.
Import NoDanglingFacts HoistReplicateInvariantOpsFacts.

#[local] Arguments fill : simpl never.
Unset Implicit Arguments.

(** Lines 104-110: the [tf.VariableShape] is created, the uses of the
    [tf.Shape] are rebound to it, and the [tf.Shape], left without use, is
    erased. *)
Lemma rebind_then_erase (c : Context) (pre post : list Operation)
    (shape read rep : Operation) (body : Block) (n : Z) (i j : nat)
    (first_replica : Value) (ty : MlirType) :
  let ir := plug c (pre ++ shape :: post) in
  let new_shape_op :=
    mkOperation (fresh_op_id ir) VariableShapeOp [first_replica] [ty] [] in
  let ir1 := insertBefore ir (op_id shape) new_shape_op in
  NoDup (op_ids ir) ->
  no_dangling ir = true ->
  op_operands shape = [OpResult (op_id read) j] ->
  op_results shape = [ty] ->
  op_regions shape = [] ->
  find_op ir (op_id read) = Some read ->
  op_kind read = ReadVariableOp ->
  op_operands read = [BlockArgument (blk_id body) i] ->
  find_op ir (op_id rep) = Some rep ->
  (0 <= n < 2147483648)%Z ->
  (n * Z.of_nat i < two32)%Z ->
  nth_error (op_operands rep) (Z.to_nat (n * Z.of_nat i)) = Some first_replica ->
  exists ir2 ir',
    replaceAllUsesWith ir1 (op_id shape) (fresh_op_id ir) = Some ir2
    /\ (forall k, users ir2 (OpResult (op_id shape) k) = [])
    /\ MakeShapeOpInvariant (op_id rep) (to_int (getLimitedValue n)) (blk_id body)
         ir (op_id shape) = Some ir'
    /\ no_dangling ir' = true /\ NoDup (op_ids ir')
    /\ ~ In (op_id shape) (op_ids ir')
    /\ (forall k, users ir' (OpResult (op_id shape) k) = []).
Proof.
  intros ir new_shape_op ir1 Hnd Hlive Hops Hres Hreg Hread Hrk Hro Hrep Hn Hi Hnth.
  pose proof (MakeShapeOpInvariant_read_variable c pre post shape body
                Hnd Hlive Hops Hres Hreg Hread Hrk Hro Hrep Hn Hi Hnth) as Hrun.
  fold ir in Hrun. fold new_shape_op in Hrun.
  set (ir' := map_operands (rebind_uses (op_id shape) (fresh_op_id ir) 1)
                (plug c (pre ++ new_shape_op :: post))) in *.
  pose proof (sound_MakeShapeOpInvariant _ _ _ ir ir' _ (conj Hnd Hlive) Hrun)
    as [[Hnd' Hlive'] _].
  pose proof (NoDup_with_new c pre post shape first_replica ty Hnd) as Hnd1.
  fold ir in Hnd1. fold new_shape_op in Hnd1.
  assert (E1 : ir1 = plug c (pre ++ new_shape_op :: shape :: post))
    by (apply insertBefore_plug; exact Hnd).
  assert (Hfs : find_op ir1 (op_id shape) = Some shape).
  { rewrite E1.
    change (pre ++ new_shape_op :: shape :: post)
      with (pre ++ [new_shape_op] ++ shape :: post) in *.
    rewrite app_assoc in *. apply find_op_plug. exact Hnd1. }
  assert (Hfn : find_op ir1 (fresh_op_id ir) = Some new_shape_op).
  { rewrite E1. change (fresh_op_id ir) with (op_id new_shape_op).
    apply find_op_plug. exact Hnd1. }
  set (ir2 := map_operands (rebind_uses (op_id shape) (fresh_op_id ir) 1) ir1).
  assert (Hrauw : replaceAllUsesWith ir1 (op_id shape) (fresh_op_id ir) = Some ir2).
  { unfold replaceAllUsesWith. rewrite Hfs, Hfn, Hres. reflexivity. }
  assert (Hgone : ~ In (op_id shape) (op_ids ir')).
  { unfold ir'. rewrite op_ids_map_operands. intros Hin.
    apply (Permutation_in _ (op_ids_plug_insert c pre post new_shape_op)) in Hin.
    apply in_app_or in Hin. destruct Hin as [Hin | Hin].
    - cbn in Hin. destruct Hin as [E | []].
      apply (fresh_op_id_not_in ir). rewrite E.
      apply in_map. apply (shape_in_ir c pre post shape).
    - pose proof (Permutation_NoDup (op_ids_plug_insert c pre post shape) Hnd)
        as Hnd0.
      rewrite (op_ids_leaf shape Hreg) in Hnd0. cbn [app] in Hnd0.
      apply NoDup_cons_iff in Hnd0. exact (proj1 Hnd0 Hin). }
  assert (Hnone : forall k, users ir' (OpResult (op_id shape) k) = []).
  { intros k. unfold users. apply filter_none. intros nd Hin.
    apply not_true_is_false. rewrite uses_value. intros Huse.
    pose proof (node_operand_live ir' nd _ Hlive' Hin Huse) as Hl.
    apply live_result in Hl. destruct Hl as (o & Ho & Eo & _).
    apply Hgone. rewrite <- Eo. apply in_map. exact Ho. }
  exists ir2, ir'.
  split; [exact Hrauw|].
  split; [|repeat split; assumption].
  intros k. unfold users. apply filter_none. intros nd Hin.
  apply not_true_is_false. rewrite uses_value. intros Huse.
  unfold ir2 in Hin. rewrite nodes_map_operands in Hin.
  apply in_map_iff in Hin. destruct Hin as (nd0 & <- & Hin0).
  cbn [set_operands op_operands] in Huse. unfold rebind_uses in Huse.
  apply in_map_iff in Huse. destruct Huse as (w & Ew & Hw).
  revert Ew. apply replace_result_not_old.
  - intros E. apply (fresh_op_id_not_in ir). rewrite <- E.
    apply in_map. apply (shape_in_ir c pre post shape).
  - intros k' ->.
    assert (Hl : live ir (OpResult (op_id shape) k') = true).
    { rewrite E1 in Hin0.
      apply (Permutation_in _ (nodes_plug_insert c pre (shape :: post) new_shape_op))
        in Hin0.
      apply in_app_or in Hin0. destruct Hin0 as [Hin0 | Hin0].
      - cbn in Hin0. destruct Hin0 as [<- | []]. cbn in Hw.
        destruct Hw as [E | []].
        apply (operand_live ir rep _ Hlive (proj1 (find_op_Some _ _ Hrep))).
        rewrite <- E. eapply nth_error_In. exact Hnth.
      - exact (node_operand_live ir nd0 _ Hlive Hin0 Hw). }
    apply live_result in Hl. destruct Hl as (o & Ho & Eo & Hk).
    assert (o = shape) as ->
      by (apply (unique_by_id ir _ _ Hnd Ho (shape_in_ir c pre post shape) Eo)).
    rewrite Hres in Hk. exact Hk.
Qed.

Lemma replicate_not_root (c : Context) (pre post : list Operation) (rl : Layer)
    (body : list Operation) :
  NoDup (op_ids (plug c (pre ++ fill rl body :: post))) ->
  l_id rl <> op_id (plug c (pre ++ fill rl body :: post)).
Proof.
  intros Hnd E. apply (NoDup_plug_focus c pre post (fill rl body) Hnd).
  apply in_or_app. left. change (op_id (fill rl body)) with (l_id rl).
  rewrite E. apply root_in_ctx.
Qed.

(** On a well-formed IR [HoistReplicateInvariantOps] returns, and the IR it
    returns has no dangling use. *)
Lemma HoistReplicateInvariantOps_returns (n : Z) (c : Context)
    (pre post : list Operation) (rl : Layer) (body : list Operation) :
  well_formed n c pre post rl body ->
  exists ir',
    HoistReplicateInvariantOps (plug c (pre ++ fill rl body :: post)) (l_id rl)
    = Some ir'
    /\ no_dangling ir' = true /\ NoDup (op_ids ir').
Proof.
  intros Hwf.
  destruct (shape_walk_keeps_well_formed n c pre post rl body Hwf)
    as (c1 & pre1 & post1 & rl1 & body1 & Hwalk & Hwf1 & Hid & _ & _).
  pose proof Hwf1 as (Hu & Hlive & _ & (_ & H1 & H2 & _) & Hterm & Hord).
  destruct (hoist_invariant_ops_reads c1 pre1 post1 rl1 body1 Hu H1 H2 Hterm Hord)
    as (hoisted & Hrun & _).
  rewrite (HoistReplicateInvariantOps_unfold n c pre post rl body _ Hwf Hwalk).
  rewrite <- Hid. eexists. split; [exact Hrun|].
  destruct (sound_hoist_invariant_ops (l_id rl1) _ _ (conj (proj1 Hu) Hlive)
              (replicate_not_root c1 pre1 post1 rl1 body1 (proj1 Hu)) Hrun)
    as [[Hnd' Hlive'] _].
  split; assumption.
Qed.

(** C6. No dangling use after a pass: every operand of every operation of the
    IR a pass returns names a definition that is in that IR.  (The use-list of
    a value is read off the operand lists of the operations of the IR, so it
    holds operations of the IR only.)
    - The structuring pass returns on a one-block function that ends with a
      return of enough operands, and the function it returns has no dangling
      use.
    - At lines 104-110 of the hoisting pass the uses of the [tf.Shape] are
      rebound to the new [tf.VariableShape], so that the [tf.Shape] has no
      user left when it is erased, whatever the number of its users: the
      erasure is not refused, [MakeShapeOpInvariant] returns, and the IR it
      returns has no dangling use.
    - [HoistReplicateInvariantOps] returns on a well-formed IR, and so does
      the hoisting pass on a function that holds that replicate only; the IR
      returned has no dangling use and no shared identity.
    - Whenever a pass returns, on an IR without dangling use (and, for the
      hoisting pass, without shared identity), the IR it returns has no
      dangling use; for the hoisting pass whatever the replicates visited and
      their order. *)
Theorem C6_no_dangling_uses :
  (forall func ins res body return_op,
      op_kind func = FuncOp ins res ->
      op_regions func = [mkRegion [body]] ->
      FunctionalToExecutor.back (blk_ops body) = Some return_op ->
      op_kind return_op = StdReturnOp ->
      length res <= length (op_operands return_op) ->
      no_dangling func = true ->
      exists func',
        FunctionalToExecutor.runOnFunction func = Some func'
        /\ no_dangling func' = true)
  /\ (forall c pre post shape read rep body n i j first_replica ty,
        let ir := plug c (pre ++ shape :: post) in
        let new_shape_op :=
          mkOperation (fresh_op_id ir) VariableShapeOp [first_replica] [ty] [] in
        NoDup (op_ids ir) ->
        no_dangling ir = true ->
        op_kind shape = ShapeOp ->
        op_operands shape = [OpResult (op_id read) j] ->
        op_results shape = [ty] ->
        op_regions shape = [] ->
        find_op ir (op_id read) = Some read ->
        op_kind read = ReadVariableOp ->
        op_operands read = [BlockArgument (blk_id body) i] ->
        find_op ir (op_id rep) = Some rep ->
        (0 <= n < 2147483648)%Z ->
        (n * Z.of_nat i < two32)%Z ->
        nth_error (op_operands rep) (Z.to_nat (n * Z.of_nat i)) = Some first_replica ->
        exists ir2 ir',
          replaceAllUsesWith (insertBefore ir (op_id shape) new_shape_op)
            (op_id shape) (fresh_op_id ir) = Some ir2
          /\ (forall k, users ir2 (OpResult (op_id shape) k) = [])
          /\ erase ir2 (op_id shape) = Some ir'
          /\ MakeShapeOpInvariant (op_id rep) (to_int (getLimitedValue n))
               (blk_id body) ir (op_id shape) = Some ir'
          /\ no_dangling ir' = true /\ NoDup (op_ids ir')
          /\ ~ In (op_id shape) (op_ids ir')
          /\ (forall k, users ir' (OpResult (op_id shape) k) = []))
  /\ (forall n c pre post rl body,
        well_formed n c pre post rl body ->
        exists ir',
          HoistReplicateInvariantOps (plug c (pre ++ fill rl body :: post)) (l_id rl)
          = Some ir'
          /\ no_dangling ir' = true /\ NoDup (op_ids ir'))
  /\ (forall n c pre post rl body ins res,
        let func := plug c (pre ++ fill rl body :: post) in
        well_formed n c pre post rl body ->
        op_kind func = FuncOp ins res ->
        filter (fun o => isa_ReplicateOp (op_kind o)) (walk func) = [fill rl body] ->
        exists func',
          ReplicateInvariantOpHoisting.runOnFunction func = Some func'
          /\ no_dangling func' = true /\ NoDup (op_ids func'))
  /\ (forall func func',
        no_dangling func = true ->
        FunctionalToExecutor.runOnFunction func = Some func' ->
        no_dangling func' = true)
  /\ (forall func func' replicates,
        NoDup (op_ids func) -> no_dangling func = true ->
        isa_ReplicateOp (op_kind func) = false ->
        foreach HoistReplicateInvariantOps replicates func = Some func' ->
        no_dangling func' = true /\ NoDup (op_ids func'))
  /\ (forall func func',
        NoDup (op_ids func) -> no_dangling func = true ->
        ReplicateInvariantOpHoisting.runOnFunction func = Some func' ->
        no_dangling func' = true /\ NoDup (op_ids func')).
Proof.
  split; [|split; [|split; [|split; [|split; [|split]]]]].
  - intros func ins res body return_op Hk Hr Hb Hret Hl Hlive.
    destruct (@FunctionalToExecutorFacts.runOnFunction_succeeds
                func ins res body return_op Hk Hr Hb Hret Hl) as [func' Hrun].
    exists func'. split; [exact Hrun|].
    exact (structuring_no_dangling func func' Hlive Hrun).
  - intros c pre post shape read rep body n i j first_replica ty ir new_shape_op
      Hnd Hlive _ Hops Hres Hreg Hread Hrk Hro Hrep Hn Hi Hnth.
    destruct (rebind_then_erase c pre post shape read rep body n i j
                first_replica ty Hnd Hlive Hops Hres Hreg Hread Hrk Hro Hrep Hn
                Hi Hnth)
      as (ir2 & ir' & Hrauw & Hu & Hrun & Hlive' & Hnd' & Hgone & Hnone).
    exists ir2, ir'. split; [exact Hrauw|]. split; [exact Hu|].
    split; [|repeat split; assumption].
    pose proof Hrun as H. unfold MakeShapeOpInvariant in H.
    assert (Hfind : find_op ir (op_id shape) = Some shape)
      by (apply find_op_plug; exact Hnd).
    fold ir in H. rewrite Hfind in H.
    rewrite Hops in H. cbn [nth_error] in H. rewrite Hread, Hrk in H.
    cbn [isa_ReadVariableOp negb] in H. rewrite Hro in H.
    cbn [nth_error] in H. rewrite Nat.eqb_refl in H. cbn [negb] in H.
    unfold getOperand in H. rewrite Hrep in H.
    rewrite replica_operand_index_exact in H by assumption.
    rewrite Hnth, Hres in H. cbn [nth_error] in H. cbv zeta in H.
    cbn [op_id] in H. fold ir in Hrauw. fold new_shape_op in H, Hrauw.
    rewrite Hrauw in H. exact H.
  - exact HoistReplicateInvariantOps_returns.
  - intros n c pre post rl body ins res func Hwf Hk Hone.
    destruct (HoistReplicateInvariantOps_returns n c pre post rl body Hwf)
      as (func' & Hrun & Hl & Hnd).
    exists func'. split; [|split; assumption].
    unfold ReplicateInvariantOpHoisting.runOnFunction. rewrite Hk, Hone.
    cbn [map foreach]. change (op_id (fill rl body)) with (l_id rl).
    fold func in Hrun. rewrite Hrun. reflexivity.
  - exact structuring_no_dangling.
  - intros func func' replicates Hnd Hlive Hk Hrun.
    destruct (sound_hoisting_visits func func' replicates (conj Hnd Hlive) Hk Hrun)
      as [[H1 H2] _].
    auto.
  - intros func func' Hnd Hlive Hrun.
    destruct (sound_hoisting_pass func func' (conj Hnd Hlive) Hrun) as [[H1 H2] _].
    auto.
Qed.

Lemma C6_no_dangling_uses_witness :
  (exists func',
     FunctionalToExecutor.runOnFunction Samples.func_add = Some func'
     /\ func' <> Samples.func_add
     /\ no_dangling func' = true)
  /\ users Samples.func_shapes (OpResult 8 0)
     = [strip Samples.op_c; strip Samples.op_f]
  /\ (exists ir2 ir',
        replaceAllUsesWith
          (insertBefore Samples.func_shapes 8
             (mkOperation 10 VariableShapeOp [BlockArgument 0 0] [Samples.T] []))
          8 10 = Some ir2
        /\ users ir2 (OpResult 8 0) = []
        /\ erase ir2 8 = Some ir'
        /\ MakeShapeOpInvariant 1 3 1 Samples.func_shapes 8 = Some ir'
        /\ no_dangling ir' = true
        /\ users ir' (OpResult 8 0) = [])
  /\ (exists func',
        ReplicateInvariantOpHoisting.runOnFunction Samples.func_shapes = Some func'
        /\ func' <> Samples.func_shapes
        /\ no_dangling func' = true /\ NoDup (op_ids func')).
Proof.
  destruct C6_no_dangling_uses as (H1 & H2 & _ & H4 & _).
  split; [|split; [reflexivity | split]].
  - destruct (H1 Samples.func_add _ _ _ _ eq_refl eq_refl eq_refl eq_refl
                (le_n 2) eq_refl)
      as (func' & Hrun & Hlive).
    exists func'. split; [exact Hrun|]. split; [|exact Hlive].
    intros ->. vm_compute in Hrun. discriminate Hrun.
  - destruct (H2 Samples.in_replicate3
                [Samples.shape_of_r; Samples.op_a; Samples.read_of_r]
                [Samples.op_c; Samples.op_f; Samples.device_return]
                Samples.shape_of_read Samples.read_of_r
                (fill Samples.replicate3_layer Samples.shapes_body)
                (mkBlock 1 [Samples.T] Samples.shapes_body) 3%Z 0 0
                (BlockArgument 0 0) Samples.T)
      as (ir2 & ir' & Hr & Hu & He & Hm & Hl & _ & _ & Hu');
      try reflexivity.
    + repeat constructor; simpl; intuition congruence.
    + split; [discriminate | reflexivity].
    + exists ir2, ir'.
      split; [exact Hr|]. split; [exact (Hu 0)|]. split; [exact He|].
      split; [exact Hm|]. split; [exact Hl | exact (Hu' 0)].
  - destruct (H4 3%Z (AtRoot Samples.func_root) [] [Samples.std_return]
                Samples.replicate3_layer Samples.shapes_body
                [Samples.T; Samples.T; Samples.T] [])
      as (func' & Hrun & Hlive & Hnd).
    + sample_well_formed.
    + reflexivity.
    + reflexivity.
    + exists func'. split; [exact Hrun|]. split; [|split; assumption].
      intros ->. vm_compute in Hrun. discriminate Hrun.
Defined.

End NoDanglingUseFacts.
